(** * moteus firmware: encoder sources, CAN framing, FOC helpers and PID

    A shallow embedding of the parts of the firmware that the
    specification makes checkable statements about, together with the
    proofs of those statements.

    Conventions
    - a C++ unsigned integer of width [w] is a [Z]; every place where the
      source truncates to that width is written [wrap w];
    - a [uint8_t] array is a [list Z], read with [nth] and written with
      the list insert [<[ i := b ]>];
    - peripheral state (DMA registers, the EXTI latch, the pin level) is
      threaded explicitly; what the hardware does between two calls is an
      explicit environment step. *)

From Stdlib Require Import ZArith Bool List Lia.
From Stdlib Require Import Reals Lra.
From Stdlib Require Import Floats.SpecFloat.
From stdpp Require Import base list.
Import ListNotations.

Local Open Scope Z_scope.

(** ** Fixed-width integers *)

Definition wrap (w : Z) (x : Z) : Z := x mod 2 ^ w.

Definition u8 := wrap 8.
Definition u16 := wrap 16.
Definition u32 := wrap 32.

(** [x != 0], the conversion of an integer to [bool]. *)
Definition to_bool (x : Z) : bool := negb (x =? 0).

(** ** The DMA driven UART ([Stm32G4DmaUart])

    Only the receive channel registers that the encoder drivers look at
    are kept: the DMA transfer counter [CNDTR], the enable bit, and the
    characters queued on [TDR].  [ops] records the driver calls in the
    order in which they were made. *)

Module Stm32G4DmaUart.

Inductive op :=
| WriteChar (c : Z)
| StartDmaRead (n : Z)
| FinishDmaRead.

Record t := mk {
  CNDTR : Z;
  rx_enabled : bool;
  ops : list op
}.

Definition write_char (c : Z) (u : t) : t :=
  mk (CNDTR u) (rx_enabled u) (ops u ++ [WriteChar c]).

Definition start_dma_read (n : Z) (u : t) : t :=
  mk n true (ops u ++ [StartDmaRead n]).

Definition read_bytes_remaining (u : t) : Z := CNDTR u.

Definition finish_dma_read (u : t) : t :=
  mk (CNDTR u) false (ops u ++ [FinishDmaRead]).

End Stm32G4DmaUart.

(** ** [aux::UartEncoder] *)

Module UartEncoder.

Record Config := mkConfig {
  poll_rate_us : Z;          (* int32_t *)
  cui_amt21_address : Z      (* uint8_t *)
}.

Record Status := mkStatus {
  active : bool;
  value : Z;                 (* uint32_t *)
  nonce : Z;                 (* uint8_t *)
  aksim2_err : bool;
  aksim2_warn : bool;
  aksim2_status : Z;         (* uint16_t *)
  checksum_errors : Z        (* uint16_t *)
}.

End UartEncoder.

(** What the DMA engine does when one byte arrives on the wire: while
    the channel is enabled and the counter is not exhausted the byte is
    stored at the next free position of the buffer and the counter is
    decremented; otherwise the byte is dropped. *)
Definition dma_receive (b : Z) (ub : Stm32G4DmaUart.t * list Z)
  : Stm32G4DmaUart.t * list Z :=
  let '(u, buf) := ub in
  if Stm32G4DmaUart.rx_enabled u && (0 <? Stm32G4DmaUart.CNDTR u) then
    (Stm32G4DmaUart.mk (Stm32G4DmaUart.CNDTR u - 1)
                       (Stm32G4DmaUart.rx_enabled u)
                       (Stm32G4DmaUart.ops u),
     <[ Z.to_nat (Z.of_nat (length buf) - Stm32G4DmaUart.CNDTR u) := b ]> buf)
  else (u, buf).

(** ** [CuiAmt21] *)

Module CuiAmt21.
Import UartEncoder.

Definition kResyncBytes : Z := 3.

Record t := mk {
  config_ : Config;
  uart_ : Stm32G4DmaUart.t;
  query_outstanding_ : bool;
  last_query_start_us_ : Z;  (* uint32_t *)
  buffer_ : list Z           (* uint8_t [3 + kResyncBytes] *)
}.

Definition buffer_size : Z := 3 + kResyncBytes.

Definition with_uart (s : t) (u : Stm32G4DmaUart.t) (q : bool) : t :=
  mk (config_ s) u q (last_query_start_us_ s) (buffer_ s).

(** The two lambdas of [ProcessQuery]. *)
Definition even_parity (value : Z) : bool :=
  to_bool
    (Z.lxor (Z.lxor (Z.lxor (Z.lxor (Z.lxor (Z.lxor (Z.lxor
       1
       (Z.land value 1))
       (Z.land (Z.shiftr value 2) 1))
       (Z.land (Z.shiftr value 4) 1))
       (Z.land (Z.shiftr value 6) 1))
       (Z.land (Z.shiftr value 8) 1))
       (Z.land (Z.shiftr value 10) 1))
       (Z.land (Z.shiftr value 12) 1)).

Definition odd_parity (value : Z) : bool :=
  even_parity (u16 (Z.shiftr value 1)).

(** The 16 bit word assembled from the two bytes after the echoed
    address. *)
Definition response_word (buf : list Z) : Z :=
  u16 (Z.lor (nth 1 buf 0) (Z.shiftl (nth 2 buf 0) 8)).

Definition ProcessQuery (s : t) (status : Status) : t * Status :=
  if kResyncBytes <? Stm32G4DmaUart.read_bytes_remaining (uart_ s) then
    (s, status)
  else if Stm32G4DmaUart.read_bytes_remaining (uart_ s) =? 0 then
    (with_uart s (Stm32G4DmaUart.finish_dma_read (uart_ s)) false, status)
  else if negb (nth 0 (buffer_ s) 0 =? cui_amt21_address (config_ s)) then
    (s, status)
  else
    let s' := with_uart s (Stm32G4DmaUart.finish_dma_read (uart_ s)) false in
    let value := response_word (buffer_ s) in
    let measured_even_parity := even_parity value in
    let measured_odd_parity := odd_parity value in
    let received_odd_parity := to_bool (Z.land value 0x8000) in
    let received_even_parity := to_bool (Z.land value 0x4000) in
    if negb (Bool.eqb received_odd_parity measured_odd_parity)
       || negb (Bool.eqb received_even_parity measured_even_parity)
    then
      (s', mkStatus (active status) (UartEncoder.value status) (nonce status)
                    (aksim2_err status) (aksim2_warn status)
                    (aksim2_status status)
                    (u16 (checksum_errors status + 1)))
    else
      (s', mkStatus true (u32 (Z.land value 0x3fff)) (u8 (nonce status + 1))
                    (aksim2_err status) (aksim2_warn status)
                    (aksim2_status status)
                    (checksum_errors status)).

Definition StartRead (s : t) : t :=
  with_uart s (Stm32G4DmaUart.start_dma_read buffer_size (uart_ s))
            (query_outstanding_ s).

Definition ISR_Update (s : t) (status : Status) (now_us : Z) : t * Status :=
  let delta_us := u32 (now_us - last_query_start_us_ s) in
  let '(s1, status1) :=
    if query_outstanding_ s then
      if u32 (2 * poll_rate_us (config_ s)) <? delta_us then
        (with_uart s (Stm32G4DmaUart.finish_dma_read (uart_ s)) false, status)
      else ProcessQuery s status
    else (s, status) in
  if query_outstanding_ s1 then (s1, status1)
  else if delta_us <? u32 (poll_rate_us (config_ s1)) then (s1, status1)
  else
    let s2 := mk (config_ s1)
                 (Stm32G4DmaUart.write_char (cui_amt21_address (config_ s1))
                                            (uart_ s1))
                 true now_us (buffer_ s1) in
    (StartRead s2, status1).

End CuiAmt21.

(** ** [Aksim2] *)

Module Aksim2.
Import UartEncoder.

Definition kResyncBytes : Z := 3.

(** The query character, and the marker that opens a detailed reply:
    the ASCII code of the letter d. *)
Definition marker : Z := 100.

Definition buffer_size : Z := 6 + kResyncBytes.

Record t := mk {
  config_ : Config;
  uart_ : Stm32G4DmaUart.t;
  query_outstanding_ : bool;
  last_query_start_us_ : Z;  (* uint32_t *)
  buffer_ : list Z           (* uint8_t [6 + kResyncBytes] *)
}.

Definition with_uart (s : t) (u : Stm32G4DmaUart.t) (q : bool) : t :=
  mk (config_ s) u q (last_query_start_us_ s) (buffer_ s).

(** The three position bytes as one 24 bit word. *)
Definition position_word (buf : list Z) : Z :=
  Z.lor (Z.lor (Z.shiftl (nth 1 buf 0) 16) (Z.shiftl (nth 2 buf 0) 8))
        (Z.shiftl (nth 3 buf 0) 0).

Definition ProcessQuery (s : t) (status : Status) : t * Status :=
  if kResyncBytes <? Stm32G4DmaUart.read_bytes_remaining (uart_ s) then
    (s, status)
  else if Stm32G4DmaUart.read_bytes_remaining (uart_ s) =? 0 then
    (with_uart s (Stm32G4DmaUart.finish_dma_read (uart_ s)) false, status)
  else if negb (nth 0 (buffer_ s) 0 =? marker) then
    (s, status)
  else
    let s' := with_uart s (Stm32G4DmaUart.finish_dma_read (uart_ s)) false in
    (s', mkStatus true
                  (u32 (Z.shiftr (position_word (buffer_ s)) 2))
                  (u8 (nonce status + 1))
                  (to_bool (Z.land (nth 3 (buffer_ s) 0) 0x01))
                  (to_bool (Z.land (nth 3 (buffer_ s) 0) 0x02))
                  (u16 (Z.lor (Z.shiftl (nth 4 (buffer_ s) 0) 8)
                              (Z.shiftl (nth 5 (buffer_ s) 0) 0)))
                  (checksum_errors status)).

Definition StartRead (s : t) : t :=
  with_uart s (Stm32G4DmaUart.start_dma_read buffer_size (uart_ s))
            (query_outstanding_ s).

Definition ISR_Update (s : t) (status : Status) (now_us : Z) : t * Status :=
  let delta_us := u32 (now_us - last_query_start_us_ s) in
  let '(s1, status1) :=
    if query_outstanding_ s then
      if u32 (2 * poll_rate_us (config_ s)) <? delta_us then
        (with_uart s (Stm32G4DmaUart.finish_dma_read (uart_ s)) false, status)
      else ProcessQuery s status
    else (s, status) in
  if query_outstanding_ s1 then (s1, status1)
  else if delta_us <? u32 (poll_rate_us (config_ s1)) then (s1, status1)
  else
    let s2 := mk (config_ s1)
                 (Stm32G4DmaUart.write_char marker (uart_ s1))
                 true now_us (buffer_ s1) in
    (StartRead s2, status1).

(** The bytes of one reply arriving between two updates. *)
Definition receive (bytes : list Z) (s : t) : t :=
  let '(u, buf) :=
    fold_left (fun ub b => dma_receive b ub) bytes (uart_ s, buffer_ s) in
  mk (config_ s) u (query_outstanding_ s) (last_query_start_us_ s) buf.

End Aksim2.

(** ** [FDCan] and [FDCanMicroServer] *)

Module FDCan.

Inductive Override := kDefault | kRequire | kDisable.

Record SendOptions := mkSendOptions {
  bitrate_switch : Override;
  fdcan_frame : Override;
  remote_frame : Override;
  extended_id : Override
}.

Record frame := mkFrame {
  dest_id : Z;
  data : list Z;
  options : SendOptions
}.

(** The controller is seen through the frames handed to [Send]. *)
Definition t := list frame.

Definition Send (dest_id : Z) (data : list Z) (o : SendOptions) (can : t) : t :=
  can ++ [mkFrame dest_id data o].

End FDCan.

Module FDCanMicroServer.

Definition kBrsFlag : Z := 0x01.
Definition kFdcanFlag : Z := 0x02.

Record Header := mkHeader {
  source : Z;
  destination : Z;
  size : Z;
  flags : Z
}.

Record t := mk {
  fdcan_ : FDCan.t;
  buf_ : list Z;             (* char [64] *)
  can_prefix_ : Z            (* uint32_t *)
}.

Definition RoundUpDlc (value : Z) : Z :=
  if value =? 0 then 0
  else if value =? 1 then 1
  else if value =? 2 then 2
  else if value =? 3 then 3
  else if value =? 4 then 4
  else if value =? 5 then 5
  else if value =? 6 then 6
  else if value =? 7 then 7
  else if value =? 8 then 8
  else if value <=? 12 then 12
  else if value <=? 16 then 16
  else if value <=? 20 then 20
  else if value <=? 24 then 24
  else if value <=? 32 then 32
  else if value <=? 48 then 48
  else if value <=? 64 then 64
  else 0.

(** [memcpy (dst, src, length src)], for a source that fits. *)
Definition memcpy (dst src : list Z) : list Z :=
  src ++ drop (length src) dst.

(** [for (i = from; i < to; i++) buf[i] = 0x50;] *)
Definition pad_loop (from to : nat) (buf : list Z) : list Z :=
  fold_left (fun b i => <[ i := 0x50 ]> b) (seq from (to - from)) buf.

(** [AsyncWrite] returns the server and the size given to the
    callback. *)
Definition AsyncWrite (s : t) (header : Header) (data : list Z)
           (query_header : Header) : t * Z :=
  let data_size := Z.of_nat (length data) in
  let actual_dlc := RoundUpDlc data_size in
  let id :=
    u32 (Z.lor (Z.lor (Z.shiftl (Z.land (source header) 0xff) 8)
                      (Z.land (destination header) 0xff))
               (Z.shiftl (can_prefix_ s) 16)) in
  let send_options :=
    FDCan.mkSendOptions
      (if to_bool (Z.land (flags query_header) kBrsFlag)
       then FDCan.kRequire else FDCan.kDisable)
      (if (Z.land (flags query_header) kFdcanFlag =? 0) && (data_size <=? 8)
       then FDCan.kDisable else FDCan.kRequire)
      FDCan.kDefault FDCan.kDefault in
  if actual_dlc =? data_size then
    (mk (FDCan.Send id data send_options (fdcan_ s)) (buf_ s) (can_prefix_ s),
     data_size)
  else
    let buf1 := memcpy (buf_ s) data in
    let buf2 := pad_loop (length data) (Z.to_nat actual_dlc) buf1 in
    (mk (FDCan.Send id (take (Z.to_nat actual_dlc) buf2) send_options (fdcan_ s))
        buf2 (can_prefix_ s),
     data_size).

(** The valid CAN-FD payload lengths. *)
Definition dlc_lengths : list Z :=
  [0; 1; 2; 3; 4; 5; 6; 7; 8; 12; 16; 20; 24; 32; 48; 64].

End FDCanMicroServer.

(** ** [Stm32Index] *)

Module Index.
Record Status := mkStatus {
  active : bool;
  raw : bool;
  value : bool
}.
End Index.

Inductive AuxError :=
| kNone | kSpiPinError | kNotConfigured | kUnsupported | kI2cPinError
| kHallPinError | kQuadPinError | kIndexPinError | kAdcPinError
| kSineCosinePinError | kUartPinError.

Definition AuxError_eqb (a b : AuxError) : bool :=
  match a, b with
  | kNone, kNone | kSpiPinError, kSpiPinError
  | kNotConfigured, kNotConfigured | kUnsupported, kUnsupported
  | kI2cPinError, kI2cPinError | kHallPinError, kHallPinError
  | kQuadPinError, kQuadPinError | kIndexPinError, kIndexPinError
  | kAdcPinError, kAdcPinError | kSineCosinePinError, kSineCosinePinError
  | kUartPinError, kUartPinError => true
  | _, _ => false
  end.

Module Stm32Index.
Import Index.

Record t := mk {
  error_ : AuxError;
  observed_ : bool           (* std::atomic<bool> *)
}.

(** [pin] is what [index_isr_->read()] returns at the time of the
    call. *)
Definition ISR_Update (s : t) (status : Status) (pin : bool) : t * Status :=
  if negb (AuxError_eqb (error_ s) kNone) then (s, status)
  else
    let old_raw := raw status in
    let observed := observed_ s in
    let s' := mk (error_ s) false in
    let raw' := observed || pin in
    (s', mkStatus true raw' (raw' && negb old_raw)).

Definition ISR_Callback (s : t) (pin : bool) : t :=
  if pin then mk (error_ s) true else s.

(** What happens between two control cycles: the EXTI interrupt fires
    some number of times, each time seeing a pin level. *)
Definition interrupts (pins : list bool) (s : t) : t :=
  fold_left ISR_Callback pins s.

End Stm32Index.

(** ** [AS5047] *)

Module AS5047.

(** [reading] is the 16 bit word that the SPI transfer returns. *)
Definition Sample (reading : Z) : Z :=
  u16 (Z.shiftl (Z.land reading 0x3fff) 2).

Definition FinishSample (reading : Z) : Z :=
  u16 (Z.land reading 0x3fff).

End AS5047.

(** ** Notions used to state the properties *)

(** The AMT21 check bits: the complement of the exclusive or of the data
    bits at the given positions of the word. *)
Definition data_parity (w : Z) (positions : list Z) : bool :=
  negb (fold_right xorb false (map (Z.testbit w) positions)).

Definition even_positions : list Z := [0; 2; 4; 6; 8; 10; 12].
Definition odd_positions : list Z := [1; 3; 5; 7; 9; 11; 13].

(** Both received check bits of the word agree with the data bits. *)
Definition parity_ok (w : Z) : bool :=
  Bool.eqb (Z.testbit w 15) (data_parity w odd_positions)
  && Bool.eqb (Z.testbit w 14) (data_parity w even_positions).

(** A well-formed [uint8_t]. *)
Definition byte_range (b : Z) : Prop := 0 <= b < 256.

(** ** Sample inputs *)

Definition aksim2_sample : Aksim2.t :=
  Aksim2.mk (UartEncoder.mkConfig 100 0x54)
            (Stm32G4DmaUart.mk 3 true [])
            true 0
            [100; 0; 0; 4; 0xab; 0xcd; 0; 0; 0].

Definition status_zero : UartEncoder.Status :=
  UartEncoder.mkStatus false 0 0 false false 0 0.


Definition cui_sample : CuiAmt21.t :=
  CuiAmt21.mk (UartEncoder.mkConfig 100 0x54)
              (Stm32G4DmaUart.mk 3 true [])
              true 0
              [0x54; 0x01; 0x80; 0; 0; 0].

Definition status_active : UartEncoder.Status :=
  UartEncoder.mkStatus true 5 7 false false 0 0.

Definition index_ok : Stm32Index.t := Stm32Index.mk kNone false.
Definition index_failed : Stm32Index.t := Stm32Index.mk kIndexPinError false.
Definition index_status_low : Index.Status := Index.mkStatus true false false.

(** ** Single precision arithmetic

    A C++ [float] is an IEEE 754 binary32 value, here a [spec_float]
    with 24 bits of precision and exponents up to 128; the arithmetic
    operators are the correctly rounded (to nearest, ties to even)
    operations on that format.  All NaNs are one value. *)

Module F32.

Definition prec : Z := 24.
Definition emax : Z := 128.

Definition float := spec_float.

(** The values that are binary32 numbers: the mantissa of a finite value
    is in canonical form. *)
Definition valid (x : float) : Prop := valid_binary prec emax x = true.

Definition add : float -> float -> float := SFadd prec emax.
Definition sub : float -> float -> float := SFsub prec emax.
Definition mul : float -> float -> float := SFmul prec emax.
Definition div : float -> float -> float := SFdiv prec emax.
Definition neg : float -> float := SFopp.
Definition abs : float -> float := SFabs.

Definition lt : float -> float -> bool := SFltb.
Definition eqb : float -> float -> bool := SFeqb.

(** [static_cast<float>] of an integer. *)
Definition of_int (n : Z) : float := binary_normalize prec emax n 0 false.

Definition zero : float := S754_zero false.
Definition one : float := S754_finite false 8388608 (-23).

Definition isfinite (x : float) : bool :=
  match x with
  | S754_zero _ | S754_finite _ _ _ => true
  | S754_infinity _ | S754_nan => false
  end.

(** The sign bit.  The sign of a NaN is not represented. *)
Definition signbit (x : float) : bool :=
  match x with
  | S754_zero s | S754_infinity s | S754_finite s _ _ => s
  | S754_nan => false
  end.

Definition copysign (x y : float) : float :=
  match x with
  | S754_zero _ => S754_zero (signbit y)
  | S754_infinity _ => S754_infinity (signbit y)
  | S754_finite _ m e => S754_finite (signbit y) m e
  | S754_nan => S754_nan
  end.

(** [std::max (a, b)] is [(a < b) ? b : a]. *)
Definition max (a b : float) : float := if lt a b then b else a.

End F32.

(** ** [TorqueModel] *)

Module TorqueModel.
Import F32.

Record t := mk {
  torque_constant_ : float;
  current_cutoff_A_ : float;
  current_scale_ : float;
  torque_scale_ : float
}.

Section Approximations.

(** [log2f_approx] and [pow2f_approx] come from [fw/math.h], which is
    not part of the sources at hand; they are parameters here. *)
Variable log2f_approx : float -> float.
Variable pow2f_approx : float -> float.

Definition current_to_torque (m : t) (current : float) : float :=
  let rotation_extra :=
    mul (torque_scale_ m)
        (log2f_approx
           (add one
                (mul (max zero (sub (abs current) (current_cutoff_A_ m)))
                     (current_scale_ m)))) in
  if lt (abs current) (current_cutoff_A_ m)
  then mul current (torque_constant_ m)
  else copysign (add (mul (current_cutoff_A_ m) (torque_constant_ m))
                     rotation_extra)
                current.

Definition torque_to_current (m : t) (torque : float) : float :=
  let a :=
    div (sub (abs torque) (mul (current_cutoff_A_ m) (torque_constant_ m)))
        (torque_scale_ m) in
  let rotation_extra := div (sub (pow2f_approx a) one) (current_scale_ m) in
  let cutoff_torque := mul (current_cutoff_A_ m) (torque_constant_ m) in
  if lt (abs torque) cutoff_torque
  then div torque (torque_constant_ m)
  else copysign (add (current_cutoff_A_ m) rotation_extra) torque.

End Approximations.

End TorqueModel.

(** ** The transforms of [fw/foc.h] *)

Module Foc.
Import F32.

Definition two : float := S754_finite false 8388608 (-22).
Definition three : float := S754_finite false 12582912 (-22).

(** A helper to cache the result of sin and cos on a given quantity. *)
Record SinCos := mkSinCos {
  s : float;
  c : float
}.

Section Constants.

(** [kSqrt3] is a constant of [fw/math.h], which is not part of the
    sources at hand. *)
Variable kSqrt3 : float.

(** [ClarkTransform (a, b, c)], as the pair [(x, y)]. *)
Definition ClarkTransform (a b c : float) : float * float :=
  (mul (sub (sub (mul two a) b) c) (div one three),
   mul (sub b c) (div one kSqrt3)).

(** [InverseClarkTransform (x, y)], as the triple [(a, b, c)]. *)
Definition InverseClarkTransform (x y : float) : float * float * float :=
  (x,
   div (add (neg x) (mul kSqrt3 y)) two,
   div (sub (neg x) (mul kSqrt3 y)) two).

End Constants.

(** [ParkTransform (sc, x, y)], as the pair [(d, q)]. *)
Definition ParkTransform (sc : SinCos) (x y : float) : float * float :=
  (add (mul (c sc) x) (mul (s sc) y),
   sub (mul (c sc) y) (mul (s sc) x)).

(** [InverseParkTransform (sc, d, q)], as the pair [(x, y)]. *)
Definition InverseParkTransform (sc : SinCos) (d q : float) : float * float :=
  (sub (mul (c sc) d) (mul (s sc) q),
   add (mul (c sc) q) (mul (s sc) d)).

End Foc.

(** ** The two [PID] classes

    [Config] and [State] are declared with the same fields and the same
    defaults in [fw/simple_pid.h] and in the second definition of the
    class; they are given once. *)

Module PidTypes.
Import F32.

Record Config := mkConfig {
  kp : float;
  ki : float;
  kd : float;
  iratelimit : float;
  ilimit : float;
  max_desired_rate : float;
  sign : Z                     (* int8_t *)
}.

Record State := mkState {
  integral : float;
  desired : float;
  error : float;
  error_rate : float;
  p : float;
  d : float;
  pd : float;
  command : float
}.

End PidTypes.

(** The class of [fw/simple_pid.h]. *)

Module SimplePid.
Import F32 PidTypes.

Record ApplyOptions := mkApplyOptions {
  kp_scale : float;
  kd_scale : float
}.

Definition default_options : ApplyOptions := mkApplyOptions one one.

Section WithLimit.

(** [mjlib::base::Limit], from the mjlib library. *)
Variable Limit : float -> float -> float -> float.

Definition Apply (config_ : Config) (state_ : State)
           (measured input_desired measured_rate input_desired_rate : float)
           (rate_hz : Z) (apply_options : ApplyOptions) : float * State :=
  let '(desired, desired_rate) :=
    if negb (eqb (max_desired_rate config_) zero)
       && isfinite (PidTypes.desired state_)
    then
      let max_step := div (max_desired_rate config_) (of_int rate_hz) in
      let proposed_step := sub input_desired (PidTypes.desired state_) in
      let actual_step := Limit proposed_step (neg max_step) max_step in
      (add (PidTypes.desired state_) actual_step,
       Limit input_desired_rate (neg (max_desired_rate config_))
             (max_desired_rate config_))
    else (input_desired, input_desired_rate) in
  let state_desired := desired in
  let state_error := sub measured desired in
  let state_error_rate := sub measured_rate desired_rate in
  let max_i_update := div (iratelimit config_) (of_int rate_hz) in
  let to_update_i := div (mul state_error (ki config_)) (of_int rate_hz) in
  let to_update_i :=
    if lt zero max_i_update then
      if lt max_i_update to_update_i then max_i_update
      else if lt to_update_i (neg max_i_update) then neg max_i_update
      else to_update_i
    else to_update_i in
  let state_integral := add (integral state_) to_update_i in
  let state_integral :=
    if lt (ilimit config_) state_integral then ilimit config_
    else if lt state_integral (neg (ilimit config_)) then neg (ilimit config_)
    else state_integral in
  let state_p := mul (mul (kp_scale apply_options) (kp config_)) state_error in
  let state_d :=
    mul (mul (kd_scale apply_options) (kd config_)) state_error_rate in
  let state_pd := add state_p state_d in
  let state_command :=
    mul (of_int (sign config_)) (add state_pd state_integral) in
  (state_command,
   mkState state_integral state_desired state_error state_error_rate
           state_p state_d state_pd state_command).

End WithLimit.

End SimplePid.

(** The second class, whose options have [ki_scale] as well. *)

Module PID.
Import F32 PidTypes.

Record ApplyOptions := mkApplyOptions {
  kp_scale : float;
  kd_scale : float;
  ki_scale : float
}.

Definition default_options : ApplyOptions := mkApplyOptions one one one.

Section WithLimit.

Variable Limit : float -> float -> float -> float.

Definition Apply (config_ : Config) (state_ : State)
           (measured input_desired measured_rate input_desired_rate : float)
           (rate_hz : Z) (apply_options : ApplyOptions) : float * State :=
  let '(desired, desired_rate) :=
    if negb (eqb (max_desired_rate config_) zero)
       && isfinite (PidTypes.desired state_)
    then
      let max_step := div (max_desired_rate config_) (of_int rate_hz) in
      let proposed_step := sub input_desired (PidTypes.desired state_) in
      let actual_step := Limit proposed_step (neg max_step) max_step in
      (add (PidTypes.desired state_) actual_step,
       Limit input_desired_rate (neg (max_desired_rate config_))
             (max_desired_rate config_))
    else (input_desired, input_desired_rate) in
  let state_desired := desired in
  let state_error := sub measured desired in
  let state_error_rate := sub measured_rate desired_rate in
  let max_i_update := div (iratelimit config_) (of_int rate_hz) in
  let to_update_i := div (mul state_error (ki config_)) (of_int rate_hz) in
  let to_update_i :=
    if lt zero max_i_update then
      if lt max_i_update to_update_i then max_i_update
      else if lt to_update_i (neg max_i_update) then neg max_i_update
      else to_update_i
    else to_update_i in
  let state_integral := add (integral state_) to_update_i in
  let state_integral :=
    if lt (ilimit config_) state_integral then ilimit config_
    else if lt state_integral (neg (ilimit config_)) then neg (ilimit config_)
    else state_integral in
  let state_p := mul (mul (kp_scale apply_options) (kp config_)) state_error in
  let state_d :=
    mul (mul (kd_scale apply_options) (kd config_)) state_error_rate in
  let state_pd := add state_p state_d in
  let state_command :=
    mul (of_int (sign config_))
        (add state_pd (mul (ki_scale apply_options) state_integral)) in
  (state_command,
   mkState state_integral state_desired state_error state_error_rate
           state_p state_d state_pd state_command).

End WithLimit.

End PID.

(** ** Notions used to state the properties of the arithmetic *)

(** A value that is not a NaN and whose sign bit is clear. *)
Definition nonneg_float (x : F32.float) : Prop :=
  match x with
  | S754_zero s | S754_infinity s | S754_finite s _ _ => s = false
  | S754_nan => False
  end.

(** [std::isnan]. *)
Definition is_nan (x : F32.float) : bool :=
  match x with
  | S754_nan => true
  | _ => false
  end.

(** A finite binary32 number. *)
Definition finite_float (x : F32.float) : Prop :=
  F32.valid x /\ F32.isfinite x = true.

(** The binary32 value with sign [sx], mantissa [m] and exponent [e],
    for a mantissa of at most 24 bits or the 25 bit number [2 ^ 24]
    that rounding up can produce. *)
Definition rounded (sx : bool) (m e : Z) : F32.float :=
  match m with
  | Z0 => S754_zero sx
  | Zpos q =>
      if Z.pos q <? 2 ^ 24
      then if e <=? 104 then S754_finite sx q e else S754_infinity sx
      else if e + 1 <=? 104 then S754_finite sx 8388608 (e + 1)
           else S754_infinity sx
  | Zneg _ => S754_nan
  end.

(** *** The real number a binary32 value stands for *)

Definition bpow (e : Z) : R := powerRZ 2 e.

Definition sign_factor (s : bool) : R := if s then (-1)%R else 1%R.

Definition B2R (x : F32.float) : R :=
  match x with
  | S754_finite s m e => (sign_factor s * IZR (Z.pos m) * bpow e)%R
  | _ => 0%R
  end.

(** One unit in the last place of a number between 1 and 2, which bounds
    the relative error of one rounding, and the spacing of the subnormal
    numbers, which bounds its absolute error near zero. *)
Definition rel_ulp : R := bpow (-23).
Definition eta : R := bpow (-149).

(** [r] is a finite binary32 number next to the real number [v]: what an
    operation whose exact result is [v] returns. *)
Definition rounds_to (v : R) (r : F32.float) : Prop :=
  finite_float r /\ (Rabs (B2R r - v) <= rel_ulp * Rabs v + eta)%R.

(** [x] is a finite binary32 number within [err] of the real number
    [v]. *)
Definition approx (x : F32.float) (v err : R) : Prop :=
  finite_float x /\ (Rabs (B2R x - v) <= err)%R.

(** ** Sample values of the arithmetic *)

Definition torque_model_sample : TorqueModel.t :=
  TorqueModel.mk F32.one (F32.of_int 10) F32.one F32.one.

(** The torque that the specification states for a current: the linear
    law below the cutoff and otherwise the logarithmic law, taken at
    [|i| - cutoff] as it is, with the sign of the current. *)
Definition torque_formula (log2f_approx : F32.float -> F32.float)
           (m : TorqueModel.t) (current : F32.float) : F32.float :=
  if F32.lt (F32.abs current) (TorqueModel.current_cutoff_A_ m)
  then F32.mul current (TorqueModel.torque_constant_ m)
  else F32.copysign
         (F32.add (F32.mul (TorqueModel.current_cutoff_A_ m)
                           (TorqueModel.torque_constant_ m))
                  (F32.mul (TorqueModel.torque_scale_ m)
                     (log2f_approx
                        (F32.add F32.one
                           (F32.mul (F32.sub (F32.abs current)
                                             (TorqueModel.current_cutoff_A_ m))
                                    (TorqueModel.current_scale_ m))))))
         current.

Definition limit_sample (a lo hi : F32.float) : F32.float :=
  if F32.lt a lo then lo else if F32.lt hi a then hi else a.

Definition pid_config_sample : PidTypes.Config :=
  PidTypes.mkConfig (F32.of_int 4) (F32.of_int 2) F32.one
                    (F32.of_int (-1)) (F32.of_int 10) F32.zero 1.

Definition pid_state_sample : PidTypes.State :=
  PidTypes.mkState F32.one S754_nan F32.zero F32.zero
                   F32.zero F32.zero F32.zero F32.zero.

(** The binary32 number next to the square root of three, and a number
    a little above 128. *)
Definition kSqrt3_sample : F32.float := S754_finite false 14529495 (-23).
Definition x_128_sample : F32.float := S754_finite false 8388611 (-16).

Definition sincos_zero_angle : Foc.SinCos := Foc.mkSinCos F32.zero F32.one.
(** * Further parts of the firmware

    The definitions below embed code that the statements above do not
    reach, and the notions used to state its properties. *)

(** ** Notions for the round trip of [TorqueModel] *)

Local Open Scope R_scope.

(** The base two logarithm and exponential of the real numbers, which
    [log2f_approx] and [pow2f_approx] stand for. *)
Definition log2 (x : R) : R := ln x / ln 2.
Definition pow2 (x : R) : R := Rpower 2 x.

(** The argument that [current_to_torque] hands to [log2f_approx], and
    the value [a] that [torque_to_current] hands to [pow2f_approx]. *)
Definition log2f_argument (m : TorqueModel.t) (current : F32.float) : F32.float :=
  F32.add F32.one
    (F32.mul (F32.max F32.zero
                (F32.sub (F32.abs current) (TorqueModel.current_cutoff_A_ m)))
             (TorqueModel.current_scale_ m)).

Definition pow2f_argument (m : TorqueModel.t) (torque : F32.float) : F32.float :=
  F32.div (F32.sub (F32.abs torque)
                   (F32.mul (TorqueModel.current_cutoff_A_ m)
                            (TorqueModel.torque_constant_ m)))
          (TorqueModel.torque_scale_ m).

(** A parameter of the model that is a finite number between [2 ^ -20]
    and [2 ^ 20]. *)
Definition in_range (x : F32.float) : Prop :=
  finite_float x /\ bpow (-20) <= B2R x <= bpow 20.

Definition scaled_model (m : TorqueModel.t) : Prop :=
  in_range (TorqueModel.torque_constant_ m)
  /\ in_range (TorqueModel.current_cutoff_A_ m)
  /\ in_range (TorqueModel.current_scale_ m)
  /\ in_range (TorqueModel.torque_scale_ m).

(** How much an error of the two approximations is amplified on the way
    back to a current, and the error that is amplified: that of the
    approximations and that of the roundings. *)
Definition amplification (m : TorqueModel.t) : R :=
  let K := B2R (TorqueModel.torque_constant_ m) in
  let c := B2R (TorqueModel.current_cutoff_A_ m) in
  let cs := B2R (TorqueModel.current_scale_ m) in
  let ts := B2R (TorqueModel.torque_scale_ m) in
  1 + / (c * cs) + ts / (c * K).

Definition error_budget (m : TorqueModel.t) (eL eP : R) : R :=
  let K := B2R (TorqueModel.torque_constant_ m) in
  let c := B2R (TorqueModel.current_cutoff_A_ m) in
  let ts := B2R (TorqueModel.torque_scale_ m) in
  eL + eP + bpow (-15) * (1 + c * K / ts).

(** [f x] is a finite number within [err] of the logarithm of [x];
    [f a] is a finite number within the relative error [err] of the
    exponential of [a]. *)
Definition approximates_log2 (err : R) (f : F32.float -> F32.float)
           (x : F32.float) : Prop :=
  finite_float (f x) /\ Rabs (B2R (f x) - log2 (B2R x)) <= err.

Definition approximates_pow2 (err : R) (f : F32.float -> F32.float)
           (a : F32.float) : Prop :=
  finite_float (f a) /\ Rabs (B2R (f a) - pow2 (B2R a)) <= err * pow2 (B2R a).

Definition current_11 : F32.float := F32.of_int 11.

Local Close Scope R_scope.

(** ** Notions for the PID controller *)

(** [x] is a finite number of magnitude at most [limit]. *)
Definition within_limit (x limit : F32.float) : Prop :=
  finite_float x /\ (- B2R limit <= B2R x <= B2R limit)%R.

(** [PID::State::Clear], which leaves the same state as the default
    member initialisers: all zero but [desired], a quiet NaN. *)
Definition Clear (state_ : PidTypes.State) : PidTypes.State :=
  PidTypes.mkState F32.zero S754_nan F32.zero F32.zero
                   F32.zero F32.zero F32.zero F32.zero.

(** ** [DqTransform] and [InverseDqTransform] of [fw/foc.h] *)

Module FocDq.
Import F32.

(** [0.5f]. *)
Definition half : float := S754_finite false 8388608 (-24).

Section Constants.

(** [kSqrt3_4] is a constant of [fw/math.h], which is not part of the
    sources at hand. *)
Variable kSqrt3_4 : float.

(** [DqTransform (sc, a, b, c)], as the pair [(d, q)]. *)
Definition DqTransform (sc : Foc.SinCos) (a b c : float) : float * float :=
  (mul (div Foc.two Foc.three)
       (add (add (mul a (Foc.c sc))
                 (mul (sub (mul kSqrt3_4 (Foc.s sc)) (mul half (Foc.c sc))) b))
            (mul (sub (mul (neg kSqrt3_4) (Foc.s sc)) (mul half (Foc.c sc)))
                 c)),
   mul (div Foc.two Foc.three)
       (sub (sub (mul (neg (Foc.s sc)) a)
                 (mul (sub (mul (neg kSqrt3_4) (Foc.c sc))
                           (mul half (Foc.s sc))) b))
            (mul (sub (mul kSqrt3_4 (Foc.c sc)) (mul half (Foc.s sc))) c))).

(** [InverseDqTransform (sc, d, q)], as the triple [(a, b, c)]. *)
Definition InverseDqTransform (sc : Foc.SinCos) (d q : float)
  : float * float * float :=
  (sub (mul (Foc.c sc) d) (mul (Foc.s sc) q),
   sub (mul (sub (mul kSqrt3_4 (Foc.s sc)) (mul half (Foc.c sc))) d)
       (mul (sub (mul (neg kSqrt3_4) (Foc.c sc)) (mul half (Foc.s sc))) q),
   sub (mul (sub (mul (neg kSqrt3_4) (Foc.s sc)) (mul half (Foc.c sc))) d)
       (mul (sub (mul kSqrt3_4 (Foc.c sc)) (mul half (Foc.s sc))) q)).

End Constants.

End FocDq.

(** [x] is a finite number within [err] of the real number [v], whose
    magnitude is at most [bound]. *)
Definition approx_in (x : F32.float) (v err bound : R) : Prop :=
  approx x v err /\ (Rabs v <= bound)%R.

(** The binary32 number next to half the square root of three. *)
Definition kSqrt3_4_sample : F32.float := S754_finite false 14529495 (-24).

(** ** Samples for the round trip of [TorqueModel] *)



(** ** [Stm32Quadrature], the software quadrature decoder *)

Module Quadrature.

Record Config := mkConfig {
  enabled : bool;
  cpr : Z                    (* uint32_t *)
}.

Record Status := mkStatus {
  active : bool;
  pins : Z;                  (* uint8_t *)
  value : Z;                 (* uint32_t *)
  error : Z                  (* uint16_t *)
}.

End Quadrature.

Module Stm32Quadrature.
Import Quadrature.

(** The two tables of [ISR_Callback], indexed by the old pin state in
    bits 3 and 2 and the new one in bits 1 and 0. *)
Definition kQuadUpdate : list Z :=
  [0; 1; -1; 0; -1; 0; 0; 1; 1; 0; 0; -1; 0; -1; 1; 0].

Definition kQuadError : list Z :=
  [0; 0; 0; 1; 0; 0; 1; 0; 0; 1; 0; 0; 1; 0; 0; 0].

(** [a] and [b] are what [a_->read ()] and [b_->read ()] return at the
    time of the interrupt.  The sum is formed in [uint32_t]. *)
Definition ISR_Callback (config_ : Config) (status_ : Status) (a b : bool)
  : Status :=
  let old_pins := pins status_ in
  let pins' := u8 (Z.lor (if a then 1 else 0) (if b then 2 else 0)) in
  let update := u8 (Z.lor (Z.shiftl old_pins 2) pins') in
  let new_value :=
    u32 (value status_ + nth (Z.to_nat update) kQuadUpdate 0 + cpr config_) in
  mkStatus (active status_) pins' (new_value mod cpr config_)
           (u16 (error status_ + nth (Z.to_nat update) kQuadError 0)).

(** The pin levels seen by a run of interrupts. *)
Definition callbacks (config_ : Config) (levels : list (bool * bool))
           (status_ : Status) : Status :=
  fold_left (fun st ab => ISR_Callback config_ st (fst ab) (snd ab))
            levels status_.

End Stm32Quadrature.

(** The pin state [(a ? 1 : 0) | (b ? 2 : 0)]. *)
Definition pin_state (a b : bool) : Z :=
  Z.lor (if a then 1 else 0) (if b then 2 else 0).

(** A quadrature status as the decoder keeps it: two pin bits and a
    count below the counts per revolution. *)
Definition quadrature_ok (config_ : Quadrature.Config)
           (st : Quadrature.Status) : Prop :=
  0 <= Quadrature.pins st < 4
  /\ 0 <= Quadrature.value st < Quadrature.cpr config_
  /\ 0 <= Quadrature.error st < 65536.

Definition quadrature_sample : Quadrature.Status :=
  Quadrature.mkStatus true 0 16383 0.

Definition quadrature_config_sample : Quadrature.Config :=
  Quadrature.mkConfig true 16384.

(** The sum of the entries of [kQuadUpdate], and of [kQuadError], along
    a run of pin levels that starts from the pin state [p], and the pin
    state the run ends in. *)
Fixpoint quadrature_count (p : Z) (levels : list (bool * bool)) : Z :=
  match levels with
  | [] => 0
  | (a, b) :: rest =>
      nth (Z.to_nat (4 * p + pin_state a b)) Stm32Quadrature.kQuadUpdate 0
      + quadrature_count (pin_state a b) rest
  end.

Fixpoint quadrature_glitches (p : Z) (levels : list (bool * bool)) : Z :=
  match levels with
  | [] => 0
  | (a, b) :: rest =>
      nth (Z.to_nat (4 * p + pin_state a b)) Stm32Quadrature.kQuadError 0
      + quadrature_glitches (pin_state a b) rest
  end.

Definition quadrature_last (p : Z) (levels : list (bool * bool)) : Z :=
  fold_left (fun _ ab => pin_state (fst ab) (snd ab)) levels p.

(** ** [MillisecondTimer]

    [TimerType] is [uint32_t] or [uint16_t] with the width of the
    hardware timer; [bits] is that width.  The timer is seen through the
    values that successive reads of [TIM_MST->CNT] return. *)

Module MillisecondTimer.

Section Width.

Variable bits : Z.

Definition subtract_us (a b : Z) : Z := wrap bits (a - b).

(** The loop of [wait_us_helper], after [current] has been read and
    with [elapsed] accumulated so far: [Some] of the reads that are left
    when it returns, [None] when the reads run out before it does. *)
Fixpoint wait_us_helper_loop (delay_us current elapsed : Z) (reads : list Z)
  : option (list Z) :=
  match reads with
  | [] => None
  | next :: rest =>
      let elapsed' := wrap bits (elapsed + wrap bits (next - current)) in
      if u32 (delay_us + 1) <=? elapsed' then Some rest
      else wait_us_helper_loop delay_us next elapsed' rest
  end.

Definition wait_us_helper (delay_us : Z) (reads : list Z) : option (list Z) :=
  match reads with
  | [] => None
  | current :: rest => wait_us_helper_loop delay_us current 0 rest
  end.

(** [wait_us]; the [while] loop runs under a bound on its
    iterations. *)
Fixpoint wait_us (fuel : nat) (delay_us : Z) (reads : list Z)
  : option (list Z) :=
  match fuel with
  | O => None
  | S fuel' =>
      if 50000 <? delay_us then
        match wait_us_helper 50000 reads with
        | Some reads' => wait_us fuel' (u32 (delay_us - 50000)) reads'
        | None => None
        end
      else wait_us_helper delay_us reads
  end.

End Width.

End MillisecondTimer.

(** The reads of a timer that starts at [r0] and advances by the given
    numbers of ticks between one read and the next. *)
Fixpoint timer_reads (bits r0 : Z) (ticks : list Z) : list Z :=
  match ticks with
  | [] => []
  | d :: rest => wrap bits (r0 + d) :: timer_reads bits (wrap bits (r0 + d)) rest
  end.

Definition sum_Z (l : list Z) : Z := fold_right Z.add 0 l.

(** The number of calls of [wait_us_helper] that [wait_us] makes. *)
Definition wait_us_rounds (delay_us : Z) : Z :=
  Z.max 1 ((delay_us + 49999) / 50000).

(** ** Notions for the CUI AMT21 check bits

    What one wrong bit, at position [k], does to the comparison of the
    check bit at position [check] with the parity of the data bits at
    [positions]: the comparison changes its outcome exactly when [k] is
    one of the 16 bits and has the parity of [check]. *)
Definition check_flips (w k : Z) (check : Z) (positions : list Z) : Prop :=
  Bool.eqb (Z.testbit (Z.lxor w (2 ^ k)) check)
           (data_parity (Z.lxor w (2 ^ k)) positions)
  = xorb (Z.eqb (k mod 2) (check mod 2) && (k <=? 15))
         (Bool.eqb (Z.testbit w check) (data_parity w positions)).

(** A reply with the word [0x8003]: the valid word [0x8001] with bit 1
    wrong. *)
Definition cui_corrupted_sample : CuiAmt21.t :=
  CuiAmt21.mk (UartEncoder.mkConfig 100 0x54)
              (Stm32G4DmaUart.mk 3 true [])
              true 0
              [0x54; 0x03; 0x80; 0; 0; 0].

(** The bytes that the receiver sees between two updates of a
    [CuiAmt21]: the DMA channel stores them in [buffer_]. *)
Definition cui_amt21_receive (bytes : list Z) (s : CuiAmt21.t) : CuiAmt21.t :=
  let '(u, buf) :=
    fold_left (fun ub b => dma_receive b ub) bytes
              (CuiAmt21.uart_ s, CuiAmt21.buffer_ s) in
  CuiAmt21.mk (CuiAmt21.config_ s) u (CuiAmt21.query_outstanding_ s)
              (CuiAmt21.last_query_start_us_ s) buf.

(** A [CuiAmt21] with no query outstanding. *)
Definition cui_idle_sample : CuiAmt21.t :=
  CuiAmt21.mk (UartEncoder.mkConfig 100 0x54)
              (Stm32G4DmaUart.mk 0 false [])
              false 0
              [0; 0; 0; 0; 0; 0].

(** ** The read side of [FDCanMicroServer]

    [AsyncRead] and [Poll].  The controller is seen through what
    [FDCan::status] and [FDCan::Poll] return when [Poll] runs: whether
    the bus is off, and the header of a received frame if there is one.
    [FDCan::ParseDlc] is not part of these sources and stays a
    parameter. *)

Module FDCanMicroServerRead.
Import FDCanMicroServer.

(** The fields of [FDCAN_RxHeaderTypeDef] that [Poll] reads;
    [BitRateSwitch] stands for [BitRateSwitch == FDCAN_BRS_ON] and
    [FDFormat] for [FDFormat == FDCAN_FD_CAN]. *)
Record RxHeader := mkRxHeader {
  Identifier : Z;            (* uint32_t *)
  DataLength : Z;
  BitRateSwitch : bool;
  FDFormat : bool
}.

Record t := mk {
  current_read_ : bool;      (* callback, header and data of a pending read *)
  can_reset_count_ : Z       (* uint32_t *)
}.

Inductive action :=
| RecoverBusOff
| Callback (header : Header) (bytes : Z).

(** [None] is the failed [MJ_ASSERT]. *)
Definition AsyncRead (s : t) : option t :=
  if current_read_ s then None else Some (mk true (can_reset_count_ s)).

Section Dlc.

Variable ParseDlc : Z -> Z.

Definition Poll (s : t) (BusOff : bool) (received : option RxHeader)
  : t * list action :=
  if negb (current_read_ s) then (s, [])
  else
    let count := if BusOff then u32 (can_reset_count_ s + 1)
                 else can_reset_count_ s in
    let recover := if BusOff then [RecoverBusOff] else [] in
    match received with
    | None => (mk true count, recover)
    | Some fdcan_header_ =>
        let header :=
          mkHeader
            (Z.land (Z.shiftr (Identifier fdcan_header_) 8) 0xff)
            (Z.land (Identifier fdcan_header_) 0xff)
            (ParseDlc (DataLength fdcan_header_))
            (Z.lor (Z.lor 0 (if BitRateSwitch fdcan_header_
                             then kBrsFlag else 0))
                   (if FDFormat fdcan_header_ then kFdcanFlag else 0)) in
        (mk false count, recover ++ [Callback header (size header)])
    end.

End Dlc.

End FDCanMicroServerRead.

(** The frame that the controller of the receiving node reports for a
    frame sent with the given options, as far as [Poll] looks at it: a
    frame is sent in FD format, and with bit rate switching, when the
    option requires it. *)
Definition fdcan_received (f : FDCan.frame) (dlc_code : Z)
  : FDCanMicroServerRead.RxHeader :=
  FDCanMicroServerRead.mkRxHeader
    (FDCan.dest_id f) dlc_code
    (match FDCan.bitrate_switch (FDCan.options f) with
     | FDCan.kRequire => true | _ => false end)
    (match FDCan.fdcan_frame (FDCan.options f) with
     | FDCan.kRequire => true | _ => false end).

(** ** [ClockManager]

    [clock_.hsitrim] is an [int32_t] and [extra_trim_] an [int], both
    32 bits wide on the target; their sum is a 32 bit signed sum, which
    [s32] brings back into the range of the type when it leaves it (the
    language leaves the result of such an overflow open, the add
    instruction of the processor wraps).  [ICSCR] is the 32 bit register
    [RCC->ICSCR]. *)

(** The 32 bit two's complement value of an integer. *)
Definition s32 (x : Z) : Z := (x + 2 ^ 31) mod 2 ^ 32 - 2 ^ 31.

Module ClockManager.

Definition kMaxExtraTrim : Z := 8.

Record t := mk {
  hsitrim : Z;               (* clock_.hsitrim *)
  extra_trim_ : Z;
  ICSCR : Z
}.

Definition UpdateConfig (s : t) : t :=
  let trim := Z.max 0 (Z.min 127 (s32 (hsitrim s + extra_trim_ s))) in
  mk (hsitrim s) (extra_trim_ s)
     (u32 (Z.lor (Z.land (ICSCR s) (u32 (Z.lnot 0xff000000)))
                 (Z.shiftl trim 24))).

Definition SetTrim (extra_trim : Z) (s : t) : t :=
  UpdateConfig
    (mk (hsitrim s)
        (Z.max (- kMaxExtraTrim) (Z.min kMaxExtraTrim extra_trim))
        (ICSCR s)).

Definition trim (s : t) : Z := extra_trim_ s.

End ClockManager.

(** The trim field of [ICSCR] (bits 24 and up) and the calibration bits
    below it. *)
Definition clock_trim_field (s : ClockManager.t) : Z :=
  Z.shiftr (ClockManager.ICSCR s) 24.

Definition clock_calibration (s : ClockManager.t) : Z :=
  Z.land (ClockManager.ICSCR s) 0xffffff.

(** ** [Stm32GpioInterruptIn]

    The static table [entries_], the counters behind [irq_count], the
    EXTI and SYSCFG registers the class writes and the interrupt
    controller make up the state.  [STM_PIN] and [STM_PORT] (mbed
    macros) and the port switch of the constructor, which maps the ports
    A to F to their register blocks and fails an assertion for any
    other, are parameters.  A null function pointer is 0. *)

Module Stm32GpioInterruptIn.

Record Callback := mkCallback {
  function : Z;
  data : Z;                  (* uint32_t *)
  ref_count : Z              (* int *)
}.

Definition kMaxCallbacks : nat := 3.

Inductive IRQn_Type :=
| EXTI0_IRQn | EXTI1_IRQn | EXTI2_IRQn | EXTI3_IRQn | EXTI4_IRQn
| EXTI9_5_IRQn | EXTI15_10_IRQn.

#[global] Instance IRQn_Type_eq_dec : EqDecision IRQn_Type.
Proof. solve_decision. Defined.

(** One line of the interrupt controller: whether its vector is
    [ISR_Routine], the priority given to it, and its enable and pending
    bits. *)
Record Irq := mkIrq {
  vector_is_routine : bool;
  priority : option (Z * Z);
  enabled : bool;
  pending : bool
}.

Record t := mk {
  entries_ : list Callback;  (* Callback [kMaxCallbacks] *)
  irq_count : list Z;        (* std::array<int, 7> *)
  IMR1 : Z;
  RTSR1 : Z;
  FTSR1 : Z;
  PR1 : Z;
  EXTICR : list Z;           (* SYSCFG->EXTICR [4] *)
  nvic : IRQn_Type -> Irq;
  inputs : list Z            (* the pins given to pin_function *)
}.

(** An object of the class; [pin_ = None] is [NC], and [port_] stands
    for [reg_in_], the input register of that port. *)
Record Obj := mkObj {
  pin_ : option Z;
  entry_ : nat;
  port_ : Z;
  mask_ : Z
}.

Definition matches (cbk entry : Callback) : bool :=
  (function entry =? function cbk) && (data entry =? data cbk).

Definition is_empty (entry : Callback) : bool := function entry =? 0.

(** [FindCallback]: the table afterwards and the index of the entry, or
    [None] for the null pointer. *)
Definition FindCallback (cbk : Callback) (entries : list Callback)
  : list Callback * option nat :=
  match list_find (fun e => matches cbk e = true) entries with
  | Some (i, _) => (entries, Some i)
  | None =>
      match list_find (fun e => is_empty e = true) entries with
      | Some (i, _) => (<[ i := cbk ]> entries, Some i)
      | None => (entries, None)
      end
  end.

Definition kIrqN : list IRQn_Type :=
  [EXTI0_IRQn; EXTI1_IRQn; EXTI2_IRQn; EXTI3_IRQn; EXTI4_IRQn;
   EXTI9_5_IRQn; EXTI15_10_IRQn].

Definition FindIrqN (index : Z) : IRQn_Type :=
  nth (Z.to_nat index) kIrqN EXTI0_IRQn.

(** The interrupt controller with the line [irqn] replaced. *)
Definition set_irq (irqn : IRQn_Type) (line : Irq) (f : IRQn_Type -> Irq)
  : IRQn_Type -> Irq :=
  fun n => if decide (n = irqn) then line else f n.

Definition bump (f : Z -> Z) (i : nat) (l : list Z) : list Z :=
  <[ i := f (nth i l 0) ]> l.

Definition bump_ref (d : Z) (i : nat) (l : list Callback) : list Callback :=
  match l !! i with
  | Some e => <[ i := mkCallback (function e) (data e) (ref_count e + d) ]> l
  | None => l
  end.

Section Pins.

Variable STM_PIN : Z -> Z.
Variable STM_PORT : Z -> Z.
Variable port_known : Z -> bool.

Definition FindIrqIndex (pin : Z) : Z :=
  let pin_index := STM_PIN pin in
  if pin_index <=? 4 then pin_index
  else if pin_index <=? 9 then 5
  else if pin_index <=? 15 then 6
  else 0.

(** The constructor; [None] when the assertion on the port fails or the
    null pointer that [FindCallback] returned is dereferenced. *)
Definition construct (pin function val : Z) (s : t) : option (Obj * t) :=
  let port_index := STM_PORT pin in
  let pin_index := STM_PIN pin in
  if negb (port_known port_index) then None
  else
    let mask := u32 (Z.shiftl 1 (Z.land (u32 pin) 0xf)) in
    let cbk := mkCallback function val 0 in
    match FindCallback cbk (entries_ s) with
    | (_, None) => None
    | (entries1, Some entry) =>
        let entries2 := bump_ref 1 entry entries1 in
        let shift := 4 * Z.land pin_index 0x03 in
        let word := Z.to_nat (Z.shiftr pin_index 2) in
        let original :=
          Z.land (nth word (EXTICR s) 0) (u32 (Z.lnot (Z.shiftl 0x0f shift))) in
        let exticr :=
          <[ word := u32 (Z.lor original (Z.shiftl port_index shift)) ]>
            (EXTICR s) in
        let line := u32 (Z.shiftl 1 pin_index) in
        let irq_index := FindIrqIndex pin in
        let nvic1 :=
          if nth (Z.to_nat irq_index) (irq_count s) 0 =? 0 then
            set_irq (FindIrqN irq_index)
                    (mkIrq true (Some (1, 0)) true
                           (pending (nvic s (FindIrqN irq_index))))
                    (nvic s)
          else nvic s in
        Some (mkObj (Some pin) entry port_index mask,
              mk entries2
                 (bump (fun c => c + 1) (Z.to_nat irq_index) (irq_count s))
                 (u32 (Z.lor (IMR1 s) line))
                 (u32 (Z.lor (RTSR1 s) line))
                 (u32 (Z.lor (FTSR1 s) line))
                 (PR1 s) exticr nvic1 (inputs s ++ [pin]))
    end.

(** [Make]: [Some (None, s)] is the empty optional. *)
Definition Make (pin function data : Z) (s : t) : option (option Obj * t) :=
  let pin_index := STM_PIN pin in
  if negb (Z.land (IMR1 s) (u32 (Z.shiftl 1 pin_index)) =? 0) then
    Some (None, s)
  else
    match construct pin function data s with
    | Some (result, s') => Some (Some result, s')
    | None => None
    end.

(** The destructor. *)
Definition destroy (o : Obj) (s : t) : t :=
  match pin_ o with
  | None => s
  | Some pin =>
      let entries1 := bump_ref (-1) (entry_ o) (entries_ s) in
      let pin_index := STM_PIN pin in
      let imr := u32 (Z.land (IMR1 s) (Z.lnot (Z.shiftl 1 pin_index))) in
      let irq_index := FindIrqIndex pin in
      let nvic1 :=
        if nth (Z.to_nat irq_index) (irq_count s) 0 =? 1 then
          set_irq (FindIrqN irq_index)
                  (mkIrq (vector_is_routine (nvic s (FindIrqN irq_index)))
                         (priority (nvic s (FindIrqN irq_index))) false false)
                  (nvic s)
        else nvic s in
      let entries2 :=
        match entries1 !! entry_ o with
        | Some e =>
            if ref_count e =? 0
            then <[ entry_ o := mkCallback 0 0 (ref_count e) ]> entries1
            else entries1
        | None => entries1
        end in
      mk entries2
         (bump (fun c => c - 1) (Z.to_nat irq_index) (irq_count s))
         imr (RTSR1 s) (FTSR1 s) (PR1 s) (EXTICR s) nvic1 (inputs s)
  end.

End Pins.

(** The move constructor: the new object and what is left of the old
    one. *)
Definition move (rhs : Obj) : Obj * Obj :=
  (mkObj (pin_ rhs) (entry_ rhs) (port_ rhs) (mask_ rhs),
   mkObj None (entry_ rhs) (port_ rhs) (mask_ rhs)).

(** [read], given the input registers of the ports. *)
Definition read (IDR : Z -> Z) (o : Obj) : bool :=
  negb (Z.land (IDR (port_ o)) (mask_ o) =? 0).

(** [ISR_Routine]: the state afterwards and the calls made, each a
    function with its argument. *)
Definition ISR_Routine (s : t) : t * list (Z * Z) :=
  (mk (entries_ s) (irq_count s) (IMR1 s) (RTSR1 s) (FTSR1 s) 0x0000ffff
      (EXTICR s) (nvic s) (inputs s),
   map (fun e => (function e, data e))
       (filter (fun e => is_empty e = false) (entries_ s))).

End Stm32GpioInterruptIn.

(** The table and the counters as the class keeps them: an entry is
    empty exactly when nothing refers to it, an empty entry holds no
    data, and an interrupt line is disabled exactly when nothing uses
    it. *)
Definition gpio_entry_ok (e : Stm32GpioInterruptIn.Callback) : Prop :=
  0 <= Stm32GpioInterruptIn.ref_count e
  /\ (Stm32GpioInterruptIn.function e = 0
      <-> Stm32GpioInterruptIn.ref_count e = 0)
  /\ (Stm32GpioInterruptIn.function e = 0 -> Stm32GpioInterruptIn.data e = 0).

Definition gpio_table_ok (s : Stm32GpioInterruptIn.t) : Prop :=
  length (Stm32GpioInterruptIn.entries_ s) = Stm32GpioInterruptIn.kMaxCallbacks
  /\ length (Stm32GpioInterruptIn.irq_count s) = 7%nat
  /\ 0 <= Stm32GpioInterruptIn.IMR1 s < 2 ^ 32
  /\ Forall gpio_entry_ok (Stm32GpioInterruptIn.entries_ s)
  /\ Forall (fun c => 0 <= c) (Stm32GpioInterruptIn.irq_count s)
  /\ forall i : Z,
       0 <= i < 7 ->
       nth (Z.to_nat i) (Stm32GpioInterruptIn.irq_count s) 0 = 0
       <-> Stm32GpioInterruptIn.enabled
             (Stm32GpioInterruptIn.nvic s (Stm32GpioInterruptIn.FindIrqN i))
           = false.

(** There is room in the table for the callback: an entry that holds it
    already, or an empty one. *)
Definition gpio_room (function data : Z) (s : Stm32GpioInterruptIn.t) : Prop :=
  Exists (fun e =>
            Stm32GpioInterruptIn.matches
              (Stm32GpioInterruptIn.mkCallback function data 0) e = true
            \/ Stm32GpioInterruptIn.is_empty e = true)
         (Stm32GpioInterruptIn.entries_ s).

(** The state after reset, and pins named by port and number. *)
Definition gpio_reset : Stm32GpioInterruptIn.t :=
  Stm32GpioInterruptIn.mk
    (replicate 3 (Stm32GpioInterruptIn.mkCallback 0 0 0))
    (replicate 7 0) 0 0 0 0 (replicate 4 0)
    (fun _ => Stm32GpioInterruptIn.mkIrq false None false false) [].

Definition pin_number (pin : Z) : Z := Z.land pin 0xf.
Definition pin_port (pin : Z) : Z := Z.land (Z.shiftr pin 4) 0xf.
Definition port_a_to_f (port : Z) : bool := port <=? 5.

(** A state in which three pins use three different callbacks. *)
Definition gpio_full : Stm32GpioInterruptIn.t :=
  Stm32GpioInterruptIn.mk
    [Stm32GpioInterruptIn.mkCallback 1 0 1;
     Stm32GpioInterruptIn.mkCallback 2 0 1;
     Stm32GpioInterruptIn.mkCallback 3 0 1]
    [1; 1; 1; 0; 0; 0; 0] 7 7 7 0 (replicate 4 0)
    (fun n =>
       match n with
       | Stm32GpioInterruptIn.EXTI0_IRQn
       | Stm32GpioInterruptIn.EXTI1_IRQn
       | Stm32GpioInterruptIn.EXTI2_IRQn =>
           Stm32GpioInterruptIn.mkIrq true (Some (1, 0)) true false
       | _ => Stm32GpioInterruptIn.mkIrq false None false false
       end)
    [0; 1; 2].

(** ** [Stm32BitbangSpi]

    The pins are seen through the calls made on them, in order; [miso]
    gives the level that [miso_.read()] finds while the bit with that
    index is on the wire. *)

Module Stm32BitbangSpi.

Record Options := mkOptions {
  frequency : Z;             (* int *)
  width : Z;                 (* int *)
  mode : Z                   (* int *)
}.

Inductive op :=
| CsWrite (v : Z)
| MosiWrite (v : Z)
| SckWrite (v : Z)
| MisoRead
| WaitUs (delay_us : Z).

Record t := mk {
  options_ : Options;
  us_delay_ : Z              (* uint32_t *)
}.

(** The constructor; [None] is [mbed_die].  The division is that of
    [int], which rounds towards zero. *)
Definition make (options : Options) : option t :=
  if negb (mode options =? 1) then None
  else Some (mk options (Z.max 1 (Z.quot 500000 (frequency options)))).

(** The loop of [write] with [i] bits still to go. *)
Fixpoint write_loop (s : t) (value : Z) (miso : nat -> bool) (i : nat)
         (result : Z) (ops : list op) : Z * list op :=
  match i with
  | O => (result, ops)
  | S k =>
      let bit := if Z.land value (Z.shiftl 1 (Z.of_nat k)) =? 0 then 0 else 1 in
      let result1 := u16 (Z.shiftl result 1) in
      let result2 := u16 (Z.lor result1 (if miso k then 1 else 0)) in
      write_loop s value miso k result2
        (ops ++ [MosiWrite bit; SckWrite 1; WaitUs (us_delay_ s);
                 SckWrite 0; MisoRead; WaitUs (us_delay_ s)])
  end.

Definition write (s : t) (value : Z) (miso : nat -> bool) : Z * list op :=
  let '(result, ops) :=
    write_loop s value miso (Z.to_nat (width (options_ s))) 0
               [CsWrite 0; WaitUs (us_delay_ s)] in
  (result, ops ++ [MosiWrite 0; CsWrite 1; WaitUs (us_delay_ s)]).

End Stm32BitbangSpi.

(** The word whose bit [k], for [k < n], is [miso k]. *)
Fixpoint spi_word (miso : nat -> bool) (n : nat) : Z :=
  match n with
  | O => 0
  | S k => Z.b2z (miso k) * 2 ^ Z.of_nat k + spi_word miso k
  end.

(** The calls that put bit [k] on the wire and take one bit in. *)
Definition spi_bit_ops (d value : Z) (k : nat) : list Stm32BitbangSpi.op :=
  [Stm32BitbangSpi.MosiWrite (Z.b2z (Z.testbit value (Z.of_nat k)));
   Stm32BitbangSpi.SckWrite 1; Stm32BitbangSpi.WaitUs d;
   Stm32BitbangSpi.SckWrite 0; Stm32BitbangSpi.MisoRead;
   Stm32BitbangSpi.WaitUs d].

(** ** [Stm32G4Flash]

    The flash controller is seen through the HAL calls made on it. *)

Definition u64 := wrap 64.

Module Stm32G4Flash.

Inductive op :=
| HAL_FLASH_Unlock
| HAL_FLASH_Lock
| HAL_FLASH_Program (address data : Z).   (* FLASH_TYPEPROGRAM_DOUBLEWORD *)

Record t := mk {
  shadow_start_ : Z;         (* uint32_t *)
  shadow_ : Z;               (* uint64_t *)
  shadow_bits_ : Z;          (* uint64_t *)
  ops : list op
}.

Definition FlushWord (s : t) : t :=
  mk 0 0 0 (ops s ++ [HAL_FLASH_Program (shadow_start_ s) (shadow_ s)]).

Definition Unlock (s : t) : t :=
  mk (shadow_start_ s) (shadow_ s) (shadow_bits_ s)
     (ops s ++ [HAL_FLASH_Unlock]).

Definition Lock (s : t) : t :=
  let s1 := if negb (shadow_bits_ s =? 0) then FlushWord s else s in
  mk (shadow_start_ s1) (shadow_ s1) (shadow_bits_ s1)
     (ops s1 ++ [HAL_FLASH_Lock]).

Definition ProgramByte (ptr value : Z) (s : t) : t :=
  let intaddr := u32 ptr in
  let this_shadow := Z.land intaddr (u32 (Z.lnot 0x7)) in
  let offset := Z.land intaddr 0x7 in
  let s1 :=
    if negb (this_shadow =? shadow_start_ s) && negb (shadow_start_ s =? 0)
    then FlushWord s else s in
  let shadow := u64 (Z.lor (shadow_ s1) (u64 (Z.shiftl value (offset * 8)))) in
  let shadow_bits :=
    u64 (Z.lor (shadow_bits_ s1) (u64 (Z.shiftl 0xff (offset * 8)))) in
  let s2 := mk this_shadow shadow shadow_bits (ops s1) in
  if shadow_bits =? 0xffffffffffffffff then FlushWord s2 else s2.

End Stm32G4Flash.

(** [ProgramByte] for the bytes of a buffer, at consecutive addresses. *)
Fixpoint flash_program (ptr : Z) (bytes : list Z) (s : Stm32G4Flash.t)
  : Stm32G4Flash.t :=
  match bytes with
  | [] => s
  | b :: rest => flash_program (ptr + 1) rest (Stm32G4Flash.ProgramByte ptr b s)
  end.

(** The little-endian word of a list of bytes. *)
Definition le_word (bytes : list Z) : Z :=
  fold_right (fun b acc => b + 256 * acc) 0 bytes.

(** The double words programmed for a buffer given as full double words
    of eight bytes and a last, partial one. *)
Fixpoint flash_words (address : Z) (words : list (list Z))
  : list Stm32G4Flash.op :=
  match words with
  | [] => []
  | w :: rest =>
      Stm32G4Flash.HAL_FLASH_Program address (le_word w)
      :: flash_words (address + 8) rest
  end.

(** The shadow after [k] bytes of a double word. *)
Definition flash_partial (address : Z) (done : list Z)
           (ops : list Stm32G4Flash.op) : Stm32G4Flash.t :=
  Stm32G4Flash.mk (match done with [] => 0 | _ => address end)
                  (le_word done)
                  (2 ^ (8 * Z.of_nat (length done)) - 1) ops.

(** ** I2C timing ([fw/stm32_i2c_timing.h])

    [int] and [int64_t] values are integers; the divisions are those of
    C++, which round towards zero, and [s32] is the conversion of an
    [int64_t] to [int]. *)

Module I2cTiming.

Record TimingResult := mkTimingResult {
  error : Z;
  prescaler : Z;
  scldel : Z;
  sdadel : Z;
  sclh : Z;
  scll : Z;
  digital_noise_filter : Z;
  timingr : Z                (* uint32_t *)
}.

Inductive I2cMode := kStandard | kFast | kFastPlus.

Inductive AnalogFilter := kOff | kOn.

Record TimingInput := mkTimingInput {
  peripheral_hz : Z;
  i2c_hz : Z;
  i2c_mode : I2cMode;
  analog_filter : AnalogFilter;
  rise_time_ns : Z;
  fall_time_ns : Z
}.

(** The lambdas of [TryTimingWithPrescaler]. *)
Definition scl_min_low_ps (m : I2cMode) : Z :=
  match m with kStandard => 4700000 | kFast => 1300000 | kFastPlus => 500000 end.

Definition scl_min_high_ps (m : I2cMode) : Z :=
  match m with kStandard => 4000000 | kFast => 600000 | kFastPlus => 260000 end.

Definition data_min_hold_ps (m : I2cMode) : Z :=
  match m with kStandard => 300000 | kFast => 10 | kFastPlus => 10 end.

Definition data_min_setup_ps (m : I2cMode) : Z :=
  match m with kStandard => 250000 | kFast => 100000 | kFastPlus => 50000 end.

Definition i2c_max_hz (m : I2cMode) : Z :=
  match m with kStandard => 100000 | kFast => 400000 | kFastPlus => 1000000 end.

Definition low_percent (m : I2cMode) : Z :=
  match m with kStandard => 54 | kFast => 68 | kFastPlus => 67 end.

Definition t_presc_ps (i : TimingInput) (prescaler : Z) : Z :=
  Z.quot 1000000000000 (peripheral_hz i) * (prescaler + 1).

Definition actual_i2c_hz (i : TimingInput) : Z :=
  Z.max 1 (Z.min (i2c_hz i) (i2c_max_hz (i2c_mode i))).

Definition total_cycle_ps (i : TimingInput) : Z :=
  Z.quot 1000000000000 (actual_i2c_hz i).

Definition TryTimingWithPrescaler (i : TimingInput) (prescaler : Z)
  : TimingResult :=
  let t_presc_ps := t_presc_ps i prescaler in
  let desired_scl_low_ps :=
    Z.quot (total_cycle_ps i * low_percent (i2c_mode i)) 100 in
  let scll :=
    s32 (Z.quot (Z.max (scl_min_low_ps (i2c_mode i)) desired_scl_low_ps)
                t_presc_ps) in
  if 255 <? scll then mkTimingResult 2 prescaler 0 0 0 scll 0 0
  else
    let actual_scl_low_ps := (scll + 1) * t_presc_ps in
    let desired_scl_high_ps := total_cycle_ps i - actual_scl_low_ps in
    let sclh :=
      s32 (Z.quot (Z.max (scl_min_high_ps (i2c_mode i)) desired_scl_high_ps)
                  t_presc_ps) in
    if 255 <? sclh then mkTimingResult 3 prescaler 0 0 sclh scll 0 0
    else
      let sdadel := s32 (Z.quot (data_min_hold_ps (i2c_mode i)) t_presc_ps) in
      if 15 <? sdadel then mkTimingResult 4 prescaler 0 sdadel sclh scll 0 0
      else
        let scldel :=
          s32 (Z.quot (data_min_setup_ps (i2c_mode i)) t_presc_ps) in
        if 15 <? scldel
        then mkTimingResult 5 prescaler scldel sdadel sclh scll 0 0
        else
          mkTimingResult 0 prescaler scldel sdadel sclh scll 0
            (u32 (Z.lor (Z.lor (Z.lor (Z.lor (Z.lor
               (Z.shiftl scll 0)
               (Z.shiftl sclh 8))
               (Z.shiftl sdadel 16))
               (Z.shiftl scldel 20))
               (Z.shiftl prescaler 28))
               0)).

(** The loop of [CalculateI2cTiming], from [prescaler] on and with [n]
    values still to try. *)
Fixpoint try_prescalers (i : TimingInput) (n : nat) (prescaler : Z)
  : TimingResult :=
  match n with
  | O => mkTimingResult 1 0 0 0 0 0 0 0
  | S k =>
      let result := TryTimingWithPrescaler i prescaler in
      if negb (error result =? 0) then try_prescalers i k (prescaler + 1)
      else result
  end.

Definition CalculateI2cTiming (i : TimingInput) : TimingResult :=
  try_prescalers i 16 0.

End I2cTiming.

Definition i2c_default_input : I2cTiming.TimingInput :=
  I2cTiming.mkTimingInput 64000000 100000 I2cTiming.kStandard
                          I2cTiming.kOff 100 10.

(** ** [Stm32Quadrature] on a hardware timer

    [ISR_Update] reads the member [status_] and writes through its
    argument [status]; both point into a store of status records, and
    may point to the same one.  [hwtimer_] says whether the timer
    pointer is set, and the timer is seen through the value of its
    counter when [ISR_Update] reads it. *)

Definition s16 (x : Z) : Z := (x + 2 ^ 15) mod 2 ^ 16 - 2 ^ 15.

Module Stm32QuadratureTimer.

Definition store := nat -> Quadrature.Status.

Definition store_set (p : nat) (v : Quadrature.Status) (h : store) : store :=
  fun q => if Nat.eqb q p then v else h q.

Record t := mk {
  config_ : Quadrature.Config;
  status_ : nat;
  old_timer_cnt_ : Z;        (* uint32_t *)
  hwtimer_ : bool
}.

Definition ISR_Update (s : t) (heap : store) (status : nat)
           (a b : bool) (CNT : Z) : t * store :=
  if negb (hwtimer_ s) then (s, heap)
  else
    let st := heap (status_ s) in
    let heap1 :=
      store_set (status_ s)
        (Quadrature.mkStatus (Quadrature.active st)
           (u8 (Z.lor (if a then 1 else 0) (if b then 2 else 0)))
           (Quadrature.value st) (Quadrature.error st)) heap in
    let new_cnt := CNT in
    let delta := s16 (u16 (Z.land (u32 (new_cnt - old_timer_cnt_ s)) 0xffff)) in
    let new_value :=
      u32 (Quadrature.value (heap1 (status_ s)) + delta
           + Quadrature.cpr (config_ s)) in
    let st1 := heap1 status in
    let heap2 :=
      store_set status
        (Quadrature.mkStatus (Quadrature.active st1) (Quadrature.pins st1)
           (new_value mod Quadrature.cpr (config_ s)) 0) heap1 in
    (mk (config_ s) (status_ s) new_cnt (hwtimer_ s), heap2).

End Stm32QuadratureTimer.

(** A run of updates in which the timer counter, 16 bits wide, has moved
    by the given numbers of counts between one update and the next. *)
Fixpoint quadrature_timer_run (s : Stm32QuadratureTimer.t)
         (heap : Stm32QuadratureTimer.store) (status : nat)
         (moves : list Z) : Stm32QuadratureTimer.t * Stm32QuadratureTimer.store :=
  match moves with
  | [] => (s, heap)
  | d :: rest =>
      let '(s1, heap1) :=
        Stm32QuadratureTimer.ISR_Update s heap status false false
          ((Stm32QuadratureTimer.old_timer_cnt_ s + d) mod 2 ^ 16) in
      quadrature_timer_run s1 heap1 status rest
  end.

Definition quadrature_timer_sample : Stm32QuadratureTimer.t :=
  Stm32QuadratureTimer.mk (Quadrature.mkConfig true 100) 0 65530 true.

Definition quadrature_store_sample : Stm32QuadratureTimer.store :=
  fun _ => Quadrature.mkStatus true 0 10 0.

(** * Proofs *)

(** ** Bit level facts *)

Lemma land_1_b2z x : Z.land x 1 = Z.b2z (Z.testbit x 0).
Proof.
  change 1 with (Z.ones 1). rewrite Z.land_ones by lia.
  now rewrite Z.bit0_mod.
Qed.

Lemma shiftr_land_1 x k :
  0 <= k -> Z.land (Z.shiftr x k) 1 = Z.b2z (Z.testbit x k).
Proof.
  intros Hk. rewrite land_1_b2z, Z.shiftr_spec by lia. reflexivity.
Qed.

Lemma lxor_b2z a b : Z.lxor (Z.b2z a) (Z.b2z b) = Z.b2z (xorb a b).
Proof. now destruct a, b. Qed.

Lemma to_bool_b2z b : to_bool (Z.b2z b) = b.
Proof. now destruct b. Qed.

Lemma land_pow2_testbit w k :
  0 <= k -> to_bool (Z.land w (2 ^ k)) = Z.testbit w k.
Proof.
  intros Hk.
  assert (E : Z.land w (2 ^ k) = Z.b2z (Z.testbit w k) * 2 ^ k).
  { apply Z.bits_inj'. intros n Hn.
    rewrite Z.land_spec, Z.pow2_bits_eqb by lia.
    destruct (Z.eqb_spec k n) as [->|Hne].
    - rewrite andb_true_r.
      destruct (Z.testbit w n).
      + simpl Z.b2z. rewrite Z.mul_1_l, Z.pow2_bits_true by lia. reflexivity.
      + simpl. now rewrite Z.testbit_0_l.
    - rewrite andb_false_r.
      destruct (Z.testbit w k).
      + simpl Z.b2z. rewrite Z.mul_1_l, Z.pow2_bits_false by lia. reflexivity.
      + simpl. now rewrite Z.testbit_0_l. }
  rewrite E. unfold to_bool.
  assert (0 < 2 ^ k) by (apply Z.pow_pos_nonneg; lia).
  destruct (Z.testbit w k); simpl Z.b2z.
  - destruct (Z.eqb_spec (1 * 2 ^ k) 0); [lia | reflexivity].
  - reflexivity.
Qed.

Lemma u16_testbit x n : 0 <= n < 16 -> Z.testbit (u16 x) n = Z.testbit x n.
Proof.
  intros Hn. unfold u16, wrap. apply Z.mod_pow2_bits_low. lia.
Qed.

(** ** CUI AMT21 *)

Lemma even_parity_data w :
  CuiAmt21.even_parity w = data_parity w even_positions.
Proof.
  unfold CuiAmt21.even_parity, data_parity, even_positions.
  rewrite land_1_b2z, !shiftr_land_1 by lia.
  change 1 with (Z.b2z true).
  rewrite !lxor_b2z, to_bool_b2z. cbn [map fold_right].
  destruct (Z.testbit w 0), (Z.testbit w 2), (Z.testbit w 4),
    (Z.testbit w 6), (Z.testbit w 8), (Z.testbit w 10), (Z.testbit w 12);
    reflexivity.
Qed.

Lemma odd_parity_data w :
  CuiAmt21.odd_parity w = data_parity w odd_positions.
Proof.
  unfold CuiAmt21.odd_parity. rewrite even_parity_data.
  unfold data_parity, even_positions, odd_positions. cbn [map fold_right].
  rewrite !u16_testbit, !Z.shiftr_spec by lia. reflexivity.
Qed.

Lemma parity_test_ok w :
  negb (Bool.eqb (to_bool (Z.land w 0x8000)) (CuiAmt21.odd_parity w))
  || negb (Bool.eqb (to_bool (Z.land w 0x4000)) (CuiAmt21.even_parity w))
  = negb (parity_ok w).
Proof.
  unfold parity_ok.
  change 0x8000 with (2 ^ 15). change 0x4000 with (2 ^ 14).
  rewrite !land_pow2_testbit, even_parity_data, odd_parity_data by lia.
  now rewrite negb_andb.
Qed.

(** C3.  Once a framed reply is in the buffer (between one and
    [kResyncBytes] bytes still outstanding and the echoed address in
    front), [CuiAmt21::ProcessQuery] judges the 16 bit response word by
    its two check bits: if bit 15 or bit 14 disagrees with the parity of
    the odd, respectively even, data bits, only [checksum_errors] is
    incremented and [value], [nonce] and [active] keep their values;
    if both agree, the low 14 bits become [value], [nonce] is
    incremented and [active] is set. *)
Theorem cui_amt21_parity_check (s : CuiAmt21.t) (status : UartEncoder.Status) :
  let w := CuiAmt21.response_word (CuiAmt21.buffer_ s) in
  let status' := snd (CuiAmt21.ProcessQuery s status) in
  0 < Stm32G4DmaUart.read_bytes_remaining (CuiAmt21.uart_ s)
    <= CuiAmt21.kResyncBytes ->
  nth 0 (CuiAmt21.buffer_ s) 0
    = UartEncoder.cui_amt21_address (CuiAmt21.config_ s) ->
  (parity_ok w = false ->
     UartEncoder.checksum_errors status'
       = u16 (UartEncoder.checksum_errors status + 1)
     /\ UartEncoder.value status' = UartEncoder.value status
     /\ UartEncoder.nonce status' = UartEncoder.nonce status
     /\ UartEncoder.active status' = UartEncoder.active status)
  /\ (parity_ok w = true ->
     UartEncoder.value status' = w mod 2 ^ 14
     /\ UartEncoder.nonce status' = u8 (UartEncoder.nonce status + 1)
     /\ UartEncoder.active status' = true
     /\ UartEncoder.checksum_errors status'
        = UartEncoder.checksum_errors status).
Proof.
  intros w status' [Hlo Hhi] Haddr.
  subst status'. unfold CuiAmt21.ProcessQuery.
  destruct (Z.ltb_spec CuiAmt21.kResyncBytes
              (Stm32G4DmaUart.read_bytes_remaining (CuiAmt21.uart_ s)));
    [lia|].
  destruct (Z.eqb_spec
              (Stm32G4DmaUart.read_bytes_remaining (CuiAmt21.uart_ s)) 0);
    [lia|].
  rewrite Haddr, Z.eqb_refl. cbn [negb].
  fold w. cbv zeta. rewrite parity_test_ok.
  split; intros Hp; rewrite Hp; cbn; auto.
  repeat split; auto.
  change 0x3fff with (Z.ones 14). rewrite Z.land_ones by lia.
  unfold u32, wrap.
  apply Z.mod_small.
  pose proof (Z.mod_pos_bound w (2 ^ 14)). lia.
Qed.

(** ** AkSIM-2 *)

Lemma lor_shiftl_add hi lo k :
  0 <= k -> 0 <= lo < 2 ^ k -> Z.lor (Z.shiftl hi k) lo = hi * 2 ^ k + lo.
Proof.
  intros Hk Hlo.
  assert (Hland : Z.land (Z.shiftl hi k) lo = 0).
  { apply Z.bits_inj'. intros n Hn.
    rewrite Z.land_spec, Z.testbit_0_l.
    destruct (Z.ltb_spec n k).
    - rewrite Z.shiftl_spec_low by lia. reflexivity.
    - rewrite <- (Z.mod_small lo (2 ^ k)) by lia.
      rewrite Z.mod_pow2_bits_high by lia. apply andb_false_r. }
  rewrite <- Z.lxor_lor by exact Hland.
  rewrite <- Z.add_nocarry_lxor by exact Hland.
  now rewrite Z.shiftl_mul_pow2 by lia.
Qed.

Lemma nth_byte_range (buf : list Z) (i : nat) :
  Forall byte_range buf -> byte_range (nth i buf 0).
Proof.
  intros H. destruct (nth_in_or_default i buf 0) as [Hin | ->].
  - rewrite Forall_forall in H. apply H. now apply list_elem_of_In.
  - unfold byte_range. lia.
Qed.

Lemma position_word_sum (buf : list Z) :
  Forall byte_range buf ->
  Aksim2.position_word buf
  = nth 1 buf 0 * 65536 + nth 2 buf 0 * 256 + nth 3 buf 0.
Proof.
  intros H. unfold Aksim2.position_word.
  pose proof (nth_byte_range buf 1 H) as H1.
  pose proof (nth_byte_range buf 2 H) as H2.
  pose proof (nth_byte_range buf 3 H) as H3.
  unfold byte_range in *.
  rewrite Z.shiftl_0_r.
  rewrite (Z.shiftl_mul_pow2 (nth 2 buf 0) 8) by lia.
  rewrite (lor_shiftl_add (nth 1 buf 0) (nth 2 buf 0 * 2 ^ 8) 16) by lia.
  replace (nth 1 buf 0 * 2 ^ 16 + nth 2 buf 0 * 2 ^ 8)
    with (Z.shiftl (nth 1 buf 0 * 2 ^ 8 + nth 2 buf 0) 8)
    by (rewrite Z.shiftl_mul_pow2; lia).
  rewrite lor_shiftl_add by lia. lia.
Qed.

Lemma aksim2_accept (s : Aksim2.t) (status : UartEncoder.Status) :
  let buf := Aksim2.buffer_ s in
  0 < Stm32G4DmaUart.read_bytes_remaining (Aksim2.uart_ s)
    <= Aksim2.kResyncBytes ->
  nth 0 buf 0 = Aksim2.marker ->
  Forall byte_range buf ->
  Aksim2.ProcessQuery s status
  = (Aksim2.with_uart s (Stm32G4DmaUart.finish_dma_read (Aksim2.uart_ s)) false,
     UartEncoder.mkStatus
       true
       ((nth 1 buf 0 * 65536 + nth 2 buf 0 * 256 + nth 3 buf 0) / 4)
       (u8 (UartEncoder.nonce status + 1))
       (Z.testbit (nth 3 buf 0) 0)
       (Z.testbit (nth 3 buf 0) 1)
       (nth 4 buf 0 * 256 + nth 5 buf 0)
       (UartEncoder.checksum_errors status)).
Proof.
  intros buf [Hlo Hhi] Hm Hb. unfold Aksim2.ProcessQuery.
  destruct (Z.ltb_spec Aksim2.kResyncBytes
              (Stm32G4DmaUart.read_bytes_remaining (Aksim2.uart_ s))); [lia|].
  destruct (Z.eqb_spec
              (Stm32G4DmaUart.read_bytes_remaining (Aksim2.uart_ s)) 0); [lia|].
  fold buf. rewrite Hm, Z.eqb_refl. cbn [negb].
  pose proof (nth_byte_range buf 1 Hb) as H1.
  pose proof (nth_byte_range buf 2 Hb) as H2.
  pose proof (nth_byte_range buf 3 Hb) as H3.
  pose proof (nth_byte_range buf 4 Hb) as H4.
  pose proof (nth_byte_range buf 5 Hb) as H5.
  unfold byte_range in *.
  f_equal. f_equal.
  - rewrite position_word_sum by exact Hb.
    rewrite Z.shiftr_div_pow2 by lia. change (2 ^ 2) with 4.
    unfold u32, wrap. apply Z.mod_small.
    split; [apply Z.div_pos; lia | apply Z.div_lt_upper_bound; lia].
  - change 1 with (2 ^ 0) at 1. now rewrite land_pow2_testbit by lia.
  - change 2 with (2 ^ 1) at 1. now rewrite land_pow2_testbit by lia.
  - rewrite Z.shiftl_0_r, lor_shiftl_add by lia.
    unfold u16, wrap. apply Z.mod_small. lia.
Qed.

Lemma aksim2_reject (s : Aksim2.t) (status : UartEncoder.Status) :
  nth 0 (Aksim2.buffer_ s) 0 <> Aksim2.marker ->
  snd (Aksim2.ProcessQuery s status) = status.
Proof.
  intros Hm. unfold Aksim2.ProcessQuery.
  destruct (_ <? _); [reflexivity|].
  destruct (_ =? 0); [reflexivity|].
  destruct (Z.eqb_spec (nth 0 (Aksim2.buffer_ s) 0) Aksim2.marker);
    [contradiction | reflexivity].
Qed.

Lemma aksim2_abandon (s : Aksim2.t) (status : UartEncoder.Status) :
  Stm32G4DmaUart.read_bytes_remaining (Aksim2.uart_ s) = 0 ->
  Aksim2.ProcessQuery s status
  = (Aksim2.with_uart s (Stm32G4DmaUart.finish_dma_read (Aksim2.uart_ s)) false,
     status).
Proof.
  intros H0. unfold Aksim2.ProcessQuery. rewrite H0. reflexivity.
Qed.

(** The DMA counter after a burst of bytes. *)
Lemma dma_receive_burst (bytes : list Z) (u : Stm32G4DmaUart.t) (buf : list Z) :
  Stm32G4DmaUart.rx_enabled u = true ->
  0 <= Stm32G4DmaUart.CNDTR u ->
  let '(u', buf') := fold_left (fun ub b => dma_receive b ub) bytes (u, buf) in
  Stm32G4DmaUart.CNDTR u'
    = Z.max 0 (Stm32G4DmaUart.CNDTR u - Z.of_nat (length bytes))
  /\ Stm32G4DmaUart.rx_enabled u' = true
  /\ Stm32G4DmaUart.ops u' = Stm32G4DmaUart.ops u
  /\ length buf' = length buf.
Proof.
  revert u buf. induction bytes as [|b bytes IH]; intros u buf Hen Hc.
  - cbn [fold_left length]. repeat split; try assumption; try reflexivity. lia.
  - cbn [fold_left]. unfold dma_receive at 2. rewrite Hen. cbn [andb].
    destruct (Z.ltb_spec 0 (Stm32G4DmaUart.CNDTR u)) as [Hpos | Hz].
    + match goal with
      | |- context [fold_left _ bytes (?u1, ?b1)] =>
          specialize (IH u1 b1); destruct (fold_left _ bytes (u1, b1)) as [u' buf']
      end.
      cbn [Stm32G4DmaUart.CNDTR Stm32G4DmaUart.rx_enabled Stm32G4DmaUart.ops] in IH.
      destruct IH as (E1 & E2 & E3 & E4); [reflexivity | lia |].
      rewrite length_insert in E4.
      repeat split; try assumption. rewrite E1. cbn [length]. lia.
    + specialize (IH u buf Hen Hc).
      destruct (fold_left _ bytes (u, buf)) as [u' buf'].
      destruct IH as (E1 & E2 & E3 & E4).
      repeat split; try assumption. rewrite E1. cbn [length]. lia.
Qed.

Lemma aksim2_receive_consumed (s : Aksim2.t) (bytes : list Z) :
  Aksim2.buffer_size
  - Stm32G4DmaUart.read_bytes_remaining
      (Aksim2.uart_ (Aksim2.receive bytes (Aksim2.StartRead s)))
  = Z.min (Z.of_nat (length bytes)) (6 + Aksim2.kResyncBytes).
Proof.
  unfold Aksim2.receive, Aksim2.StartRead, Aksim2.with_uart.
  cbn [Aksim2.uart_ Aksim2.buffer_].
  pose proof (dma_receive_burst bytes
                (Stm32G4DmaUart.start_dma_read Aksim2.buffer_size (Aksim2.uart_ s))
                (Aksim2.buffer_ s) eq_refl) as H.
  cbn [Stm32G4DmaUart.start_dma_read Stm32G4DmaUart.CNDTR] in H.
  destruct (fold_left _ bytes _) as [u' buf'].
  destruct H as (E1 & _); [unfold Aksim2.buffer_size, Aksim2.kResyncBytes; lia|].
  cbn [Aksim2.uart_]. unfold Stm32G4DmaUart.read_bytes_remaining.
  rewrite E1. unfold Aksim2.buffer_size, Aksim2.kResyncBytes. lia.
Qed.

Lemma aksim2_isr_issue (s : Aksim2.t) (status : UartEncoder.Status) (now_us : Z) :
  Aksim2.query_outstanding_ s = false ->
  u32 (UartEncoder.poll_rate_us (Aksim2.config_ s))
    <= u32 (now_us - Aksim2.last_query_start_us_ s) ->
  Aksim2.ISR_Update s status now_us
  = (Aksim2.mk (Aksim2.config_ s)
       (Stm32G4DmaUart.start_dma_read Aksim2.buffer_size
          (Stm32G4DmaUart.write_char Aksim2.marker (Aksim2.uart_ s)))
       true now_us (Aksim2.buffer_ s),
     status).
Proof.
  intros Hq Hd. unfold Aksim2.ISR_Update. rewrite Hq.
  cbv zeta. rewrite Hq.
  destruct (Z.ltb_spec (u32 (now_us - Aksim2.last_query_start_us_ s))
              (u32 (UartEncoder.poll_rate_us (Aksim2.config_ s)))); [lia|].
  reflexivity.
Qed.

Lemma aksim2_isr_abandon (s : Aksim2.t) (status : UartEncoder.Status) (now_us : Z) :
  let delta_us := u32 (now_us - Aksim2.last_query_start_us_ s) in
  let aborted :=
    Aksim2.with_uart s (Stm32G4DmaUart.finish_dma_read (Aksim2.uart_ s)) false in
  Aksim2.query_outstanding_ s = true ->
  delta_us <= u32 (2 * UartEncoder.poll_rate_us (Aksim2.config_ s)) ->
  Stm32G4DmaUart.read_bytes_remaining (Aksim2.uart_ s) = 0 ->
  Aksim2.ISR_Update s status now_us
  = if delta_us <? u32 (UartEncoder.poll_rate_us (Aksim2.config_ s))
    then (aborted, status)
    else Aksim2.ISR_Update aborted status now_us.
Proof.
  intros delta_us aborted Hq Hd H0.
  destruct (Z.ltb_spec delta_us
              (u32 (UartEncoder.poll_rate_us (Aksim2.config_ s)))) as [Hlt|Hge].
  - unfold Aksim2.ISR_Update. rewrite Hq. fold delta_us.
    destruct (Z.ltb_spec (u32 (2 * UartEncoder.poll_rate_us (Aksim2.config_ s)))
                delta_us); [lia|].
    rewrite aksim2_abandon by exact H0. fold aborted.
    cbn [Aksim2.query_outstanding_ Aksim2.with_uart aborted Aksim2.config_].
    destruct (Z.ltb_spec delta_us
                (u32 (UartEncoder.poll_rate_us (Aksim2.config_ s)))); [|lia].
    reflexivity.
  - rewrite (aksim2_isr_issue aborted) by (try reflexivity; exact Hge).
    unfold Aksim2.ISR_Update. rewrite Hq. fold delta_us.
    destruct (Z.ltb_spec (u32 (2 * UartEncoder.poll_rate_us (Aksim2.config_ s)))
                delta_us); [lia|].
    rewrite aksim2_abandon by exact H0. fold aborted.
    cbn [Aksim2.query_outstanding_ Aksim2.with_uart aborted Aksim2.config_].
    destruct (Z.ltb_spec delta_us
                (u32 (UartEncoder.poll_rate_us (Aksim2.config_ s)))); [lia|].
    reflexivity.
Qed.

(** C4 (as amended).  [Aksim2::ProcessQuery] never commits a reply whose
    first byte is not the marker; a reply that is accepted (marker in
    front, between one and [kResyncBytes] bytes of the transfer still
    outstanding) stores the 24 bit word of the three bytes after the
    marker shifted right by two, a 22 bit position, in [value], takes
    [aksim2_err] and [aksim2_warn] from the two low bits of that word,
    stores the following 16 bit status word, increments the nonce and
    sets [active]; a transfer takes at most the 6 reply bytes and
    [kResyncBytes] more, and once they are used up the query is
    abandoned with the status untouched and issued again as soon as the
    poll interval has elapsed. *)
Theorem aksim2_process_query (s : Aksim2.t) (status : UartEncoder.Status) :
  let buf := Aksim2.buffer_ s in
  let remaining := Stm32G4DmaUart.read_bytes_remaining (Aksim2.uart_ s) in
  let aborted :=
    Aksim2.with_uart s (Stm32G4DmaUart.finish_dma_read (Aksim2.uart_ s)) false in
  (nth 0 buf 0 <> Aksim2.marker ->
     snd (Aksim2.ProcessQuery s status) = status)
  /\ (0 < remaining <= Aksim2.kResyncBytes ->
      nth 0 buf 0 = Aksim2.marker ->
      Forall byte_range buf ->
      Aksim2.ProcessQuery s status
      = (aborted,
         UartEncoder.mkStatus
           true
           ((nth 1 buf 0 * 65536 + nth 2 buf 0 * 256 + nth 3 buf 0) / 4)
           (u8 (UartEncoder.nonce status + 1))
           (Z.testbit (nth 3 buf 0) 0)
           (Z.testbit (nth 3 buf 0) 1)
           (nth 4 buf 0 * 256 + nth 5 buf 0)
           (UartEncoder.checksum_errors status)))
  /\ (forall bytes : list Z,
        Aksim2.buffer_size
        - Stm32G4DmaUart.read_bytes_remaining
            (Aksim2.uart_ (Aksim2.receive bytes (Aksim2.StartRead s)))
        = Z.min (Z.of_nat (length bytes)) (6 + Aksim2.kResyncBytes))
  /\ (forall now_us : Z,
        let delta_us := u32 (now_us - Aksim2.last_query_start_us_ s) in
        Aksim2.query_outstanding_ s = true ->
        delta_us <= u32 (2 * UartEncoder.poll_rate_us (Aksim2.config_ s)) ->
        remaining = 0 ->
        Aksim2.ISR_Update s status now_us
        = if delta_us <? u32 (UartEncoder.poll_rate_us (Aksim2.config_ s))
          then (aborted, status)
          else (Aksim2.mk (Aksim2.config_ s)
                  (Stm32G4DmaUart.start_dma_read Aksim2.buffer_size
                     (Stm32G4DmaUart.write_char Aksim2.marker
                        (Stm32G4DmaUart.finish_dma_read (Aksim2.uart_ s))))
                  true now_us buf,
                status)).
Proof.
  intros buf remaining aborted. repeat split.
  - apply aksim2_reject.
  - intros. now apply aksim2_accept.
  - apply aksim2_receive_consumed.
  - intros now_us delta_us Hq Hd H0.
    rewrite aksim2_isr_abandon by assumption. fold delta_us.
    destruct (Z.ltb_spec delta_us
                (u32 (UartEncoder.poll_rate_us (Aksim2.config_ s)))) as [Hlt|Hge];
      [reflexivity|].
    now rewrite aksim2_isr_issue by (try reflexivity; exact Hge).
Qed.

Lemma aksim2_process_query_witness :
  Aksim2.ProcessQuery aksim2_sample status_zero
  = (Aksim2.with_uart aksim2_sample (Stm32G4DmaUart.mk 3 false
                                       [Stm32G4DmaUart.FinishDmaRead]) false,
     UartEncoder.mkStatus true 1 1 false false 0xabcd 0).
Proof.
  destruct (aksim2_process_query aksim2_sample status_zero) as (_ & H & _).
  rewrite H.
  - reflexivity.
  - vm_compute. split; [reflexivity | discriminate].
  - reflexivity.
  - repeat constructor; unfold byte_range; lia.
Defined.

(** C4 as worded does not hold: with the position bytes [0 0 4] after
    the marker the 24 bit word is 4 but the stored value is 1. *)
Lemma aksim2_value_is_not_24_bit_word :
  Aksim2.position_word (Aksim2.buffer_ aksim2_sample) = 4
  /\ UartEncoder.value (snd (Aksim2.ProcessQuery aksim2_sample status_zero))
     <> Aksim2.position_word (Aksim2.buffer_ aksim2_sample).
Proof. split; [reflexivity | discriminate]. Qed.

Lemma cui_amt21_parity_check_witness :
  let status' := snd (CuiAmt21.ProcessQuery cui_sample status_zero) in
  UartEncoder.value status' = 1
  /\ UartEncoder.nonce status' = 1
  /\ UartEncoder.active status' = true
  /\ UartEncoder.checksum_errors status' = 0.
Proof.
  assert (H1 : 0 < Stm32G4DmaUart.read_bytes_remaining (CuiAmt21.uart_ cui_sample)
               <= CuiAmt21.kResyncBytes)
    by (vm_compute; split; [reflexivity | discriminate]).
  exact (proj2 (cui_amt21_parity_check cui_sample status_zero H1 eq_refl) eq_refl).
Defined.

(** ** Query timeouts *)

Lemma cui_amt21_isr_issue (s : CuiAmt21.t) (status : UartEncoder.Status)
      (now_us : Z) :
  CuiAmt21.query_outstanding_ s = false ->
  u32 (UartEncoder.poll_rate_us (CuiAmt21.config_ s))
    <= u32 (now_us - CuiAmt21.last_query_start_us_ s) ->
  CuiAmt21.ISR_Update s status now_us
  = (CuiAmt21.mk (CuiAmt21.config_ s)
       (Stm32G4DmaUart.start_dma_read CuiAmt21.buffer_size
          (Stm32G4DmaUart.write_char
             (UartEncoder.cui_amt21_address (CuiAmt21.config_ s))
             (CuiAmt21.uart_ s)))
       true now_us (CuiAmt21.buffer_ s),
     status).
Proof.
  intros Hq Hd. unfold CuiAmt21.ISR_Update. rewrite Hq.
  cbv zeta. rewrite Hq.
  destruct (Z.ltb_spec (u32 (now_us - CuiAmt21.last_query_start_us_ s))
              (u32 (UartEncoder.poll_rate_us (CuiAmt21.config_ s)))); [lia|].
  reflexivity.
Qed.

(** C8 (as amended).  In [Aksim2::ISR_Update] and
    [CuiAmt21::ISR_Update] a query that is still outstanding more than
    twice [poll_rate_us] microseconds after it was issued is aborted: the
    DMA read is finished and the query is no longer outstanding, so that
    a new query goes out once the poll interval has elapsed.  The status,
    and with it the [active] flag, is left as it was. *)
Theorem uart_query_timeout :
  (forall (s : Aksim2.t) (status : UartEncoder.Status) (now_us : Z),
      let delta_us := u32 (now_us - Aksim2.last_query_start_us_ s) in
      let aborted := Stm32G4DmaUart.finish_dma_read (Aksim2.uart_ s) in
      Aksim2.query_outstanding_ s = true ->
      u32 (2 * UartEncoder.poll_rate_us (Aksim2.config_ s)) < delta_us ->
      Aksim2.ISR_Update s status now_us
      = if delta_us <? u32 (UartEncoder.poll_rate_us (Aksim2.config_ s))
        then (Aksim2.with_uart s aborted false, status)
        else (Aksim2.mk (Aksim2.config_ s)
                (Stm32G4DmaUart.start_dma_read Aksim2.buffer_size
                   (Stm32G4DmaUart.write_char Aksim2.marker aborted))
                true now_us (Aksim2.buffer_ s),
              status))
  /\ (forall (s : CuiAmt21.t) (status : UartEncoder.Status) (now_us : Z),
      let delta_us := u32 (now_us - CuiAmt21.last_query_start_us_ s) in
      let aborted := Stm32G4DmaUart.finish_dma_read (CuiAmt21.uart_ s) in
      CuiAmt21.query_outstanding_ s = true ->
      u32 (2 * UartEncoder.poll_rate_us (CuiAmt21.config_ s)) < delta_us ->
      CuiAmt21.ISR_Update s status now_us
      = if delta_us <? u32 (UartEncoder.poll_rate_us (CuiAmt21.config_ s))
        then (CuiAmt21.with_uart s aborted false, status)
        else (CuiAmt21.mk (CuiAmt21.config_ s)
                (Stm32G4DmaUart.start_dma_read CuiAmt21.buffer_size
                   (Stm32G4DmaUart.write_char
                      (UartEncoder.cui_amt21_address (CuiAmt21.config_ s))
                      aborted))
                true now_us (CuiAmt21.buffer_ s),
              status)).
Proof.
  split; intros s status now_us delta_us aborted Hq Ht.
  - destruct (Z.ltb_spec delta_us
                (u32 (UartEncoder.poll_rate_us (Aksim2.config_ s)))) as [Hlt|Hge].
    + unfold Aksim2.ISR_Update. rewrite Hq. fold delta_us.
      destruct (Z.ltb_spec (u32 (2 * UartEncoder.poll_rate_us (Aksim2.config_ s)))
                  delta_us); [|lia].
      cbn [Aksim2.query_outstanding_ Aksim2.with_uart Aksim2.config_].
      destruct (Z.ltb_spec delta_us
                  (u32 (UartEncoder.poll_rate_us (Aksim2.config_ s)))); [|lia].
      reflexivity.
    + rewrite <- (aksim2_isr_issue (Aksim2.with_uart s aborted false))
        by (try reflexivity; exact Hge).
      unfold Aksim2.ISR_Update. rewrite Hq. fold delta_us.
      destruct (Z.ltb_spec (u32 (2 * UartEncoder.poll_rate_us (Aksim2.config_ s)))
                  delta_us); [|lia].
      reflexivity.
  - destruct (Z.ltb_spec delta_us
                (u32 (UartEncoder.poll_rate_us (CuiAmt21.config_ s)))) as [Hlt|Hge].
    + unfold CuiAmt21.ISR_Update. rewrite Hq. fold delta_us.
      destruct (Z.ltb_spec (u32 (2 * UartEncoder.poll_rate_us (CuiAmt21.config_ s)))
                  delta_us); [|lia].
      cbn [CuiAmt21.query_outstanding_ CuiAmt21.with_uart CuiAmt21.config_].
      destruct (Z.ltb_spec delta_us
                  (u32 (UartEncoder.poll_rate_us (CuiAmt21.config_ s)))); [|lia].
      reflexivity.
    + rewrite <- (cui_amt21_isr_issue (CuiAmt21.with_uart s aborted false))
        by (try reflexivity; exact Hge).
      unfold CuiAmt21.ISR_Update. rewrite Hq. fold delta_us.
      destruct (Z.ltb_spec (u32 (2 * UartEncoder.poll_rate_us (CuiAmt21.config_ s)))
                  delta_us); [|lia].
      reflexivity.
Qed.

Lemma uart_query_timeout_witness :
  Aksim2.ISR_Update aksim2_sample status_active 1000
  = (Aksim2.mk (UartEncoder.mkConfig 100 0x54)
       (Stm32G4DmaUart.mk 9 true
          [Stm32G4DmaUart.FinishDmaRead; Stm32G4DmaUart.WriteChar 100;
           Stm32G4DmaUart.StartDmaRead 9])
       true 1000 (Aksim2.buffer_ aksim2_sample),
     status_active)
  /\ CuiAmt21.ISR_Update cui_sample status_active 1000
  = (CuiAmt21.mk (UartEncoder.mkConfig 100 0x54)
       (Stm32G4DmaUart.mk 6 true
          [Stm32G4DmaUart.FinishDmaRead; Stm32G4DmaUart.WriteChar 0x54;
           Stm32G4DmaUart.StartDmaRead 6])
       true 1000 (CuiAmt21.buffer_ cui_sample),
     status_active).
Proof.
  destruct uart_query_timeout as [Ha Hc]. split.
  - rewrite Ha; [reflexivity | reflexivity | vm_compute; reflexivity].
  - rewrite Hc; [reflexivity | reflexivity | vm_compute; reflexivity].
Defined.

(** C8 as worded does not hold: after a timeout an [active] flag that
    was set is still set. *)
Lemma uart_timeout_keeps_active :
  Aksim2.query_outstanding_ aksim2_sample = true
  /\ 2 * UartEncoder.poll_rate_us (Aksim2.config_ aksim2_sample)
     < u32 (1000 - Aksim2.last_query_start_us_ aksim2_sample)
  /\ UartEncoder.active status_active = true
  /\ UartEncoder.active
       (snd (Aksim2.ISR_Update aksim2_sample status_active 1000)) <> false
  /\ UartEncoder.active
       (snd (CuiAmt21.ISR_Update cui_sample status_active 1000)) <> false.
Proof.
  repeat split; try reflexivity; discriminate.
Qed.

(** ** CAN-FD frame lengths *)

Lemma RoundUpDlc_cases (n : Z) :
  0 <= n <= 64 ->
  n <= FDCanMicroServer.RoundUpDlc n
  /\ In (FDCanMicroServer.RoundUpDlc n) FDCanMicroServer.dlc_lengths
  /\ forall m, In m FDCanMicroServer.dlc_lengths -> n <= m ->
               FDCanMicroServer.RoundUpDlc n <= m.
Proof.
  intros Hn. unfold FDCanMicroServer.RoundUpDlc.
  repeat match goal with
         | |- context [?a =? ?b] => destruct (Z.eqb_spec a b)
         | |- context [?a <=? ?b] => destruct (Z.leb_spec a b)
         end;
    try lia;
    (split; [lia |
     split; [cbn; tauto |
             intros m Hm Hle; cbn in Hm;
             repeat (destruct Hm as [<- | Hm]; [lia|]); contradiction]]).
Qed.

Lemma pad_loop_app (k : nat) : forall (pre rest : list Z),
  (k <= length rest)%nat ->
  fold_left (fun b i => <[ i := 0x50 ]> b) (seq (length pre) k) (pre ++ rest)
  = pre ++ replicate k 0x50 ++ drop k rest.
Proof.
  induction k as [|k IH]; intros pre rest Hk.
  - cbn. now rewrite drop_0.
  - destruct rest as [|r rest]; [cbn in Hk; lia|].
    cbn [seq fold_left].
    replace (<[length pre := 0x50]> (pre ++ r :: rest))
      with ((pre ++ [0x50]) ++ rest).
    2:{ rewrite <- (Nat.add_0_r (length pre)) at 1.
        rewrite insert_app_r. cbn. now rewrite <- app_assoc. }
    replace (S (length pre)) with (length (pre ++ [0x50]))
      by (rewrite length_app; cbn; lia).
    rewrite IH by (cbn in Hk; lia).
    rewrite <- app_assoc. reflexivity.
Qed.

Lemma AsyncWrite_frame (s : FDCanMicroServer.t)
      (header query_header : FDCanMicroServer.Header) (data : list Z) :
  let n := length data in
  let dlc := Z.to_nat (FDCanMicroServer.RoundUpDlc (Z.of_nat n)) in
  (n <= 64)%nat ->
  length (FDCanMicroServer.buf_ s) = 64%nat ->
  exists id options,
    FDCanMicroServer.fdcan_
      (fst (FDCanMicroServer.AsyncWrite s header data query_header))
    = FDCanMicroServer.fdcan_ s
      ++ [FDCan.mkFrame id (data ++ replicate (dlc - n) 0x50) options].
Proof.
  intros n dlc Hn Hbuf.
  destruct (RoundUpDlc_cases (Z.of_nat n)) as (Hle & Hin & _); [lia|].
  assert (Hdlc : (n <= dlc <= 64)%nat).
  { subst dlc. split; [lia|].
    cbn in Hin.
    repeat (destruct Hin as [<- | Hin]; [lia|]). contradiction. }
  unfold FDCanMicroServer.AsyncWrite. fold n.
  destruct (Z.eqb_spec (FDCanMicroServer.RoundUpDlc (Z.of_nat n)) (Z.of_nat n))
    as [Heq | Hne].
  - do 2 eexists. cbn [fst FDCanMicroServer.fdcan_]. unfold FDCan.Send.
    replace (dlc - n)%nat with 0%nat by lia.
    cbn [replicate]. rewrite app_nil_r. reflexivity.
  - do 2 eexists. cbn [fst FDCanMicroServer.fdcan_]. unfold FDCan.Send.
    do 3 f_equal. fold dlc.
    unfold FDCanMicroServer.pad_loop, FDCanMicroServer.memcpy.
    subst n. rewrite pad_loop_app by (rewrite length_drop; lia).
    rewrite app_assoc, take_app_length'; [reflexivity|].
    rewrite length_app, length_replicate. lia.
Qed.

(** C5.  For a payload of [n <= 64] bytes [RoundUpDlc n] is the least
    valid CAN-FD length that is at least [n]; and [AsyncWrite] hands the
    controller one frame of exactly that length, which starts with the
    payload and whose every further byte is the pad byte [0x50]. *)
Theorem fdcan_round_up_and_pad :
  (forall n : Z,
      0 <= n <= 64 ->
      In (FDCanMicroServer.RoundUpDlc n) FDCanMicroServer.dlc_lengths
      /\ n <= FDCanMicroServer.RoundUpDlc n
      /\ forall m, In m FDCanMicroServer.dlc_lengths -> n <= m ->
                   FDCanMicroServer.RoundUpDlc n <= m)
  /\ (forall (s : FDCanMicroServer.t)
             (header query_header : FDCanMicroServer.Header) (data : list Z),
      let n := length data in
      let dlc := FDCanMicroServer.RoundUpDlc (Z.of_nat n) in
      (n <= 64)%nat ->
      length (FDCanMicroServer.buf_ s) = 64%nat ->
      exists f : FDCan.frame,
        FDCanMicroServer.fdcan_
          (fst (FDCanMicroServer.AsyncWrite s header data query_header))
        = FDCanMicroServer.fdcan_ s ++ [f]
        /\ Z.of_nat (length (FDCan.data f)) = dlc
        /\ take n (FDCan.data f) = data
        /\ forall i : nat,
             (n <= i)%nat -> Z.of_nat i < dlc ->
             FDCan.data f !! i = Some 0x50).
Proof.
  split.
  - intros n Hn. destruct (RoundUpDlc_cases n Hn) as (H1 & H2 & H3). auto.
  - intros s header query_header data n dlc Hn Hbuf.
    destruct (AsyncWrite_frame s header query_header data Hn Hbuf)
      as (id & options & E).
    destruct (RoundUpDlc_cases (Z.of_nat n)) as (Hle & _); [lia|].
    fold n in E. fold dlc in E, Hle.
    eexists. split; [exact E|]. cbn [FDCan.data].
    repeat split.
    + rewrite length_app, length_replicate. fold n. lia.
    + unfold n. now rewrite take_app_length.
    + intros i Hi Hd.
      rewrite lookup_app_r by (fold n; lia). fold n.
      apply lookup_replicate_2. lia.
Qed.

Lemma fdcan_round_up_and_pad_witness :
  FDCanMicroServer.RoundUpDlc 9 = 12
  /\ FDCanMicroServer.fdcan_
       (fst (FDCanMicroServer.AsyncWrite
               (FDCanMicroServer.mk [] (replicate 64 0) 0)
               (FDCanMicroServer.mkHeader 1 2 0 0)
               [1; 2; 3; 4; 5; 6; 7; 8; 9]
               (FDCanMicroServer.mkHeader 2 1 0 0)))
     = [FDCan.mkFrame 0x102 [1; 2; 3; 4; 5; 6; 7; 8; 9; 0x50; 0x50; 0x50]
          (FDCan.mkSendOptions FDCan.kDisable FDCan.kRequire
                               FDCan.kDefault FDCan.kDefault)].
Proof.
  destruct fdcan_round_up_and_pad as [Hr Hw].
  split.
  - destruct (Hr 9) as (_ & _ & Hmin); [lia|].
    apply Z.le_antisymm.
    + apply Hmin; [cbn; tauto | lia].
    + reflexivity.
  - destruct (Hw (FDCanMicroServer.mk [] (replicate 64 0) 0)
                 (FDCanMicroServer.mkHeader 1 2 0 0)
                 (FDCanMicroServer.mkHeader 2 1 0 0)
                 [1; 2; 3; 4; 5; 6; 7; 8; 9]) as (f & E & _);
      [cbn; lia | reflexivity |].
    reflexivity.
Defined.

(** ** Index input *)

Lemma interrupts_state (pins : list bool) (s : Stm32Index.t) :
  Stm32Index.error_ (Stm32Index.interrupts pins s) = Stm32Index.error_ s
  /\ Stm32Index.observed_ (Stm32Index.interrupts pins s)
     = Stm32Index.observed_ s || existsb (fun p => p) pins.
Proof.
  revert s. induction pins as [|p pins IH]; intros s; cbn [existsb].
  - cbn. now rewrite orb_false_r.
  - unfold Stm32Index.interrupts in *. cbn [fold_left].
    destruct (IH (Stm32Index.ISR_Callback s p)) as [E1 E2].
    rewrite E1, E2. unfold Stm32Index.ISR_Callback.
    destruct p; cbn; [|auto].
    now rewrite orb_true_r.
Qed.

(** C7 (as amended).  On every control cycle of an index input that was
    set up without error, [Stm32Index::ISR_Update] consumes the latch
    written by the EXTI interrupt, sets [raw] to the disjunction of the
    latched observation and the live pin, and sets [value] exactly when
    [raw] goes from false to true; so a high level seen by any interrupt
    between two updates is reported by the next update even when the pin
    reads low at that time. *)
Theorem index_update_latches_pulse
        (s : Stm32Index.t) (status : Index.Status) (pin : bool) :
  Stm32Index.error_ s = kNone ->
  Stm32Index.ISR_Update s status pin
  = (Stm32Index.mk kNone false,
     Index.mkStatus true
       (Stm32Index.observed_ s || pin)
       ((Stm32Index.observed_ s || pin) && negb (Index.raw status)))
  /\ (Index.value (snd (Stm32Index.ISR_Update s status pin)) = true
      <-> Index.raw status = false
          /\ Index.raw (snd (Stm32Index.ISR_Update s status pin)) = true)
  /\ (forall pins : list bool,
        In true pins ->
        Index.raw (snd (Stm32Index.ISR_Update
                          (Stm32Index.interrupts pins s) status false)) = true).
Proof.
  intros He.
  assert (E : forall (s0 : Stm32Index.t) (p : bool),
             Stm32Index.error_ s0 = kNone ->
             Stm32Index.ISR_Update s0 status p
             = (Stm32Index.mk kNone false,
                Index.mkStatus true
                  (Stm32Index.observed_ s0 || p)
                  ((Stm32Index.observed_ s0 || p) && negb (Index.raw status)))).
  { intros s0 p H0. unfold Stm32Index.ISR_Update. rewrite H0. reflexivity. }
  split; [now apply E|]. split.
  - rewrite E by exact He. cbn [snd Index.value Index.raw].
    destruct (Stm32Index.observed_ s || pin), (Index.raw status); cbn;
      intuition congruence.
  - intros pins Hin.
    destruct (interrupts_state pins s) as [E1 E2].
    rewrite E by congruence. cbn [snd Index.raw].
    rewrite E2, orb_false_r.
    assert (Hex : existsb (fun p => p) pins = true)
      by (apply existsb_exists; exists true; split; [exact Hin | reflexivity]).
    rewrite Hex. apply orb_true_r.
Qed.

Lemma index_update_latches_pulse_witness :
  Index.raw (snd (Stm32Index.ISR_Update
                    (Stm32Index.interrupts [false; true; false] index_ok)
                    index_status_low false)) = true.
Proof.
  destruct (index_update_latches_pulse index_ok index_status_low false eq_refl)
    as (_ & _ & H).
  apply H. cbn. tauto.
Defined.

(** C7 as worded does not hold: when the set-up of the index pin has
    failed the update returns at once, and a pulse that the interrupt
    has latched is not reported, not even while the pin is high. *)
Lemma index_update_skipped_on_error :
  Stm32Index.observed_ (Stm32Index.interrupts [true] index_failed) = true
  /\ Index.raw (snd (Stm32Index.ISR_Update
                       (Stm32Index.interrupts [true] index_failed)
                       index_status_low true))
     <> (Stm32Index.observed_ (Stm32Index.interrupts [true] index_failed)
         || true).
Proof. split; [reflexivity | discriminate]. Qed.

(** ** AS5047 *)

(** C9, evaluated on the code.  [Sample] returns the 14 bit reading
    shifted left by two; [FinishSample] returns the 14 bit reading as it
    is, without the shift. *)
Theorem as5047_finish_sample_not_shifted (reading : Z) :
  AS5047.Sample reading = 4 * (reading mod 2 ^ 14)
  /\ AS5047.FinishSample reading = reading mod 2 ^ 14
  /\ AS5047.FinishSample 1 = 1
  /\ AS5047.Sample 1 = 4.
Proof.
  unfold AS5047.Sample, AS5047.FinishSample, u16, wrap.
  change 0x3fff with (Z.ones 14). rewrite Z.land_ones by lia.
  pose proof (Z.mod_pos_bound reading (2 ^ 14)).
  rewrite Z.shiftl_mul_pow2 by lia.
  repeat split; try reflexivity.
  - rewrite Z.mod_small by lia. lia.
  - rewrite Z.mod_small by lia. reflexivity.
Qed.

(** ** Binary32 rounding: the results are binary32 numbers *)

Lemma fexp32 (e : Z) : fexp F32.prec F32.emax e = Z.max (e - 24) (-149).
Proof. reflexivity. Qed.

Lemma digits2_pos_size (p : positive) : digits2_pos p = Pos.size p.
Proof. induction p; cbn; congruence. Qed.

Lemma Zdigits2_pos_bounds (p : positive) :
  2 ^ (Zdigits2 (Zpos p) - 1) <= Zpos p < 2 ^ Zdigits2 (Zpos p).
Proof.
  cbn [Zdigits2]. rewrite digits2_pos_size.
  pose proof (Pos.size_gt p) as Hgt. pose proof (Pos.size_le p) as Hle.
  apply Pos2Z.pos_lt_pos in Hgt. apply Pos2Z.pos_le_pos in Hle.
  rewrite Pos2Z.inj_pow in Hgt, Hle.
  change (Z.pos p~0) with (2 * Z.pos p) in Hle.
  split; [|exact Hgt].
  replace (2 ^ Z.pos (Pos.size p)) with (2 * 2 ^ (Z.pos (Pos.size p) - 1)) in Hle.
  - lia.
  - rewrite <- Z.pow_succ_r by lia. f_equal. lia.
Qed.

Lemma Zdigits2_nonneg (m : Z) : 0 <= Zdigits2 m.
Proof. destruct m; cbn; lia. Qed.

(** The number of digits is determined by the two powers of two that
    enclose the number. *)
Lemma Zdigits2_unique (p : positive) (d : Z) :
  2 ^ (d - 1) <= Zpos p < 2 ^ d -> Zdigits2 (Zpos p) = d.
Proof.
  intros [Hlo Hhi].
  destruct (Zdigits2_pos_bounds p) as [Hlo' Hhi'].
  assert (Hd0 : 0 < Zdigits2 (Z.pos p)) by (cbn; lia).
  assert (Hd : 0 < d).
  { destruct (Z.ltb_spec 0 d); [assumption|].
    exfalso.
    destruct (Z.eq_dec d 0) as [->|]; [change (2 ^ 0) with 1 in Hhi; lia|].
    rewrite Z.pow_neg_r in Hhi by lia. lia. }
  destruct (Z.lt_trichotomy (Zdigits2 (Z.pos p)) d) as [Hlt | [Heq | Hgt]];
    [exfalso | assumption | exfalso].
  - assert (2 ^ Zdigits2 (Z.pos p) <= 2 ^ (d - 1))
      by (apply Z.pow_le_mono_r; lia).
    lia.
  - assert (2 ^ d <= 2 ^ (Zdigits2 (Z.pos p) - 1))
      by (apply Z.pow_le_mono_r; lia).
    lia.
Qed.

Lemma Zdigits2_le (p : positive) (d : Z) :
  0 <= d -> Zpos p < 2 ^ d -> Zdigits2 (Zpos p) <= d.
Proof.
  intros Hd Hhi. destruct (Zdigits2_pos_bounds p) as [Hlo' _].
  destruct (Z.leb_spec (Zdigits2 (Z.pos p)) d); [assumption|].
  assert (2 ^ d <= 2 ^ (Zdigits2 (Z.pos p) - 1))
    by (apply Z.pow_le_mono_r; lia).
  lia.
Qed.

Lemma Zdigits2_ge (p : positive) (d : Z) :
  2 ^ (d - 1) <= Zpos p -> d <= Zdigits2 (Zpos p).
Proof.
  intros Hlo. destruct (Zdigits2_pos_bounds p) as [_ Hhi'].
  destruct (Z.leb_spec d (Zdigits2 (Z.pos p))); [assumption|].
  assert (2 ^ Zdigits2 (Z.pos p) <= 2 ^ (d - 1))
    by (apply Z.pow_le_mono_r; lia).
  lia.
Qed.

(** *** Shifting right *)

Lemma shr_1_m (mrs : shr_record) :
  0 <= shr_m mrs -> shr_m (shr_1 mrs) = shr_m mrs / 2.
Proof.
  destruct mrs as [m r s]. cbn [shr_m shr_1]. intros Hm.
  destruct m as [|q|q]; [reflexivity | | lia].
  destruct q as [q|q|]; cbn [shr_m].
  - change (Z.pos q~1) with (2 * Z.pos q + 1).
    apply Z.div_unique with 1; lia.
  - change (Z.pos q~0) with (2 * Z.pos q).
    apply Z.div_unique with 0; lia.
  - reflexivity.
Qed.

Lemma iter_shr_1_m (n : positive) : forall mrs : shr_record,
  0 <= shr_m mrs ->
  shr_m (SpecFloat.iter_pos shr_1 n mrs) = shr_m mrs / 2 ^ Zpos n.
Proof.
  induction n as [n IH | n IH |]; intros mrs Hm; cbn [SpecFloat.iter_pos];
    [ | | now rewrite shr_1_m ];
    assert (Hp : 0 < 2 ^ Z.pos n) by (apply Z.pow_pos_nonneg; lia).
  - assert (H1 : 0 <= shr_m (shr_1 mrs))
      by (rewrite shr_1_m by assumption; apply Z.div_pos; lia).
    assert (H2 : 0 <= shr_m (SpecFloat.iter_pos shr_1 n (shr_1 mrs)))
      by (rewrite IH by assumption; apply Z.div_pos; lia).
    rewrite IH by exact H2. rewrite IH by exact H1.
    rewrite shr_1_m by exact Hm.
    rewrite !Z.div_div by lia. f_equal.
    replace (Z.pos n~1) with (Z.pos n + Z.pos n + 1) by lia.
    rewrite !Z.pow_add_r by lia. lia.
  - assert (H2 : 0 <= shr_m (SpecFloat.iter_pos shr_1 n mrs))
      by (rewrite IH by assumption; apply Z.div_pos; lia).
    rewrite IH by exact H2. rewrite IH by exact Hm.
    rewrite !Z.div_div by lia. f_equal.
    replace (Z.pos n~0) with (Z.pos n + Z.pos n) by lia.
    rewrite !Z.pow_add_r by lia. lia.
Qed.

Lemma shr_record_of_loc_m (m : Z) (l : location) :
  shr_m (shr_record_of_loc m l) = m.
Proof. now destruct l as [|[]]. Qed.

(** [shr] by [n >= 0] divides the mantissa by [2 ^ n] and adds [n] to
    the exponent; by [n <= 0] it does nothing. *)
Lemma shr_spec (mrs : shr_record) (e n : Z) :
  0 <= shr_m mrs -> 0 <= n ->
  shr_m (fst (shr mrs e n)) = shr_m mrs / 2 ^ n /\ snd (shr mrs e n) = e + n.
Proof.
  intros Hm Hn. unfold shr. destruct n as [|n|n]; cbn [fst snd]; [| |lia].
  - now rewrite Z.div_1_r, Z.add_0_r.
  - now rewrite iter_shr_1_m.
Qed.

Lemma shr_nop (mrs : shr_record) (e n : Z) :
  n <= 0 -> shr mrs e n = (mrs, e).
Proof. intros Hn. unfold shr. destruct n; [reflexivity | lia | reflexivity]. Qed.

Lemma round_nearest_even_range (m : Z) (l : location) :
  m <= round_nearest_even m l <= m + 1.
Proof.
  unfold round_nearest_even. destruct l as [|[]]; try lia.
  destruct (Z.even m); lia.
Qed.

(** *** Rounding a mantissa and an exponent *)

Lemma binary_round_aux_eq (sx : bool) (mx ex : Z) (lx : location) :
  binary_round_aux F32.prec F32.emax sx mx ex lx
  = let r1 := shr_fexp F32.prec F32.emax mx ex lx in
    let m2 := round_nearest_even (shr_m (fst r1)) (loc_of_shr_record (fst r1)) in
    let r2 := shr_fexp F32.prec F32.emax m2 (snd r1) loc_Exact in
    match shr_m (fst r2) with
    | Z0 => S754_zero sx
    | Zpos m => if snd r2 <=? F32.emax - F32.prec
                then S754_finite sx m (snd r2) else S754_infinity sx
    | Zneg _ => S754_nan
    end.
Proof.
  unfold binary_round_aux.
  destruct (shr_fexp F32.prec F32.emax mx ex lx) as [mrs1 e1]. cbn [fst snd].
  destruct (shr_fexp F32.prec F32.emax _ e1 loc_Exact) as [mrs2 e2].
  reflexivity.
Qed.

(** What [shr_fexp] does to a non-negative mantissa: with
    [n = fexp (digits m + e) - e], a shift by [n] when [n] is positive
    and nothing otherwise. *)
Lemma shr_fexp_spec (m e : Z) (l : location) :
  0 <= m ->
  let n := fexp F32.prec F32.emax (Zdigits2 m + e) - e in
  let r := shr_fexp F32.prec F32.emax m e l in
  (0 <= n -> shr_m (fst r) = m / 2 ^ n /\ snd r = e + n)
  /\ (n <= 0 -> shr_m (fst r) = m /\ snd r = e).
Proof.
  intros Hm n r. subst r. unfold shr_fexp. fold n. split; intros Hn.
  - pose proof (shr_spec (shr_record_of_loc m l) e n) as H.
    rewrite shr_record_of_loc_m in H. now apply H.
  - rewrite shr_nop by exact Hn. cbn [fst snd].
    now rewrite shr_record_of_loc_m.
Qed.

Lemma shr_fexp_nonneg (m e : Z) (l : location) :
  0 <= m -> 0 <= shr_m (fst (shr_fexp F32.prec F32.emax m e l)).
Proof.
  intros Hm.
  destruct (shr_fexp_spec m e l Hm) as [Hpos Hneg].
  destruct (Z.le_ge_cases 0 (fexp F32.prec F32.emax (Zdigits2 m + e) - e))
    as [Hn | Hn].
  - destruct (Hpos Hn) as [-> _]. apply Z.div_pos; [assumption|].
    apply Z.pow_pos_nonneg; lia.
  - destruct (Hneg Hn) as [-> _]. assumption.
Qed.

(** Rounding never produces a NaN, and the sign of the result is the
    sign that was asked for. *)
Lemma binary_round_aux_sign (sx : bool) (mx ex : Z) (lx : location) :
  0 <= mx ->
  match binary_round_aux F32.prec F32.emax sx mx ex lx with
  | S754_zero s | S754_infinity s | S754_finite s _ _ => s = sx
  | S754_nan => False
  end.
Proof.
  intros Hm. rewrite binary_round_aux_eq. cbv zeta.
  set (r1 := shr_fexp F32.prec F32.emax mx ex lx).
  pose proof (shr_fexp_nonneg mx ex lx Hm) as H1. fold r1 in H1.
  pose proof (round_nearest_even_range (shr_m (fst r1))
                (loc_of_shr_record (fst r1))) as H2.
  set (m2 := round_nearest_even _ _) in *.
  assert (Hm2 : 0 <= m2) by lia.
  pose proof (shr_fexp_nonneg m2 (snd r1) loc_Exact Hm2) as H3.
  destruct (shr_m (fst (shr_fexp F32.prec F32.emax m2 (snd r1) loc_Exact)));
    [reflexivity | | lia].
  destruct (_ <=? _); reflexivity.
Qed.

Lemma pow2_split (a b : Z) : 0 <= a -> 0 <= b -> 2 ^ (a + b) = 2 ^ a * 2 ^ b.
Proof. intros. now rewrite Z.pow_add_r. Qed.

(** The shape of the result of rounding: the mantissa is divided by the
    power of two that brings it to the exponent of the format, and the
    quotient is kept or incremented. *)
Lemma binary_round_aux_form (sx : bool) (mx ex : Z) (lx : location) :
  0 <= mx ->
  ex <= fexp F32.prec F32.emax (Zdigits2 mx + ex) ->
  let e1 := Z.max (Zdigits2 mx + ex - 24) (-149) in
  let m1 := mx / 2 ^ (e1 - ex) in
  exists m2 : Z,
    m1 <= m2 <= m1 + 1
    /\ 0 <= m1 < 2 ^ 24
    /\ (e1 = -149 \/ 2 ^ 23 <= m1)
    /\ binary_round_aux F32.prec F32.emax sx mx ex lx = rounded sx m2 e1.
Proof.
  intros Hm Hex e1' m1'. rewrite binary_round_aux_eq. cbv zeta.
  set (r1 := shr_fexp F32.prec F32.emax mx ex lx).
  destruct (shr_fexp_spec mx ex lx Hm) as [Hshift _]. fold r1 in Hshift.
  rewrite fexp32 in Hex, Hshift. fold e1' in Hex, Hshift.
  destruct Hshift as [Em1 Ee1]; [lia|]. fold m1' in Em1.
  replace (ex + (e1' - ex)) with e1' in Ee1 by lia.
  rewrite Em1, Ee1.
  set (n := e1' - ex) in *.
  assert (Hpn : 0 < 2 ^ n) by (apply Z.pow_pos_nonneg; lia).
  assert (Hm1 : 0 <= m1' < 2 ^ 24 /\ (e1' = -149 \/ 2 ^ 23 <= m1')).
  { subst m1'. destruct mx as [|q|q]; [| |lia].
    - rewrite Z.div_0_l by lia. cbn [Zdigits2] in *. lia.
    - destruct (Zdigits2_pos_bounds q) as [Hlo Hhi].
      set (dg := Zdigits2 (Z.pos q)) in *.
      assert (Hdg : 0 < dg) by (subst dg; cbn; lia).
      split; [split|].
      + apply Z.div_pos; lia.
      + apply Z.div_lt_upper_bound; [lia|].
        rewrite Z.mul_comm, <- pow2_split by lia.
        apply Z.lt_le_trans with (2 ^ dg); [assumption|].
        apply Z.pow_le_mono_r; lia.
      + destruct (Z.eq_dec e1' (-149)) as [|Hne]; [now left | right].
        assert (En' : n = dg - 24) by lia.
        apply Z.div_le_lower_bound; [lia|].
        rewrite Z.mul_comm, <- pow2_split by lia.
        replace (23 + n) with (dg - 1) by lia. assumption. }
  destruct Hm1 as [[Hm1lo Hm1hi] Hnorm].
  match goal with
  | |- context [round_nearest_even m1' ?l] =>
      pose proof (round_nearest_even_range m1' l) as Hr;
      set (m2 := round_nearest_even m1' l) in *
  end.
  exists m2. repeat split; try assumption; try lia.
  assert (He1 : -149 <= e1') by lia.
  assert (Hm2 : 0 <= m2) by lia.
  destruct (shr_fexp_spec m2 e1' loc_Exact Hm2) as [Hshift2 Hnop2].
  set (r2 := shr_fexp F32.prec F32.emax m2 e1' loc_Exact) in *.
  rewrite fexp32 in Hshift2, Hnop2.
  unfold rounded.
  destruct m2 as [|q|q] eqn:Eq2; [| |lia].
  - destruct Hnop2 as [-> _]; [cbn [Zdigits2]; lia | reflexivity].
  - destruct (Z.ltb_spec (Z.pos q) (2 ^ 24)) as [Hq | Hq].
    + pose proof (Zdigits2_le q 24 ltac:(lia) Hq) as Hdle.
      destruct Hnop2 as [-> ->]; [lia|]. reflexivity.
    + assert (Etop : Z.pos q = 2 ^ 24) by lia.
      assert (Ed : Zdigits2 (Z.pos q) = 25)
        by (apply Zdigits2_unique; rewrite Etop; cbn; lia).
      rewrite Ed in Hshift2.
      destruct Hshift2 as [Em3 Ee3]; [lia|].
      replace (Z.max (25 + e1' - 24) (-149) - e1') with 1 in Em3, Ee3 by lia.
      rewrite Em3, Ee3, Etop. reflexivity.
Qed.

Lemma valid_finite (s : bool) (m : positive) (e : Z) :
  F32.valid (S754_finite s m e)
  <-> e = Z.max (Zdigits2 (Z.pos m) + e - 24) (-149) /\ e <= 104.
Proof.
  unfold F32.valid. cbn [valid_binary]. unfold bounded, canonical_mantissa.
  rewrite fexp32, andb_true_iff, Z.eqb_eq, Z.leb_le.
  cbn [Zdigits2]. change (F32.emax - F32.prec) with 104. intuition lia.
Qed.

Lemma rounded_valid (sx : bool) (m e : Z) :
  0 <= m <= 2 ^ 24 -> -149 <= e -> (e = -149 \/ 2 ^ 23 <= m) ->
  F32.valid (rounded sx m e).
Proof.
  intros Hm He Hn. unfold rounded.
  destruct m as [|q|q]; [reflexivity | | lia].
  destruct (Z.ltb_spec (Z.pos q) (2 ^ 24)) as [Hq | Hq].
  - destruct (Z.leb_spec e 104); [|reflexivity].
    apply valid_finite. split; [|assumption].
    pose proof (Zdigits2_le q 24 ltac:(lia) Hq).
    destruct Hn as [-> | Hn]; [lia|].
    assert (24 <= Zdigits2 (Z.pos q)) by (apply Zdigits2_ge; cbn; lia).
    lia.
  - destruct (Z.leb_spec (e + 1) 104); [|reflexivity].
    apply valid_finite. change (Zdigits2 (Z.pos 8388608)) with 24. lia.
Qed.

(** The result of rounding is a binary32 number, provided the mantissa
    comes with at least as many digits as the format keeps. *)
Lemma binary_round_aux_valid (sx : bool) (mx ex : Z) (lx : location) :
  0 <= mx ->
  ex <= fexp F32.prec F32.emax (Zdigits2 mx + ex) ->
  F32.valid (binary_round_aux F32.prec F32.emax sx mx ex lx).
Proof.
  intros Hm Hex.
  destruct (binary_round_aux_form sx mx ex lx Hm Hex)
    as (m2 & Hr & Hm1 & Hn & ->).
  apply rounded_valid; lia.
Qed.

Lemma digits2_pos_iter_xO (m d : positive) :
  Z.pos (digits2_pos (Pos.iter xO m d)) = Z.pos (digits2_pos m) + Z.pos d.
Proof.
  induction d as [|d IH] using Pos.peano_ind.
  - cbn. lia.
  - rewrite Pos.iter_succ. cbn [digits2_pos]. lia.
Qed.

Lemma binary_round_valid (sx : bool) (mx : positive) (ex : Z) :
  F32.valid (binary_round F32.prec F32.emax sx mx ex).
Proof.
  unfold binary_round, shl_align.
  destruct (fexp F32.prec F32.emax (Z.pos (digits2_pos mx) + ex) - ex)
    as [|d|d] eqn:Ed;
    apply binary_round_aux_valid; try lia; cbn [Zdigits2].
  - lia.
  - lia.
  - rewrite digits2_pos_iter_xO.
    replace (Z.pos (digits2_pos mx) + Z.pos d
             + fexp F32.prec F32.emax (Z.pos (digits2_pos mx) + ex))
      with (Z.pos (digits2_pos mx) + ex) by lia.
    lia.
Qed.

Lemma binary_normalize_valid (m e : Z) (szero : bool) :
  F32.valid (binary_normalize F32.prec F32.emax m e szero).
Proof.
  destruct m; cbn [binary_normalize];
    [reflexivity | apply binary_round_valid ..].
Qed.

Lemma of_int_valid (n : Z) : F32.valid (F32.of_int n).
Proof. apply binary_normalize_valid. Qed.

Lemma neg_valid (x : F32.float) : F32.valid x -> F32.valid (F32.neg x).
Proof. now destruct x. Qed.

Lemma abs_valid (x : F32.float) : F32.valid x -> F32.valid (F32.abs x).
Proof. now destruct x. Qed.

Lemma add_valid (x y : F32.float) :
  F32.valid x -> F32.valid y -> F32.valid (F32.add x y).
Proof.
  intros Hx Hy. unfold F32.add.
  destruct x as [sx|sx| |sx mx ex], y as [sy|sy| |sy my ey];
    cbn [SFadd]; try assumption; try reflexivity;
    try (destruct sx, sy; (assumption || reflexivity)).
  apply binary_normalize_valid.
Qed.

Lemma sub_valid (x y : F32.float) :
  F32.valid x -> F32.valid y -> F32.valid (F32.sub x y).
Proof.
  intros Hx Hy. unfold F32.sub.
  destruct x as [sx|sx| |sx mx ex], y as [sy|sy| |sy my ey];
    cbn [SFsub]; try assumption; try reflexivity;
    try (destruct sx, sy; (assumption || reflexivity)).
  apply binary_normalize_valid.
Qed.

Lemma Zdigits2_mul_ge (p q : positive) :
  Zdigits2 (Z.pos p) + Zdigits2 (Z.pos q) - 1 <= Zdigits2 (Z.pos (p * q)).
Proof.
  destruct (Zdigits2_pos_bounds p) as [Hp _].
  destruct (Zdigits2_pos_bounds q) as [Hq _].
  assert (0 < Zdigits2 (Z.pos p)) by (cbn; lia).
  assert (0 < Zdigits2 (Z.pos q)) by (cbn; lia).
  apply Zdigits2_ge. rewrite Pos2Z.inj_mul.
  replace (Zdigits2 (Z.pos p) + Zdigits2 (Z.pos q) - 1 - 1)
    with ((Zdigits2 (Z.pos p) - 1) + (Zdigits2 (Z.pos q) - 1)) by lia.
  rewrite pow2_split by lia.
  apply Z.mul_le_mono_nonneg; try assumption; apply Z.pow_nonneg; lia.
Qed.

Lemma mul_digits (sx sy : bool) (mx my : positive) (ex ey : Z) :
  F32.valid (S754_finite sx mx ex) -> F32.valid (S754_finite sy my ey) ->
  ex + ey <= fexp F32.prec F32.emax (Zdigits2 (Z.pos (mx * my)) + (ex + ey)).
Proof.
  intros Hx Hy. apply valid_finite in Hx, Hy. rewrite fexp32.
  pose proof (Zdigits2_mul_ge mx my).
  assert (0 < Zdigits2 (Z.pos mx)) by (cbn; lia).
  assert (0 < Zdigits2 (Z.pos my)) by (cbn; lia).
  lia.
Qed.

Lemma mul_valid (x y : F32.float) :
  F32.valid x -> F32.valid y -> F32.valid (F32.mul x y).
Proof.
  intros Hx Hy. unfold F32.mul.
  destruct x as [sx|sx| |sx mx ex], y as [sy|sy| |sy my ey];
    cbn [SFmul]; try reflexivity.
  apply binary_round_aux_valid; [lia | now apply (mul_digits sx sy)].
Qed.

(** The quotient computed by the division core has enough digits. *)
Lemma div_core_digits (mx my : positive) (ex ey : Z) :
  let '(q, e', _) := SFdiv_core_binary F32.prec F32.emax (Z.pos mx) ex (Z.pos my) ey in
  0 <= q /\ e' <= fexp F32.prec F32.emax (Zdigits2 q + e')
  /\ exists s r : Z,
       0 <= s /\ e' + s = ex - ey
       /\ Z.pos mx * 2 ^ s = Z.pos my * q + r /\ 0 <= r < Z.pos my.
Proof.
  unfold SFdiv_core_binary.
  set (d1 := Zdigits2 (Z.pos mx)). set (d2 := Zdigits2 (Z.pos my)).
  set (e' := Z.min (fexp F32.prec F32.emax (d1 + ex - (d2 + ey))) (ex - ey)).
  assert (He' : e' = Z.min (Z.max (d1 + ex - (d2 + ey) - 24) (-149)) (ex - ey))
    by reflexivity.
  clearbody e'.
  set (s := ex - ey - e').
  assert (Hs : 0 <= s) by lia.
  set (m' := match s with Z.pos _ => Z.shiftl (Z.pos mx) s | 0 => Z.pos mx
                     | Z.neg _ => 0 end).
  assert (Em' : m' = Z.pos mx * 2 ^ s).
  { subst m'. destruct s as [|p|p] eqn:Es; [lia | | lia].
    now rewrite Z.shiftl_mul_pow2 by lia. }
  pose proof (Z_div_mod m' (Z.pos my) ltac:(lia)) as Hdiv.
  destruct (Z.div_eucl m' (Z.pos my)) as [q r]. destruct Hdiv as [Eq Hr].
  destruct (Zdigits2_pos_bounds mx) as [Hlo1 Hhi1].
  destruct (Zdigits2_pos_bounds my) as [Hlo2 Hhi2].
  fold d1 in Hlo1, Hhi1. fold d2 in Hlo2, Hhi2.
  assert (Hd1 : 0 < d1) by (subst d1; cbn; lia).
  assert (Hd2 : 0 < d2) by (subst d2; cbn; lia).
  assert (Hps : 0 < 2 ^ s) by (apply Z.pow_pos_nonneg; lia).
  assert (Hq : 0 <= q) by nia.
  split; [exact Hq|].
  (* the quotient has at least [d1 + s - d2] digits *)
  assert (Hdq : d1 + s - d2 <= Zdigits2 q).
  { destruct (Z.leb_spec (d1 + s - d2) 0) as [Hsmall | Hbig].
    - pose proof (Zdigits2_nonneg q). lia.
    - destruct q as [|q|q]; [| |lia].
      + exfalso.
        assert (2 ^ d2 <= 2 ^ (d1 - 1 + s)) by (apply Z.pow_le_mono_r; lia).
        rewrite pow2_split in * by lia. nia.
      + apply Zdigits2_ge.
        destruct (Z.leb_spec (2 ^ (d1 + s - d2 - 1)) (Z.pos q)); [assumption|].
        exfalso.
        assert (E2 : 2 ^ (d1 - 1 + s) = 2 ^ (d1 + s - d2 - 1) * 2 ^ d2)
          by (rewrite <- pow2_split by lia; f_equal; lia).
        rewrite pow2_split in E2 by lia.
        assert (Z.pos q + 1 <= 2 ^ (d1 + s - d2 - 1)) by lia.
        nia. }
  split; [rewrite fexp32; lia|].
  exists s, r. repeat split; lia.
Qed.

(** *** Multiplying by 1.0f *)

Lemma mul_one_l (x : F32.float) : F32.valid x -> F32.mul F32.one x = x.
Proof.
  intros Hx. unfold F32.mul, F32.one.
  destruct x as [s|s| |s m e]; cbn [SFmul xorb]; try reflexivity.
  apply valid_finite in Hx. destruct Hx as [Hcan Hmax].
  rewrite binary_round_aux_eq.
  assert (E1 : shr_fexp F32.prec F32.emax (Z.pos (8388608 * m)) (-23 + e) loc_Exact
               = (Build_shr_record (Z.pos m) false false, e)).
  { unfold shr_fexp.
    replace (fexp F32.prec F32.emax (Zdigits2 (Z.pos (8388608 * m)) + (-23 + e))
             - (-23 + e)) with 23.
    - cbv [Pos.mul]. cbn. f_equal. lia.
    - rewrite fexp32. cbn [Zdigits2]. cbv [Pos.mul].
      cbn [digits2_pos]. cbn [Zdigits2] in Hcan. lia. }
  cbv zeta. rewrite E1.
  cbn [fst snd shr_m loc_of_shr_record round_nearest_even].
  assert (E2 : shr_fexp F32.prec F32.emax (Z.pos m) e loc_Exact
               = (Build_shr_record (Z.pos m) false false, e)).
  { unfold shr_fexp.
    replace (fexp F32.prec F32.emax (Zdigits2 (Z.pos m) + e) - e) with 0
      by (rewrite fexp32; lia).
    reflexivity. }
  rewrite E2. cbn [fst snd shr_m].
  destruct (Z.leb_spec e (F32.emax - F32.prec)) as [_|Hgt]; [reflexivity|].
  change (F32.emax - F32.prec) with 104 in Hgt. lia.
Qed.

Lemma div_valid (x y : F32.float) : F32.valid (F32.div x y).
Proof.
  unfold F32.div.
  destruct x as [sx|sx| |sx mx ex], y as [sy|sy| |sy my ey];
    cbn [SFdiv]; try reflexivity.
  pose proof (div_core_digits mx my ex ey) as H.
  destruct (SFdiv_core_binary F32.prec F32.emax (Z.pos mx) ex (Z.pos my) ey)
    as [[q e'] l].
  destruct H as (Hq & He & _). now apply binary_round_aux_valid.
Qed.

(** ** The two PID classes agree *)

(** C10.  With [ki_scale] at its default of [1.0f], [Apply] of the class
    with the [ki_scale] option returns the same command and leaves the
    same state as [Apply] of the class of [fw/simple_pid.h], for every
    configuration, state, input and scale whose stored integral and
    integral limit are binary32 numbers. *)
Theorem pid_apply_equivalent
        (Limit : F32.float -> F32.float -> F32.float -> F32.float)
        (config : PidTypes.Config) (state : PidTypes.State)
        (measured input_desired measured_rate input_desired_rate : F32.float)
        (rate_hz : Z) (kp_scale kd_scale : F32.float) :
  F32.valid (PidTypes.integral state) ->
  F32.valid (PidTypes.ilimit config) ->
  PID.Apply Limit config state
            measured input_desired measured_rate input_desired_rate rate_hz
            (PID.mkApplyOptions kp_scale kd_scale F32.one)
  = SimplePid.Apply Limit config state
            measured input_desired measured_rate input_desired_rate rate_hz
            (SimplePid.mkApplyOptions kp_scale kd_scale).
Proof.
  intros Hint Hlim. unfold PID.Apply, SimplePid.Apply.
  cbn [PID.kp_scale PID.kd_scale PID.ki_scale
       SimplePid.kp_scale SimplePid.kd_scale].
  destruct (negb (F32.eqb (PidTypes.max_desired_rate config) F32.zero)
            && F32.isfinite (PidTypes.desired state));
    cbv zeta;
    match goal with
    | |- context [F32.mul F32.one ?i] =>
        assert (Hv : F32.valid i);
        [ | rewrite (mul_one_l i Hv); reflexivity ]
    end;
    repeat match goal with
      | |- F32.valid (if ?c then _ else _) => destruct c
      | |- F32.valid (F32.neg _) => apply neg_valid
      | |- F32.valid (F32.add _ _) => apply add_valid
      | |- F32.valid (F32.div _ _) => apply div_valid
      | |- F32.valid _ => assumption
      end.
Qed.

(** ** Signs *)

Lemma binary_round_sign (sx : bool) (mx : positive) (ex : Z) :
  match binary_round F32.prec F32.emax sx mx ex with
  | S754_zero s | S754_infinity s | S754_finite s _ _ => s = sx
  | S754_nan => False
  end.
Proof.
  unfold binary_round.
  destruct (shl_align mx ex _) as [mz ez].
  apply binary_round_aux_sign. lia.
Qed.

Lemma binary_normalize_nonneg (m e : Z) :
  0 <= m -> nonneg_float (binary_normalize F32.prec F32.emax m e false).
Proof.
  intros Hm. destruct m as [|q|q]; [reflexivity | | lia].
  cbn [binary_normalize]. exact (binary_round_sign false q e).
Qed.

Lemma max_zero_nonneg (r : F32.float) :
  nonneg_float r -> F32.max F32.zero r = r.
Proof.
  destruct r as [s|s| |s m e]; cbn; intros H; try contradiction;
    subst s; reflexivity.
Qed.

Lemma iter_xO_mul (m d : positive) :
  Z.pos (Pos.iter xO m d) = Z.pos m * 2 ^ Z.pos d.
Proof.
  induction d as [|d IH] using Pos.peano_ind.
  - cbn. lia.
  - rewrite Pos.iter_succ, Pos2Z.inj_succ, Z.pow_succ_r by lia.
    change (Z.pos (Pos.iter xO m d)~0) with (2 * Z.pos (Pos.iter xO m d)).
    lia.
Qed.

(** Aligning a mantissa to a smaller exponent multiplies it by the
    power of two in between. *)
Lemma shl_align_mul (m : positive) (e e' : Z) :
  e' <= e -> Z.pos (fst (shl_align m e e')) = Z.pos m * 2 ^ (e - e').
Proof.
  intros He. unfold shl_align.
  destruct (e' - e) as [|d|d] eqn:Ed; cbn [fst]; [| lia |].
  - replace (e - e') with 0 by lia. lia.
  - rewrite iter_xO_mul. f_equal. f_equal. lia.
Qed.

(** The bounds on the mantissa of a binary32 number. *)
Lemma valid_mantissa (s : bool) (m : positive) (e : Z) :
  F32.valid (S754_finite s m e) ->
  Z.pos m < 2 ^ 24 /\ (-149 < e -> 2 ^ 23 <= Z.pos m).
Proof.
  intros H. apply valid_finite in H. destruct H as [Hcan _].
  destruct (Zdigits2_pos_bounds m) as [Hlo Hhi].
  assert (Hd : 0 < Zdigits2 (Z.pos m)) by (cbn; lia).
  split.
  - apply Z.lt_le_trans with (2 ^ Zdigits2 (Z.pos m)); [assumption|].
    apply Z.pow_le_mono_r; lia.
  - intros He. replace 23 with (Zdigits2 (Z.pos m) - 1) by lia. assumption.
Qed.

(** Subtracting from a non-negative number one that is not greater
    leaves a non-negative number. *)
Lemma sub_nonneg (x c : F32.float) :
  F32.valid x -> F32.valid c ->
  F32.isfinite x = true -> F32.isfinite c = true ->
  F32.signbit x = false ->
  F32.lt x c = false ->
  nonneg_float (F32.sub x c).
Proof.
  intros Vx Vc Fx Fc Sx Hlt. unfold F32.sub, F32.lt, SFltb in *.
  destruct x as [sx|sx| |sx mx ex]; try discriminate;
    destruct c as [sc|sc| |sc mc ec]; try discriminate;
    cbn [F32.signbit] in Sx; subst sx; cbn [SFsub SFcompare] in *.
  - now destruct sc.
  - destruct sc; [reflexivity | discriminate].
  - reflexivity.
  - apply binary_normalize_nonneg. cbn [cond_Zopp].
    destruct sc; cbn [cond_Zopp]; [lia|].
    destruct (valid_mantissa _ _ _ Vx) as [Hx1 Hx2].
    destruct (valid_mantissa _ _ _ Vc) as [Hc1 Hc2].
    apply valid_finite in Vc. destruct Vc as [Vc _].
    rewrite !shl_align_mul by lia.
    destruct (Z.compare_spec ex ec) as [E | Hl | Hg]; try discriminate.
    + subst ec. rewrite Z.min_id, Z.sub_diag. change (2 ^ 0) with 1.
      change (Pos.compare_cont Eq mx mc) with (Pos.compare mx mc) in Hlt.
      destruct (Pos.compare_spec mx mc) as [E | Hl | Hg];
        try discriminate; lia.
    + replace (Z.min ex ec) with ec by lia.
      rewrite Z.sub_diag. change (2 ^ 0) with 1.
      assert (2 * 1 <= 2 ^ (ex - ec)).
      { change (2 * 1) with (2 ^ 1). apply Z.pow_le_mono_r; lia. }
      assert (-149 <= ec) by lia.
      specialize (Hx2 ltac:(lia)). nia.
Qed.

Lemma mul_signbit (x y : F32.float) :
  F32.isfinite x = true -> F32.isfinite y = true ->
  F32.signbit (F32.mul x y) = xorb (F32.signbit x) (F32.signbit y).
Proof.
  intros Fx Fy. unfold F32.mul.
  destruct x as [sx|sx| |sx mx ex]; try discriminate;
    destruct y as [sy|sy| |sy my ey]; try discriminate;
    cbn [SFmul F32.signbit]; try reflexivity.
  pose proof (binary_round_aux_sign (xorb sx sy) (Z.pos (mx * my)) (ex + ey)
                loc_Exact ltac:(lia)) as H.
  destruct (binary_round_aux _ _ _ _ _ _); cbn [F32.signbit];
    (assumption || contradiction).
Qed.

Lemma copysign_signbit (x y : F32.float) :
  F32.copysign x y <> S754_nan ->
  F32.signbit (F32.copysign x y) = F32.signbit y.
Proof. destruct x; cbn; congruence. Qed.

(** ** Torque model *)

(** A current whose magnitude is below a finite cutoff is finite. *)
Lemma below_cutoff_finite (i cutoff : F32.float) :
  F32.isfinite cutoff = true ->
  F32.lt (F32.abs i) cutoff = true -> F32.isfinite i = true.
Proof.
  intros Fc Hlt.
  destruct i as [s|s| |s mi ei]; try reflexivity;
    destruct cutoff as [sc|sc| |sc mc ec]; discriminate.
Qed.

(** The difference [|i| - cutoff] of a current that is not below a
    finite cutoff is not negative, so that [std::max] returns it. *)
Lemma clamp_above_cutoff (i cutoff : F32.float) :
  F32.valid i -> is_nan i = false ->
  F32.valid cutoff -> F32.isfinite cutoff = true ->
  F32.lt (F32.abs i) cutoff = false ->
  F32.max F32.zero (F32.sub (F32.abs i) cutoff) = F32.sub (F32.abs i) cutoff.
Proof.
  intros Vi Ni Vc Fc Hlt.
  destruct (F32.isfinite i) eqn:Fi.
  - apply max_zero_nonneg, sub_nonneg; try assumption.
    + now apply abs_valid.
    + now destruct i.
    + destruct i; try discriminate; reflexivity.
  - destruct i as [s|s| |s mi ei]; try discriminate.
    destruct cutoff as [sc|sc| |sc mc ec]; try discriminate; reflexivity.
Qed.

(** C1.  For a current [i] that is not a NaN and a finite cutoff,
    [current_to_torque] returns [i * torque_constant] when [|i|] is
    below the cutoff, and otherwise the value
    [cutoff * torque_constant + torque_scale * log2f_approx (1 + (|i| -
    cutoff) * current_scale)] carrying the sign of [i], so that the
    result has the sign of [i] unless it is a NaN; in the linear range
    the result has the sign of [i] when the torque constant is a finite
    number with a clear sign bit. *)
Theorem torque_model_current_to_torque
        (log2f_approx : F32.float -> F32.float)
        (m : TorqueModel.t) (i : F32.float) :
  let Kt := TorqueModel.torque_constant_ m in
  let cutoff := TorqueModel.current_cutoff_A_ m in
  let torque := TorqueModel.current_to_torque log2f_approx m i in
  F32.valid i -> is_nan i = false ->
  F32.valid cutoff -> F32.isfinite cutoff = true ->
  (F32.lt (F32.abs i) cutoff = true ->
     torque = F32.mul i Kt
     /\ (F32.isfinite Kt = true -> F32.signbit Kt = false ->
         F32.signbit torque = F32.signbit i))
  /\ (F32.lt (F32.abs i) cutoff = false ->
     torque
     = F32.copysign
         (F32.add (F32.mul cutoff Kt)
                  (F32.mul (TorqueModel.torque_scale_ m)
                     (log2f_approx
                        (F32.add F32.one
                           (F32.mul (F32.sub (F32.abs i) cutoff)
                                    (TorqueModel.current_scale_ m))))))
         i
     /\ (torque <> S754_nan -> F32.signbit torque = F32.signbit i)).
Proof.
  intros Kt cutoff torque Vi Ni Vc Fc.
  subst torque. unfold TorqueModel.current_to_torque. fold Kt cutoff.
  split; intros Hlt; rewrite Hlt.
  - split; [reflexivity|]. intros FK SK.
    pose proof (below_cutoff_finite i cutoff Fc Hlt) as Fi.
    rewrite mul_signbit, SK by assumption. apply xorb_false_r.
  - rewrite (clamp_above_cutoff i cutoff Vi Ni Vc Fc Hlt).
    split; [reflexivity|]. apply copysign_signbit.
Qed.

Lemma torque_model_current_to_torque_witness :
  TorqueModel.current_to_torque (fun x => x) torque_model_sample (F32.of_int (-3))
  = F32.of_int (-3)
  /\ TorqueModel.current_to_torque (fun x => x) torque_model_sample
       (F32.of_int (-12))
     = F32.of_int (-13).
Proof.
  assert (V : forall n, F32.valid (F32.of_int n)) by apply of_int_valid.
  split.
  - destruct (torque_model_current_to_torque (fun x => x) torque_model_sample
                (F32.of_int (-3)) (V _) eq_refl (V _) eq_refl) as [H _].
    destruct (H eq_refl) as [-> _]. reflexivity.
  - destruct (torque_model_current_to_torque (fun x => x) torque_model_sample
                (F32.of_int (-12)) (V _) eq_refl (V _) eq_refl) as [_ H].
    destruct (H eq_refl) as [-> _]. reflexivity.
Defined.

(** A NaN current: the difference [|i| - cutoff] is a NaN, which
    [std::max (0.0f, .)] turns into 0, so that the logarithm is taken
    at [1 + 0 * current_scale]; the formula of the specification takes
    it at a NaN. *)
Lemma current_to_torque_nan (log2f_approx : F32.float -> F32.float)
      (m : TorqueModel.t) :
  TorqueModel.current_to_torque log2f_approx m S754_nan
  = F32.copysign
      (F32.add (F32.mul (TorqueModel.current_cutoff_A_ m)
                        (TorqueModel.torque_constant_ m))
               (F32.mul (TorqueModel.torque_scale_ m)
                  (log2f_approx
                     (F32.add F32.one
                        (F32.mul F32.zero (TorqueModel.current_scale_ m))))))
      S754_nan.
Proof. reflexivity. Qed.

Lemma torque_formula_nan (log2f_approx : F32.float -> F32.float)
      (m : TorqueModel.t) :
  torque_formula log2f_approx m S754_nan
  = F32.copysign
      (F32.add (F32.mul (TorqueModel.current_cutoff_A_ m)
                        (TorqueModel.torque_constant_ m))
               (F32.mul (TorqueModel.torque_scale_ m)
                        (log2f_approx S754_nan)))
      S754_nan.
Proof. reflexivity. Qed.

(** C1 as worded does not hold for every input: for a NaN current the
    code returns the finite torque [cutoff * torque_constant +
    torque_scale * log2f_approx (1 + 0 * current_scale)], which is 11
    for the sample model (the sign of a NaN, which [copysignf] hands on,
    is not represented), where the formula of the claim gives a NaN. *)
Lemma torque_model_nan_current :
  TorqueModel.current_to_torque (fun x => x) torque_model_sample S754_nan
  = F32.of_int 11
  /\ torque_formula (fun x => x) torque_model_sample S754_nan = S754_nan.
Proof. split; reflexivity. Qed.

Lemma pid_apply_equivalent_witness :
  PID.Apply limit_sample pid_config_sample pid_state_sample
            F32.one (F32.of_int 3) F32.zero F32.zero 1000 PID.default_options
  = SimplePid.Apply limit_sample pid_config_sample pid_state_sample
            F32.one (F32.of_int 3) F32.zero F32.zero 1000
            SimplePid.default_options.
Proof.
  apply pid_apply_equivalent; reflexivity.
Defined.

(** ** The real values of the results *)

Lemma bpow_pos (e : Z) : (0 < bpow e)%R.
Proof. apply powerRZ_lt. lra. Qed.

Lemma bpow_add (a b : Z) : bpow (a + b) = (bpow a * bpow b)%R.
Proof. apply powerRZ_add. lra. Qed.

Lemma bpow_IZR (n : Z) : 0 <= n -> bpow n = IZR (2 ^ n).
Proof.
  intros Hn. unfold bpow. destruct n as [|p|p]; [reflexivity | | lia].
  symmetry. apply (Zpower_pos_powerRZ 2 p).
Qed.

Lemma bpow_ge_1 (n : Z) : 0 <= n -> (1 <= bpow n)%R.
Proof.
  intros Hn. rewrite bpow_IZR by assumption. apply IZR_le.
  assert (0 < 2 ^ n) by (apply Z.pow_pos_nonneg; lia). lia.
Qed.

Lemma bpow_le (a b : Z) : a <= b -> (bpow a <= bpow b)%R.
Proof.
  intros Hab. replace b with (a + (b - a)) by lia. rewrite bpow_add.
  pose proof (bpow_pos a). pose proof (bpow_ge_1 (b - a) ltac:(lia)). nra.
Qed.

Lemma bpow_lt_inv (a b : Z) : (bpow a < bpow b)%R -> a < b.
Proof.
  intros H. destruct (Z.ltb_spec a b); [assumption|].
  pose proof (bpow_le b a ltac:(lia)). lra.
Qed.

Lemma sign_factor_xorb (a b : bool) :
  sign_factor (xorb a b) = (sign_factor a * sign_factor b)%R.
Proof. destruct a, b; cbn; lra. Qed.

Lemma Rabs_sign_factor (s : bool) (x : R) :
  Rabs (sign_factor s * x) = Rabs x.
Proof.
  destruct s; cbn.
  - replace (-1 * x)%R with (- x)%R by lra. apply Rabs_Ropp.
  - now rewrite Rmult_1_l.
Qed.

(** The value and the error of [rounded]. *)
Lemma rounded_error (sx : bool) (m1 m2 e : Z) (v : R) :
  m1 <= m2 <= m1 + 1 -> 0 <= m1 < 2 ^ 24 -> e <= 103 ->
  (IZR m1 * bpow e <= v < (IZR m1 + 1) * bpow e)%R ->
  F32.isfinite (rounded sx m2 e) = true
  /\ (Rabs (B2R (rounded sx m2 e) - sign_factor sx * v) <= bpow e)%R.
Proof.
  intros Hm2 Hm1 He Hv.
  assert (EB : F32.isfinite (rounded sx m2 e) = true
               /\ B2R (rounded sx m2 e) = (sign_factor sx * IZR m2 * bpow e)%R).
  { unfold rounded. destruct m2 as [|q|q]; [| |lia].
    - split; [reflexivity|]. cbn [B2R]. lra.
    - destruct (Z.ltb_spec (Z.pos q) (2 ^ 24)) as [Hq|Hq].
      + destruct (Z.leb_spec e 104); [|lia]. split; reflexivity.
      + destruct (Z.leb_spec (e + 1) 104); [|lia]. split; [reflexivity|].
        cbn [B2R]. replace (Z.pos q) with (2 ^ 24) by lia.
        rewrite bpow_add.
        replace (bpow 1) with 2%R by (unfold bpow; simpl; lra).
        change (2 ^ 24) with 16777216. lra. }
  destruct EB as [Hf ->]. split; [exact Hf|].
  replace (sign_factor sx * IZR m2 * bpow e - sign_factor sx * v)%R
    with (sign_factor sx * (IZR m2 * bpow e - v))%R by lra.
  rewrite Rabs_sign_factor.
  pose proof (bpow_pos e) as Hp.
  assert (Hc : m2 = m1 \/ m2 = m1 + 1) by lia.
  apply Rabs_le. destruct Hc as [-> | ->]; [|rewrite plus_IZR]; nra.
Qed.

(** One rounding: the result is finite when the value is below
    [2 ^ 127], and it is off by at most one unit in the last place. *)
Lemma binary_round_aux_error (sx : bool) (mx ex : Z) (lx : location) (v : R) :
  0 <= mx ->
  ex <= fexp F32.prec F32.emax (Zdigits2 mx + ex) ->
  (IZR mx * bpow ex <= v < (IZR mx + 1) * bpow ex)%R ->
  (v < bpow 127)%R ->
  let r := binary_round_aux F32.prec F32.emax sx mx ex lx in
  finite_float r
  /\ (Rabs (B2R r - sign_factor sx * v) <= rel_ulp * v + eta)%R.
Proof.
  intros Hm Hex Hv Hmax r.
  pose proof (binary_round_aux_valid sx mx ex lx Hm Hex) as Hvalid.
  destruct (binary_round_aux_form sx mx ex lx Hm Hex)
    as (m2 & Hr & Hm1 & Hn & E).
  fold r in Hvalid, E. rewrite fexp32 in Hex.
  set (e1 := Z.max (Zdigits2 mx + ex - 24) (-149)) in *.
  set (n := e1 - ex) in *.
  set (m1 := mx / 2 ^ n) in *.
  pose proof (bpow_pos ex) as Hpex. pose proof (bpow_pos e1) as Hpe1.
  assert (Hpn : 0 < 2 ^ n) by (apply Z.pow_pos_nonneg; lia).
  assert (Hv0 : (0 <= v)%R).
  { apply Rle_trans with (IZR mx * bpow ex)%R; [|lra].
    apply Rmult_le_pos; [apply IZR_le; lia | lra]. }
  (* no overflow *)
  assert (He1 : e1 <= 103).
  { destruct mx as [|q|q]; [cbn [Zdigits2] in *; lia | | lia].
    destruct (Zdigits2_pos_bounds q) as [Hlo _].
    assert (Hdg : 0 < Zdigits2 (Z.pos q)) by (cbn; lia).
    assert (Zdigits2 (Z.pos q) - 1 + ex < 127); [|lia].
    apply bpow_lt_inv. apply Rle_lt_trans with v; [|lra].
    apply Rle_trans with (IZR (Z.pos q) * bpow ex)%R; [|lra].
    rewrite bpow_add, bpow_IZR by lia.
    apply Rmult_le_compat_r; [lra | now apply IZR_le]. }
  (* the truncated mantissa encloses the value *)
  assert (Hdiv : m1 * 2 ^ n <= mx < (m1 + 1) * 2 ^ n).
  { subst m1. pose proof (Z.mul_div_le mx (2 ^ n) Hpn).
    pose proof (Z.mul_succ_div_gt mx (2 ^ n) Hpn). lia. }
  assert (Ee1 : bpow e1 = (IZR (2 ^ n) * bpow ex)%R).
  { replace e1 with (n + ex) by lia. now rewrite bpow_add, bpow_IZR by lia. }
  assert (Hencl : (IZR m1 * bpow e1 <= v < (IZR m1 + 1) * bpow e1)%R).
  { destruct Hdiv as [Hd1 Hd2].
    apply IZR_le in Hd1. assert (Hd2' : mx + 1 <= (m1 + 1) * 2 ^ n) by lia.
    apply IZR_le in Hd2'.
    rewrite mult_IZR in Hd1. rewrite mult_IZR, !plus_IZR in Hd2'.
    rewrite Ee1. split; nra. }
  destruct (rounded_error sx m1 m2 e1 v Hr Hm1 He1 Hencl) as [Hfin Herr].
  rewrite <- E in Hfin, Herr.
  split; [split; assumption|].
  apply Rle_trans with (bpow e1); [assumption|].
  unfold rel_ulp, eta. pose proof (bpow_pos (-149)).
  destruct Hn as [-> | Hn].
  - assert (0 <= bpow (-23) * v)%R
      by (apply Rmult_le_pos; [pose proof (bpow_pos (-23)); lra | assumption]).
    lra.
  - apply IZR_le in Hn.
    assert (E23 : (bpow (-23) * IZR (2 ^ 23) = 1)%R).
    { rewrite <- bpow_IZR, <- bpow_add by lia. reflexivity. }
    assert (bpow e1 <= bpow (-23) * v)%R; [|lra].
    pose proof (bpow_pos (-23)).
    apply Rle_trans with (bpow (-23) * (IZR m1 * bpow e1))%R; [|nra].
    apply Rle_trans with (bpow (-23) * (IZR (2 ^ 23) * bpow e1))%R; [nra|].
    apply Rmult_le_compat_l; [lra|]. nra.
Qed.

Lemma rounds_to_exact (r : F32.float) : finite_float r -> rounds_to (B2R r) r.
Proof.
  intros Hf. split; [assumption|].
  replace (B2R r - B2R r)%R with 0%R by lra. rewrite Rabs_R0.
  pose proof (Rabs_pos (B2R r)). pose proof (bpow_pos (-23)).
  pose proof (bpow_pos (-149)). unfold rel_ulp, eta. nra.
Qed.

Lemma rounds_to_zero (s : bool) (v : R) : v = 0%R -> rounds_to v (S754_zero s).
Proof. intros ->. apply (rounds_to_exact (S754_zero s)). now split. Qed.

Lemma binary_round_aux_rounds_to (sx : bool) (mx ex : Z) :
  0 <= mx ->
  ex <= fexp F32.prec F32.emax (Zdigits2 mx + ex) ->
  (IZR mx * bpow ex < bpow 127)%R ->
  rounds_to (sign_factor sx * (IZR mx * bpow ex))
            (binary_round_aux F32.prec F32.emax sx mx ex loc_Exact).
Proof.
  intros Hm Hex Hmax.
  pose proof (bpow_pos ex) as Hp.
  destruct (binary_round_aux_error sx mx ex loc_Exact (IZR mx * bpow ex)
              Hm Hex ltac:(lra) Hmax) as [Hf He].
  split; [assumption|].
  rewrite Rabs_sign_factor, (Rabs_pos_eq (IZR mx * bpow ex)); [assumption|].
  apply Rmult_le_pos; [apply IZR_le; lia | lra].
Qed.

Lemma binary_round_rounds_to (sx : bool) (mx : positive) (ex : Z) :
  (IZR (Z.pos mx) * bpow ex < bpow 127)%R ->
  rounds_to (sign_factor sx * (IZR (Z.pos mx) * bpow ex))
            (binary_round F32.prec F32.emax sx mx ex).
Proof.
  intros Hmax. unfold binary_round, shl_align.
  destruct (fexp F32.prec F32.emax (Z.pos (digits2_pos mx) + ex) - ex)
    as [|d|d] eqn:Ed.
  - apply binary_round_aux_rounds_to; [lia | cbn [Zdigits2]; lia | assumption].
  - apply binary_round_aux_rounds_to; [lia | cbn [Zdigits2]; lia | assumption].
  - assert (Ev : (IZR (Z.pos (Pos.iter xO mx d))
                  * bpow (fexp F32.prec F32.emax (Z.pos (digits2_pos mx) + ex))
                  = IZR (Z.pos mx) * bpow ex)%R).
    { rewrite iter_xO_mul, mult_IZR, <- bpow_IZR by lia.
      rewrite Rmult_assoc, <- bpow_add. do 2 f_equal. lia. }
    rewrite <- Ev. rewrite <- Ev in Hmax.
    apply binary_round_aux_rounds_to; [lia | | assumption].
    cbn [Zdigits2]. rewrite digits2_pos_iter_xO.
    replace (Z.pos (digits2_pos mx) + Z.pos d
             + fexp F32.prec F32.emax (Z.pos (digits2_pos mx) + ex))
      with (Z.pos (digits2_pos mx) + ex) by lia.
    lia.
Qed.

Lemma binary_normalize_rounds_to (m e : Z) (szero : bool) :
  (Rabs (IZR m * bpow e) < bpow 127)%R ->
  rounds_to (IZR m * bpow e) (binary_normalize F32.prec F32.emax m e szero).
Proof.
  intros Hmax. pose proof (bpow_pos e) as Hp.
  destruct m as [|q|q]; cbn [binary_normalize].
  - apply rounds_to_zero. lra.
  - rewrite Rabs_pos_eq in Hmax
      by (apply Rmult_le_pos; [apply IZR_le; lia | lra]).
    pose proof (binary_round_rounds_to false q e Hmax) as H.
    cbn [sign_factor] in H. now rewrite Rmult_1_l in H.
  - change (Z.neg q) with (- Z.pos q) in *. rewrite opp_IZR in *.
    replace (- IZR (Z.pos q) * bpow e)%R
      with (- (IZR (Z.pos q) * bpow e))%R in * by lra.
    rewrite Rabs_Ropp, Rabs_pos_eq in Hmax
      by (apply Rmult_le_pos; [apply IZR_le; lia | lra]).
    pose proof (binary_round_rounds_to true q e Hmax) as H.
    cbn [sign_factor] in H.
    now replace (-1 * (IZR (Z.pos q) * bpow e))%R
      with (- (IZR (Z.pos q) * bpow e))%R in H by lra.
Qed.

Lemma cond_Zopp_IZR (s : bool) (m : Z) :
  IZR (cond_Zopp s m) = (sign_factor s * IZR m)%R.
Proof. destruct s; cbn [cond_Zopp sign_factor]; [rewrite opp_IZR|]; lra. Qed.

(** The aligned mantissa stands for the same number. *)
Lemma aligned_value (s : bool) (m : positive) (e ez : Z) :
  ez <= e ->
  (IZR (cond_Zopp s (Z.pos (fst (shl_align m e ez)))) * bpow ez
   = B2R (S754_finite s m e))%R.
Proof.
  intros He. rewrite cond_Zopp_IZR, shl_align_mul, mult_IZR by assumption.
  rewrite <- bpow_IZR by lia. cbn [B2R].
  replace e with ((e - ez) + ez) at 2 by lia. rewrite bpow_add. lra.
Qed.

Lemma neg_B2R (x : F32.float) : B2R (F32.neg x) = (- B2R x)%R.
Proof. destruct x as [| | |[] m e]; cbn; lra. Qed.

Lemma neg_finite (x : F32.float) : finite_float x -> finite_float (F32.neg x).
Proof. intros [V F]. split; [now apply neg_valid | now destruct x]. Qed.

(** *** The four operations *)

Lemma add_rounds_to (x y : F32.float) :
  finite_float x -> finite_float y ->
  (Rabs (B2R x + B2R y) < bpow 127)%R ->
  rounds_to (B2R x + B2R y) (F32.add x y).
Proof.
  intros [Vx Fx] [Vy Fy] Hmax. unfold F32.add.
  destruct x as [sx|sx| |sx mx ex]; try discriminate;
    destruct y as [sy|sy| |sy my ey]; try discriminate; cbn [SFadd].
  - destruct sx, sy; apply rounds_to_zero; cbn; lra.
  - replace (B2R (S754_zero sx) + B2R (S754_finite sy my ey))%R
      with (B2R (S754_finite sy my ey)) by (cbn; lra).
    apply rounds_to_exact. now split.
  - replace (B2R (S754_finite sx mx ex) + B2R (S754_zero sy))%R
      with (B2R (S754_finite sx mx ex)) by (cbn; lra).
    apply rounds_to_exact. now split.
  - rewrite <- (aligned_value sx mx ex (Z.min ex ey)) in * by lia.
    rewrite <- (aligned_value sy my ey (Z.min ex ey)) in * by lia.
    rewrite <- Rmult_plus_distr_r, <- plus_IZR in *.
    now apply binary_normalize_rounds_to.
Qed.

Lemma sub_rounds_to (x y : F32.float) :
  finite_float x -> finite_float y ->
  (Rabs (B2R x - B2R y) < bpow 127)%R ->
  rounds_to (B2R x - B2R y) (F32.sub x y).
Proof.
  intros [Vx Fx] [Vy Fy] Hmax. unfold F32.sub.
  destruct x as [sx|sx| |sx mx ex]; try discriminate;
    destruct y as [sy|sy| |sy my ey]; try discriminate; cbn [SFsub].
  - destruct sx, sy; apply rounds_to_zero; cbn; lra.
  - replace (B2R (S754_zero sx) - B2R (S754_finite sy my ey))%R
      with (B2R (S754_finite (negb sy) my ey))
      by (destruct sy; cbn; lra).
    apply rounds_to_exact. now split.
  - replace (B2R (S754_finite sx mx ex) - B2R (S754_zero sy))%R
      with (B2R (S754_finite sx mx ex)) by (cbn; lra).
    apply rounds_to_exact. now split.
  - rewrite <- (aligned_value sx mx ex (Z.min ex ey)) in * by lia.
    rewrite <- (aligned_value sy my ey (Z.min ex ey)) in * by lia.
    rewrite <- Rmult_minus_distr_r, <- minus_IZR in *.
    now apply binary_normalize_rounds_to.
Qed.

Lemma mul_rounds_to (x y : F32.float) :
  finite_float x -> finite_float y ->
  (Rabs (B2R x * B2R y) < bpow 127)%R ->
  rounds_to (B2R x * B2R y) (F32.mul x y).
Proof.
  intros [Vx Fx] [Vy Fy] Hmax. unfold F32.mul.
  destruct x as [sx|sx| |sx mx ex]; try discriminate;
    destruct y as [sy|sy| |sy my ey]; try discriminate; cbn [SFmul];
    try (apply rounds_to_zero; cbn; lra).
  assert (E : (B2R (S754_finite sx mx ex) * B2R (S754_finite sy my ey)
               = sign_factor (xorb sx sy)
                 * (IZR (Z.pos (mx * my)) * bpow (ex + ey)))%R).
  { cbn [B2R]. rewrite sign_factor_xorb, Pos2Z.inj_mul, mult_IZR, bpow_add.
    lra. }
  rewrite E in *.
  apply binary_round_aux_rounds_to; [lia | now apply (mul_digits sx sy) |].
  rewrite Rabs_sign_factor, Rabs_pos_eq in Hmax; [assumption|].
  pose proof (bpow_pos (ex + ey)).
  apply Rmult_le_pos; [apply IZR_le; lia | lra].
Qed.

Lemma div_rounds_to (x y : F32.float) :
  finite_float x -> finite_float y -> B2R y <> 0%R ->
  (Rabs (B2R x / B2R y) < bpow 127)%R ->
  rounds_to (B2R x / B2R y) (F32.div x y).
Proof.
  intros [Vx Fx] [Vy Fy] Hy Hmax. unfold F32.div.
  destruct y as [sy|sy| |sy my ey]; try discriminate;
    [cbn in Hy; lra|].
  destruct x as [sx|sx| |sx mx ex]; try discriminate; cbn [SFdiv].
  - apply rounds_to_zero. cbn [B2R]. unfold Rdiv. apply Rmult_0_l.
  - pose proof (div_core_digits mx my ex ey) as H.
    destruct (SFdiv_core_binary F32.prec F32.emax (Z.pos mx) ex (Z.pos my) ey)
      as [[q e'] l].
    destruct H as (Hq & He & s & r & Hs & Ee & Eq & Hr).
    pose proof (bpow_pos ex) as Hpx. pose proof (bpow_pos ey) as Hpy.
    pose proof (bpow_pos e') as Hpe.
    assert (Hmx : (0 < IZR (Z.pos mx))%R) by (apply IZR_lt; lia).
    assert (Hmy : (0 < IZR (Z.pos my))%R) by (apply IZR_lt; lia).
    set (v := (IZR (Z.pos mx) * bpow ex / (IZR (Z.pos my) * bpow ey))%R).
    assert (Ev : (B2R (S754_finite sx mx ex) / B2R (S754_finite sy my ey)
                  = sign_factor (xorb sx sy) * v)%R).
    { subst v. cbn [B2R]. rewrite sign_factor_xorb.
      destruct sx, sy; cbn [sign_factor]; field; lra. }
    assert (Hv0 : (0 <= v)%R).
    { subst v. apply Rmult_le_pos; [nra|].
      apply Rlt_le, Rinv_0_lt_compat. nra. }
    assert (Evq : (v * IZR (Z.pos my) = IZR (Z.pos mx) * IZR (2 ^ s) * bpow e')%R).
    { subst v. rewrite <- bpow_IZR by lia.
      replace ex with (s + e' + ey) by lia. rewrite !bpow_add. field. lra. }
    rewrite <- mult_IZR, Eq, plus_IZR, mult_IZR in Evq.
    destruct Hr as [Hr0 Hr1]. apply IZR_le in Hr0. apply IZR_lt in Hr1.
    rewrite Ev in *. rewrite Rabs_sign_factor, Rabs_pos_eq in Hmax by assumption.
    destruct (binary_round_aux_error (xorb sx sy) q e' l v Hq He) as [Hf Herr];
      [split; nra | assumption |].
    split; [assumption|].
    now rewrite Rabs_sign_factor, (Rabs_pos_eq v).
Qed.

(** *** Error propagation *)

Lemma rel_ulp_value : rel_ulp = (/ 8388608)%R.
Proof. unfold rel_ulp, bpow. simpl. f_equal. lra. Qed.

Lemma eta_small : (0 < eta <= / 1000000000000)%R.
Proof.
  split; [apply bpow_pos|]. unfold eta.
  apply Rle_trans with (bpow (-40)); [apply bpow_le; lia|].
  unfold bpow. simpl. apply Rinv_le_contravar; lra.
Qed.

Lemma bpow_127_large : (1000000 < bpow 127)%R.
Proof.
  apply Rlt_le_trans with (bpow 20); [|apply bpow_le; lia].
  rewrite bpow_IZR by lia. apply IZR_lt. reflexivity.
Qed.

Lemma approx_exact (x : F32.float) : finite_float x -> approx x (B2R x) 0.
Proof.
  intros H. split; [assumption|].
  replace (B2R x - B2R x)%R with 0%R by lra. rewrite Rabs_R0. lra.
Qed.

Lemma approx_weaken (x : F32.float) (v e e' : R) :
  approx x v e -> (e <= e')%R -> approx x v e'.
Proof. intros [Hf He] Hle. split; [assumption | lra]. Qed.

Lemma approx_value (x : F32.float) (v v' e : R) :
  approx x v e -> v = v' -> approx x v' e.
Proof. now intros H <-. Qed.

Lemma approx_neg (x : F32.float) (v e : R) :
  approx x v e -> approx (F32.neg x) (- v) e.
Proof.
  intros [Hf He]. split; [now apply neg_finite|].
  rewrite neg_B2R. replace (- B2R x - - v)%R with (- (B2R x - v))%R by lra.
  now rewrite Rabs_Ropp.
Qed.

Lemma approx_bound (x : F32.float) (v e B : R) :
  approx x v e -> (Rabs v <= B)%R -> (Rabs (B2R x) <= B + e)%R.
Proof.
  intros [_ He] Hv.
  replace (B2R x) with (v + (B2R x - v))%R by lra.
  eapply Rle_trans; [apply Rabs_triang | lra].
Qed.

Lemma approx_add (x y : F32.float) (vx vy ex ey B : R) :
  approx x vx ex -> approx y vy ey ->
  (Rabs (vx + vy) + ex + ey <= B)%R -> (B <= 1000000)%R ->
  approx (F32.add x y) (vx + vy) (ex + ey + rel_ulp * B + eta).
Proof.
  intros [Fx Ex] [Fy Ey] HB Hmax.
  pose proof bpow_127_large. pose proof (bpow_pos (-23)) as Hu.
  fold rel_ulp in Hu.
  assert (Hd : (Rabs (B2R x + B2R y - (vx + vy)) <= ex + ey)%R).
  { replace (B2R x + B2R y - (vx + vy))%R
      with ((B2R x - vx) + (B2R y - vy))%R by lra.
    eapply Rle_trans; [apply Rabs_triang | lra]. }
  assert (Hs : (Rabs (B2R x + B2R y) <= B)%R).
  { replace (B2R x + B2R y)%R
      with ((vx + vy) + (B2R x + B2R y - (vx + vy)))%R by lra.
    eapply Rle_trans; [apply Rabs_triang | lra]. }
  destruct (add_rounds_to x y Fx Fy) as [Ff Hr]; [lra|].
  split; [assumption|].
  replace (B2R (F32.add x y) - (vx + vy))%R
    with ((B2R (F32.add x y) - (B2R x + B2R y))
          + (B2R x + B2R y - (vx + vy)))%R by lra.
  eapply Rle_trans; [apply Rabs_triang|]. nra.
Qed.

Lemma approx_sub (x y : F32.float) (vx vy ex ey B : R) :
  approx x vx ex -> approx y vy ey ->
  (Rabs (vx - vy) + ex + ey <= B)%R -> (B <= 1000000)%R ->
  approx (F32.sub x y) (vx - vy) (ex + ey + rel_ulp * B + eta).
Proof.
  intros [Fx Ex] [Fy Ey] HB Hmax.
  pose proof bpow_127_large. pose proof (bpow_pos (-23)) as Hu.
  fold rel_ulp in Hu.
  assert (Hd : (Rabs (B2R x - B2R y - (vx - vy)) <= ex + ey)%R).
  { replace (B2R x - B2R y - (vx - vy))%R
      with ((B2R x - vx) + - (B2R y - vy))%R by lra.
    eapply Rle_trans; [apply Rabs_triang | rewrite Rabs_Ropp; lra]. }
  assert (Hs : (Rabs (B2R x - B2R y) <= B)%R).
  { replace (B2R x - B2R y)%R
      with ((vx - vy) + (B2R x - B2R y - (vx - vy)))%R by lra.
    eapply Rle_trans; [apply Rabs_triang | lra]. }
  destruct (sub_rounds_to x y Fx Fy) as [Ff Hr]; [lra|].
  split; [assumption|].
  replace (B2R (F32.sub x y) - (vx - vy))%R
    with ((B2R (F32.sub x y) - (B2R x - B2R y))
          + (B2R x - B2R y - (vx - vy)))%R by lra.
  eapply Rle_trans; [apply Rabs_triang|]. nra.
Qed.

Lemma approx_mul (x y : F32.float) (vx vy ex ey Bx By : R) :
  approx x vx ex -> approx y vy ey ->
  (Rabs vx <= Bx)%R -> (Rabs vy <= By)%R ->
  ((Bx + ex) * (By + ey) <= 1000000)%R ->
  approx (F32.mul x y) (vx * vy)
         ((Bx + ex) * ey + By * ex + rel_ulp * ((Bx + ex) * (By + ey)) + eta).
Proof.
  intros Hx Hy HBx HBy Hmax.
  pose proof (approx_bound x vx ex Bx Hx HBx) as Hax.
  pose proof (approx_bound y vy ey By Hy HBy) as Hay.
  destruct Hx as [Fx Ex], Hy as [Fy Ey].
  pose proof bpow_127_large. pose proof (bpow_pos (-23)) as Hu.
  fold rel_ulp in Hu.
  pose proof (Rabs_pos (B2R x)). pose proof (Rabs_pos (B2R y)).
  pose proof (Rabs_pos vy). pose proof (Rabs_pos (B2R x - vx)).
  pose proof (Rabs_pos (B2R y - vy)).
  assert (Hp : (Rabs (B2R x * B2R y) <= (Bx + ex) * (By + ey))%R)
    by (rewrite Rabs_mult; nra).
  assert (Hd : (Rabs (B2R x * B2R y - vx * vy) <= (Bx + ex) * ey + By * ex)%R).
  { replace (B2R x * B2R y - vx * vy)%R
      with (B2R x * (B2R y - vy) + vy * (B2R x - vx))%R by lra.
    eapply Rle_trans; [apply Rabs_triang|]. rewrite !Rabs_mult. nra. }
  destruct (mul_rounds_to x y Fx Fy) as [Ff Hr]; [lra|].
  split; [assumption|].
  replace (B2R (F32.mul x y) - vx * vy)%R
    with ((B2R (F32.mul x y) - B2R x * B2R y)
          + (B2R x * B2R y - vx * vy))%R by lra.
  eapply Rle_trans; [apply Rabs_triang|]. nra.
Qed.

(** Division by a number that is known exactly. *)
Lemma approx_div (x y : F32.float) (vx ex Bx L : R) :
  approx x vx ex -> finite_float y ->
  (Rabs vx <= Bx)%R -> (1 <= L)%R -> (L <= Rabs (B2R y))%R ->
  (Bx + ex <= 1000000)%R ->
  approx (F32.div x y) (vx / B2R y) (ex + rel_ulp * (Bx + ex) + eta).
Proof.
  intros Hx Fy HBx HL Hy Hmax.
  pose proof (approx_bound x vx ex Bx Hx HBx) as Hax.
  destruct Hx as [Fx Ex].
  pose proof bpow_127_large. pose proof (bpow_pos (-23)) as Hu.
  fold rel_ulp in Hu.
  assert (Hy0 : B2R y <> 0%R).
  { intros E. rewrite E, Rabs_R0 in Hy. lra. }
  assert (Hinv : (0 < / Rabs (B2R y) <= 1)%R).
  { split; [apply Rinv_0_lt_compat; lra|].
    rewrite <- Rinv_1. apply Rinv_le_contravar; lra. }
  pose proof (Rabs_pos (B2R x)). pose proof (Rabs_pos (B2R x - vx)).
  assert (Hq : (Rabs (B2R x / B2R y) <= Bx + ex)%R).
  { unfold Rdiv. rewrite Rabs_mult, Rabs_inv. nra. }
  assert (Hd : (Rabs (B2R x / B2R y - vx / B2R y) <= ex)%R).
  { replace (B2R x / B2R y - vx / B2R y)%R
      with ((B2R x - vx) * / B2R y)%R by (field; assumption).
    rewrite Rabs_mult, Rabs_inv. nra. }
  destruct (div_rounds_to x y Fx Fy Hy0) as [Ff Hr]; [lra|].
  split; [assumption|].
  replace (B2R (F32.div x y) - vx / B2R y)%R
    with ((B2R (F32.div x y) - B2R x / B2R y)
          + (B2R x / B2R y - vx / B2R y))%R by lra.
  eapply Rle_trans; [apply Rabs_triang|]. nra.
Qed.

(** ** Clarke and Park round trips *)

Lemma B2R_one : B2R F32.one = 1%R.
Proof. unfold B2R, F32.one, bpow. simpl. lra. Qed.

Lemma B2R_two : B2R Foc.two = 2%R.
Proof. unfold B2R, Foc.two, bpow. simpl. lra. Qed.

Lemma B2R_three : B2R Foc.three = 3%R.
Proof. unfold B2R, Foc.three, bpow. simpl. lra. Qed.

Lemma finite_one : finite_float F32.one.
Proof. now split. Qed.

Lemma finite_two : finite_float Foc.two.
Proof. now split. Qed.

Lemma finite_three : finite_float Foc.three.
Proof. now split. Qed.

Lemma Rabs_le_inv (x b : R) : (Rabs x <= b)%R -> (- b <= x <= b)%R.
Proof. unfold Rabs. destruct (Rcase_abs x); lra. Qed.

Lemma clarke_round_trip (kSqrt3 x y : F32.float) :
  finite_float kSqrt3 -> (17 / 10 <= B2R kSqrt3 <= 18 / 10)%R ->
  finite_float x -> finite_float y ->
  (Rabs (B2R x) <= 4)%R -> (Rabs (B2R y) <= 4)%R ->
  let '(a, b, c) := Foc.InverseClarkTransform kSqrt3 x y in
  let '(x', y') := Foc.ClarkTransform kSqrt3 a b c in
  approx x' (B2R x) (/ 100000) /\ approx y' (B2R y) (/ 100000).
Proof.
  intros Fk HK Fx Fy HX HY. unfold Foc.InverseClarkTransform, Foc.ClarkTransform.
  set (K := B2R kSqrt3) in *. set (X := B2R x) in *. set (Y := B2R y) in *.
  apply Rabs_le_inv in HX, HY.
  pose proof eta_small as Heta. pose proof rel_ulp_value as Hu.
  assert (HP : (- (72 / 10) <= K * Y <= 72 / 10)%R) by nra.
  set (P := (K * Y)%R) in *.
  (* kSqrt3 * y *)
  assert (H1 : approx (F32.mul kSqrt3 y) P (/ 1000000)).
  { eapply approx_weaken.
    - apply (approx_mul kSqrt3 y K Y 0 0 (18 / 10) 4);
        [now apply approx_exact | now apply approx_exact
        | apply Rabs_le; lra | apply Rabs_le; lra | lra].
    - rewrite Hu. lra. }
  assert (Hnx : approx (F32.neg x) (- X) 0)
    by (apply approx_neg; now apply approx_exact).
  (* b and c *)
  assert (H2 : approx (F32.add (F32.neg x) (F32.mul kSqrt3 y))
                      (- X + P) (3 / 1000000)).
  { eapply approx_weaken.
    - apply (approx_add _ _ _ _ _ _ 12 Hnx H1); [|lra].
      assert (Rabs (- X + P) <= 112 / 10)%R by (apply Rabs_le; lra). lra.
    - rewrite Hu. lra. }
  assert (Hb : approx (F32.div (F32.add (F32.neg x) (F32.mul kSqrt3 y)) Foc.two)
                      ((- X + P) / 2) (5 / 1000000)).
  { rewrite <- B2R_two. eapply approx_weaken.
    - apply (approx_div _ _ _ _ 12 2 H2 finite_two);
        [apply Rabs_le; lra | lra | rewrite B2R_two, Rabs_pos_eq; lra | lra].
    - rewrite Hu. lra. }
  assert (H3 : approx (F32.sub (F32.neg x) (F32.mul kSqrt3 y))
                      (- X - P) (3 / 1000000)).
  { eapply approx_weaken.
    - apply (approx_sub _ _ _ _ _ _ 12 Hnx H1); [|lra].
      assert (Rabs (- X - P) <= 112 / 10)%R by (apply Rabs_le; lra). lra.
    - rewrite Hu. lra. }
  assert (Hc : approx (F32.div (F32.sub (F32.neg x) (F32.mul kSqrt3 y)) Foc.two)
                      ((- X - P) / 2) (5 / 1000000)).
  { rewrite <- B2R_two. eapply approx_weaken.
    - apply (approx_div _ _ _ _ 12 2 H3 finite_two);
        [apply Rabs_le; lra | lra | rewrite B2R_two, Rabs_pos_eq; lra | lra].
    - rewrite Hu. lra. }
  set (b := F32.div (F32.add (F32.neg x) (F32.mul kSqrt3 y)) Foc.two) in *.
  set (c := F32.div (F32.sub (F32.neg x) (F32.mul kSqrt3 y)) Foc.two) in *.
  split.
  - (* x *)
    assert (H4 : approx (F32.mul Foc.two x) (2 * X) (1 / 1000000)).
    { eapply approx_weaken.
      - apply (approx_mul Foc.two x 2 X 0 0 2 4);
          [rewrite <- B2R_two; apply approx_exact, finite_two
          | now apply approx_exact
          | rewrite Rabs_pos_eq; lra | apply Rabs_le; lra | lra].
      - rewrite Hu. lra. }
    assert (H5 : approx (F32.sub (F32.mul Foc.two x) b)
                        (2 * X - (- X + P) / 2) (8 / 1000000)).
    { eapply approx_weaken.
      - apply (approx_sub _ _ _ _ _ _ 14 H4 Hb); [|lra].
        assert (Rabs (2 * X - (- X + P) / 2) <= 136 / 10)%R
          by (apply Rabs_le; lra). lra.
      - rewrite Hu. lra. }
    assert (H6 : approx (F32.sub (F32.sub (F32.mul Foc.two x) b) c)
                        (3 * X) (15 / 1000000)).
    { eapply approx_weaken.
      - eapply approx_value.
        + apply (approx_sub _ _ _ _ _ _ 13 H5 Hc); [|lra].
          assert (Rabs (2 * X - (- X + P) / 2 - (- X - P) / 2) <= 12)%R
            by (apply Rabs_le; lra). lra.
        + lra.
      - rewrite Hu. lra. }
    assert (H7 : approx (F32.div F32.one Foc.three) (/ 3) (2 / 10000000)).
    { eapply approx_weaken.
      - eapply approx_value.
        + apply (approx_div F32.one Foc.three 1 0 1 3);
            [rewrite <- B2R_one; apply approx_exact, finite_one
            | apply finite_three | rewrite Rabs_pos_eq; lra | lra
            | rewrite B2R_three, Rabs_pos_eq; lra | lra].
        + rewrite B2R_three. lra.
      - rewrite Hu. lra. }
    eapply approx_weaken.
    + eapply approx_value.
      * apply (approx_mul _ _ _ _ _ _ 12 (/ 3) H6 H7);
          [apply Rabs_le; lra | rewrite Rabs_pos_eq; lra | lra].
      * lra.
    + rewrite Hu. lra.
  - (* y *)
    assert (H4 : approx (F32.sub b c) P (12 / 1000000)).
    { eapply approx_weaken.
      - eapply approx_value.
        + apply (approx_sub _ _ _ _ _ _ 8 Hb Hc); [|lra].
          assert (Rabs ((- X + P) / 2 - (- X - P) / 2) <= 72 / 10)%R
            by (apply Rabs_le; lra). lra.
        + lra.
      - rewrite Hu. lra. }
    assert (H5 : approx (F32.div F32.one kSqrt3) (/ K) (2 / 10000000)).
    { eapply approx_weaken.
      - eapply approx_value.
        + apply (approx_div F32.one kSqrt3 1 0 1 (17 / 10));
            [rewrite <- B2R_one; apply approx_exact, finite_one
            | assumption | rewrite Rabs_pos_eq; lra | lra
            | fold K; rewrite Rabs_pos_eq; lra | lra].
        + fold K. lra.
      - rewrite Hu. lra. }
    assert (HiK : (0 < / K <= 10 / 17)%R).
    { split; [apply Rinv_0_lt_compat; lra|].
      replace (10 / 17)%R with (/ (17 / 10))%R by lra.
      apply Rinv_le_contravar; lra. }
    eapply approx_weaken.
    + eapply approx_value.
      * apply (approx_mul _ _ _ _ _ _ (72 / 10) (10 / 17) H4 H5);
          [apply Rabs_le; lra | rewrite Rabs_pos_eq; lra | lra].
      * unfold P. field. lra.
    + rewrite Hu. lra.
Qed.

Lemma square_bound (t : R) : (t * t <= 32)%R -> (- (57 / 10) <= t <= 57 / 10)%R.
Proof.
  intros H. split.
  - destruct (Rle_dec (- (57 / 10)) t) as [|Hn]; [assumption|].
    exfalso. apply Rnot_le_lt in Hn.
    assert ((57 / 10) * (57 / 10) <= t * t)%R by nra. lra.
  - destruct (Rle_dec t (57 / 10)) as [|Hn]; [assumption|].
    exfalso. apply Rnot_le_lt in Hn.
    assert ((57 / 10) * (57 / 10) <= t * t)%R by nra. lra.
Qed.

Lemma rotation_bound (C S D Q : R) :
  (C * C + S * S = 1)%R -> (- 4 <= D <= 4)%R -> (- 4 <= Q <= 4)%R ->
  (Rabs (C * D - S * Q) <= 57 / 10)%R /\ (Rabs (C * Q + S * D) <= 57 / 10)%R.
Proof.
  intros H1 HD HQ.
  assert (E : ((C * D - S * Q) * (C * D - S * Q)
               + (C * Q + S * D) * (C * Q + S * D)
               = (C * C + S * S) * (D * D + Q * Q))%R) by ring.
  rewrite H1, Rmult_1_l in E.
  assert (HDQ : (D * D + Q * Q <= 32)%R) by nra.
  set (a := (C * D - S * Q)%R) in *. set (b := (C * Q + S * D)%R) in *.
  assert (0 <= a * a)%R by nra. assert (0 <= b * b)%R by nra.
  split; apply Rabs_le, square_bound; lra.
Qed.

Lemma park_round_trip (theta : R) (sc : Foc.SinCos) (d q : F32.float) :
  approx (Foc.s sc) (sin theta) rel_ulp ->
  approx (Foc.c sc) (cos theta) rel_ulp ->
  finite_float d -> finite_float q ->
  (Rabs (B2R d) <= 4)%R -> (Rabs (B2R q) <= 4)%R ->
  let '(x, y) := Foc.InverseParkTransform sc d q in
  let '(d', q') := Foc.ParkTransform sc x y in
  approx d' (B2R d) (/ 100000) /\ approx q' (B2R q) (/ 100000).
Proof.
  intros Hs Hc Fd Fq HD HQ. unfold Foc.InverseParkTransform, Foc.ParkTransform.
  set (D := B2R d) in *. set (Q := B2R q) in *.
  pose proof (sin2_cos2 theta) as H1. unfold Rsqr in H1.
  pose proof (SIN_bound theta) as HS. pose proof (COS_bound theta) as HC.
  set (S := sin theta) in *. set (C := cos theta) in *.
  apply Rabs_le_inv in HD, HQ.
  pose proof eta_small as Heta. pose proof rel_ulp_value as Hu.
  destruct (rotation_bound C S D Q ltac:(lra) HD HQ) as [Bx By].
  pose proof (approx_exact d Fd) as Hd. pose proof (approx_exact q Fq) as Hq.
  fold D in Hd. fold Q in Hq.
  assert (Hprod : forall (t v : F32.float) (T V : R),
             approx t T rel_ulp -> approx v V 0 ->
             (-1 <= T <= 1)%R -> (-4 <= V <= 4)%R ->
             approx (F32.mul t v) (T * V) (96 / 100000000)).
  { intros t v T V Ht Hv HT HV. eapply approx_weaken.
    - apply (approx_mul t v T V _ _ 1 4 Ht Hv);
        [apply Rabs_le; lra | apply Rabs_le; lra | rewrite Hu; lra].
    - rewrite Hu. lra. }
  assert (Hx : approx (F32.sub (F32.mul (Foc.c sc) d) (F32.mul (Foc.s sc) q))
                      (C * D - S * Q) (27 / 10000000)).
  { eapply approx_weaken.
    - apply (approx_sub _ _ _ _ _ _ (571 / 100)
               (Hprod _ _ _ _ Hc Hd HC HD) (Hprod _ _ _ _ Hs Hq HS HQ)); lra.
    - rewrite Hu. lra. }
  assert (Hy : approx (F32.add (F32.mul (Foc.c sc) q) (F32.mul (Foc.s sc) d))
                      (C * Q + S * D) (27 / 10000000)).
  { eapply approx_weaken.
    - apply (approx_add _ _ _ _ _ _ (571 / 100)
               (Hprod _ _ _ _ Hc Hq HC HQ) (Hprod _ _ _ _ Hs Hd HS HD)); lra.
    - rewrite Hu. lra. }
  set (x := F32.sub (F32.mul (Foc.c sc) d) (F32.mul (Foc.s sc) q)) in *.
  set (y := F32.add (F32.mul (Foc.c sc) q) (F32.mul (Foc.s sc) d)) in *.
  assert (Hrot : forall (t v : F32.float) (T V : R),
             approx t T rel_ulp -> approx v V (27 / 10000000) ->
             (-1 <= T <= 1)%R -> (Rabs V <= 57 / 10)%R ->
             approx (F32.mul t v) (T * V) (41 / 10000000)).
  { intros t v T V Ht Hv HT HV. eapply approx_weaken.
    - apply (approx_mul t v T V _ _ 1 (57 / 10) Ht Hv);
        [apply Rabs_le; lra | assumption | rewrite Hu; lra].
    - rewrite Hu. lra. }
  split.
  - eapply approx_weaken.
    + eapply approx_value.
      * apply (approx_add _ _ _ _ _ _ (41 / 10)
                 (Hrot _ _ _ _ Hc Hx HC Bx) (Hrot _ _ _ _ Hs Hy HS By));
          [|lra].
        replace (C * (C * D - S * Q) + S * (C * Q + S * D))%R
          with ((C * C + S * S) * D)%R by ring.
        replace (C * C + S * S)%R with 1%R by lra.
        assert (Rabs (1 * D) <= 4)%R by (apply Rabs_le; lra). lra.
      * replace (C * (C * D - S * Q) + S * (C * Q + S * D))%R
          with ((C * C + S * S) * D)%R by ring.
        replace (C * C + S * S)%R with 1%R by lra. lra.
    + rewrite Hu. lra.
  - eapply approx_weaken.
    + eapply approx_value.
      * apply (approx_sub _ _ _ _ _ _ (41 / 10)
                 (Hrot _ _ _ _ Hc Hy HC By) (Hrot _ _ _ _ Hs Hx HS Bx));
          [|lra].
        replace (C * (C * Q + S * D) - S * (C * D - S * Q))%R
          with ((C * C + S * S) * Q)%R by ring.
        replace (C * C + S * S)%R with 1%R by lra.
        assert (Rabs (1 * Q) <= 4)%R by (apply Rabs_le; lra). lra.
      * replace (C * (C * Q + S * D) - S * (C * D - S * Q))%R
          with ((C * C + S * S) * Q)%R by ring.
        replace (C * C + S * S)%R with 1%R by lra. lra.
    + rewrite Hu. lra.
Qed.

(** C6 (as amended).  For binary32 inputs of magnitude at most 4, with
    [kSqrt3] a binary32 number between 1.7 and 1.8,
    [InverseClarkTransform] followed by [ClarkTransform] returns finite
    numbers within [1e-5] of [(x, y)]; and for every angle [theta] and
    every [SinCos] whose components are within [2 ^ -23] of the sine and
    the cosine of [theta], [InverseParkTransform] followed by
    [ParkTransform] with that [SinCos] returns finite numbers within
    [1e-5] of [(d, q)]. *)
Theorem foc_round_trip :
  (forall kSqrt3 x y : F32.float,
      finite_float kSqrt3 -> (17 / 10 <= B2R kSqrt3 <= 18 / 10)%R ->
      finite_float x -> finite_float y ->
      (Rabs (B2R x) <= 4)%R -> (Rabs (B2R y) <= 4)%R ->
      let '(a, b, c) := Foc.InverseClarkTransform kSqrt3 x y in
      let '(x', y') := Foc.ClarkTransform kSqrt3 a b c in
      finite_float x' /\ finite_float y'
      /\ (Rabs (B2R x' - B2R x) <= / 100000)%R
      /\ (Rabs (B2R y' - B2R y) <= / 100000)%R)
  /\ (forall (theta : R) (sc : Foc.SinCos) (d q : F32.float),
      finite_float (Foc.s sc) -> finite_float (Foc.c sc) ->
      (Rabs (B2R (Foc.s sc) - sin theta) <= bpow (-23))%R ->
      (Rabs (B2R (Foc.c sc) - cos theta) <= bpow (-23))%R ->
      finite_float d -> finite_float q ->
      (Rabs (B2R d) <= 4)%R -> (Rabs (B2R q) <= 4)%R ->
      let '(x, y) := Foc.InverseParkTransform sc d q in
      let '(d', q') := Foc.ParkTransform sc x y in
      finite_float d' /\ finite_float q'
      /\ (Rabs (B2R d' - B2R d) <= / 100000)%R
      /\ (Rabs (B2R q' - B2R q) <= / 100000)%R).
Proof.
  split.
  - intros kSqrt3 x y Fk HK Fx Fy HX HY.
    pose proof (clarke_round_trip kSqrt3 x y Fk HK Fx Fy HX HY) as H.
    unfold Foc.InverseClarkTransform, Foc.ClarkTransform in *.
    destruct H as [[F1 E1] [F2 E2]]. auto.
  - intros theta sc d q Fs Fc Hs Hc Fd Fq HD HQ.
    pose proof (park_round_trip theta sc d q (conj Fs Hs) (conj Fc Hc)
                  Fd Fq HD HQ) as H.
    unfold Foc.InverseParkTransform, Foc.ParkTransform in *.
    destruct H as [[F1 E1] [F2 E2]]. auto.
Qed.

Lemma foc_round_trip_witness :
  (let '(a, b, c) :=
     Foc.InverseClarkTransform kSqrt3_sample F32.one Foc.two in
   let '(x', y') := Foc.ClarkTransform kSqrt3_sample a b c in
   (Rabs (B2R x' - B2R F32.one) <= / 100000)%R
   /\ (Rabs (B2R y' - B2R Foc.two) <= / 100000)%R)
  /\ (let '(x, y) :=
        Foc.InverseParkTransform sincos_zero_angle F32.one Foc.two in
      let '(d', q') := Foc.ParkTransform sincos_zero_angle x y in
      (Rabs (B2R d' - B2R F32.one) <= / 100000)%R
      /\ (Rabs (B2R q' - B2R Foc.two) <= / 100000)%R).
Proof.
  destruct foc_round_trip as [Hclarke Hpark].
  assert (F1 : finite_float F32.one) by (now split).
  assert (F2 : finite_float Foc.two) by (now split).
  assert (H1 : (Rabs (B2R F32.one) <= 4)%R)
    by (rewrite B2R_one, Rabs_pos_eq; lra).
  assert (H2 : (Rabs (B2R Foc.two) <= 4)%R)
    by (rewrite B2R_two, Rabs_pos_eq; lra).
  split.
  - assert (Fk : finite_float kSqrt3_sample) by (now split).
    assert (HK : (17 / 10 <= B2R kSqrt3_sample <= 18 / 10)%R)
      by (unfold B2R, kSqrt3_sample, bpow; simpl; lra).
    pose proof (Hclarke kSqrt3_sample F32.one Foc.two Fk HK F1 F2 H1 H2) as H.
    unfold Foc.InverseClarkTransform, Foc.ClarkTransform in *.
    destruct H as (_ & _ & E1 & E2). auto.
  - assert (F0 : finite_float F32.zero) by (now split).
    assert (Hs : (Rabs (B2R (Foc.s sincos_zero_angle) - sin 0) <= bpow (-23))%R).
    { rewrite sin_0. cbn [B2R Foc.s sincos_zero_angle F32.zero].
      rewrite Rminus_diag, Rabs_R0. apply Rlt_le, bpow_pos. }
    assert (Hc : (Rabs (B2R (Foc.c sincos_zero_angle) - cos 0) <= bpow (-23))%R).
    { rewrite cos_0. cbn [Foc.c sincos_zero_angle]. rewrite B2R_one.
      rewrite Rminus_diag, Rabs_R0. apply Rlt_le, bpow_pos. }
    pose proof (Hpark 0%R sincos_zero_angle F32.one Foc.two F0 F1 Hs Hc
                  F1 F2 H1 H2) as H.
    unfold Foc.InverseParkTransform, Foc.ParkTransform in *.
    destruct H as (_ & _ & E1 & E2). auto.
Defined.

(** C6 as worded does not hold: the round trip of
    [x = 128.0000457763671875] with [y = 0] comes back one unit in the
    last place higher, which at this magnitude is [2 ^ -16], more than
    [1e-5]. *)
Lemma clarke_round_trip_fails_above_128 :
  fst (let '(a, b, c) :=
         Foc.InverseClarkTransform kSqrt3_sample x_128_sample F32.zero in
       Foc.ClarkTransform kSqrt3_sample a b c)
  = S754_finite false 8388612 (-16)
  /\ ~ (Rabs (B2R (S754_finite false 8388612 (-16)) - B2R x_128_sample)
        <= / 100000)%R.
Proof.
  split; [vm_compute; reflexivity|].
  unfold B2R, x_128_sample, bpow, sign_factor. simpl.
  intros H. apply Rabs_le_inv in H. lra.
Qed.
(** ** The software quadrature decoder *)

Lemma pin_state_cases (a b : bool) :
  pin_state a b = match a, b with
                  | false, false => 0 | true, false => 1
                  | false, true => 2 | true, true => 3
                  end.
Proof. now destruct a, b. Qed.

Lemma quadrature_sum (v d cpr : Z) :
  0 < cpr < 2 ^ 31 -> 0 <= v < cpr -> -1 <= d <= 1 ->
  u32 (v + d + cpr) mod cpr = (v + d) mod cpr.
Proof.
  intros Hc Hv Hd. unfold u32, wrap.
  rewrite (Z.mod_small (v + d + cpr)) by lia.
  replace (v + d + cpr) with (v + d + 1 * cpr) by lia.
  apply Z.mod_add. lia.
Qed.

Ltac eval_tables :=
  repeat match goal with
    | |- context [nth ?n ?t 0] =>
        let v := eval vm_compute in (nth n t 0) in change (nth n t 0) with v
    | |- context [u8 ?x] =>
        let v := eval vm_compute in (u8 x) in change (u8 x) with v
    | |- context [Z.lxor ?x ?y] =>
        let v := eval vm_compute in (Z.lxor x y) in
        change (Z.lxor x y) with v
    end.

(** One interrupt, with the truncations resolved: the tables are read
    at four times the old pin state plus the new one. *)
Lemma quadrature_callback_eq (config_ : Quadrature.Config)
      (st : Quadrature.Status) (a b : bool) :
  0 < Quadrature.cpr config_ < 2 ^ 31 ->
  quadrature_ok config_ st ->
  let idx := Z.to_nat (4 * Quadrature.pins st + pin_state a b) in
  Stm32Quadrature.ISR_Callback config_ st a b
  = Quadrature.mkStatus
      (Quadrature.active st) (pin_state a b)
      ((Quadrature.value st + nth idx Stm32Quadrature.kQuadUpdate 0)
       mod Quadrature.cpr config_)
      (u16 (Quadrature.error st + nth idx Stm32Quadrature.kQuadError 0))
  /\ quadrature_ok config_ (Stm32Quadrature.ISR_Callback config_ st a b).
Proof.
  intros Hc (Hp & Hv & He) idx.
  assert (Hold : Quadrature.pins st = 0 \/ Quadrature.pins st = 1
                 \/ Quadrature.pins st = 2 \/ Quadrature.pins st = 3) by lia.
  assert (Hmod : forall d, 0 <= (Quadrature.value st + d)
                                mod Quadrature.cpr config_
                           < Quadrature.cpr config_)
    by (intros; apply Z.mod_pos_bound; lia).
  assert (He2 : forall d, 0 <= u16 (Quadrature.error st + d) < 65536)
    by (intros; apply Z.mod_pos_bound; reflexivity).
  subst idx. unfold Stm32Quadrature.ISR_Callback, quadrature_ok.
  cbn [Quadrature.pins Quadrature.value Quadrature.error].
  fold (pin_state a b). rewrite pin_state_cases.
  destruct Hold as [-> | [-> | [-> | ->]]]; destruct a, b; eval_tables;
    rewrite ?quadrature_sum by lia;
    (split; [reflexivity | repeat split; try lia; apply Hmod || apply He2]).
Qed.

(** X2.  For a count per revolution between 1 and
    [2 ^ 31 - 1], one [Stm32Quadrature::ISR_Callback] on a status that
    holds two pin bits and a count below [cpr] keeps it so, stores the
    new pin state, and: leaves count and error alone when no pin
    changed; leaves the count alone and adds one to the error counter
    (modulo [2 ^ 16]) when both pins changed; moves the count by one up
    or down modulo [cpr], without touching the error counter, when one
    pin changed. *)
Theorem quadrature_step (config_ : Quadrature.Config)
        (st : Quadrature.Status) (a b : bool) :
  0 < Quadrature.cpr config_ < 2 ^ 31 ->
  quadrature_ok config_ st ->
  let st' := Stm32Quadrature.ISR_Callback config_ st a b in
  let old := Quadrature.pins st in
  let new := pin_state a b in
  quadrature_ok config_ st'
  /\ Quadrature.pins st' = new
  /\ Quadrature.active st' = Quadrature.active st
  /\ (new = old ->
      Quadrature.value st' = Quadrature.value st
      /\ Quadrature.error st' = Quadrature.error st)
  /\ (Z.lxor old new = 3 ->
      Quadrature.value st' = Quadrature.value st
      /\ Quadrature.error st' = u16 (Quadrature.error st + 1))
  /\ (Z.lxor old new = 1 \/ Z.lxor old new = 2 ->
      Quadrature.error st' = Quadrature.error st
      /\ exists d, (d = 1 \/ d = -1)
                   /\ Quadrature.value st'
                      = (Quadrature.value st + d) mod Quadrature.cpr config_).
Proof.
  intros Hc Hok st' old new.
  destruct (quadrature_callback_eq config_ st a b Hc Hok) as [E Hok'].
  fold st' in E, Hok'. destruct Hok as (Hp & Hv & He).
  assert (Hid : Quadrature.value st mod Quadrature.cpr config_
                = Quadrature.value st) by (apply Z.mod_small; lia).
  assert (He1 : u16 (Quadrature.error st) = Quadrature.error st)
    by (apply Z.mod_small; assumption).
  assert (Hold : old = 0 \/ old = 1 \/ old = 2 \/ old = 3) by (subst old; lia).
  split; [assumption|]. rewrite E. clear E Hok'.
  cbn [Quadrature.pins Quadrature.value Quadrature.error Quadrature.active].
  split; [reflexivity|]. split; [reflexivity|].
  fold old. subst new. rewrite pin_state_cases.
  destruct Hold as [-> | [-> | [-> | ->]]]; destruct a, b; eval_tables;
    rewrite ?Z.add_0_r, ?Hid, ?He1;
    repeat split; try lia; try reflexivity;
    try ((exists 1; split; [now left | reflexivity])
         || (exists (-1); split; [now right | reflexivity])).
Qed.

Lemma quadrature_step_witness :
  quadrature_ok quadrature_config_sample
    (Stm32Quadrature.ISR_Callback quadrature_config_sample quadrature_sample
                                  true false).
Proof.
  assert (Hc : 0 < Quadrature.cpr quadrature_config_sample < 2 ^ 31)
    by (cbn; lia).
  assert (Hok : quadrature_ok quadrature_config_sample quadrature_sample)
    by (unfold quadrature_ok; cbn; lia).
  exact (proj1 (quadrature_step quadrature_config_sample quadrature_sample
                  true false Hc Hok)).
Defined.

Lemma quadrature_run_ok (config_ : Quadrature.Config) :
  0 < Quadrature.cpr config_ < 2 ^ 31 ->
  forall (levels : list (bool * bool)) (s : Quadrature.Status),
    quadrature_ok config_ s ->
    quadrature_ok config_ (Stm32Quadrature.callbacks config_ levels s).
Proof.
  intros Hc. induction levels as [|[a b] levels IH]; intros s Hs; [exact Hs|].
  apply IH. now apply quadrature_callback_eq.
Qed.

(** X3.  After any run of interrupts the count is the
    count before plus the sum of the [kQuadUpdate] entries of the
    transitions, modulo [cpr], and the error counter has risen by the
    sum of their [kQuadError] entries, modulo [2 ^ 16].  In particular,
    from the pin state 00 the sequence 01, 11, 10, 00 (pin A leading)
    adds four to the count, the sequence 10, 11, 01, 00 (pin B leading)
    subtracts four, and neither touches the error counter. *)
Theorem quadrature_run (config_ : Quadrature.Config) :
  0 < Quadrature.cpr config_ < 2 ^ 31 ->
  (forall (levels : list (bool * bool)) (st : Quadrature.Status),
      quadrature_ok config_ st ->
      Stm32Quadrature.callbacks config_ levels st
      = Quadrature.mkStatus
          (Quadrature.active st)
          (quadrature_last (Quadrature.pins st) levels)
          ((Quadrature.value st
            + quadrature_count (Quadrature.pins st) levels)
           mod Quadrature.cpr config_)
          (u16 (Quadrature.error st
                + quadrature_glitches (Quadrature.pins st) levels)))
  /\ quadrature_count 0 [(true, false); (true, true); (false, true);
                         (false, false)] = 4
  /\ quadrature_count 0 [(false, true); (true, true); (true, false);
                         (false, false)] = -4
  /\ quadrature_glitches 0 [(true, false); (true, true); (false, true);
                            (false, false)] = 0
  /\ quadrature_glitches 0 [(false, true); (true, true); (true, false);
                            (false, false)] = 0.
Proof.
  intros Hc. split; [|repeat split; reflexivity].
  induction levels as [|[a b] levels IH]; intros st Hok.
  - destruct st as [act p v e]. destruct Hok as (Hp & Hv & He).
    cbn in *. rewrite !Z.add_0_r.
    f_equal; symmetry; apply Z.mod_small; assumption.
  - destruct (quadrature_callback_eq config_ st a b Hc Hok) as [E Hok'].
    change (Stm32Quadrature.callbacks config_ ((a, b) :: levels) st)
      with (Stm32Quadrature.callbacks config_ levels
              (Stm32Quadrature.ISR_Callback config_ st a b)).
    rewrite (IH _ Hok'), E.
    cbn [Quadrature.active Quadrature.pins Quadrature.value Quadrature.error
         quadrature_count quadrature_glitches].
    f_equal.
    + rewrite Zplus_mod_idemp_l. f_equal. lia.
    + unfold u16, wrap. rewrite Zplus_mod_idemp_l. f_equal. lia.
Qed.

Lemma quadrature_run_witness :
  Stm32Quadrature.callbacks quadrature_config_sample
    [(true, false); (true, true); (false, true); (false, false)]
    quadrature_sample
  = Quadrature.mkStatus true 0 3 0.
Proof.
  assert (Hc : 0 < Quadrature.cpr quadrature_config_sample < 2 ^ 31)
    by (cbn; lia).
  assert (Hok : quadrature_ok quadrature_config_sample quadrature_sample)
    by (unfold quadrature_ok; cbn; lia).
  exact (proj1 (quadrature_run quadrature_config_sample Hc) _ _ Hok).
Defined.
(** ** The microsecond timer *)

Lemma wrap_small (w x : Z) : 0 <= x < 2 ^ w -> wrap w x = x.
Proof. apply Z.mod_small. Qed.

Lemma wrap_range (w x : Z) : 0 <= w -> 0 <= wrap w x < 2 ^ w.
Proof. intros Hw. apply Z.mod_pos_bound. apply Z.pow_pos_nonneg; lia. Qed.

Lemma wrap_add_l (w x y : Z) : wrap w (wrap w x + y) = wrap w (x + y).
Proof. apply Zplus_mod_idemp_l. Qed.

Lemma subtract_us_wrapped (bits b d : Z) :
  0 <= bits -> 0 <= d < 2 ^ bits ->
  MillisecondTimer.subtract_us bits (wrap bits (b + d)) b = d.
Proof.
  intros Hb Hd. unfold MillisecondTimer.subtract_us, wrap.
  rewrite Zminus_mod_idemp_l.
  replace (b + d - b) with d by lia. now apply Z.mod_small.
Qed.

Lemma sum_Z_app (l1 l2 : list Z) : sum_Z (l1 ++ l2) = sum_Z l1 + sum_Z l2.
Proof. induction l1 as [|x l1 IH]; cbn; [reflexivity | unfold sum_Z in *; lia]. Qed.

Lemma sum_Z_nonneg (l : list Z) : Forall (fun d => 0 <= d) l -> 0 <= sum_Z l.
Proof. induction 1; cbn; unfold sum_Z in *; lia. Qed.

Lemma sum_Z_bounds (D : Z) (l : list Z) :
  Forall (fun d => 0 <= d <= D) l -> Forall (fun d => 0 <= d) l.
Proof. intros H. eapply Forall_impl; [exact H|]. cbn. intros; lia. Qed.

(** The loop of [wait_us_helper] on the reads of a timer. *)
Lemma wait_us_helper_loop_returns (bits D delay_us : Z) :
  0 <= bits -> 0 <= delay_us -> delay_us + 1 < 2 ^ 32 ->
  forall (ticks : list Z) (cur el : Z) (rest : list Z),
    Forall (fun d => 0 <= d <= D) ticks ->
    0 <= el < delay_us + 1 -> delay_us + D < 2 ^ bits ->
    MillisecondTimer.wait_us_helper_loop bits delay_us cur el
      (timer_reads bits cur ticks) = Some rest ->
    exists used unused,
      ticks = used ++ unused
      /\ rest = timer_reads bits (wrap bits (cur + sum_Z used)) unused
      /\ delay_us + 1 <= el + sum_Z used <= delay_us + D.
Proof.
  intros Hb Hd Hd32.
  induction ticks as [|d ticks IH]; intros cur el rest Hpos Hel Hsum Hret;
    [discriminate|].
  inversion Hpos as [|? ? Hd0 Hpos']; subst.
  pose proof (sum_Z_nonneg ticks (sum_Z_bounds D ticks Hpos')) as Hs.
  cbn [timer_reads MillisecondTimer.wait_us_helper_loop] in Hret.
  change (wrap bits (wrap bits (cur + d) - cur))
    with (MillisecondTimer.subtract_us bits (wrap bits (cur + d)) cur) in Hret.
  rewrite (subtract_us_wrapped bits cur d Hb) in Hret by lia.
  rewrite (wrap_small bits (el + d)) in Hret by lia.
  unfold u32 in Hret. rewrite (wrap_small 32 (delay_us + 1)) in Hret by lia.
  destruct (Z.leb_spec (delay_us + 1) (el + d)) as [Hge | Hlt].
  - injection Hret as <-. exists [d], ticks. cbn.
    rewrite Z.add_0_r. repeat split; lia.
  - destruct (IH (wrap bits (cur + d)) (el + d) rest Hpos'
                ltac:(lia) ltac:(lia) Hret)
      as (used & unused & E & Er & H1).
    exists (d :: used), unused. subst ticks.
    change (sum_Z (d :: used)) with (d + sum_Z used).
    repeat split; try lia.
    rewrite Er. f_equal. rewrite wrap_add_l. f_equal. lia.
Qed.

Lemma wait_us_helper_loop_ends (bits D delay_us : Z) :
  0 <= bits -> 0 <= delay_us -> delay_us + 1 < 2 ^ 32 ->
  forall (ticks : list Z) (cur el : Z),
    Forall (fun d => 0 <= d <= D) ticks ->
    0 <= el < delay_us + 1 -> delay_us + D < 2 ^ bits ->
    delay_us + 1 <= el + sum_Z ticks ->
    is_Some (MillisecondTimer.wait_us_helper_loop bits delay_us cur el
               (timer_reads bits cur ticks)).
Proof.
  intros Hb Hd Hd32.
  induction ticks as [|d ticks IH]; intros cur el Hpos Hel Hsum Hlong.
  - cbn in Hlong. lia.
  - inversion Hpos as [|? ? Hd0 Hpos']; subst.
    pose proof (sum_Z_nonneg ticks (sum_Z_bounds D ticks Hpos')) as Hs.
    change (sum_Z (d :: ticks)) with (d + sum_Z ticks) in Hlong.
    cbn [timer_reads MillisecondTimer.wait_us_helper_loop].
    change (wrap bits (wrap bits (cur + d) - cur))
      with (MillisecondTimer.subtract_us bits (wrap bits (cur + d)) cur).
    rewrite (subtract_us_wrapped bits cur d Hb) by lia.
    rewrite (wrap_small bits (el + d)) by lia.
    unfold u32. rewrite (wrap_small 32 (delay_us + 1)) by lia.
    destruct (Z.leb_spec (delay_us + 1) (el + d)) as [Hge | Hlt];
      [eexists; reflexivity|].
    apply IH; [assumption | lia | lia | lia].
Qed.

(** One call of [wait_us_helper]: the tick before its first read does not
    count, and it returns at the first read at which more than [delay_us]
    ticks have been counted. *)
Lemma wait_us_helper_spec (bits D delay_us : Z) (ticks : list Z) (r0 : Z) :
  0 <= bits -> 0 <= delay_us -> delay_us + 1 < 2 ^ 32 ->
  Forall (fun d => 0 <= d <= D) ticks -> delay_us + D < 2 ^ bits ->
  (forall rest,
      MillisecondTimer.wait_us_helper bits delay_us (timer_reads bits r0 ticks)
      = Some rest ->
      exists used unused,
        ticks = used ++ unused
        /\ rest = timer_reads bits (wrap bits (r0 + sum_Z used)) unused
        /\ delay_us + 1 <= sum_Z used <= delay_us + 2 * D)
  /\ (delay_us + 2 * D <= sum_Z ticks -> 1 <= D ->
      is_Some (MillisecondTimer.wait_us_helper bits delay_us
                 (timer_reads bits r0 ticks))).
Proof.
  intros Hb Hd Hd32 Hpos Hsum.
  destruct ticks as [|d ticks].
  - split; [discriminate|]. cbn. lia.
  - inversion Hpos as [|? ? Hd0 Hpos']; subst.
    pose proof (sum_Z_nonneg ticks (sum_Z_bounds D ticks Hpos')) as Hs.
    change (sum_Z (d :: ticks)) with (d + sum_Z ticks).
    cbn [timer_reads MillisecondTimer.wait_us_helper]. split.
    + intros rest Hret.
      destruct (wait_us_helper_loop_returns bits D delay_us Hb Hd Hd32 ticks
                  (wrap bits (r0 + d)) 0 rest Hpos' ltac:(lia) ltac:(lia) Hret)
        as (used & unused & E & Er & H1).
      exists (d :: used), unused. subst ticks.
      change (sum_Z (d :: used)) with (d + sum_Z used).
      repeat split; try lia.
      rewrite Er. f_equal. rewrite wrap_add_l. f_equal. lia.
    + intros Hlong HD.
      apply (wait_us_helper_loop_ends bits D delay_us Hb Hd Hd32);
        [assumption | lia | lia | lia].
Qed.

Lemma wait_us_rounds_last (delay_us : Z) :
  0 <= delay_us <= 50000 -> wait_us_rounds delay_us = 1.
Proof. intros H. unfold wait_us_rounds. Z.div_mod_to_equations. lia. Qed.

Lemma wait_us_rounds_step (delay_us : Z) :
  50000 < delay_us ->
  wait_us_rounds delay_us = 1 + wait_us_rounds (delay_us - 50000).
Proof. intros H. unfold wait_us_rounds. Z.div_mod_to_equations. lia. Qed.

Lemma wait_us_rounds_pos (delay_us : Z) : 1 <= wait_us_rounds delay_us.
Proof. unfold wait_us_rounds. lia. Qed.

(** X4.  On a timer that is read at least every [D] ticks
    (with [D] small enough for one chunk of the delay not to wrap the
    counter), [wait_us] returns only after more than [delay_us] ticks and
    at most [2 * D] ticks late for each call of the helper it makes; it
    does return when the timer runs that long. *)
Theorem timer_wait_us (bits D : Z) (fuel : nat) (delay_us r0 : Z)
        (ticks : list Z) :
  0 <= bits -> 0 <= delay_us < 2 ^ 32 ->
  Forall (fun d => 0 <= d <= D) ticks ->
  Z.min delay_us 50000 + D < 2 ^ bits ->
  (Z.to_nat (wait_us_rounds delay_us) <= fuel)%nat ->
  (forall rest,
      MillisecondTimer.wait_us bits fuel delay_us (timer_reads bits r0 ticks)
      = Some rest ->
      exists used unused,
        ticks = used ++ unused
        /\ rest = timer_reads bits (wrap bits (r0 + sum_Z used)) unused
        /\ delay_us + wait_us_rounds delay_us <= sum_Z used
           <= delay_us + 2 * D * wait_us_rounds delay_us)
  /\ (1 <= D -> delay_us + 2 * D * wait_us_rounds delay_us <= sum_Z ticks ->
      is_Some (MillisecondTimer.wait_us bits fuel delay_us
                 (timer_reads bits r0 ticks))).
Proof.
  intros Hb. revert delay_us r0 ticks.
  induction fuel as [|fuel IH]; intros delay_us r0 ticks Hd Hpos Hsum Hfuel.
  { pose proof (wait_us_rounds_pos delay_us). lia. }
  cbn [MillisecondTimer.wait_us].
  destruct (Z.ltb_spec 50000 delay_us) as [Hbig | Hsmall].
  - pose proof (wait_us_rounds_step delay_us Hbig) as Hk.
    pose proof (wait_us_rounds_pos (delay_us - 50000)) as Hk1.
    set (k := wait_us_rounds (delay_us - 50000)) in *.
    rewrite Hk.
    replace (2 * D * (1 + k)) with (2 * D + 2 * D * k) by ring.
    destruct (wait_us_helper_spec bits D 50000 ticks r0 Hb ltac:(lia)
                ltac:(lia) Hpos ltac:(lia)) as [Hret Hend].
    unfold u32. rewrite (wrap_small 32 (delay_us - 50000)) by lia.
    destruct (MillisecondTimer.wait_us_helper bits 50000
                (timer_reads bits r0 ticks)) as [reads'|] eqn:Eh.
    + destruct (Hret reads' eq_refl) as (used1 & unused1 & E & Er & H1).
      subst ticks reads'.
      apply Forall_app in Hpos as [Hpos1 Hpos2].
      pose proof (sum_Z_nonneg used1 (sum_Z_bounds D used1 Hpos1)) as Hs1.
      rewrite sum_Z_app.
      destruct (IH (delay_us - 50000) (wrap bits (r0 + sum_Z used1)) unused1
                  ltac:(lia) Hpos2 ltac:(lia) ltac:(fold k; lia))
        as [Hret2 Hend2].
      fold k in Hret2, Hend2. split.
      * intros rest Hr.
        destruct (Hret2 rest Hr) as (used2 & unused2 & E2 & Er2 & H2).
        exists (used1 ++ used2), unused2. subst unused1.
        rewrite sum_Z_app, app_assoc. repeat split; try lia.
        rewrite Er2. f_equal. rewrite wrap_add_l. f_equal. lia.
      * intros HD Hlong. apply Hend2; [assumption | lia].
    + split; [discriminate|]. intros HD Hlong.
      assert (0 <= 2 * D * k) by (apply Z.mul_nonneg_nonneg; lia).
      destruct Hend as [? Hsome]; [lia | assumption | discriminate].
  - rewrite (wait_us_rounds_last delay_us) by lia.
    rewrite Z.mul_1_r.
    destruct (wait_us_helper_spec bits D delay_us ticks r0 Hb ltac:(lia)
                ltac:(lia) Hpos ltac:(lia)) as [Hret Hend].
    split.
    + intros rest Hr. destruct (Hret rest Hr) as (used & unused & E & Er & H1).
      exists used, unused. repeat split; try assumption; lia.
    + intros HD Hlong. now apply Hend.
Qed.

Lemma timer_wait_us_witness :
  is_Some (MillisecondTimer.wait_us 16 2 100000
             (timer_reads 16 65000 (repeat 15000 11))).
Proof.
  refine (proj2 (timer_wait_us 16 15000 2 100000 65000 (repeat 15000 11)
                   _ _ _ _ _) _ _).
  - lia.
  - lia.
  - cbn. repeat constructor; lia.
  - lia.
  - vm_compute. lia.
  - lia.
  - vm_compute. discriminate.
Defined.
(** ** Transmission errors in a CUI AMT21 reply *)

Lemma testbit_flip (w k n : Z) :
  0 <= k -> 0 <= n ->
  Z.testbit (Z.lxor w (2 ^ k)) n = xorb (Z.testbit w n) (k =? n).
Proof.
  intros Hk Hn. rewrite Z.lxor_spec, Z.pow2_bits_eqb by assumption.
  reflexivity.
Qed.

Lemma data_parity_flip (w k : Z) (positions : list Z) :
  0 <= k -> Forall (fun n => 0 <= n) positions ->
  data_parity (Z.lxor w (2 ^ k)) positions
  = xorb (fold_right xorb false (map (Z.eqb k) positions))
         (data_parity w positions).
Proof.
  intros Hk Hpos. unfold data_parity.
  induction Hpos as [|n positions Hn Hpos IH]; [reflexivity|].
  cbn [map fold_right]. rewrite testbit_flip by assumption.
  destruct (Z.testbit w n), (k =? n),
    (fold_right xorb false (map (Z.testbit w) positions)),
    (fold_right xorb false (map (Z.eqb k) positions)),
    (fold_right xorb false (map (Z.testbit (Z.lxor w (2 ^ k))) positions));
    cbn in *; congruence.
Qed.

Lemma check_bits_flip (w k : Z) :
  0 <= k ->
  check_flips w k 15 odd_positions /\ check_flips w k 14 even_positions.
Proof.
  intros Hk. unfold check_flips.
  rewrite !data_parity_flip, !testbit_flip
    by (try lia; unfold odd_positions, even_positions;
        repeat constructor; lia).
  assert (Hcases : k = 0 \/ k = 1 \/ k = 2 \/ k = 3 \/ k = 4 \/ k = 5 \/ k = 6
                   \/ k = 7 \/ k = 8 \/ k = 9 \/ k = 10 \/ k = 11 \/ k = 12
                   \/ k = 13 \/ k = 14 \/ k = 15 \/ 15 < k) by lia.
  destruct (Z.testbit w 15), (Z.testbit w 14),
    (data_parity w odd_positions), (data_parity w even_positions);
    repeat (destruct Hcases as [-> | Hcases]; [split; reflexivity|]).
  all: unfold odd_positions, even_positions; cbn [map fold_right].
  all: repeat match goal with
         | |- context [?a =? ?n] =>
             lazymatch n with
             | context [Z.modulo] => fail
             | _ => destruct (Z.eqb_spec a n); [lia|]
             end
         end.
  all: match goal with
       | |- context [?a <=? 15] => destruct (Z.leb_spec a 15); [lia|]
       end.
  all: rewrite !andb_false_r; split; reflexivity.
Qed.

Lemma parity_ok_flip (w k : Z) :
  0 <= k < 16 -> parity_ok w = true -> parity_ok (Z.lxor w (2 ^ k)) = false.
Proof.
  intros Hk Hok. unfold parity_ok in *.
  destruct (check_bits_flip w k ltac:(lia)) as [Ho He].
  unfold check_flips in Ho, He. rewrite Ho, He.
  apply andb_true_iff in Hok as [-> ->].
  destruct (Z.leb_spec k 15); [|lia].
  change (15 mod 2) with 1. change (14 mod 2) with 0.
  pose proof (Z.mod_pos_bound k 2 ltac:(lia)).
  destruct (Z.eqb_spec (k mod 2) 1), (Z.eqb_spec (k mod 2) 0);
    try reflexivity; lia.
Qed.

Lemma parity_ok_flip_two (w i j : Z) :
  0 <= i < 16 -> 0 <= j < 16 -> i mod 2 = j mod 2 ->
  parity_ok (Z.lxor (Z.lxor w (2 ^ i)) (2 ^ j)) = parity_ok w.
Proof.
  intros Hi Hj Hsame. unfold parity_ok.
  destruct (check_bits_flip (Z.lxor w (2 ^ i)) j ltac:(lia)) as [Ho He].
  destruct (check_bits_flip w i ltac:(lia)) as [Ho' He'].
  unfold check_flips in *. rewrite Ho, He, Ho', He', Hsame.
  destruct (Z.leb_spec i 15); [|lia]. destruct (Z.leb_spec j 15); [|lia].
  destruct (j mod 2 =? 15 mod 2), (j mod 2 =? 14 mod 2),
    (Bool.eqb (Z.testbit w 15) (data_parity w odd_positions)),
    (Bool.eqb (Z.testbit w 14) (data_parity w even_positions)); reflexivity.
Qed.

Lemma cui_amt21_framed (s : CuiAmt21.t) (status : UartEncoder.Status) :
  0 < Stm32G4DmaUart.read_bytes_remaining (CuiAmt21.uart_ s)
    <= CuiAmt21.kResyncBytes ->
  nth 0 (CuiAmt21.buffer_ s) 0
    = UartEncoder.cui_amt21_address (CuiAmt21.config_ s) ->
  snd (CuiAmt21.ProcessQuery s status)
  = let w := CuiAmt21.response_word (CuiAmt21.buffer_ s) in
    if parity_ok w then
      UartEncoder.mkStatus true (w mod 2 ^ 14)
        (u8 (UartEncoder.nonce status + 1))
        (UartEncoder.aksim2_err status) (UartEncoder.aksim2_warn status)
        (UartEncoder.aksim2_status status)
        (UartEncoder.checksum_errors status)
    else
      UartEncoder.mkStatus (UartEncoder.active status)
        (UartEncoder.value status) (UartEncoder.nonce status)
        (UartEncoder.aksim2_err status) (UartEncoder.aksim2_warn status)
        (UartEncoder.aksim2_status status)
        (u16 (UartEncoder.checksum_errors status + 1)).
Proof.
  intros [Hlo Hhi] Haddr. unfold CuiAmt21.ProcessQuery.
  destruct (Z.ltb_spec CuiAmt21.kResyncBytes
              (Stm32G4DmaUart.read_bytes_remaining (CuiAmt21.uart_ s)));
    [lia|].
  destruct (Z.eqb_spec
              (Stm32G4DmaUart.read_bytes_remaining (CuiAmt21.uart_ s)) 0);
    [lia|].
  rewrite Haddr, Z.eqb_refl. cbn [negb]. cbv zeta.
  rewrite parity_test_ok.
  destruct (parity_ok (CuiAmt21.response_word (CuiAmt21.buffer_ s)));
    cbn [negb snd]; [|reflexivity].
  f_equal. change 0x3fff with (Z.ones 14). rewrite Z.land_ones by lia.
  apply Z.mod_small.
  pose proof (Z.mod_pos_bound
                (CuiAmt21.response_word (CuiAmt21.buffer_ s)) (2 ^ 14)).
  lia.
Qed.

(** X5.  A framed reply whose 16 bit word differs
    in exactly one bit from a word with correct check bits is rejected by
    [CuiAmt21::ProcessQuery]: [checksum_errors] is incremented and the
    rest of the status is kept.  The check does not see two wrong bits
    at positions of the same parity: such a word is accepted and its low
    14 bits are stored as the value. *)
Theorem cui_amt21_bit_errors (s : CuiAmt21.t) (status : UartEncoder.Status)
        (w : Z) :
  let received := CuiAmt21.response_word (CuiAmt21.buffer_ s) in
  let status' := snd (CuiAmt21.ProcessQuery s status) in
  0 < Stm32G4DmaUart.read_bytes_remaining (CuiAmt21.uart_ s)
    <= CuiAmt21.kResyncBytes ->
  nth 0 (CuiAmt21.buffer_ s) 0
    = UartEncoder.cui_amt21_address (CuiAmt21.config_ s) ->
  parity_ok w = true ->
  (forall k, 0 <= k < 16 -> received = Z.lxor w (2 ^ k) ->
     status'
     = UartEncoder.mkStatus (UartEncoder.active status)
         (UartEncoder.value status) (UartEncoder.nonce status)
         (UartEncoder.aksim2_err status) (UartEncoder.aksim2_warn status)
         (UartEncoder.aksim2_status status)
         (u16 (UartEncoder.checksum_errors status + 1)))
  /\ (forall i j, 0 <= i < 16 -> 0 <= j < 16 -> i mod 2 = j mod 2 ->
      received = Z.lxor (Z.lxor w (2 ^ i)) (2 ^ j) ->
      status'
      = UartEncoder.mkStatus true (received mod 2 ^ 14)
          (u8 (UartEncoder.nonce status + 1))
          (UartEncoder.aksim2_err status) (UartEncoder.aksim2_warn status)
          (UartEncoder.aksim2_status status)
          (UartEncoder.checksum_errors status)).
Proof.
  intros received status' Hrem Haddr Hok. subst status'.
  rewrite (cui_amt21_framed s status Hrem Haddr). cbv zeta. fold received.
  split.
  - intros k Hk ->. now rewrite parity_ok_flip.
  - intros i j Hi Hj Hsame E. rewrite E at 1.
    now rewrite parity_ok_flip_two, Hok.
Qed.

Lemma cui_amt21_bit_errors_witness :
  snd (CuiAmt21.ProcessQuery cui_corrupted_sample status_active)
  = UartEncoder.mkStatus true 5 7 false false 0 1.
Proof.
  assert (H1 : 0 < Stm32G4DmaUart.read_bytes_remaining
                     (CuiAmt21.uart_ cui_corrupted_sample)
               <= CuiAmt21.kResyncBytes)
    by (vm_compute; split; [reflexivity | discriminate]).
  assert (Hk : 0 <= 1 < 16) by lia.
  exact (proj1 (cui_amt21_bit_errors cui_corrupted_sample status_active
                  0x8001 H1 eq_refl eq_refl) 1 Hk eq_refl).
Defined.
(** ** One query of the CUI AMT21, from the request to the reading *)

Lemma dma_receive_contents (bytes : list Z) :
  forall (u : Stm32G4DmaUart.t) (buf : list Z),
    Stm32G4DmaUart.rx_enabled u = true ->
    Z.of_nat (length bytes) <= Stm32G4DmaUart.CNDTR u
      <= Z.of_nat (length buf) ->
    let n := Z.to_nat (Z.of_nat (length buf) - Stm32G4DmaUart.CNDTR u) in
    fold_left (fun ub b => dma_receive b ub) bytes (u, buf)
    = (Stm32G4DmaUart.mk
         (Stm32G4DmaUart.CNDTR u - Z.of_nat (length bytes)) true
         (Stm32G4DmaUart.ops u),
       take n buf ++ bytes ++ drop (n + length bytes) buf).
Proof.
  induction bytes as [|b bytes IH]; intros u buf Hen Hc n.
  - cbn [fold_left length app]. rewrite Nat.add_0_r, take_drop.
    destruct u as [c e o]. cbn in *. subst e. f_equal. f_equal. lia.
  - cbn [length] in Hc. cbn [fold_left]. unfold dma_receive at 2.
    rewrite Hen. cbn [andb].
    destruct (Z.ltb_spec 0 (Stm32G4DmaUart.CNDTR u)) as [Hpos | Hz]; [|lia].
    fold n. rewrite IH; clear IH;
      cbn [Stm32G4DmaUart.CNDTR Stm32G4DmaUart.rx_enabled Stm32G4DmaUart.ops];
      rewrite ?length_insert; [|reflexivity|lia].
    assert (Hn : (n < length buf)%nat) by lia.
    replace (Z.to_nat (Z.of_nat (length buf) - (Stm32G4DmaUart.CNDTR u - 1)))
      with (S n) by lia.
    f_equal; [f_equal; cbn [length]; lia|].
    rewrite (take_S_r _ n b) by (apply list_lookup_insert_eq; exact Hn).
    rewrite take_insert_ge by lia.
    rewrite drop_insert_lt by lia.
    rewrite <- app_assoc. cbn [app length].
    replace (S n + length bytes)%nat with (n + S (length bytes))%nat by lia.
    reflexivity.
Qed.

Lemma cui_amt21_receive_reply (s : CuiAmt21.t) (reply : list Z) :
  length (CuiAmt21.buffer_ s) = 6%nat ->
  (length reply <= 6)%nat ->
  cui_amt21_receive reply (CuiAmt21.StartRead s)
  = CuiAmt21.mk (CuiAmt21.config_ s)
      (Stm32G4DmaUart.mk (6 - Z.of_nat (length reply)) true
         (Stm32G4DmaUart.ops (CuiAmt21.uart_ s)
          ++ [Stm32G4DmaUart.StartDmaRead 6]))
      (CuiAmt21.query_outstanding_ s) (CuiAmt21.last_query_start_us_ s)
      (reply ++ drop (length reply) (CuiAmt21.buffer_ s)).
Proof.
  intros Hlen Hr. unfold cui_amt21_receive, CuiAmt21.StartRead.
  cbn [CuiAmt21.with_uart CuiAmt21.uart_ CuiAmt21.buffer_ CuiAmt21.config_
       CuiAmt21.query_outstanding_ CuiAmt21.last_query_start_us_].
  rewrite dma_receive_contents;
    cbn [Stm32G4DmaUart.start_dma_read Stm32G4DmaUart.CNDTR
         Stm32G4DmaUart.rx_enabled Stm32G4DmaUart.ops];
    [|reflexivity|rewrite Hlen; unfold CuiAmt21.buffer_size,
                    CuiAmt21.kResyncBytes; lia].
  rewrite Hlen. reflexivity.
Qed.

(** X6.  One query of the CUI AMT21.  When no
    query is outstanding and the poll interval has elapsed,
    [ISR_Update] sends the address and starts a DMA read.  While fewer
    than three bytes have arrived and the timeout has not passed, a
    further update changes nothing.  Once the echoed address and the two
    reply bytes (and at most two bytes more) have arrived, the next
    update before the timeout finishes the read and judges the word made
    of the two bytes of this reply, whatever the buffer held before: with
    correct check bits its low 14 bits become the value, otherwise an
    error is counted; and the next query goes out in that same update
    exactly when the poll interval has elapsed again. *)
Theorem cui_amt21_query_cycle (s : CuiAmt21.t) (status : UartEncoder.Status)
        (t0 t1 : Z) (reply : list Z) :
  let poll := UartEncoder.poll_rate_us (CuiAmt21.config_ s) in
  let address := UartEncoder.cui_amt21_address (CuiAmt21.config_ s) in
  let issued := CuiAmt21.ISR_Update s status t0 in
  let arrived := cui_amt21_receive reply (fst issued) in
  let w := u16 (Z.lor (nth 1 reply 0) (Z.shiftl (nth 2 reply 0) 8)) in
  let status' :=
    if parity_ok w then
      UartEncoder.mkStatus true (w mod 2 ^ 14)
        (u8 (UartEncoder.nonce status + 1))
        (UartEncoder.aksim2_err status) (UartEncoder.aksim2_warn status)
        (UartEncoder.aksim2_status status)
        (UartEncoder.checksum_errors status)
    else
      UartEncoder.mkStatus (UartEncoder.active status)
        (UartEncoder.value status) (UartEncoder.nonce status)
        (UartEncoder.aksim2_err status) (UartEncoder.aksim2_warn status)
        (UartEncoder.aksim2_status status)
        (u16 (UartEncoder.checksum_errors status + 1)) in
  let received :=
    Stm32G4DmaUart.mk (6 - Z.of_nat (length reply)) true
      (Stm32G4DmaUart.ops (CuiAmt21.uart_ s)
       ++ [Stm32G4DmaUart.WriteChar address; Stm32G4DmaUart.StartDmaRead 6]) in
  let buffer' := reply ++ drop (length reply) (CuiAmt21.buffer_ s) in
  CuiAmt21.query_outstanding_ s = false ->
  length (CuiAmt21.buffer_ s) = 6%nat ->
  u32 poll <= u32 (t0 - CuiAmt21.last_query_start_us_ s) ->
  u32 (t1 - t0) <= u32 (2 * poll) ->
  (length reply <= 5)%nat ->
  snd issued = status
  /\ arrived = CuiAmt21.mk (CuiAmt21.config_ s) received true t0 buffer'
  /\ ((length reply < 3)%nat ->
      CuiAmt21.ISR_Update arrived status t1 = (arrived, status))
  /\ ((3 <= length reply)%nat -> nth 0 reply 0 = address ->
      CuiAmt21.ISR_Update arrived status t1
      = (if u32 (t1 - t0) <? u32 poll then
           CuiAmt21.mk (CuiAmt21.config_ s)
             (Stm32G4DmaUart.finish_dma_read received) false t0 buffer'
         else
           CuiAmt21.mk (CuiAmt21.config_ s)
             (Stm32G4DmaUart.start_dma_read 6
                (Stm32G4DmaUart.write_char address
                   (Stm32G4DmaUart.finish_dma_read received)))
             true t1 buffer',
         status')).
Proof.
  intros poll address issued arrived w status' received buffer'
         Hidle Hlen Hpoll Htime Hr.
  assert (Hissued : issued
                    = (CuiAmt21.StartRead
                         (CuiAmt21.mk (CuiAmt21.config_ s)
                            (Stm32G4DmaUart.write_char address
                               (CuiAmt21.uart_ s))
                            true t0 (CuiAmt21.buffer_ s)), status)).
  { subst issued. now rewrite cui_amt21_isr_issue. }
  assert (Harr : arrived
                 = CuiAmt21.mk (CuiAmt21.config_ s) received true t0 buffer').
  { subst arrived. rewrite Hissued. cbn [fst].
    rewrite cui_amt21_receive_reply by (cbn [CuiAmt21.buffer_]; lia).
    cbn [CuiAmt21.config_ CuiAmt21.uart_ CuiAmt21.buffer_
         CuiAmt21.query_outstanding_ CuiAmt21.last_query_start_us_
         Stm32G4DmaUart.write_char Stm32G4DmaUart.ops].
    subst received. now rewrite <- app_assoc. }
  split; [now rewrite Hissued|]. split; [exact Harr|].
  rewrite Harr. clear Harr Hissued arrived issued.
  unfold CuiAmt21.ISR_Update.
  cbn [CuiAmt21.query_outstanding_ CuiAmt21.last_query_start_us_
       CuiAmt21.config_ CuiAmt21.uart_].
  fold poll.
  destruct (Z.ltb_spec (u32 (2 * poll)) (u32 (t1 - t0))) as [Hlt|_]; [lia|].
  split.
  - intros Hshort. unfold CuiAmt21.ProcessQuery.
    cbn [CuiAmt21.uart_ Stm32G4DmaUart.read_bytes_remaining
         Stm32G4DmaUart.CNDTR received].
    destruct (Z.ltb_spec CuiAmt21.kResyncBytes
                (6 - Z.of_nat (length reply))) as [_|Hge];
      [reflexivity | unfold CuiAmt21.kResyncBytes in Hge; lia].
  - intros Hfull Haddr.
    set (a := CuiAmt21.mk (CuiAmt21.config_ s) received true t0 buffer').
    assert (Hrem : 0 < Stm32G4DmaUart.read_bytes_remaining (CuiAmt21.uart_ a)
                   <= CuiAmt21.kResyncBytes)
      by (cbn; unfold CuiAmt21.kResyncBytes; lia).
    assert (Hfirst : nth 0 (CuiAmt21.buffer_ a) 0
                     = UartEncoder.cui_amt21_address (CuiAmt21.config_ a)).
    { cbn [a CuiAmt21.buffer_ CuiAmt21.config_]. subst buffer'.
      rewrite app_nth1 by lia. exact Haddr. }
    pose proof (cui_amt21_framed a status Hrem Hfirst) as Hst.
    assert (Hw : CuiAmt21.response_word (CuiAmt21.buffer_ a) = w).
    { unfold CuiAmt21.response_word. cbn [a CuiAmt21.buffer_]. subst buffer'.
      now rewrite !app_nth1 by lia. }
    rewrite Hw in Hst. cbv zeta in Hst. fold status' in Hst.
    assert (Hfst : fst (CuiAmt21.ProcessQuery a status)
                   = CuiAmt21.with_uart a
                       (Stm32G4DmaUart.finish_dma_read (CuiAmt21.uart_ a))
                       false).
    { unfold CuiAmt21.ProcessQuery.
      destruct (Z.ltb_spec CuiAmt21.kResyncBytes
                  (Stm32G4DmaUart.read_bytes_remaining (CuiAmt21.uart_ a)));
        [lia|].
      destruct (Z.eqb_spec
                  (Stm32G4DmaUart.read_bytes_remaining (CuiAmt21.uart_ a)) 0);
        [lia|].
      rewrite Hfirst, Z.eqb_refl. cbn [negb]. cbv zeta.
      now destruct (_ || _). }
    destruct (CuiAmt21.ProcessQuery a status) as [a' st'].
    cbn [fst snd] in Hfst, Hst. subst a' st'.
    cbn [a CuiAmt21.with_uart CuiAmt21.query_outstanding_ CuiAmt21.config_
         CuiAmt21.uart_ CuiAmt21.buffer_ CuiAmt21.last_query_start_us_].
    fold poll.
    destruct (u32 (t1 - t0) <? u32 poll); reflexivity.
Qed.

Lemma cui_amt21_query_cycle_witness :
  CuiAmt21.ISR_Update
    (cui_amt21_receive [0x54; 0x01; 0x80]
       (fst (CuiAmt21.ISR_Update cui_idle_sample status_zero 100)))
    status_zero 150
  = (CuiAmt21.mk (UartEncoder.mkConfig 100 0x54)
       (Stm32G4DmaUart.mk 3 false
          [Stm32G4DmaUart.WriteChar 0x54; Stm32G4DmaUart.StartDmaRead 6;
           Stm32G4DmaUart.FinishDmaRead])
       false 100 [0x54; 0x01; 0x80; 0; 0; 0],
     UartEncoder.mkStatus true 1 1 false false 0 0).
Proof.
  assert (H1 : u32 100 <= u32 (100 - 0)) by (vm_compute; discriminate).
  assert (H2 : u32 (150 - 100) <= u32 (2 * 100)) by (vm_compute; discriminate).
  assert (H3 : (3 <= 5)%nat) by lia.
  assert (H4 : (3 <= 3)%nat) by lia.
  exact (proj2 (proj2 (proj2 (cui_amt21_query_cycle cui_idle_sample status_zero
                                100 150 [0x54; 0x01; 0x80] eq_refl eq_refl
                                H1 H2 H3))) H4 eq_refl).
Defined.
(** ** A CAN query and its reply *)

Lemma fdcan_identifier_fields (source destination prefix : Z) :
  0 <= prefix ->
  let id := u32 (Z.lor (Z.lor (Z.shiftl (Z.land source 0xff) 8)
                              (Z.land destination 0xff))
                       (Z.shiftl prefix 16)) in
  Z.land id 0xff = destination mod 256
  /\ Z.land (Z.shiftr id 8) 0xff = source mod 256
  /\ Z.shiftr id 16 = prefix mod 65536.
Proof.
  intros Hp id.
  assert (Hid : id = (prefix * 65536 + (source mod 256) * 256
                      + destination mod 256) mod 2 ^ 32).
  { subst id. unfold u32, wrap. f_equal.
    change 0xff with (Z.ones 8). rewrite !Z.land_ones by lia.
    change (2 ^ 8) with 256.
    pose proof (Z.mod_pos_bound source 256 ltac:(lia)).
    pose proof (Z.mod_pos_bound destination 256 ltac:(lia)).
    rewrite (lor_shiftl_add (source mod 256) (destination mod 256) 8)
      by (change (2 ^ 8) with 256; lia).
    rewrite Z.lor_comm.
    rewrite (lor_shiftl_add prefix _ 16) by (change (2 ^ 8) with 256; lia).
    change (2 ^ 16) with 65536. change (2 ^ 8) with 256. lia. }
  change 0xff with (Z.ones 8). rewrite !Z.land_ones, !Z.shiftr_div_pow2 by lia.
  rewrite Hid. change (2 ^ 8) with 256. change (2 ^ 16) with 65536.
  change (2 ^ 32) with 4294967296.
  pose proof (Z.mod_pos_bound source 256 ltac:(lia)).
  pose proof (Z.mod_pos_bound destination 256 ltac:(lia)).
  repeat split; Z.div_mod_to_equations; lia.
Qed.

Lemma fdcan_poll_flags (brs fd : bool) :
  let flags := Z.lor (Z.lor 0 (if brs then FDCanMicroServer.kBrsFlag else 0))
                     (if fd then FDCanMicroServer.kFdcanFlag else 0) in
  to_bool (Z.land flags FDCanMicroServer.kBrsFlag) = brs
  /\ (Z.land flags FDCanMicroServer.kFdcanFlag =? 0) = negb fd.
Proof. destruct brs, fd; split; reflexivity. Qed.

Lemma AsyncWrite_sends (s : FDCanMicroServer.t)
      (header query_header : FDCanMicroServer.Header) (data : list Z) :
  exists payload,
    FDCanMicroServer.AsyncWrite s header data query_header
    = (FDCanMicroServer.mk
         (FDCanMicroServer.fdcan_ s
          ++ [FDCan.mkFrame
                (u32 (Z.lor (Z.lor (Z.shiftl
                                      (Z.land (FDCanMicroServer.source header)
                                              0xff) 8)
                                   (Z.land (FDCanMicroServer.destination header)
                                           0xff))
                            (Z.shiftl (FDCanMicroServer.can_prefix_ s) 16)))
                payload
                (FDCan.mkSendOptions
                   (if to_bool (Z.land (FDCanMicroServer.flags query_header)
                                       FDCanMicroServer.kBrsFlag)
                    then FDCan.kRequire else FDCan.kDisable)
                   (if (Z.land (FDCanMicroServer.flags query_header)
                               FDCanMicroServer.kFdcanFlag =? 0)
                       && (Z.of_nat (length data) <=? 8)
                    then FDCan.kDisable else FDCan.kRequire)
                   FDCan.kDefault FDCan.kDefault)])
         (if FDCanMicroServer.RoundUpDlc (Z.of_nat (length data))
             =? Z.of_nat (length data)
          then FDCanMicroServer.buf_ s
          else FDCanMicroServer.pad_loop (length data)
                 (Z.to_nat (FDCanMicroServer.RoundUpDlc
                              (Z.of_nat (length data))))
                 (FDCanMicroServer.memcpy (FDCanMicroServer.buf_ s) data))
         (FDCanMicroServer.can_prefix_ s),
       Z.of_nat (length data)).
Proof.
  unfold FDCanMicroServer.AsyncWrite.
  destruct (_ =? Z.of_nat (length data)); eexists; reflexivity.
Qed.

(** X7.  A query received by [Poll] and the reply sent with
    [AsyncWrite] for it.  With a read pending, [Poll] hands the callback
    a header whose source and destination are bits 8 to 15 and 0 to 7 of
    the identifier of the received frame, and completes the read.  The
    reply to that query is one frame, sent with bit rate switching
    exactly when the query was received with it, and as a classic frame
    exactly when the query was a classic frame and the reply has at most
    8 bytes.  Its identifier holds the low bytes of the source and
    destination of the reply header and the low 16 bits of the prefix,
    so that a [Poll] that receives the reply reads that source and that
    destination again. *)
Theorem fdcan_reply (ParseDlc : Z -> Z)
        (r r' : FDCanMicroServerRead.t) (BusOff BusOff' : bool)
        (rx : FDCanMicroServerRead.RxHeader)
        (s : FDCanMicroServer.t) (header : FDCanMicroServer.Header)
        (data : list Z) :
  FDCanMicroServerRead.current_read_ r = true ->
  FDCanMicroServerRead.current_read_ r' = true ->
  (length data <= 64)%nat ->
  0 <= FDCanMicroServer.can_prefix_ s ->
  exists query reply,
    last (snd (FDCanMicroServerRead.Poll ParseDlc r BusOff (Some rx)))
    = Some (FDCanMicroServerRead.Callback
              query (ParseDlc (FDCanMicroServerRead.DataLength rx)))
    /\ FDCanMicroServerRead.current_read_
         (fst (FDCanMicroServerRead.Poll ParseDlc r BusOff (Some rx))) = false
    /\ FDCanMicroServer.source query
       = (FDCanMicroServerRead.Identifier rx / 256) mod 256
    /\ FDCanMicroServer.destination query
       = FDCanMicroServerRead.Identifier rx mod 256
    /\ FDCanMicroServer.fdcan_
         (fst (FDCanMicroServer.AsyncWrite s header data query))
       = FDCanMicroServer.fdcan_ s ++ [reply]
    /\ snd (FDCanMicroServer.AsyncWrite s header data query)
       = Z.of_nat (length data)
    /\ FDCan.options reply
       = FDCan.mkSendOptions
           (if FDCanMicroServerRead.BitRateSwitch rx
            then FDCan.kRequire else FDCan.kDisable)
           (if negb (FDCanMicroServerRead.FDFormat rx)
               && (Z.of_nat (length data) <=? 8)
            then FDCan.kDisable else FDCan.kRequire)
           FDCan.kDefault FDCan.kDefault
    /\ Z.shiftr (FDCan.dest_id reply) 16
       = FDCanMicroServer.can_prefix_ s mod 65536
    /\ forall rx' : FDCanMicroServerRead.RxHeader,
         FDCanMicroServerRead.Identifier rx' = FDCan.dest_id reply ->
         exists header',
           last (snd (FDCanMicroServerRead.Poll ParseDlc r' BusOff' (Some rx')))
           = Some (FDCanMicroServerRead.Callback
                     header' (ParseDlc (FDCanMicroServerRead.DataLength rx')))
           /\ FDCanMicroServer.source header'
              = FDCanMicroServer.source header mod 256
           /\ FDCanMicroServer.destination header'
              = FDCanMicroServer.destination header mod 256.
Proof.
  intros Hr Hr' Hn Hp.
  destruct (AsyncWrite_sends s header
              (FDCanMicroServer.mkHeader
                 (Z.land (Z.shiftr (FDCanMicroServerRead.Identifier rx) 8) 0xff)
                 (Z.land (FDCanMicroServerRead.Identifier rx) 0xff)
                 (ParseDlc (FDCanMicroServerRead.DataLength rx))
                 (Z.lor (Z.lor 0 (if FDCanMicroServerRead.BitRateSwitch rx
                                  then FDCanMicroServer.kBrsFlag else 0))
                        (if FDCanMicroServerRead.FDFormat rx
                         then FDCanMicroServer.kFdcanFlag else 0)))
              data) as [payload Hw].
  eexists. eexists.
  unfold FDCanMicroServerRead.Poll. rewrite Hr, Hr'. cbn [negb fst snd].
  rewrite last_snoc. split; [reflexivity|]. split; [reflexivity|].
  rewrite Hw. clear Hw.
  cbn [fst snd FDCanMicroServer.fdcan_ FDCanMicroServer.source
       FDCanMicroServer.destination FDCanMicroServer.flags].
  pose proof (fdcan_identifier_fields (FDCanMicroServer.source header)
                (FDCanMicroServer.destination header)
                (FDCanMicroServer.can_prefix_ s) Hp) as Hid.
  cbv zeta in Hid. set (id := u32 _) in *.
  destruct Hid as (Hd & Hs & Hpre).
  change 0xff with (Z.ones 8) at 1 2.
  rewrite !(Z.land_ones _ 8), Z.shiftr_div_pow2 by lia.
  change (2 ^ 8) with 256.
  split; [reflexivity|]. split; [reflexivity|]. split; [reflexivity|].
  split; [reflexivity|].
  cbn [FDCan.options FDCan.dest_id].
  destruct (fdcan_poll_flags (FDCanMicroServerRead.BitRateSwitch rx)
              (FDCanMicroServerRead.FDFormat rx)) as [-> ->].
  split; [reflexivity|].
  split; [exact Hpre|].
  intros rx' E. eexists. rewrite last_snoc. split; [reflexivity|].
  cbn [FDCanMicroServer.source FDCanMicroServer.destination].
  rewrite E. split; assumption.
Qed.

Lemma fdcan_reply_witness :
  exists query reply,
    last (snd (FDCanMicroServerRead.Poll (fun dlc => dlc)
                 (FDCanMicroServerRead.mk true 0) false
                 (Some (FDCanMicroServerRead.mkRxHeader 0x8001 3 false false))))
    = Some (FDCanMicroServerRead.Callback query 3)
    /\ FDCanMicroServer.fdcan_
         (fst (FDCanMicroServer.AsyncWrite
                 (FDCanMicroServer.mk [] (replicate 64 0) 0)
                 (FDCanMicroServer.mkHeader 1 0x80 0 0)
                 [1; 2; 3] query))
       = [reply]
    /\ FDCan.options reply
       = FDCan.mkSendOptions FDCan.kDisable FDCan.kDisable
                             FDCan.kDefault FDCan.kDefault.
Proof.
  assert (H : (length [1; 2; 3] <= 64)%nat) by (cbn; lia).
  assert (Hp : 0 <= FDCanMicroServer.can_prefix_
                      (FDCanMicroServer.mk [] (replicate 64 0) 0))
    by (cbn; lia).
  destruct (fdcan_reply (fun dlc => dlc)
              (FDCanMicroServerRead.mk true 0)
              (FDCanMicroServerRead.mk true 0) false false
              (FDCanMicroServerRead.mkRxHeader 0x8001 3 false false)
              (FDCanMicroServer.mk [] (replicate 64 0) 0)
              (FDCanMicroServer.mkHeader 1 0x80 0 0) [1; 2; 3]
              eq_refl eq_refl H Hp)
    as (query & reply & H1 & _ & _ & _ & H2 & _ & H3 & _).
  exists query, reply. exact (conj H1 (conj H2 H3)).
Defined.
(** ** The trim of the internal oscillator *)

Lemma clock_register (icscr trim : Z) :
  0 <= trim <= 127 ->
  let r := u32 (Z.lor (Z.land icscr (u32 (Z.lnot 0xff000000)))
                      (Z.shiftl trim 24)) in
  Z.shiftr r 24 = trim /\ Z.land r 0xffffff = Z.land icscr 0xffffff.
Proof.
  intros Ht r.
  assert (Hr : r = trim * 2 ^ 24 + icscr mod 2 ^ 24).
  { subst r. change (u32 (Z.lnot 0xff000000)) with (Z.ones 24).
    rewrite Z.land_ones, Z.lor_comm by lia.
    pose proof (Z.mod_pos_bound icscr (2 ^ 24) ltac:(lia)).
    rewrite lor_shiftl_add by lia.
    unfold u32, wrap. apply Z.mod_small. lia. }
  change 0xffffff with (Z.ones 24). rewrite !Z.land_ones by lia.
  rewrite Z.shiftr_div_pow2, Hr by lia.
  pose proof (Z.mod_pos_bound icscr (2 ^ 24) ltac:(lia)).
  change (2 ^ 24) with 16777216 in *.
  split; Z.div_mod_to_equations; lia.
Qed.

(** The sum of a configured trim and an extra trim that stays within
    the 32 bit range is the sum of the integers. *)
Lemma s32_small (x : Z) : - 2 ^ 31 <= x < 2 ^ 31 -> s32 x = x.
Proof.
  intros H. unfold s32. rewrite Z.mod_small by lia. lia.
Qed.

(** X8.  Let the configured trim be at least 8 above the
    least and at least 8 below the greatest [int32_t], so that the sum
    of [UpdateConfig] cannot overflow.  [ClockManager::SetTrim] keeps
    the extra trim within [-8, 8], writes the sum of the configured trim
    and the extra trim, limited to [0, 127], into bits 24 and up of
    [ICSCR], so that it is at most 8 away from the limited configured
    value, and leaves the low 24 bits of the register as they were.  A
    larger request never gives a smaller trim, and setting the same trim
    again changes nothing. *)
Theorem clock_trim (s : ClockManager.t) (extra_trim : Z) :
  - 2 ^ 31 + ClockManager.kMaxExtraTrim <= ClockManager.hsitrim s
  < 2 ^ 31 - ClockManager.kMaxExtraTrim ->
  let s' := ClockManager.SetTrim extra_trim s in
  let limit := fun v => Z.max 0 (Z.min 127 v) in
  (- ClockManager.kMaxExtraTrim <= ClockManager.trim s'
   <= ClockManager.kMaxExtraTrim)
  /\ (- ClockManager.kMaxExtraTrim <= extra_trim <= ClockManager.kMaxExtraTrim ->
      ClockManager.trim s' = extra_trim)
  /\ ClockManager.hsitrim s' = ClockManager.hsitrim s
  /\ clock_trim_field s'
     = limit (ClockManager.hsitrim s + ClockManager.trim s')
  /\ Z.abs (clock_trim_field s' - limit (ClockManager.hsitrim s))
     <= ClockManager.kMaxExtraTrim
  /\ clock_calibration s' = clock_calibration s
  /\ (forall larger, extra_trim <= larger ->
        clock_trim_field s'
        <= clock_trim_field (ClockManager.SetTrim larger s))
  /\ ClockManager.SetTrim extra_trim s' = s'.
Proof.
  intros Hrange s' limit. unfold ClockManager.kMaxExtraTrim in Hrange.
  assert (Hreg : forall x,
             let r := ClockManager.SetTrim x s in
             clock_trim_field r
             = limit (ClockManager.hsitrim s
                      + Z.max (- ClockManager.kMaxExtraTrim)
                              (Z.min ClockManager.kMaxExtraTrim x))
             /\ clock_calibration r = clock_calibration s).
  { intros x r. subst r limit.
    unfold clock_trim_field, clock_calibration, ClockManager.SetTrim,
      ClockManager.UpdateConfig, ClockManager.kMaxExtraTrim.
    cbn [ClockManager.ICSCR ClockManager.hsitrim ClockManager.extra_trim_].
    rewrite s32_small by lia.
    apply clock_register. lia. }
  destruct (Hreg extra_trim) as [Hf Hc]. fold s' in Hf, Hc.
  unfold ClockManager.kMaxExtraTrim in *.
  assert (Htrim : ClockManager.trim s' = Z.max (- 8) (Z.min 8 extra_trim))
    by reflexivity.
  repeat split; try lia; try assumption.
  - rewrite Hf. subst limit. cbv beta. lia.
  - intros larger Hle. rewrite Hf. destruct (Hreg larger) as [-> _].
    subst limit. cbv beta. lia.
  - unfold s', ClockManager.SetTrim, ClockManager.UpdateConfig.
    cbn [ClockManager.ICSCR ClockManager.hsitrim ClockManager.extra_trim_].
    f_equal.
    set (t := Z.max 0 (Z.min 127 _)).
    assert (Ht : 0 <= t <= 127) by (subst t; lia).
    destruct (clock_register (ClockManager.ICSCR s) t Ht) as [_ Hlow].
    cbv zeta in Hlow.
    change (u32 (Z.lnot 0xff000000)) with 0xffffff in *.
    now rewrite Hlow.
Qed.

(** The default trim of 64 with a calibration of [0x1234] in the low
    bits: a request of 20 is limited to 8 and the register holds 72. *)
Lemma clock_trim_witness :
  let s' := ClockManager.SetTrim 20 (ClockManager.mk 64 0 0x40001234) in
  ClockManager.trim s' = 8
  /\ clock_trim_field s' = 72
  /\ clock_calibration s' = 0x1234
  /\ ClockManager.SetTrim 20 s' = s'.
Proof.
  destruct (clock_trim (ClockManager.mk 64 0 0x40001234) 20)
    as (_ & _ & _ & Hf & _ & Hc & _ & Hi).
  { unfold ClockManager.kMaxExtraTrim. cbn [ClockManager.hsitrim]. lia. }
  split; [reflexivity|]. split; [exact Hf|]. split; [exact Hc | exact Hi].
Defined.
(** ** Pin change interrupts *)

Section GpioInterrupts.

Variable STM_PIN : Z -> Z.
Variable STM_PORT : Z -> Z.
Variable port_known : Z -> bool.

Local Abbreviation Make := (Stm32GpioInterruptIn.Make STM_PIN STM_PORT port_known).
Local Abbreviation construct :=
  (Stm32GpioInterruptIn.construct STM_PIN STM_PORT port_known).
Local Abbreviation destroy := (Stm32GpioInterruptIn.destroy STM_PIN).
Local Abbreviation FindIrqIndex := (Stm32GpioInterruptIn.FindIrqIndex STM_PIN).

Lemma FindIrqIndex_range (pin : Z) :
  0 <= STM_PIN pin -> 0 <= FindIrqIndex pin < 7.
Proof.
  intros Hp. unfold Stm32GpioInterruptIn.FindIrqIndex.
  repeat match goal with
         | |- context [?a <=? ?b] => destruct (Z.leb_spec a b)
         end; lia.
Qed.

Lemma bump_bump (i : nat) (l : list Z) :
  (i < length l)%nat ->
  Stm32GpioInterruptIn.bump (fun c => c - 1) i
    (Stm32GpioInterruptIn.bump (fun c => c + 1) i l) = l.
Proof.
  intros Hi. unfold Stm32GpioInterruptIn.bump.
  destruct (lookup_lt_is_Some_2 l i Hi) as [x Hx].
  rewrite (nth_lookup_Some _ _ 0 x Hx).
  rewrite (nth_lookup_Some _ _ 0 (x + 1))
    by (apply list_lookup_insert_eq; exact Hi).
  rewrite list_insert_insert_eq.
  replace (x + 1 - 1) with x by lia. now apply list_insert_id.
Qed.

Lemma exti_line_mask (imr p : Z) :
  0 <= imr < 2 ^ 32 -> 0 <= p < 16 ->
  Z.land imr (u32 (Z.shiftl 1 p)) = 0 ->
  u32 (Z.land (u32 (Z.lor imr (u32 (Z.shiftl 1 p))))
              (Z.lnot (Z.shiftl 1 p))) = imr
  /\ Z.land (u32 (Z.lor imr (u32 (Z.shiftl 1 p)))) (u32 (Z.shiftl 1 p)) <> 0.
Proof.
  intros Hi Hp Hclear.
  assert (Hline : u32 (Z.shiftl 1 p) = 2 ^ p).
  { rewrite Z.shiftl_1_l. apply Z.mod_small. split; [lia|].
    apply Z.pow_lt_mono_r; lia. }
  rewrite Hline in *. rewrite Z.shiftl_1_l.
  assert (Hbit : Z.testbit imr p = false).
  { assert (H : Z.testbit (Z.land imr (2 ^ p)) p = false)
      by (rewrite Hclear; apply Z.bits_0).
    rewrite Z.land_spec, Z.pow2_bits_true, andb_true_r in H by lia.
    exact H. }
  split.
  - rewrite <- (Z.mod_small imr (2 ^ 32)) at 2 by exact Hi.
    unfold u32, wrap. apply Z.bits_inj'. intros n Hn.
    rewrite !Z.testbit_mod_pow2, Z.land_spec, Z.testbit_mod_pow2,
      Z.lor_spec, Z.lnot_spec, Z.pow2_bits_eqb by lia.
    destruct (Z.eqb_spec p n) as [<- | Hne].
    + rewrite Hbit. now destruct (p <? 32).
    + destruct (n <? 32), (Z.testbit imr n); reflexivity.
  - intros H0.
    assert (H : Z.testbit (Z.land (u32 (Z.lor imr (2 ^ p))) (2 ^ p)) p = false)
      by (rewrite H0; apply Z.bits_0).
    unfold u32, wrap in H.
    rewrite Z.land_spec, Z.testbit_mod_pow2, Z.lor_spec, Z.pow2_bits_true
      in H by lia.
    destruct (Z.ltb_spec p 32); [|lia].
    rewrite orb_true_r in H. discriminate.
Qed.

Lemma FindCallback_cases (cbk : Stm32GpioInterruptIn.Callback)
      (entries : list Stm32GpioInterruptIn.Callback) :
  (exists i e,
      Stm32GpioInterruptIn.FindCallback cbk entries = (entries, Some i)
      /\ entries !! i = Some e
      /\ Stm32GpioInterruptIn.matches cbk e = true)
  \/ (exists i e,
         Stm32GpioInterruptIn.FindCallback cbk entries
         = (<[ i := cbk ]> entries, Some i)
         /\ entries !! i = Some e
         /\ Stm32GpioInterruptIn.is_empty e = true
         /\ Forall (fun e => Stm32GpioInterruptIn.matches cbk e <> true)
                   entries)
  \/ (Stm32GpioInterruptIn.FindCallback cbk entries = (entries, None)
      /\ Forall (fun e => Stm32GpioInterruptIn.matches cbk e <> true) entries
      /\ Forall (fun e => Stm32GpioInterruptIn.is_empty e <> true) entries).
Proof.
  unfold Stm32GpioInterruptIn.FindCallback.
  destruct (list_find _ entries) as [[i e]|] eqn:Em.
  - left. apply list_find_Some in Em as (Hi & Hm & _). now exists i, e.
  - apply list_find_None in Em. right.
    destruct (list_find _ entries) as [[i e]|] eqn:Ee.
    + left. apply list_find_Some in Ee as (Hi & He & _). now exists i, e.
    + apply list_find_None in Ee. now right.
Qed.

Lemma FindIrqN_inj (i j : Z) :
  0 <= i < 7 -> 0 <= j < 7 ->
  Stm32GpioInterruptIn.FindIrqN i = Stm32GpioInterruptIn.FindIrqN j -> i = j.
Proof.
  intros Hi Hj.
  assert (Ci : i = 0 \/ i = 1 \/ i = 2 \/ i = 3 \/ i = 4 \/ i = 5 \/ i = 6)
    by lia.
  assert (Cj : j = 0 \/ j = 1 \/ j = 2 \/ j = 3 \/ j = 4 \/ j = 5 \/ j = 6)
    by lia.
  repeat (destruct Ci as [-> | Ci]); subst;
    repeat (destruct Cj as [-> | Cj]); subst;
    cbn; intros E; try reflexivity; discriminate.
Qed.

Lemma matches_fields (cbk e : Stm32GpioInterruptIn.Callback) :
  Stm32GpioInterruptIn.matches cbk e = true ->
  Stm32GpioInterruptIn.function e = Stm32GpioInterruptIn.function cbk
  /\ Stm32GpioInterruptIn.data e = Stm32GpioInterruptIn.data cbk.
Proof.
  unfold Stm32GpioInterruptIn.matches. intros H.
  apply andb_true_iff in H as [H1 H2]. split; now apply Z.eqb_eq.
Qed.

(** What [Make] and the destructor do to the table, for a callback for
    which there is room. *)
Lemma gpio_entries_round_trip (function data : Z)
      (entries : list Stm32GpioInterruptIn.Callback) :
  function <> 0 ->
  Forall gpio_entry_ok entries ->
  Exists (fun e =>
            Stm32GpioInterruptIn.matches
              (Stm32GpioInterruptIn.mkCallback function data 0) e = true
            \/ Stm32GpioInterruptIn.is_empty e = true) entries ->
  exists entries1 i e,
    Stm32GpioInterruptIn.FindCallback
      (Stm32GpioInterruptIn.mkCallback function data 0) entries
    = (entries1, Some i)
    /\ (i < length entries)%nat
    /\ Stm32GpioInterruptIn.bump_ref 1 i entries1
       = <[ i := Stm32GpioInterruptIn.mkCallback function data
                   (Stm32GpioInterruptIn.ref_count e + 1) ]> entries
    /\ entries !! i = Some e
    /\ (e = Stm32GpioInterruptIn.mkCallback 0 0 0
        \/ (e = Stm32GpioInterruptIn.mkCallback function data
                  (Stm32GpioInterruptIn.ref_count e)
            /\ 0 < Stm32GpioInterruptIn.ref_count e)).
Proof.
  intros Hf Hok Hroom.
  set (cbk := Stm32GpioInterruptIn.mkCallback function data 0).
  destruct (FindCallback_cases cbk entries)
    as [(i & e & E & Hi & Hm) | [(i & e & E & Hi & He & _) | (_ & Hn & Hne)]].
  - exists entries, i, e. rewrite E.
    destruct (matches_fields _ _ Hm) as [Hfe Hde]. cbn in Hfe, Hde.
    pose proof (Forall_lookup_1 _ _ _ _ Hok Hi) as (Hr0 & Hiff & _).
    split; [reflexivity|]. split; [eapply lookup_lt_Some; eassumption|].
    unfold Stm32GpioInterruptIn.bump_ref. rewrite Hi, Hfe, Hde.
    split; [reflexivity|]. split; [reflexivity|]. right.
    split; [destruct e; cbn in *; congruence|].
    assert (Stm32GpioInterruptIn.ref_count e <> 0) by (intros H0; apply Hf;
      rewrite <- Hfe; now apply Hiff).
    lia.
  - exists (<[ i := cbk ]> entries), i, e. rewrite E.
    pose proof (lookup_lt_Some _ _ _ Hi) as Hlt.
    pose proof (Forall_lookup_1 _ _ _ _ Hok Hi) as (Hr0 & Hiff & Hdat).
    apply Z.eqb_eq in He.
    assert (He0 : e = Stm32GpioInterruptIn.mkCallback 0 0 0).
    { destruct e as [f d r]; cbn in *. f_equal; [assumption | auto |].
      now apply Hiff. }
    split; [reflexivity|]. split; [exact Hlt|].
    unfold Stm32GpioInterruptIn.bump_ref.
    rewrite list_lookup_insert_eq by exact Hlt.
    rewrite list_insert_insert_eq. subst e. cbn.
    split; [reflexivity|]. split; [exact Hi|]. now left.
  - exfalso. apply Exists_exists in Hroom as (e & Hin & [Hm | He]).
    + eapply Forall_forall in Hn; [|exact Hin]. contradiction.
    + eapply Forall_forall in Hne; [|exact Hin]. contradiction.
Qed.

Lemma nth_bump (f : Z -> Z) (i j : nat) (l : list Z) :
  (i < length l)%nat ->
  nth j (Stm32GpioInterruptIn.bump f i l) 0
  = if decide (j = i) then f (nth i l 0) else nth j l 0.
Proof.
  intros Hi. unfold Stm32GpioInterruptIn.bump.
  destruct (decide (j = i)) as [-> | Hne].
  - apply nth_lookup_Some. now apply list_lookup_insert_eq.
  - rewrite !nth_lookup. now rewrite list_lookup_insert_ne by congruence.
Qed.

(** X9.  On a consistent table, [Make] for
    a pin of a known port whose EXTI line is free, with a callback for
    which the table has room, succeeds and keeps the table consistent.
    While the object lives the interrupt of its line is enabled,
    [ISR_Routine] calls the callback with its data, and any [Make] for a
    pin with the same number returns the empty optional and changes
    nothing.  Its destructor restores the table, the use counts, the
    interrupt mask and the enable bits of the interrupt controller to
    what they were before [Make]. *)
Theorem gpio_interrupt_make_destroy (pin function data : Z)
        (s : Stm32GpioInterruptIn.t) :
  gpio_table_ok s ->
  port_known (STM_PORT pin) = true ->
  0 <= STM_PIN pin < 16 ->
  function <> 0 ->
  Z.land (Stm32GpioInterruptIn.IMR1 s) (u32 (Z.shiftl 1 (STM_PIN pin))) = 0 ->
  gpio_room function data s ->
  exists o s1,
    Make pin function data s = Some (Some o, s1)
    /\ Stm32GpioInterruptIn.pin_ o = Some pin
    /\ gpio_table_ok s1
    /\ In (function, data) (snd (Stm32GpioInterruptIn.ISR_Routine s1))
    /\ Stm32GpioInterruptIn.enabled
         (Stm32GpioInterruptIn.nvic s1
            (Stm32GpioInterruptIn.FindIrqN (FindIrqIndex pin))) = true
    /\ (forall pin' function' data',
          STM_PIN pin' = STM_PIN pin ->
          Make pin' function' data' s1 = Some (None, s1))
    /\ Stm32GpioInterruptIn.entries_ (destroy o s1)
       = Stm32GpioInterruptIn.entries_ s
    /\ Stm32GpioInterruptIn.irq_count (destroy o s1)
       = Stm32GpioInterruptIn.irq_count s
    /\ Stm32GpioInterruptIn.IMR1 (destroy o s1) = Stm32GpioInterruptIn.IMR1 s
    /\ forall n,
         Stm32GpioInterruptIn.enabled
           (Stm32GpioInterruptIn.nvic (destroy o s1) n)
         = Stm32GpioInterruptIn.enabled (Stm32GpioInterruptIn.nvic s n).
Proof.
  intros (Hlen & Hclen & Himr & Hents & Hcpos & Hirq) Hport Hpin Hf Hclear
         Hroom.
  destruct (gpio_entries_round_trip function data _ Hf Hents Hroom)
    as (entries1 & i & e & E & Hi & Hb & He & Hcase).
  destruct (exti_line_mask _ _ Himr Hpin Hclear) as [Hmask Hset].
  pose proof (FindIrqIndex_range pin ltac:(lia)) as Hidx.
  set (idx := FindIrqIndex pin) in *.
  assert (Hidxn : (Z.to_nat idx < length (Stm32GpioInterruptIn.irq_count s))%nat)
    by lia.
  set (c := nth (Z.to_nat idx) (Stm32GpioInterruptIn.irq_count s) 0).
  assert (Hc : 0 <= c).
  { subst c. rewrite nth_lookup.
    destruct (lookup_lt_is_Some_2 _ _ Hidxn) as [x Hx]. rewrite Hx.
    exact (Forall_lookup_1 _ _ _ _ Hcpos Hx). }
  unfold Stm32GpioInterruptIn.Make.
  rewrite Hclear. cbn [Z.eqb negb].
  unfold Stm32GpioInterruptIn.construct.
  rewrite Hport. cbn [negb]. rewrite E, Hb. fold idx. fold c.
  eexists. eexists. split; [reflexivity|].
  split; [reflexivity|].
  split.
  { (* the table stays consistent *)
    unfold gpio_table_ok.
    cbn [Stm32GpioInterruptIn.entries_ Stm32GpioInterruptIn.irq_count
         Stm32GpioInterruptIn.IMR1 Stm32GpioInterruptIn.nvic].
    split; [now rewrite length_insert|].
    split; [unfold Stm32GpioInterruptIn.bump; now rewrite length_insert|].
    split; [apply Z.mod_pos_bound; lia|].
    split.
    { apply Forall_insert; [exact Hents|].
      pose proof (Forall_lookup_1 _ _ _ _ Hents He) as (Hr0 & _).
      unfold gpio_entry_ok. cbn. repeat split; try lia; intros; lia. }
    split.
    { unfold Stm32GpioInterruptIn.bump. apply Forall_insert; [exact Hcpos|].
      fold c. lia. }
    intros j Hj. rewrite nth_bump by exact Hidxn. fold c.
    destruct (decide (Z.to_nat j = Z.to_nat idx)) as [Ej | Ej].
    - assert (j = idx) by lia. subst j.
      destruct (Z.eqb_spec c 0) as [Hc0 | Hc0].
      + unfold Stm32GpioInterruptIn.set_irq.
        destruct (decide _) as [_ | Hne]; [|contradiction].
        cbn. split; [lia | discriminate].
      + split; [lia|]. intros Hen. apply Hirq in Hen; [|lia]. contradiction.
    - destruct (Z.eqb_spec c 0) as [Hc0 | Hc0]; [|now apply Hirq].
      unfold Stm32GpioInterruptIn.set_irq.
      destruct (decide _) as [Eq | _]; [|now apply Hirq].
      apply FindIrqN_inj in Eq; [|lia|lia]. lia. }
  split.
  { (* the callback is called *)
    unfold Stm32GpioInterruptIn.ISR_Routine.
    cbn [snd Stm32GpioInterruptIn.entries_].
    apply in_map_iff.
    exists (Stm32GpioInterruptIn.mkCallback function data
              (Stm32GpioInterruptIn.ref_count e + 1)).
    split; [reflexivity|]. apply list_elem_of_In, list_elem_of_filter.
    split.
    - unfold Stm32GpioInterruptIn.is_empty. cbn.
      now apply Z.eqb_neq.
    - eapply list_elem_of_lookup_2. now apply list_lookup_insert_eq. }
  split.
  { cbn [Stm32GpioInterruptIn.nvic].
    destruct (Z.eqb_spec c 0) as [Hc0 | Hc0].
    - unfold Stm32GpioInterruptIn.set_irq.
      destruct (decide _) as [_ | Hne]; [reflexivity | contradiction].
    - destruct (Stm32GpioInterruptIn.enabled _) eqn:Hen; [reflexivity|].
      apply Hirq in Hen; [contradiction | lia]. }
  split.
  { intros pin' function' data' Hsame.
    unfold Stm32GpioInterruptIn.Make. cbn [Stm32GpioInterruptIn.IMR1].
    rewrite Hsame.
    destruct (Z.eqb_spec
                (Z.land (u32 (Z.lor (Stm32GpioInterruptIn.IMR1 s)
                                    (u32 (Z.shiftl 1 (STM_PIN pin)))))
                        (u32 (Z.shiftl 1 (STM_PIN pin)))) 0) as [H0 | _];
      [contradiction | reflexivity]. }
  unfold Stm32GpioInterruptIn.destroy.
  cbn [Stm32GpioInterruptIn.pin_ Stm32GpioInterruptIn.entry_
       Stm32GpioInterruptIn.entries_ Stm32GpioInterruptIn.irq_count
       Stm32GpioInterruptIn.IMR1 Stm32GpioInterruptIn.nvic].
  fold idx.
  split.
  { unfold Stm32GpioInterruptIn.bump_ref.
    rewrite list_lookup_insert_eq by exact Hi.
    rewrite list_insert_insert_eq. cbn.
    rewrite list_lookup_insert_eq by exact Hi. cbn.
    replace (Stm32GpioInterruptIn.ref_count e + 1 + -1)
      with (Stm32GpioInterruptIn.ref_count e) by lia.
    destruct Hcase as [He0 | [Hfd Hpos]].
    - rewrite He0 at 1. cbn. rewrite list_insert_insert_eq.
      rewrite He0. cbn. apply list_insert_id. now rewrite He, He0.
    - destruct (Z.eqb_spec (Stm32GpioInterruptIn.ref_count e) 0); [lia|].
      apply list_insert_id. now rewrite He, Hfd at 1. }
  split; [apply bump_bump; exact Hidxn|].
  split; [exact Hmask|].
  intros n. rewrite nth_bump by exact Hidxn.
  destruct (decide _) as [_|Hne]; [|contradiction]. fold c.
  destruct (Z.eqb_spec c 0) as [Hc0 | Hc0].
  - destruct (Z.eqb_spec (c + 1) 1); [|lia].
    unfold Stm32GpioInterruptIn.set_irq.
    destruct (decide _) as [-> | _]; [|reflexivity].
    cbn. symmetry. apply Hirq; [lia | exact Hc0].
  - destruct (Z.eqb_spec (c + 1) 1); [lia | reflexivity].
Qed.

Lemma gpio_calls_insert (l : list Stm32GpioInterruptIn.Callback) :
  forall (i : nat) (e e' : Stm32GpioInterruptIn.Callback),
    l !! i = Some e ->
    Stm32GpioInterruptIn.function e' = Stm32GpioInterruptIn.function e ->
    Stm32GpioInterruptIn.data e' = Stm32GpioInterruptIn.data e ->
    map (fun e => (Stm32GpioInterruptIn.function e,
                   Stm32GpioInterruptIn.data e))
        (filter (fun e => Stm32GpioInterruptIn.is_empty e = false)
                (<[ i := e' ]> l))
    = map (fun e => (Stm32GpioInterruptIn.function e,
                     Stm32GpioInterruptIn.data e))
          (filter (fun e => Stm32GpioInterruptIn.is_empty e = false) l).
Proof.
  induction l as [|x l IH]; intros i e e' Hi Hf Hd; [discriminate|].
  destruct i as [|i].
  - injection Hi as ->. cbn [insert list_insert].
    rewrite !filter_cons.
    assert (Hemp : Stm32GpioInterruptIn.is_empty e'
                   = Stm32GpioInterruptIn.is_empty e)
      by (unfold Stm32GpioInterruptIn.is_empty; now rewrite Hf).
    destruct (decide (Stm32GpioInterruptIn.is_empty e' = false)),
      (decide (Stm32GpioInterruptIn.is_empty e = false));
      try congruence.
    cbn [map]. now rewrite Hf, Hd.
  - cbn [insert list_insert]. rewrite !filter_cons.
    destruct (decide _); cbn [map]; [f_equal|]; eapply IH; eassumption.
Qed.

(** X10.  How [Make] uses the table of three
    callbacks, for a pin of a known port whose EXTI line is free.  If
    an entry holds the same function and data, the object shares the
    first such entry: only its use count goes up, and [ISR_Routine]
    makes the same calls as before, one for each entry however many
    pins share it.  If no entry holds them and none is empty, [Make]
    does not return the empty optional: the constructor dereferences the
    null pointer that [FindCallback] returned. *)
Theorem gpio_interrupt_table (pin function data : Z)
        (s : Stm32GpioInterruptIn.t) :
  let cbk := Stm32GpioInterruptIn.mkCallback function data 0 in
  port_known (STM_PORT pin) = true ->
  Z.land (Stm32GpioInterruptIn.IMR1 s) (u32 (Z.shiftl 1 (STM_PIN pin))) = 0 ->
  (forall i e,
      Stm32GpioInterruptIn.entries_ s !! i = Some e ->
      Stm32GpioInterruptIn.matches cbk e = true ->
      (forall j y, Stm32GpioInterruptIn.entries_ s !! j = Some y ->
                   (j < i)%nat ->
                   Stm32GpioInterruptIn.matches cbk y <> true) ->
      exists o s1,
        Make pin function data s = Some (Some o, s1)
        /\ Stm32GpioInterruptIn.entry_ o = i
        /\ Stm32GpioInterruptIn.entries_ s1
           = <[ i := Stm32GpioInterruptIn.mkCallback function data
                       (Stm32GpioInterruptIn.ref_count e + 1) ]>
               (Stm32GpioInterruptIn.entries_ s)
        /\ snd (Stm32GpioInterruptIn.ISR_Routine s1)
           = snd (Stm32GpioInterruptIn.ISR_Routine s))
  /\ (Forall (fun e => Stm32GpioInterruptIn.matches cbk e <> true
                       /\ Stm32GpioInterruptIn.is_empty e <> true)
             (Stm32GpioInterruptIn.entries_ s) ->
      Make pin function data s = None).
Proof.
  intros cbk Hport Hclear. split.
  - intros i e Hi Hm Hfirst.
    destruct (matches_fields _ _ Hm) as [Hfe Hde]. cbn in Hfe, Hde.
    assert (E : Stm32GpioInterruptIn.FindCallback cbk
                  (Stm32GpioInterruptIn.entries_ s)
                = (Stm32GpioInterruptIn.entries_ s, Some i)).
    { unfold Stm32GpioInterruptIn.FindCallback.
      assert (Hfind : list_find
                        (fun e => Stm32GpioInterruptIn.matches cbk e = true)
                        (Stm32GpioInterruptIn.entries_ s) = Some (i, e))
        by (apply list_find_Some; auto).
      now rewrite Hfind. }
    unfold Stm32GpioInterruptIn.Make. rewrite Hclear. cbn [Z.eqb negb].
    unfold Stm32GpioInterruptIn.construct. rewrite Hport. cbn [negb].
    fold cbk. rewrite E.
    eexists. eexists. split; [reflexivity|]. split; [reflexivity|].
    cbn [Stm32GpioInterruptIn.entries_].
    assert (Hb : Stm32GpioInterruptIn.bump_ref 1 i
                   (Stm32GpioInterruptIn.entries_ s)
                 = <[ i := Stm32GpioInterruptIn.mkCallback function data
                             (Stm32GpioInterruptIn.ref_count e + 1) ]>
                     (Stm32GpioInterruptIn.entries_ s)).
    { unfold Stm32GpioInterruptIn.bump_ref. now rewrite Hi, Hfe, Hde. }
    split; [exact Hb|]. rewrite Hb.
    unfold Stm32GpioInterruptIn.ISR_Routine.
    cbn [snd Stm32GpioInterruptIn.entries_].
    now apply (gpio_calls_insert _ i e).
  - intros Hfull.
    unfold Stm32GpioInterruptIn.Make. rewrite Hclear. cbn [Z.eqb negb].
    unfold Stm32GpioInterruptIn.construct. rewrite Hport. cbn [negb].
    fold cbk.
    destruct (FindCallback_cases cbk (Stm32GpioInterruptIn.entries_ s))
      as [(i & e & _ & Hi & Hm) | [(i & e & _ & Hi & He & _) | (E & _)]].
    + pose proof (Forall_lookup_1 _ _ _ _ Hfull Hi) as [Hn _]. contradiction.
    + pose proof (Forall_lookup_1 _ _ _ _ Hfull Hi) as [_ Hn]. contradiction.
    + now rewrite E.
Qed.

End GpioInterrupts.

Lemma gpio_interrupt_make_destroy_witness :
  exists o s1,
    Stm32GpioInterruptIn.Make pin_number pin_port port_a_to_f
      0x13 0x08001234 7 gpio_reset = Some (Some o, s1)
    /\ In (0x08001234, 7) (snd (Stm32GpioInterruptIn.ISR_Routine s1))
    /\ Stm32GpioInterruptIn.entries_
         (Stm32GpioInterruptIn.destroy pin_number o s1)
       = Stm32GpioInterruptIn.entries_ gpio_reset.
Proof.
  assert (Hok : gpio_table_ok gpio_reset).
  { unfold gpio_table_ok. cbn.
    split; [reflexivity|]. split; [reflexivity|]. split; [lia|].
    split; [repeat apply Forall_cons_2; try apply Forall_nil_2;
            unfold gpio_entry_ok; cbn; repeat split; intros; lia|].
    split; [repeat apply Forall_cons_2; try apply Forall_nil_2; lia|].
    intros i Hi. split; [reflexivity|]. intros _.
    assert (C : i = 0 \/ i = 1 \/ i = 2 \/ i = 3 \/ i = 4 \/ i = 5 \/ i = 6)
      by lia.
    repeat (destruct C as [-> | C]; [reflexivity|]). now subst. }
  assert (Hport : port_a_to_f (pin_port 0x13) = true) by reflexivity.
  assert (Hpin : 0 <= pin_number 0x13 < 16)
    by (change (pin_number 0x13) with 3; lia).
  assert (Hf : 0x08001234 <> 0) by discriminate.
  assert (Hroom : gpio_room 0x08001234 7 gpio_reset)
    by (apply Exists_cons_hd; right; reflexivity).
  destruct (gpio_interrupt_make_destroy pin_number pin_port port_a_to_f
              0x13 0x08001234 7 gpio_reset Hok Hport Hpin Hf eq_refl Hroom)
    as (o & s1 & H1 & _ & _ & H2 & _ & _ & H3 & _).
  exists o, s1. exact (conj H1 (conj H2 H3)).
Defined.

Lemma gpio_interrupt_table_witness :
  Stm32GpioInterruptIn.Make pin_number pin_port port_a_to_f 0x13 4 0 gpio_full
  = None.
Proof.
  apply (proj2 (gpio_interrupt_table pin_number pin_port port_a_to_f
                  0x13 4 0 gpio_full eq_refl eq_refl)).
  repeat constructor; discriminate.
Defined.
(** ** The bit-banged SPI master *)

Lemma spi_word_range (miso : nat -> bool) (n : nat) :
  0 <= spi_word miso n < 2 ^ Z.of_nat n.
Proof.
  induction n as [|n IH]; [cbn; lia|].
  cbn [spi_word]. rewrite Nat2Z.inj_succ, Z.pow_succ_r by lia.
  destruct (miso n); cbn [Z.b2z]; lia.
Qed.

Lemma spi_word_testbit (value : Z) (miso : nat -> bool) (n : nat) :
  (forall k, (k < n)%nat -> miso k = Z.testbit value (Z.of_nat k)) ->
  spi_word miso n = value mod 2 ^ Z.of_nat n.
Proof.
  induction n as [|n IH]; intros Hm.
  - cbn. now rewrite Z.mod_1_r.
  - cbn [spi_word]. rewrite IH by (intros; apply Hm; lia).
    rewrite (Hm n) by lia.
    rewrite Nat2Z.inj_succ, Z.pow_succ_r, (Z.mul_comm 2) by lia.
    rewrite Z.rem_mul_r by lia.
    rewrite Z.testbit_spec' by lia. lia.
Qed.

Lemma spi_mosi_bit (value : Z) (k : nat) :
  (if Z.land value (Z.shiftl 1 (Z.of_nat k)) =? 0 then 0 else 1)
  = Z.b2z (Z.testbit value (Z.of_nat k)).
Proof.
  rewrite Z.shiftl_1_l.
  destruct (Z.testbit value (Z.of_nat k)) eqn:Hb.
  - destruct (Z.eqb_spec (Z.land value (2 ^ Z.of_nat k)) 0) as [H0|];
      [|reflexivity].
    assert (H : Z.testbit (Z.land value (2 ^ Z.of_nat k)) (Z.of_nat k) = false)
      by (rewrite H0; apply Z.bits_0).
    rewrite Z.land_spec, Z.pow2_bits_true, Hb in H by lia. discriminate.
  - destruct (Z.eqb_spec (Z.land value (2 ^ Z.of_nat k)) 0) as [|Hn];
      [reflexivity|].
    exfalso. apply Hn. apply Z.bits_inj'. intros i Hi.
    rewrite Z.land_spec, Z.pow2_bits_eqb, Z.bits_0 by lia.
    destruct (Z.eqb_spec (Z.of_nat k) i) as [<-|_];
      [now rewrite Hb | apply andb_false_r].
Qed.

Lemma spi_shift_in (result : Z) (b : bool) :
  exists q,
    u16 (Z.lor (u16 (Z.shiftl result 1)) (if b then 1 else 0))
    = result * 2 + Z.b2z b - 2 ^ 16 * q.
Proof.
  assert (E : u16 (Z.shiftl result 1) = Z.shiftl (result mod 2 ^ 15) 1).
  { rewrite !Z.shiftl_mul_pow2 by lia. unfold u16, wrap.
    change (2 ^ 16) with (2 ^ 15 * 2 ^ 1). now rewrite Z.mul_mod_distr_r by lia. }
  pose proof (Z.mod_pos_bound result (2 ^ 15) ltac:(lia)) as Hx.
  rewrite E.
  replace (if b then 1 else 0) with (Z.b2z b) by now destruct b.
  rewrite lor_shiftl_add by (destruct b; cbn; lia).
  exists (result / 2 ^ 15).
  unfold u16, wrap. rewrite Z.mod_small by (destruct b; cbn [Z.b2z]; lia).
  pose proof (Z.div_mod result (2 ^ 15) ltac:(lia)). lia.
Qed.

Lemma spi_write_loop (s : Stm32BitbangSpi.t) (value : Z)
      (miso : nat -> bool) (n : nat) :
  forall (result : Z) (ops : list Stm32BitbangSpi.op),
    0 <= result < 2 ^ 16 ->
    Stm32BitbangSpi.write_loop s value miso n result ops
    = (u16 (result * 2 ^ Z.of_nat n + spi_word miso n),
       ops ++ flat_map (spi_bit_ops (Stm32BitbangSpi.us_delay_ s) value)
                       (rev (seq 0 n))).
Proof.
  induction n as [|n IH]; intros result ops Hr.
  - cbn [Stm32BitbangSpi.write_loop seq rev flat_map spi_word].
    rewrite app_nil_r, Z.add_0_r. cbn [Z.of_nat]. rewrite Z.pow_0_r, Z.mul_1_r.
    f_equal. symmetry. now apply Z.mod_small.
  - cbn [Stm32BitbangSpi.write_loop].
    rewrite IH by (apply wrap_range; lia).
    f_equal.
    + destruct (spi_shift_in result (miso n)) as [q ->].
      cbn [spi_word]. rewrite Nat2Z.inj_succ, Z.pow_succ_r by lia.
      unfold u16, wrap.
      replace ((result * 2 + Z.b2z (miso n) - 2 ^ 16 * q) * 2 ^ Z.of_nat n
               + spi_word miso n)
        with (result * (2 * 2 ^ Z.of_nat n)
              + (Z.b2z (miso n) * 2 ^ Z.of_nat n + spi_word miso n)
              + (- q * 2 ^ Z.of_nat n) * 2 ^ 16) by ring.
      apply Z_mod_plus_full.
    + rewrite <- app_assoc. f_equal.
      rewrite seq_S, rev_app_distr. cbn [rev app flat_map Nat.add].
      unfold spi_bit_ops at 2. now rewrite spi_mosi_bit.
Qed.

(** X11.  [Stm32BitbangSpi::write] with a width of at
    most 16 selects the device, shifts the low [width] bits of the value
    out most significant bit first, each put on MOSI before the rising
    edge of the clock and each input bit read after the falling edge,
    and deselects the device; the result is the word of the bits read,
    first bit highest.  With MISO wired to MOSI it is the low [width]
    bits of the value.  Every half period of the clock is a [wait_us] of
    [us_delay_], which together with the extra tick that each call of
    the helper of [wait_us] adds is longer than what the requested
    frequency asks for. *)
Theorem spi_bitbang_write (options : Stm32BitbangSpi.Options) (value : Z)
        (miso : nat -> bool) :
  let n := Z.to_nat (Stm32BitbangSpi.width options) in
  Stm32BitbangSpi.mode options = 1 ->
  Stm32BitbangSpi.width options <= 16 ->
  0 < Stm32BitbangSpi.frequency options ->
  exists s,
    Stm32BitbangSpi.make options = Some s
    /\ Stm32BitbangSpi.write s value miso
       = (spi_word miso n,
          [Stm32BitbangSpi.CsWrite 0;
           Stm32BitbangSpi.WaitUs (Stm32BitbangSpi.us_delay_ s)]
          ++ flat_map (spi_bit_ops (Stm32BitbangSpi.us_delay_ s) value)
                      (rev (seq 0 n))
          ++ [Stm32BitbangSpi.MosiWrite 0; Stm32BitbangSpi.CsWrite 1;
              Stm32BitbangSpi.WaitUs (Stm32BitbangSpi.us_delay_ s)])
    /\ ((forall k, (k < n)%nat -> miso k = Z.testbit value (Z.of_nat k)) ->
        fst (Stm32BitbangSpi.write s value miso) = value mod 2 ^ Z.of_nat n)
    /\ 1 <= Stm32BitbangSpi.us_delay_ s
    /\ 500000 < (Stm32BitbangSpi.us_delay_ s
                 + wait_us_rounds (Stm32BitbangSpi.us_delay_ s))
                * Stm32BitbangSpi.frequency options.
Proof.
  intros n Hmode Hw Hf.
  unfold Stm32BitbangSpi.make. rewrite Hmode. cbn [Z.eqb Pos.eqb negb].
  eexists. split; [reflexivity|].
  assert (Hwrite : forall s,
             Stm32BitbangSpi.options_ s = options ->
             Stm32BitbangSpi.write s value miso
             = (spi_word miso n,
                [Stm32BitbangSpi.CsWrite 0;
                 Stm32BitbangSpi.WaitUs (Stm32BitbangSpi.us_delay_ s)]
                ++ flat_map (spi_bit_ops (Stm32BitbangSpi.us_delay_ s) value)
                            (rev (seq 0 n))
                ++ [Stm32BitbangSpi.MosiWrite 0; Stm32BitbangSpi.CsWrite 1;
                    Stm32BitbangSpi.WaitUs (Stm32BitbangSpi.us_delay_ s)])).
  { intros s Hs. unfold Stm32BitbangSpi.write. rewrite Hs. fold n.
    rewrite spi_write_loop by lia.
    rewrite Z.mul_0_l, Z.add_0_l, <- app_assoc. f_equal.
    pose proof (spi_word_range miso n) as Hr.
    apply Z.mod_small. split; [lia|].
    apply Z.lt_le_trans with (2 ^ Z.of_nat n); [lia|].
    apply Z.pow_le_mono_r; lia. }
  split; [now apply Hwrite|].
  split.
  { intros Hloop. rewrite Hwrite by reflexivity. cbn [fst].
    now apply spi_word_testbit. }
  cbn [Stm32BitbangSpi.us_delay_].
  set (d := Z.max 1 (Z.quot 500000 (Stm32BitbangSpi.frequency options))).
  split; [subst d; lia|].
  pose proof (wait_us_rounds_pos d) as Hrounds.
  assert (Hq : 500000 < (Z.quot 500000 (Stm32BitbangSpi.frequency options) + 1)
                        * Stm32BitbangSpi.frequency options).
  { rewrite Z.quot_div_nonneg by lia.
    pose proof (Z.div_mod 500000 (Stm32BitbangSpi.frequency options)
                  ltac:(lia)).
    pose proof (Z.mod_pos_bound 500000 (Stm32BitbangSpi.frequency options) Hf).
    lia. }
  apply Z.lt_le_trans with (1 := Hq).
  apply Z.mul_le_mono_nonneg_r; [lia|]. subst d. lia.
Qed.

Lemma spi_bitbang_write_witness :
  exists s,
    Stm32BitbangSpi.make (Stm32BitbangSpi.mkOptions 300000 4 1) = Some s
    /\ Stm32BitbangSpi.write s 0xa (fun k => Nat.even k)
       = (5,
          [Stm32BitbangSpi.CsWrite 0; Stm32BitbangSpi.WaitUs 1;
           Stm32BitbangSpi.MosiWrite 1; Stm32BitbangSpi.SckWrite 1;
           Stm32BitbangSpi.WaitUs 1; Stm32BitbangSpi.SckWrite 0;
           Stm32BitbangSpi.MisoRead; Stm32BitbangSpi.WaitUs 1;
           Stm32BitbangSpi.MosiWrite 0; Stm32BitbangSpi.SckWrite 1;
           Stm32BitbangSpi.WaitUs 1; Stm32BitbangSpi.SckWrite 0;
           Stm32BitbangSpi.MisoRead; Stm32BitbangSpi.WaitUs 1;
           Stm32BitbangSpi.MosiWrite 1; Stm32BitbangSpi.SckWrite 1;
           Stm32BitbangSpi.WaitUs 1; Stm32BitbangSpi.SckWrite 0;
           Stm32BitbangSpi.MisoRead; Stm32BitbangSpi.WaitUs 1;
           Stm32BitbangSpi.MosiWrite 0; Stm32BitbangSpi.SckWrite 1;
           Stm32BitbangSpi.WaitUs 1; Stm32BitbangSpi.SckWrite 0;
           Stm32BitbangSpi.MisoRead; Stm32BitbangSpi.WaitUs 1;
           Stm32BitbangSpi.MosiWrite 0; Stm32BitbangSpi.CsWrite 1;
           Stm32BitbangSpi.WaitUs 1]).
Proof.
  assert (Hw : Stm32BitbangSpi.width (Stm32BitbangSpi.mkOptions 300000 4 1)
               <= 16) by (cbn; lia).
  assert (Hf : 0 < Stm32BitbangSpi.frequency
                     (Stm32BitbangSpi.mkOptions 300000 4 1)) by (cbn; lia).
  destruct (spi_bitbang_write (Stm32BitbangSpi.mkOptions 300000 4 1) 0xa
              (fun k => Nat.even k) eq_refl Hw Hf) as (s & H1 & H2 & _).
  exists s. split; [exact H1|]. rewrite H2.
  injection H1 as <-. reflexivity.
Defined.
(** ** Programming the flash *)

Lemma le_word_app (done : list Z) (b : Z) :
  le_word (done ++ [b]) = le_word done + b * 2 ^ (8 * Z.of_nat (length done)).
Proof.
  induction done as [|x done IH].
  - cbn. lia.
  - cbn [app le_word fold_right length]. fold (le_word (done ++ [b])).
    fold (le_word done). rewrite IH.
    rewrite Nat2Z.inj_succ.
    replace (8 * Z.succ (Z.of_nat (length done)))
      with (8 + 8 * Z.of_nat (length done)) by lia.
    rewrite Z.pow_add_r by lia. change (2 ^ 8) with 256. ring.
Qed.

Lemma le_word_range (bytes : list Z) :
  Forall byte_range bytes ->
  0 <= le_word bytes < 2 ^ (8 * Z.of_nat (length bytes)).
Proof.
  induction 1 as [|b bytes Hb _ IH]; [cbn; lia|].
  cbn [le_word fold_right length]. fold (le_word bytes).
  rewrite Nat2Z.inj_succ.
  replace (8 * Z.succ (Z.of_nat (length bytes)))
    with (8 + 8 * Z.of_nat (length bytes)) by lia.
  rewrite Z.pow_add_r by lia. change (2 ^ 8) with 256.
  unfold byte_range in Hb. lia.
Qed.

Lemma flash_address_split (a k : Z) :
  a mod 8 = 0 -> 0 < a -> a + 8 <= 2 ^ 32 -> 0 <= k < 8 ->
  Z.land (a + k) (u32 (Z.lnot 7)) = a /\ Z.land (a + k) 7 = k.
Proof.
  intros Ha Ha0 Ha32 Hk. split.
  - change (u32 (Z.lnot 7)) with (Z.ldiff (Z.ones 32) (Z.ones 3)).
    assert (E : a = Z.shiftl (Z.shiftr (a + k) 3) 3).
    { rewrite Z.shiftl_mul_pow2, Z.shiftr_div_pow2 by lia.
      change (2 ^ 3) with 8. Z.div_mod_to_equations. lia. }
    rewrite E at 2.
    rewrite <- (Z.mod_small (a + k) (2 ^ 32)) at 1 by lia.
    apply Z.bits_inj'. intros i Hi.
    rewrite Z.land_spec, Z.ldiff_spec, !Z.testbit_ones_nonneg,
      Z.testbit_mod_pow2, Z.shiftl_spec by lia.
    destruct (Z.ltb_spec i 3) as [H3 | H3].
    + rewrite (Z.testbit_neg_r _ (i - 3)) by lia.
      destruct (Z.ltb_spec i 3); [|lia].
      cbn [negb]. now rewrite !andb_false_r.
    + rewrite Z.shiftr_spec by lia. replace (i - 3 + 3) with i by lia.
      destruct (Z.ltb_spec i 32) as [H32 | H32].
      * now destruct (Z.testbit (a + k) i).
      * rewrite (Z.bits_above_log2 (a + k) i); [reflexivity | lia |].
        apply Z.lt_le_trans with 32; [|exact H32].
        apply Z.log2_lt_pow2; lia.
  - change 7 with (Z.ones 3). rewrite Z.land_ones by lia.
    change (2 ^ 3) with 8. Z.div_mod_to_equations. lia.
Qed.

(** One more byte of a double word. *)
Lemma flash_program_byte (a : Z) (done : list Z) (b : Z)
      (ops : list Stm32G4Flash.op) :
  a mod 8 = 0 -> 0 < a -> a + 8 <= 2 ^ 32 ->
  (length done < 8)%nat -> Forall byte_range done -> byte_range b ->
  Stm32G4Flash.ProgramByte (a + Z.of_nat (length done)) b
    (flash_partial a done ops)
  = if (length done =? 7)%nat
    then Stm32G4Flash.mk 0 0 0
           (ops ++ [Stm32G4Flash.HAL_FLASH_Program a (le_word (done ++ [b]))])
    else flash_partial a (done ++ [b]) ops.
Proof.
  intros Ha Ha0 Ha32 Hk Hdone Hb.
  pose proof (le_word_range done Hdone) as Hw.
  pose proof (le_word_app done b) as Happ.
  set (k := Z.of_nat (length done)) in *.
  assert (Hk8 : 0 <= k < 8) by lia.
  destruct (flash_address_split a k Ha Ha0 Ha32 Hk8) as [Hsh Hoff].
  unfold Stm32G4Flash.ProgramByte.
  rewrite (wrap_small 32 (a + k) : _ -> u32 (a + k) = a + k) by lia.
  rewrite Hsh, Hoff.
  assert (Hnoflush : negb (a =? Stm32G4Flash.shadow_start_
                                  (flash_partial a done ops))
                     && negb (Stm32G4Flash.shadow_start_
                                (flash_partial a done ops) =? 0) = false).
  { unfold flash_partial. cbn [Stm32G4Flash.shadow_start_].
    destruct done; [apply andb_false_r|].
    now rewrite Z.eqb_refl. }
  rewrite Hnoflush.
  change (Stm32G4Flash.shadow_ (flash_partial a done ops))
    with (le_word done).
  change (Stm32G4Flash.shadow_bits_ (flash_partial a done ops))
    with (2 ^ (8 * k) - 1).
  change (Stm32G4Flash.ops (flash_partial a done ops)) with ops.
  assert (Hp : 0 < 2 ^ (8 * k)) by (apply Z.pow_pos_nonneg; lia).
  assert (Hp8 : 2 ^ (8 * k + 8) = 256 * 2 ^ (8 * k))
    by (rewrite Z.pow_add_r by lia; change (2 ^ 8) with 256; lia).
  assert (Hp64 : 2 ^ (8 * k + 8) <= 2 ^ 64)
    by (apply Z.pow_le_mono_r; lia).
  unfold byte_range in Hb.
  assert (Hsb : u64 (Z.shiftl b (k * 8)) = b * 2 ^ (8 * k)).
  { rewrite Z.shiftl_mul_pow2, (Z.mul_comm k 8) by lia.
    apply Z.mod_small. nia. }
  assert (Hsf : u64 (Z.shiftl 255 (k * 8)) = 255 * 2 ^ (8 * k)).
  { rewrite Z.shiftl_mul_pow2, (Z.mul_comm k 8) by lia.
    apply Z.mod_small. nia. }
  rewrite Hsb, Hsf.
  assert (Hshadow : u64 (Z.lor (le_word done) (b * 2 ^ (8 * k)))
                    = le_word (done ++ [b])).
  { rewrite Z.lor_comm, <- Z.shiftl_mul_pow2 by lia.
    rewrite lor_shiftl_add, Happ by lia.
    unfold u64, wrap. rewrite Z.mod_small by nia. lia. }
  assert (Hbits : u64 (Z.lor (2 ^ (8 * k) - 1) (255 * 2 ^ (8 * k)))
                  = 2 ^ (8 * k + 8) - 1).
  { rewrite Z.lor_comm, <- Z.shiftl_mul_pow2 by lia.
    rewrite lor_shiftl_add by lia.
    unfold u64, wrap. rewrite Z.mod_small by nia. lia. }
  rewrite Hshadow, Hbits.
  destruct (Nat.eqb_spec (length done) 7) as [H7 | H7].
  - replace k with 7 by lia. cbn [Z.mul Z.add Pos.mul Pos.add Z.pow].
    reflexivity.
  - destruct (Z.eqb_spec (2 ^ (8 * k + 8) - 1) 0xffffffffffffffff) as [E|_].
    + exfalso. change 0xffffffffffffffff with (2 ^ 64 - 1) in E.
      assert (2 ^ (8 * k + 8) < 2 ^ 64) by (apply Z.pow_lt_mono_r; lia).
      lia.
    + unfold flash_partial. rewrite length_app. cbn [length].
      replace (8 * Z.of_nat (length done + 1)) with (8 * k + 8) by lia.
      destruct done; reflexivity.
Qed.

(** The rest of a double word. *)
Lemma flash_program_rest (a : Z) (rest : list Z) :
  a mod 8 = 0 -> 0 < a -> a + 8 <= 2 ^ 32 ->
  forall (done : list Z) (ops : list Stm32G4Flash.op),
    (length done + length rest <= 8)%nat ->
    Forall byte_range done -> Forall byte_range rest ->
    flash_program (a + Z.of_nat (length done)) rest (flash_partial a done ops)
    = if (length done + length rest =? 8)%nat && negb (length rest =? 0)%nat
      then Stm32G4Flash.mk 0 0 0
             (ops ++ [Stm32G4Flash.HAL_FLASH_Program a
                        (le_word (done ++ rest))])
      else flash_partial a (done ++ rest) ops.
Proof.
  intros Ha Ha0 Ha32.
  induction rest as [|b rest IH]; intros done ops Hlen Hdone Hrest.
  - cbn [flash_program length]. rewrite andb_false_r, app_nil_r. reflexivity.
  - cbn [length] in Hlen. inversion Hrest as [|? ? Hb Hrest']; subst.
    cbn [flash_program].
    rewrite flash_program_byte by (try assumption; lia).
    destruct (Nat.eqb_spec (length done) 7) as [H7 | H7].
    + destruct rest; [|cbn in Hlen; lia].
      cbn [flash_program length].
      destruct (Nat.eqb_spec (length done + 1) 8); [reflexivity | lia].
    + replace (a + Z.of_nat (length done) + 1)
        with (a + Z.of_nat (length (done ++ [b])))
        by (rewrite length_app; cbn [length]; lia).
      rewrite IH;
        [|rewrite length_app; cbn [length]; lia
         |apply Forall_app; split; [assumption | now constructor]
         |assumption].
      rewrite length_app, <- app_assoc. cbn [length app].
      replace (length done + 1 + length rest)%nat
        with (length done + S (length rest))%nat by lia.
      destruct (Nat.eqb_spec (length done + S (length rest)) 8) as [E8|E8];
        cbn [andb negb Nat.eqb]; [|destruct (length rest =? 0)%nat; reflexivity].
      destruct rest as [|c rest]; [cbn [length] in E8; lia|].
      reflexivity.
Qed.

Lemma flash_program_app (l1 l2 : list Z) :
  forall (a : Z) (s : Stm32G4Flash.t),
    flash_program a (l1 ++ l2) s
    = flash_program (a + Z.of_nat (length l1)) l2 (flash_program a l1 s).
Proof.
  induction l1 as [|b l1 IH]; intros a s.
  - cbn. now rewrite Z.add_0_r.
  - cbn [app flash_program length]. rewrite IH. f_equal. lia.
Qed.

(** X12.  Programming a buffer byte by byte from
    an address that is a multiple of eight, with nothing pending, and
    then locking the flash, programs one double word for every eight
    bytes, in order, each at its address and with its first byte lowest,
    and one more for the bytes that are left over, with zero in the
    bytes that were not given; after that nothing is pending. *)
Theorem flash_program_buffer (words : list (list Z)) :
  forall (a : Z) (last : list Z) (ops : list Stm32G4Flash.op),
    a mod 8 = 0 -> 0 < a ->
    a + 8 * Z.of_nat (length words) + 8 <= 2 ^ 32 ->
    Forall (fun w => length w = 8%nat /\ Forall byte_range w) words ->
    (length last < 8)%nat -> Forall byte_range last ->
    Stm32G4Flash.Lock
      (flash_program a (concat words ++ last) (Stm32G4Flash.mk 0 0 0 ops))
    = Stm32G4Flash.mk 0 0 0
        (ops ++ flash_words a words
         ++ match last with
            | [] => []
            | _ => [Stm32G4Flash.HAL_FLASH_Program
                      (a + 8 * Z.of_nat (length words)) (le_word last)]
            end
         ++ [Stm32G4Flash.HAL_FLASH_Lock]).
Proof.
  induction words as [|w words IH]; intros a last ops Ha Ha0 Ha32 Hw Hl Hbytes.
  - cbn [concat app flash_words length Z.of_nat].
    rewrite Z.mul_0_r, Z.add_0_r in *.
    pose proof (flash_program_rest a last Ha Ha0 ltac:(lia) [] ops
                  ltac:(cbn [length]; lia) (Forall_nil_2 _) Hbytes) as H.
    cbn [length Z.of_nat app Nat.add] in H. rewrite Z.add_0_r in H.
    change (flash_partial a [] ops) with (Stm32G4Flash.mk 0 0 0 ops) in H.
    rewrite H.
    destruct (Nat.eqb_spec (length last) 8) as [E|_]; [lia|].
    cbn [andb]. unfold Stm32G4Flash.Lock, flash_partial.
    cbn [Stm32G4Flash.shadow_bits_].
    destruct last as [|b last]; [reflexivity|].
    assert (Hp : 1 < 2 ^ (8 * Z.of_nat (length (b :: last)))).
    { change 1 with (2 ^ 0) at 1. apply Z.pow_lt_mono_r; cbn [length]; lia. }
    destruct (Z.eqb_spec (2 ^ (8 * Z.of_nat (length (b :: last))) - 1) 0);
      [lia|].
    cbn [negb Stm32G4Flash.FlushWord Stm32G4Flash.shadow_start_
         Stm32G4Flash.shadow_ Stm32G4Flash.shadow_bits_ Stm32G4Flash.ops].
    unfold Stm32G4Flash.FlushWord.
    cbn [Stm32G4Flash.shadow_start_ Stm32G4Flash.shadow_
         Stm32G4Flash.shadow_bits_ Stm32G4Flash.ops].
    now rewrite <- app_assoc.
  - inversion Hw as [|? ? [Hw8 Hwb] Hw']; subst.
    cbn [concat length] in *. rewrite <- app_assoc, flash_program_app.
    pose proof (flash_program_rest a w Ha Ha0 ltac:(lia) [] ops
                  ltac:(cbn [length]; lia) (Forall_nil_2 _) Hwb) as H.
    cbn [length Z.of_nat app Nat.add] in H. rewrite Z.add_0_r in H.
    change (flash_partial a [] ops) with (Stm32G4Flash.mk 0 0 0 ops) in H.
    rewrite H, Hw8. cbn [Nat.add Nat.eqb andb negb].
    rewrite IH; try assumption; try lia.
    + cbn [flash_words]. rewrite <- !app_assoc. cbn [app].
      replace (a + Z.of_nat 8 + 8 * Z.of_nat (length words))
        with (a + 8 * Z.of_nat (S (length words))) by lia.
      reflexivity.
    + rewrite <- Zplus_mod_idemp_l, Ha. reflexivity.
Qed.

Lemma flash_program_buffer_witness :
  Stm32G4Flash.Lock
    (flash_program 0x807f000 [1; 2; 3; 4; 5; 6; 7; 8; 9; 10]
       (Stm32G4Flash.mk 0 0 0 [Stm32G4Flash.HAL_FLASH_Unlock]))
  = Stm32G4Flash.mk 0 0 0
      [Stm32G4Flash.HAL_FLASH_Unlock;
       Stm32G4Flash.HAL_FLASH_Program 0x807f000 0x0807060504030201;
       Stm32G4Flash.HAL_FLASH_Program 0x807f008 0x0a09;
       Stm32G4Flash.HAL_FLASH_Lock].
Proof.
  apply (flash_program_buffer [[1; 2; 3; 4; 5; 6; 7; 8]] 0x807f000 [9; 10]
           [Stm32G4Flash.HAL_FLASH_Unlock]).
  - reflexivity.
  - lia.
  - cbn [length]. lia.
  - repeat apply Forall_cons_2; try apply Forall_nil_2.
    split; [reflexivity|].
    repeat apply Forall_cons_2; try apply Forall_nil_2; unfold byte_range; lia.
  - cbn [length]. lia.
  - repeat apply Forall_cons_2; try apply Forall_nil_2; unfold byte_range; lia.
Defined.
(** ** I2C timing *)

Lemma quot_bounds (a b : Z) :
  0 <= a -> 0 < b ->
  0 <= Z.quot a b /\ Z.quot a b * b <= a < (Z.quot a b + 1) * b.
Proof.
  intros Ha Hb. rewrite Z.quot_div_nonneg by lia.
  pose proof (Z.div_mod a b ltac:(lia)).
  pose proof (Z.mod_pos_bound a b Hb).
  assert (0 <= a / b) by (apply Z.div_pos; lia). nia.
Qed.

Lemma i2c_clock_period (i : I2cTiming.TimingInput) (prescaler : Z) :
  0 < I2cTiming.peripheral_hz i < 2 ^ 31 -> 0 <= prescaler < 16 ->
  465 <= I2cTiming.t_presc_ps i prescaler.
Proof.
  intros Hp Hs. unfold I2cTiming.t_presc_ps.
  destruct (quot_bounds 1000000000000 (I2cTiming.peripheral_hz i)
              ltac:(lia) ltac:(lia)) as (H0 & H1 & H2).
  assert (465 <= Z.quot 1000000000000 (I2cTiming.peripheral_hz i)) by nia.
  nia.
Qed.

Lemma i2c_cycle_bounds (i : I2cTiming.TimingInput) :
  1 <= I2cTiming.actual_i2c_hz i <= 1000000
  /\ 0 <= I2cTiming.total_cycle_ps i <= 1000000000000
  /\ 1000000000000
     < (I2cTiming.total_cycle_ps i + 1) * I2cTiming.actual_i2c_hz i.
Proof.
  assert (Hhz : 1 <= I2cTiming.actual_i2c_hz i <= 1000000).
  { unfold I2cTiming.actual_i2c_hz.
    destruct (I2cTiming.i2c_mode i); cbn; lia. }
  unfold I2cTiming.total_cycle_ps.
  destruct (quot_bounds 1000000000000 (I2cTiming.actual_i2c_hz i)
              ltac:(lia) ltac:(lia)) as (H0 & H1 & H2).
  repeat split; try lia; nia.
Qed.

(** A result of [TryTimingWithPrescaler] without error. *)
Lemma i2c_try_timing (i : I2cTiming.TimingInput) (prescaler : Z) :
  0 < I2cTiming.peripheral_hz i < 2 ^ 31 -> 0 <= prescaler < 16 ->
  let r := I2cTiming.TryTimingWithPrescaler i prescaler in
  let t := I2cTiming.t_presc_ps i prescaler in
  let m := I2cTiming.i2c_mode i in
  I2cTiming.error r <> 1
  /\ I2cTiming.prescaler r = prescaler
  /\ (I2cTiming.error r = 0 ->
      0 <= I2cTiming.scll r <= 255 /\ 0 <= I2cTiming.sclh r <= 255
      /\ 0 <= I2cTiming.sdadel r <= 15 /\ 0 <= I2cTiming.scldel r <= 15
      /\ I2cTiming.timingr r
         = I2cTiming.scll r + 2 ^ 8 * I2cTiming.sclh r
           + 2 ^ 16 * I2cTiming.sdadel r + 2 ^ 20 * I2cTiming.scldel r
           + 2 ^ 28 * prescaler
      /\ I2cTiming.scl_min_low_ps m < (I2cTiming.scll r + 1) * t
      /\ I2cTiming.scl_min_high_ps m < (I2cTiming.sclh r + 1) * t
      /\ I2cTiming.data_min_setup_ps m < (I2cTiming.scldel r + 1) * t
      /\ I2cTiming.sdadel r * t <= I2cTiming.data_min_hold_ps m
      /\ 1000000000000
         < (I2cTiming.scll r + 1 + (I2cTiming.sclh r + 1)) * t
           * I2cTiming.actual_i2c_hz i).
Proof.
  intros Hp Hs r t m.
  pose proof (i2c_clock_period i prescaler Hp Hs) as Ht. fold t in Ht.
  destruct (i2c_cycle_bounds i) as (Hhz & Hcyc & Hper).
  subst r. unfold I2cTiming.TryTimingWithPrescaler. fold t. fold m.
  set (low := Z.max (I2cTiming.scl_min_low_ps m)
                    (Z.quot (I2cTiming.total_cycle_ps i
                             * I2cTiming.low_percent m) 100)).
  destruct (quot_bounds (I2cTiming.total_cycle_ps i * I2cTiming.low_percent m)
              100) as (Hd0 & Hd1 & Hd2);
    [destruct m; cbn; lia | lia |].
  assert (Hlow : I2cTiming.scl_min_low_ps m <= low <= 680000000000
                 /\ 54 * I2cTiming.total_cycle_ps i < 100 * (low + 1)).
  { subst low. destruct m; cbn in *; lia. }
  assert (Hlow0 : 0 < low) by (destruct m; cbn in *; lia).
  destruct (quot_bounds low t ltac:(lia) ltac:(lia)) as (Hq0 & Hq1 & Hq2).
  rewrite (s32_small (Z.quot low t)) by nia.
  set (scll := Z.quot low t) in *.
  destruct (Z.ltb_spec 255 scll) as [Hbig | Hscll];
    [cbn; repeat split; try discriminate; lia|].
  set (high := Z.max (I2cTiming.scl_min_high_ps m)
                     (I2cTiming.total_cycle_ps i - (scll + 1) * t)).
  assert (Hhigh : I2cTiming.scl_min_high_ps m <= high <= 500000000000).
  { subst high. destruct m; cbn in *; lia. }
  assert (Hhigh0 : 0 < high) by (destruct m; cbn in *; lia).
  destruct (quot_bounds high t ltac:(lia) ltac:(lia)) as (Hh0 & Hh1 & Hh2).
  rewrite (s32_small (Z.quot high t)) by nia.
  set (sclh := Z.quot high t) in *.
  destruct (Z.ltb_spec 255 sclh) as [Hbig | Hsclh];
    [cbn; repeat split; try discriminate; lia|].
  assert (Hhold0 : 0 <= I2cTiming.data_min_hold_ps m <= 300000)
    by (destruct m; cbn; lia).
  destruct (quot_bounds (I2cTiming.data_min_hold_ps m) t ltac:(lia) ltac:(lia))
    as (Hx0 & Hx1 & Hx2).
  rewrite (s32_small (Z.quot (I2cTiming.data_min_hold_ps m) t)) by nia.
  set (sdadel := Z.quot (I2cTiming.data_min_hold_ps m) t) in *.
  destruct (Z.ltb_spec 15 sdadel) as [Hbig | Hsdadel];
    [cbn; repeat split; try discriminate; lia|].
  assert (Hsetup0 : 0 <= I2cTiming.data_min_setup_ps m <= 250000)
    by (destruct m; cbn; lia).
  destruct (quot_bounds (I2cTiming.data_min_setup_ps m) t ltac:(lia)
              ltac:(lia)) as (He0 & He1 & He2).
  rewrite (s32_small (Z.quot (I2cTiming.data_min_setup_ps m) t)) by nia.
  set (scldel := Z.quot (I2cTiming.data_min_setup_ps m) t) in *.
  destruct (Z.ltb_spec 15 scldel) as [Hbig | Hscldel];
    [cbn; repeat split; try discriminate; lia|].
  cbn [I2cTiming.error I2cTiming.prescaler I2cTiming.scll I2cTiming.sclh
       I2cTiming.sdadel I2cTiming.scldel I2cTiming.timingr].
  split; [discriminate|]. split; [reflexivity|]. intros _.
  repeat split; try lia.
  - rewrite Z.lor_0_r, Z.shiftl_0_r.
    rewrite (Z.lor_comm scll), (lor_shiftl_add sclh scll 8) by lia.
    rewrite (Z.lor_comm _ (Z.shiftl sdadel 16)),
      (lor_shiftl_add sdadel _ 16) by lia.
    rewrite (Z.lor_comm _ (Z.shiftl scldel 20)),
      (lor_shiftl_add scldel _ 20) by lia.
    rewrite (Z.lor_comm _ (Z.shiftl prescaler 28)),
      (lor_shiftl_add prescaler _ 28) by lia.
    unfold u32, wrap. rewrite Z.mod_small by lia. lia.
  - assert (Hle : I2cTiming.total_cycle_ps i + 1
                  <= (scll + 1 + (sclh + 1)) * t) by lia.
    apply Z.lt_le_trans with (1 := Hper).
    apply Z.mul_le_mono_nonneg_r; [lia | exact Hle].
Qed.

Lemma i2c_try_prescalers (i : I2cTiming.TimingInput) (n : nat) :
  0 < I2cTiming.peripheral_hz i < 2 ^ 31 ->
  forall prescaler : Z,
    0 <= prescaler -> prescaler + Z.of_nat n <= 16 ->
    let r := I2cTiming.try_prescalers i n prescaler in
    (I2cTiming.error r = 1
     /\ forall k, prescaler <= k < prescaler + Z.of_nat n ->
                  I2cTiming.error (I2cTiming.TryTimingWithPrescaler i k) <> 0)
    \/ (I2cTiming.error r = 0
        /\ prescaler <= I2cTiming.prescaler r < prescaler + Z.of_nat n
        /\ r = I2cTiming.TryTimingWithPrescaler i (I2cTiming.prescaler r)
        /\ forall k, prescaler <= k < I2cTiming.prescaler r ->
                     I2cTiming.error (I2cTiming.TryTimingWithPrescaler i k)
                     <> 0).
Proof.
  intros Hp. induction n as [|n IH]; intros prescaler H0 H16 r.
  - left. split; [reflexivity | intros k Hk; lia].
  - subst r. cbn [I2cTiming.try_prescalers].
    destruct (i2c_try_timing i prescaler Hp ltac:(lia)) as (_ & Hpre & _).
    destruct (Z.eqb_spec
                (I2cTiming.error (I2cTiming.TryTimingWithPrescaler i prescaler))
                0) as [E0 | E0]; cbn [negb].
    + right. rewrite Hpre.
      repeat split; try assumption; try lia; intros k Hk; lia.
    + destruct (IH (prescaler + 1) ltac:(lia) ltac:(lia))
        as [[E1 Hall] | (E & Hr & Heq & Hall)].
      * left. split; [exact E1|]. intros k Hk.
        destruct (Z.eq_dec k prescaler) as [-> | Hne]; [exact E0|].
        apply Hall. lia.
      * right. repeat split; try assumption; try lia.
        intros k Hk.
        destruct (Z.eq_dec k prescaler) as [-> | Hne]; [exact E0|].
        apply Hall. lia.
Qed.

(** X14.  For a peripheral clock within the range of [int],
    [CalculateI2cTiming] reports error 1 exactly when every prescaler
    from 0 to 15 fails, and otherwise returns, without error, the result
    for the smallest prescaler that works.  In that result every field
    fits its place in the timing register, which holds the fields at
    bits 0, 8, 16, 20 and 28; the low and high times of the clock and
    the data setup time are longer than the minimum of the mode, the
    data hold delay is not longer than its minimum, and the period of
    the clock is longer than that of the requested frequency, limited
    to the maximum of the mode. *)
Theorem i2c_timing (i : I2cTiming.TimingInput) :
  let r := I2cTiming.CalculateI2cTiming i in
  let t := I2cTiming.t_presc_ps i (I2cTiming.prescaler r) in
  let m := I2cTiming.i2c_mode i in
  0 < I2cTiming.peripheral_hz i < 2 ^ 31 ->
  (I2cTiming.error r = 1
   /\ forall k, 0 <= k < 16 ->
                I2cTiming.error (I2cTiming.TryTimingWithPrescaler i k) <> 0)
  \/ (I2cTiming.error r = 0
      /\ 0 <= I2cTiming.prescaler r < 16
      /\ (forall k, 0 <= k < I2cTiming.prescaler r ->
                    I2cTiming.error (I2cTiming.TryTimingWithPrescaler i k)
                    <> 0)
      /\ 0 <= I2cTiming.scll r <= 255 /\ 0 <= I2cTiming.sclh r <= 255
      /\ 0 <= I2cTiming.sdadel r <= 15 /\ 0 <= I2cTiming.scldel r <= 15
      /\ I2cTiming.timingr r
         = I2cTiming.scll r + 2 ^ 8 * I2cTiming.sclh r
           + 2 ^ 16 * I2cTiming.sdadel r + 2 ^ 20 * I2cTiming.scldel r
           + 2 ^ 28 * I2cTiming.prescaler r
      /\ I2cTiming.scl_min_low_ps m < (I2cTiming.scll r + 1) * t
      /\ I2cTiming.scl_min_high_ps m < (I2cTiming.sclh r + 1) * t
      /\ I2cTiming.data_min_setup_ps m < (I2cTiming.scldel r + 1) * t
      /\ I2cTiming.sdadel r * t <= I2cTiming.data_min_hold_ps m
      /\ 1000000000000
         < (I2cTiming.scll r + 1 + (I2cTiming.sclh r + 1)) * t
           * I2cTiming.actual_i2c_hz i).
Proof.
  intros r t m Hp.
  destruct (i2c_try_prescalers i 16 Hp 0 ltac:(lia) ltac:(lia))
    as [[E1 Hall] | (E & Hr & Heq & Hall)].
  - left. split; [exact E1 | exact Hall].
  - right. change (I2cTiming.try_prescalers i 16 0) with r in *.
    change (Z.of_nat 16) with 16 in Hr.
    destruct (i2c_try_timing i (I2cTiming.prescaler r) Hp ltac:(lia))
      as (_ & _ & Hok).
    rewrite <- Heq in Hok. fold t m in Hok.
    split; [exact E|]. split; [lia|]. split; [exact Hall|].
    exact (Hok E).
Qed.

Lemma i2c_timing_witness :
  I2cTiming.CalculateI2cTiming i2c_default_input
  = I2cTiming.mkTimingResult 0 1 8 9 147 172 0 277451692
  /\ 1000000000000
     < (172 + 1 + (147 + 1)) * I2cTiming.t_presc_ps i2c_default_input 1
       * I2cTiming.actual_i2c_hz i2c_default_input.
Proof.
  assert (Hp : 0 < I2cTiming.peripheral_hz i2c_default_input < 2 ^ 31)
    by (cbn; lia).
  split; [vm_compute; reflexivity|].
  destruct (i2c_timing i2c_default_input Hp)
    as [[E1 _] | (_ & _ & _ & _ & _ & _ & _ & _ & _ & _ & _ & _ & H)].
  - revert E1. vm_compute. discriminate.
  - exact H.
Defined.
(** ** The quadrature count taken from a hardware timer *)

Lemma quadrature_timer_delta (old d : Z) :
  0 <= old < 2 ^ 16 -> - 2 ^ 15 <= d < 2 ^ 15 ->
  s16 (u16 (Z.land (u32 ((old + d) mod 2 ^ 16 - old)) 0xffff)) = d.
Proof.
  intros Ho Hd. unfold s16, u16, u32, wrap.
  change 0xffff with (Z.ones 16). rewrite Z.land_ones by lia.
  rewrite (Z.mod_mod_divide _ (2 ^ 32) (2 ^ 16))
    by (exists (2 ^ 16); reflexivity).
  rewrite Z.mod_mod by lia.
  rewrite Zminus_mod_idemp_l.
  replace (old + d - old) with d by lia.
  rewrite Zplus_mod_idemp_l.
  rewrite Z.mod_small by lia. lia.
Qed.

(** One update, for the status that the member points to. *)
Lemma quadrature_timer_step (s : Stm32QuadratureTimer.t)
      (heap : Stm32QuadratureTimer.store) (a b : bool) (d : Z) :
  let cpr := Quadrature.cpr (Stm32QuadratureTimer.config_ s) in
  let p := Stm32QuadratureTimer.status_ s in
  let cnt := (Stm32QuadratureTimer.old_timer_cnt_ s + d) mod 2 ^ 16 in
  let result := Stm32QuadratureTimer.ISR_Update s heap p a b cnt in
  Stm32QuadratureTimer.hwtimer_ s = true ->
  0 < cpr <= 2 ^ 30 ->
  0 <= Quadrature.value (heap p) < cpr ->
  0 <= Stm32QuadratureTimer.old_timer_cnt_ s < 2 ^ 16 ->
  - 2 ^ 15 <= d < 2 ^ 15 ->
  fst result
  = Stm32QuadratureTimer.mk (Stm32QuadratureTimer.config_ s) p cnt true
  /\ (forall q, q <> p -> snd result q = heap q)
  /\ snd result p
     = Quadrature.mkStatus (Quadrature.active (heap p)) (pin_state a b)
         ((if - (cpr + Quadrature.value (heap p)) <=? d
           then Quadrature.value (heap p) + d
           else Quadrature.value (heap p) + d + 2 ^ 32) mod cpr)
         0.
Proof.
  intros cpr p cnt result Hhw Hcpr Hv Hold Hd.
  subst result. unfold Stm32QuadratureTimer.ISR_Update.
  rewrite Hhw. cbn [negb]. fold p. fold cpr. cbv zeta.
  subst cnt. rewrite quadrature_timer_delta by assumption.
  cbn [fst snd]. split; [reflexivity|].
  unfold Stm32QuadratureTimer.store_set.
  split.
  - intros q Hq. destruct (Nat.eqb_spec q p); [contradiction | reflexivity].
  - rewrite Nat.eqb_refl. cbn [Quadrature.active Quadrature.pins
                                 Quadrature.value].
    f_equal.
    + now destruct a, b.
    + unfold u32, wrap.
      destruct (Z.leb_spec (- (cpr + Quadrature.value (heap p))) d) as [H|H].
      * rewrite (Z.mod_small (_ + _ + _)) by lia.
        rewrite <- (Z.mul_1_l cpr) at 1. now rewrite Z_mod_plus_full.
      * replace (Quadrature.value (heap p) + d + cpr)
          with (Quadrature.value (heap p) + d + cpr + 2 ^ 32
                + (-1) * 2 ^ 32) by lia.
        rewrite Z_mod_plus_full.
        rewrite (Z.mod_small (_ + _ + _ + _)) by lia.
        replace (Quadrature.value (heap p) + d + cpr + 2 ^ 32)
          with (Quadrature.value (heap p) + d + 2 ^ 32 + 1 * cpr) by lia.
        now rewrite Z_mod_plus_full.
Qed.

(** X15.  In the hardware mode of
    [Stm32Quadrature], when [ISR_Update] is given the status that the
    object was made with, every update adds to the count, modulo [cpr],
    the signed 16 bit difference of the timer counter since the last
    update, which is the number of counts the timer has moved when that
    is within 16 bits: after any run of updates the count is the first
    count plus all the moves, modulo [cpr].  This needs every move
    backwards to be of at most [cpr] counts, or [cpr] to divide
    [2 ^ 32]: a single move further back than the count plus [cpr]
    gives the count for a move that is [2 ^ 32] larger. *)
Theorem quadrature_timer_count (moves : list Z) :
  forall (s : Stm32QuadratureTimer.t) (heap : Stm32QuadratureTimer.store),
    let cpr := Quadrature.cpr (Stm32QuadratureTimer.config_ s) in
    let p := Stm32QuadratureTimer.status_ s in
    let value := Quadrature.value (heap p) in
    let old := Stm32QuadratureTimer.old_timer_cnt_ s in
    Stm32QuadratureTimer.hwtimer_ s = true ->
    0 < cpr <= 2 ^ 30 ->
    0 <= value < cpr ->
    0 <= old < 2 ^ 16 ->
    (Forall (fun d => - 2 ^ 15 <= d < 2 ^ 15
                      /\ (- cpr <= d \/ (cpr | 2 ^ 32))) moves ->
     Quadrature.value (snd (quadrature_timer_run s heap p moves) p)
     = (value + sum_Z moves) mod cpr
     /\ Stm32QuadratureTimer.old_timer_cnt_
          (fst (quadrature_timer_run s heap p moves))
        = (old + sum_Z moves) mod 2 ^ 16)
    /\ (forall d, - 2 ^ 15 <= d < - (cpr + value) ->
          Quadrature.value (snd (quadrature_timer_run s heap p [d]) p)
          = (value + d + 2 ^ 32) mod cpr).
Proof.
  induction moves as [|d moves IH];
    intros s heap cpr p value old Hhw Hcpr Hv Hold.
  - split.
    + intros _. cbn [quadrature_timer_run fst snd sum_Z fold_right].
      rewrite !Z.add_0_r. subst value old.
      now rewrite !Z.mod_small by lia.
    + intros d Hd. cbn [quadrature_timer_run].
      destruct (quadrature_timer_step s heap false false d Hhw Hcpr Hv Hold
                  ltac:(lia)) as (_ & _ & E).
      fold p old in E |- *.
      destruct (Stm32QuadratureTimer.ISR_Update s heap p false false
                  ((old + d) mod 2 ^ 16)) as [s1 heap1].
      cbn [snd] in E |- *. rewrite E. cbn [Quadrature.value].
      fold cpr value.
      destruct (Z.leb_spec (- (cpr + value)) d); [lia | reflexivity].
  - split.
    + intros Hm. inversion Hm as [|? ? [Hd Hback] Hm']; subst.
      cbn [quadrature_timer_run].
      destruct (quadrature_timer_step s heap false false d Hhw Hcpr Hv Hold Hd)
        as (Es & _ & E).
      fold p old in Es, E |- *.
      destruct (Stm32QuadratureTimer.ISR_Update s heap p false false
                  ((old + d) mod 2 ^ 16)) as [s1 heap1].
      cbn [fst snd] in Es, E. subst s1.
      fold cpr value in E.
      assert (Ev : Quadrature.value (heap1 p) = (value + d) mod cpr).
      { rewrite E. cbn [Quadrature.value].
        destruct (Z.leb_spec (- (cpr + value)) d) as [H | H]; [reflexivity|].
        destruct Hback as [Hb | [k Hk]]; [lia|].
        rewrite Hk. apply Z_mod_plus_full. }
      destruct (IH (Stm32QuadratureTimer.mk (Stm32QuadratureTimer.config_ s)
                      p ((old + d) mod 2 ^ 16) true) heap1
                  eq_refl Hcpr) as [Hrun _].
      * cbn [Stm32QuadratureTimer.status_ Stm32QuadratureTimer.config_].
        rewrite Ev. apply Z.mod_pos_bound. exact (proj1 Hcpr).
      * cbn [Stm32QuadratureTimer.old_timer_cnt_].
        apply Z.mod_pos_bound. lia.
      * cbn [Stm32QuadratureTimer.status_ Stm32QuadratureTimer.config_
             Stm32QuadratureTimer.old_timer_cnt_] in Hrun.
        fold cpr in Hrun. destruct (Hrun Hm') as [Hr1 Hr2].
        rewrite Hr1, Hr2, Ev.
        change (sum_Z (d :: moves)) with (d + sum_Z moves).
        rewrite !Zplus_mod_idemp_l. split; f_equal; lia.
    + intros d' Hd'. cbn [quadrature_timer_run].
      destruct (quadrature_timer_step s heap false false d' Hhw Hcpr Hv Hold
                  ltac:(lia)) as (_ & _ & E).
      fold p old in E |- *.
      destruct (Stm32QuadratureTimer.ISR_Update s heap p false false
                  ((old + d') mod 2 ^ 16)) as [s1 heap1].
      cbn [snd] in E |- *. rewrite E. cbn [Quadrature.value].
      fold cpr value.
      destruct (Z.leb_spec (- (cpr + value)) d'); [lia | reflexivity].
Qed.

Lemma quadrature_timer_count_witness :
  Quadrature.value
    (snd (quadrature_timer_run quadrature_timer_sample quadrature_store_sample
            0 [10; -20; 7]) 0%nat) = 7
  /\ Quadrature.value
       (snd (quadrature_timer_run quadrature_timer_sample
               quadrature_store_sample 0 [-200]) 0%nat) = 6.
Proof.
  assert (Hc : 0 < 100 <= 2 ^ 30) by lia.
  assert (Hv : 0 <= 10 < 100) by lia.
  assert (Ho : 0 <= 65530 < 2 ^ 16) by lia.
  assert (Hm : Forall (fun d => - 2 ^ 15 <= d < 2 ^ 15
                                /\ (- 100 <= d \/ (100 | 2 ^ 32)))
                      [10; -20; 7])
    by (repeat apply Forall_cons_2; try apply Forall_nil_2; lia).
  assert (Hd : - 2 ^ 15 <= -200 < - (100 + 10)) by lia.
  split.
  - exact (proj1 (proj1 (quadrature_timer_count [10; -20; 7]
                           quadrature_timer_sample quadrature_store_sample
                           eq_refl Hc Hv Ho) Hm)).
  - exact (proj2 (quadrature_timer_count [] quadrature_timer_sample
                    quadrature_store_sample eq_refl Hc Hv Ho) (-200) Hd).
Defined.
(** * Properties of further parts of the firmware *)

(** ** Comparison, absolute value and sign of the real values *)

Lemma magnitude_lt (s1 s2 : bool) (m1 m2 : positive) (e1 e2 : Z) :
  F32.valid (S754_finite s1 m1 e1) -> F32.valid (S754_finite s2 m2 e2) ->
  e1 < e2 ->
  (IZR (Z.pos m1) * bpow e1 < IZR (Z.pos m2) * bpow e2)%R.
Proof.
  intros V1 V2 He.
  destruct (valid_mantissa _ _ _ V1) as [H1 _].
  destruct (valid_mantissa _ _ _ V2) as [_ H2].
  apply valid_finite in V1. destruct V1 as [V1 _].
  specialize (H2 ltac:(lia)).
  pose proof (bpow_pos e1) as P1. pose proof (bpow_pos e2) as P2.
  apply Rlt_le_trans with (IZR (2 ^ 24) * bpow e1)%R.
  - apply Rmult_lt_compat_r; [assumption | apply IZR_lt; assumption].
  - apply Rle_trans with (IZR (2 ^ 23) * bpow e2)%R.
    + rewrite <- !bpow_IZR, <- !bpow_add by lia. apply bpow_le. lia.
    + apply Rmult_le_compat_r; [lra | apply IZR_le; assumption].
Qed.

Lemma magnitude_compare (s1 s2 : bool) (m1 m2 : positive) (e1 e2 : Z) :
  F32.valid (S754_finite s1 m1 e1) -> F32.valid (S754_finite s2 m2 e2) ->
  match (match Z.compare e1 e2 with
         | Lt => Lt | Gt => Gt | Eq => Pos.compare_cont Eq m1 m2
         end) with
  | Lt => (IZR (Z.pos m1) * bpow e1 < IZR (Z.pos m2) * bpow e2)%R
  | Eq => (IZR (Z.pos m1) * bpow e1 = IZR (Z.pos m2) * bpow e2)%R
  | Gt => (IZR (Z.pos m2) * bpow e2 < IZR (Z.pos m1) * bpow e1)%R
  end.
Proof.
  intros V1 V2.
  destruct (Z.compare_spec e1 e2) as [E | Hl | Hg].
  - subst e2. pose proof (bpow_pos e1) as P1.
    change (Pos.compare_cont Eq m1 m2) with (Pos.compare m1 m2).
    destruct (Pos.compare_spec m1 m2) as [E | Hl | Hg].
    + now subst m2.
    + apply Rmult_lt_compat_r; [assumption | apply IZR_lt; lia].
    + apply Rmult_lt_compat_r; [assumption | apply IZR_lt; lia].
  - now apply (magnitude_lt s1 s2).
  - now apply (magnitude_lt s2 s1).
Qed.

(** [a < b] on finite binary32 numbers is the order of their values. *)
Lemma lt_spec (x y : F32.float) :
  finite_float x -> finite_float y ->
  if F32.lt x y then (B2R x < B2R y)%R else (B2R y <= B2R x)%R.
Proof.
  intros [Vx Fx] [Vy Fy]. unfold F32.lt, SFltb.
  destruct x as [sx|sx| |sx mx ex]; try discriminate;
    destruct y as [sy|sy| |sy my ey]; try discriminate;
    cbn [SFcompare B2R].
  - lra.
  - pose proof (bpow_pos ey). assert (0 < IZR (Z.pos my))%R by (apply IZR_lt; lia).
    destruct sy; cbn [sign_factor]; nra.
  - pose proof (bpow_pos ex). assert (0 < IZR (Z.pos mx))%R by (apply IZR_lt; lia).
    destruct sx; cbn [sign_factor]; nra.
  - pose proof (bpow_pos ex). pose proof (bpow_pos ey).
    assert (0 < IZR (Z.pos mx))%R by (apply IZR_lt; lia).
    assert (0 < IZR (Z.pos my))%R by (apply IZR_lt; lia).
    pose proof (magnitude_compare sx sy mx my ex ey Vx Vy) as H3.
    destruct sx, sy; cbn [sign_factor]; try nra.
    + destruct (match (ex ?= ey) with
                | Lt => Lt | Gt => Gt | Eq => Pos.compare_cont Eq mx my
                end) eqn:E.
      * replace (match (ex ?= ey) with
                 | Eq => CompOpp (Pos.compare_cont Eq mx my)
                 | Lt => Gt | Gt => Lt end) with Eq
          by (destruct (ex ?= ey); try discriminate; now rewrite E).
        lra.
      * replace (match (ex ?= ey) with
                 | Eq => CompOpp (Pos.compare_cont Eq mx my)
                 | Lt => Gt | Gt => Lt end) with Gt
          by (destruct (ex ?= ey); try discriminate; now rewrite ?E).
        lra.
      * replace (match (ex ?= ey) with
                 | Eq => CompOpp (Pos.compare_cont Eq mx my)
                 | Lt => Gt | Gt => Lt end) with Lt
          by (destruct (ex ?= ey); try discriminate; now rewrite ?E).
        lra.
    + destruct (match (ex ?= ey) with
                | Lt => Lt | Gt => Gt | Eq => Pos.compare_cont Eq mx my
                end); lra.
Qed.

Lemma abs_B2R (x : F32.float) : B2R (F32.abs x) = Rabs (B2R x).
Proof.
  destruct x as [s|s| |s m e]; cbn [F32.abs SFabs B2R];
    try (now rewrite Rabs_R0).
  rewrite (Rmult_assoc (sign_factor s)), Rabs_sign_factor.
  cbn [sign_factor]. rewrite Rmult_1_l. symmetry. apply Rabs_pos_eq.
  pose proof (bpow_pos e). apply Rmult_le_pos; [apply IZR_le; lia | lra].
Qed.

Lemma abs_finite (x : F32.float) : finite_float x -> finite_float (F32.abs x).
Proof. intros [V F]. split; [now apply abs_valid | now destruct x]. Qed.

Lemma copysign_B2R (x y : F32.float) :
  B2R (F32.copysign x y) = (sign_factor (F32.signbit y) * Rabs (B2R x))%R.
Proof.
  rewrite <- abs_B2R.
  destruct x as [s|s| |s m e];
    cbn [F32.copysign F32.abs SFabs B2R sign_factor]; ring.
Qed.

Lemma copysign_finite (x y : F32.float) :
  finite_float x -> finite_float (F32.copysign x y).
Proof.
  intros [V F]. destruct x as [s|s| |s m e]; try discriminate.
  - split; reflexivity.
  - split; [|reflexivity]. apply valid_finite. now apply valid_finite in V.
Qed.

Lemma signbit_B2R (x : F32.float) :
  B2R x = (sign_factor (F32.signbit x) * Rabs (B2R x))%R.
Proof.
  destruct x as [s|s| |s m e]; cbn [F32.signbit B2R];
    rewrite ?Rabs_R0; try lra.
  rewrite (Rmult_assoc (sign_factor s)), Rabs_sign_factor, Rabs_pos_eq;
    [lra|].
  pose proof (bpow_pos e). apply Rmult_le_pos; [apply IZR_le; lia | lra].
Qed.

(** [std::max (0.0f, d)] is the larger of zero and [d]. *)
Lemma max_zero_B2R (d : F32.float) :
  finite_float d ->
  finite_float (F32.max F32.zero d)
  /\ B2R (F32.max F32.zero d) = Rmax 0 (B2R d).
Proof.
  intros Fd. unfold F32.max.
  assert (Fz : finite_float F32.zero) by (split; reflexivity).
  pose proof (lt_spec F32.zero d Fz Fd) as H.
  destruct (F32.lt F32.zero d); cbn [F32.zero B2R] in *.
  - split; [assumption|]. rewrite Rmax_right; lra.
  - split; [assumption|]. rewrite Rmax_left; [reflexivity | lra].
Qed.

Local Open Scope R_scope.

(** ** Base two logarithm and exponential *)

Lemma ln_2_bounds : / 2 < ln 2 <= 1.
Proof.
  split; [apply ln_lt_2|].
  rewrite <- (ln_exp 1).
  pose proof (exp_ineq1_le 1) as H.
  destruct H as [H | H].
  - left. apply ln_increasing; lra.
  - right. f_equal. lra.
Qed.

Lemma pow2_pos (a : R) : 0 < pow2 a.
Proof. apply exp_pos. Qed.

Lemma pow2_log2 (x : R) : 0 < x -> pow2 (log2 x) = x.
Proof.
  intros Hx. unfold pow2, log2, Rpower. pose proof ln_2_bounds.
  replace (ln x / ln 2 * ln 2) with (ln x) by (field; lra).
  now apply exp_ln.
Qed.

Lemma pow2_add (a b : R) : pow2 (a + b) = pow2 a * pow2 b.
Proof. apply Rpower_plus. Qed.

Lemma pow2_le (a b : R) : a <= b -> pow2 a <= pow2 b.
Proof. intros H. apply Rle_Rpower; lra. Qed.

Lemma pow2_nat (n : nat) : pow2 (INR n) = 2 ^ n.
Proof. apply Rpower_pow. lra. Qed.

Lemma log2_le (x b : R) : 0 < x -> x <= pow2 b -> log2 x <= b.
Proof.
  intros Hx Hb. pose proof ln_2_bounds.
  destruct (Rle_or_lt (log2 x) b) as [H1 | H1]; [assumption|].
  exfalso. rewrite <- (pow2_log2 x Hx) in Hb.
  unfold pow2, Rpower in Hb.
  destruct Hb as [Hb | Hb].
  - apply exp_lt_inv in Hb. nra.
  - apply exp_inv in Hb. nra.
Qed.

Lemma log2_ge (x b : R) : 0 < x -> pow2 b <= x -> b <= log2 x.
Proof.
  intros Hx Hb. pose proof ln_2_bounds.
  destruct (Rle_or_lt b (log2 x)) as [H1 | H1]; [assumption|].
  exfalso. rewrite <- (pow2_log2 x Hx) in Hb.
  unfold pow2, Rpower in Hb.
  destruct Hb as [Hb | Hb].
  - apply exp_lt_inv in Hb. nra.
  - apply exp_inv in Hb. nra.
Qed.

(** Near zero the exponential is within twice its argument of one. *)
Lemma pow2_small (d : R) : Rabs d <= / 2 -> Rabs (pow2 d - 1) <= 2 * Rabs d.
Proof.
  intros Hd. pose proof ln_2_bounds as [L1 L2].
  apply Rabs_le_inv in Hd.
  unfold pow2, Rpower.
  pose proof (exp_ineq1_le (d * ln 2)) as Hlo.
  pose proof (exp_ineq1_le (- (d * ln 2))) as Hhi.
  rewrite exp_Ropp in Hhi.
  pose proof (exp_pos (d * ln 2)) as Hp.
  set (y := d * ln 2) in *. set (E := exp y) in *.
  assert (Hy : - / 2 <= y <= / 2) by (subst y; nra).
  assert (HE : E * (1 - y) <= 1).
  { apply (Rmult_le_compat_l E) in Hhi; [|lra].
    rewrite Rinv_r in Hhi by lra. lra. }
  assert (Hup : E - 1 <= 2 * Rabs y).
  { destruct (Rle_or_lt 0 y) as [Hy0 | Hy0].
    - rewrite Rabs_pos_eq by assumption. nra.
    - pose proof (Rabs_pos y). nra. }
  assert (Hyd : Rabs y <= Rabs d).
  { subst y. rewrite Rabs_mult, (Rabs_pos_eq (ln 2)) by lra.
    pose proof (Rabs_pos d). nra. }
  apply Rabs_le. split.
  - assert (- Rabs y <= y) by (pose proof (Rle_abs (- y)); rewrite Rabs_Ropp in *; lra).
    lra.
  - lra.
Qed.

Lemma pow2_42 : pow2 42 = 4398046511104.
Proof.
  replace 42 with (INR 42) by (rewrite INR_IZR_INZ; reflexivity).
  rewrite pow2_nat, pow_IZR. apply f_equal. reflexivity.
Qed.

(** The logarithm of a number that is not far below one. *)
Lemma log2_near_one (x d : R) :
  0 <= d <= / 2 -> 1 - d <= x -> - (4 * d) <= log2 x.
Proof.
  intros Hd Hx. pose proof ln_2_bounds as [L1 L2].
  apply log2_ge; [lra|].
  unfold pow2, Rpower.
  replace (- (4 * d) * ln 2) with (- (4 * d * ln 2)) by ring.
  rewrite exp_Ropp.
  pose proof (exp_ineq1_le (4 * d * ln 2)) as He.
  assert (H1 : 1 + 2 * d <= exp (4 * d * ln 2)) by nra.
  apply Rle_trans with (/ (1 + 2 * d)).
  - apply Rinv_le_contravar; lra.
  - apply Rmult_le_reg_r with (1 + 2 * d); [lra|].
    rewrite Rinv_l by lra. nra.
Qed.

(** An exponential taken at nearly the logarithm of [x], and known up
    to a relative error, is nearly [x]. *)
Lemma pow2_recovers (x a p d eP : R) :
  0 < x -> Rabs (a - log2 x) <= d -> d <= / 4 -> 0 <= eP <= / 4 ->
  Rabs (p - pow2 a) <= eP * pow2 a ->
  Rabs (p - x) <= (2 * d + 3 / 2 * eP) * x.
Proof.
  intros Hx Ha Hd HeP Hp.
  pose proof (Rabs_pos (a - log2 x)) as Hd0.
  assert (Hs : Rabs (pow2 (a - log2 x) - 1) <= 2 * d).
  { eapply Rle_trans; [apply pow2_small; lra | lra]. }
  assert (E : pow2 a = x * pow2 (a - log2 x)).
  { rewrite <- (pow2_log2 x Hx) at 1. rewrite <- pow2_add. f_equal. ring. }
  set (z := pow2 (a - log2 x)) in *.
  apply Rabs_le_inv in Hs. apply Rabs_le_inv in Hp. rewrite E in Hp.
  assert (Hxz1 : x * z <= x * (1 + 2 * d)) by (apply Rmult_le_compat_l; lra).
  assert (Hxz2 : x * (1 - 2 * d) <= x * z) by (apply Rmult_le_compat_l; lra).
  assert (Hxz0 : 0 <= x * z) by nra.
  assert (Hep : eP * (x * z) <= eP * (x * (1 + 2 * d)))
    by (apply Rmult_le_compat_l; lra).
  assert (Hep2 : eP * (x * (1 + 2 * d)) <= 3 / 2 * eP * x) by nra.
  apply Rabs_le. split; nra.
Qed.

(** ** Round trip of the torque model *)

Lemma eta_tiny : 0 < eta <= / 10000000000000000000000000000000000000000.
Proof.
  split; [apply bpow_pos|]. unfold eta.
  pose proof (bpow_add (-149) 149) as E. pose proof (bpow_pos (-149)) as P.
  change (-149 + 149)%Z with 0%Z in E. change (bpow 0) with 1 in E.
  rewrite (bpow_IZR 149) in E by lia.
  assert (H : 10000000000000000000000000000000000000000 <= IZR (2 ^ 149))
    by (apply IZR_le; vm_compute; discriminate).
  assert (Hi : bpow (-149) = / IZR (2 ^ 149)).
  { apply Rmult_eq_reg_r with (IZR (2 ^ 149)); [|lra].
    rewrite <- E. field. lra. }
  rewrite Hi. apply Rinv_le_contravar; lra.
Qed.

(** The result of an operation, between explicit bounds. *)
Lemma rounds_to_bounds (v B : R) (r : F32.float) :
  rounds_to v r -> Rabs v <= B ->
  finite_float r
  /\ v - (/ 8388608 * B + eta) <= B2R r <= v + (/ 8388608 * B + eta).
Proof.
  intros [Hf He] HB. split; [assumption|].
  rewrite rel_ulp_value in He.
  apply Rabs_le_inv in He.
  assert (/ 8388608 * Rabs v <= / 8388608 * B) by (apply Rmult_le_compat_l; lra).
  lra.
Qed.

Lemma in_range_bounds (x : F32.float) :
  in_range x -> finite_float x /\ / 1048576 <= B2R x <= 1048576.
Proof.
  intros [Hf [H1 H2]]. split; [assumption|].
  replace (bpow (-20)) with (/ 1048576) in H1 by (unfold bpow; simpl; f_equal; lra).
  replace (bpow 20) with 1048576 in H2 by (unfold bpow; simpl; lra).
  lra.
Qed.

Lemma huge_bound (v : R) : Rabs v <= 1000000000000000000000000000000 -> Rabs v < bpow 127.
Proof.
  intros H. apply Rle_lt_trans with (1 := H).
  apply Rlt_le_trans with (bpow 120); [|apply bpow_le; lia].
  rewrite bpow_IZR by lia. apply IZR_lt. reflexivity.
Qed.

(** An operation whose operands are multiples of [ts], in units of
    [ts]. *)
Lemma rounds_to_scaled (v b w : R) (r : F32.float) :
  rounds_to v r -> 0 < w -> Rabs (v * w) <= b ->
  finite_float r
  /\ v * w - (/ 8388608 * b + eta * w) <= B2R r * w
     <= v * w + (/ 8388608 * b + eta * w).
Proof.
  intros [Hf He] Hw Hb. split; [assumption|].
  rewrite rel_ulp_value in He.
  apply (Rmult_le_compat_r w) in He; [|lra].
  rewrite <- (Rabs_pos_eq w) in He at 1 by lra.
  rewrite <- Rabs_mult in He.
  rewrite Rabs_mult, (Rabs_pos_eq w) in Hb by lra.
  apply Rabs_le_inv in He.
  assert (/ 8388608 * (Rabs v * w) <= / 8388608 * b)
    by (apply Rmult_le_compat_l; lra).
  lra.
Qed.

Lemma huge_scaled (v w t : R) :
  t * w = 1 -> 0 < t <= 1048576 -> Rabs (v * w) <= 1000000 ->
  Rabs v < bpow 127.
Proof.
  intros E Ht Hv. apply huge_bound.
  replace v with (v * w * t) by (rewrite Rmult_assoc, (Rmult_comm w), E; ring).
  rewrite Rabs_mult, (Rabs_pos_eq t) by lra.
  pose proof (Rabs_pos (v * w)). nra.
Qed.

Lemma budget_facts (m : TorqueModel.t) (eL eP : R) :
  let K := B2R (TorqueModel.torque_constant_ m) in
  let c := B2R (TorqueModel.current_cutoff_A_ m) in
  let cs := B2R (TorqueModel.current_scale_ m) in
  let ts := B2R (TorqueModel.torque_scale_ m) in
  let E := eL + eP + / 32768 * (1 + c * K / ts) in
  in_range (TorqueModel.torque_constant_ m) ->
  in_range (TorqueModel.current_cutoff_A_ m) ->
  in_range (TorqueModel.current_scale_ m) ->
  in_range (TorqueModel.torque_scale_ m) ->
  0 <= eL -> 0 <= eP ->
  amplification m * error_budget m eL eP <= / 1000 ->
  E <= / 1000 /\ 0 < c * K / ts <= 32
  /\ (c + / cs) * E <= c / 1000
  /\ ts * E <= c * K / 1000.
Proof.
  intros K c cs ts E RK Rc Rs Rt HeL HeP HB.
  destruct (in_range_bounds _ RK) as [_ BK].
  destruct (in_range_bounds _ Rc) as [_ Bc].
  destruct (in_range_bounds _ Rs) as [_ Bs].
  destruct (in_range_bounds _ Rt) as [_ Bt].
  fold K in BK. fold c in Bc. fold cs in Bs. fold ts in Bt.
  unfold amplification, error_budget in HB.
  replace (bpow (-15)) with (/ 32768) in HB
    by (unfold bpow; simpl; f_equal; lra).
  cbv zeta in HB. fold K c cs ts in HB. fold E in HB.
  assert (HcK : 0 < c * K) by (apply Rmult_lt_0_compat; lra).
  assert (Hcs : 0 < c * cs) by (apply Rmult_lt_0_compat; lra).
  assert (HG : 0 < c * K / ts) by (apply Rdiv_lt_0_compat; lra).
  assert (Hchi : 0 < / (c * cs)) by (apply Rinv_0_lt_compat; lra).
  assert (Hga : 0 < ts / (c * K)) by (apply Rdiv_lt_0_compat; lra).
  assert (HE : / 32768 < E) by (subst E; nra).
  set (chi := / (c * cs)) in *. set (ga := ts / (c * K)) in *.
  assert (H1 : E <= / 1000) by nra.
  assert (H2 : (1 + chi) * E <= / 1000) by nra.
  assert (H3 : ga * E <= / 1000) by nra.
  split; [assumption|]. split; [subst E; lra|]. split.
  - replace (c + / cs) with (c * (1 + chi)) by (subst chi; field; lra).
    rewrite Rmult_assoc. unfold Rdiv.
    apply Rmult_le_compat_l; lra.
  - replace ts with (c * K * ga) at 1 by (subst ga; field; lra).
    rewrite Rmult_assoc. unfold Rdiv.
    apply Rmult_le_compat_l; lra.
Qed.

Lemma current_to_torque_eq (L : F32.float -> F32.float)
      (m : TorqueModel.t) (i : F32.float) :
  TorqueModel.current_to_torque L m i
  = if F32.lt (F32.abs i) (TorqueModel.current_cutoff_A_ m)
    then F32.mul i (TorqueModel.torque_constant_ m)
    else F32.copysign
           (F32.add (F32.mul (TorqueModel.current_cutoff_A_ m)
                             (TorqueModel.torque_constant_ m))
                    (F32.mul (TorqueModel.torque_scale_ m)
                             (L (log2f_argument m i))))
           i.
Proof. reflexivity. Qed.

Lemma torque_to_current_eq (P : F32.float -> F32.float)
      (m : TorqueModel.t) (t : F32.float) :
  TorqueModel.torque_to_current P m t
  = if F32.lt (F32.abs t)
              (F32.mul (TorqueModel.current_cutoff_A_ m)
                       (TorqueModel.torque_constant_ m))
    then F32.div t (TorqueModel.torque_constant_ m)
    else F32.copysign
           (F32.add (TorqueModel.current_cutoff_A_ m)
                    (F32.div (F32.sub (P (pow2f_argument m t)) F32.one)
                             (TorqueModel.current_scale_ m)))
           t.
Proof. reflexivity. Qed.

Lemma copysign_finite_signbit (s i : F32.float) :
  finite_float (F32.copysign s i) ->
  F32.signbit (F32.copysign s i) = F32.signbit i.
Proof. intros [_ F]. destruct s; try discriminate; reflexivity. Qed.

(** The distance of two numbers of the same sign. *)
Lemma same_sign_distance (b : bool) (x y : R) :
  0 <= y ->
  Rabs (sign_factor b * Rabs x - sign_factor b * y) <= Rabs (x - y).
Proof.
  intros Hy. rewrite <- Rmult_minus_distr_l, Rabs_sign_factor.
  rewrite <- (Rabs_pos_eq y) at 1 by assumption.
  apply Rabs_triang_inv2.
Qed.

Lemma signbit_positive (x : F32.float) : 0 < B2R x -> F32.signbit x = false.
Proof.
  intros H. rewrite (signbit_B2R x) in H. pose proof (Rabs_pos (B2R x)).
  destruct (F32.signbit x); [cbn [sign_factor] in H; lra | reflexivity].
Qed.

Lemma bpow_m100 : / 10000000000000000000000000000000 <= bpow (-100).
Proof.
  pose proof (bpow_add (-100) 100) as E. pose proof (bpow_pos (-100)) as P.
  change (-100 + 100)%Z with 0%Z in E. change (bpow 0) with 1 in E.
  rewrite (bpow_IZR 100) in E by lia.
  assert (H : IZR (2 ^ 100) <= 10000000000000000000000000000000)
    by (apply IZR_le; vm_compute; discriminate).
  assert (H0 : 0 < IZR (2 ^ 100)) by (apply IZR_lt; reflexivity).
  assert (Hi : bpow (-100) = / IZR (2 ^ 100)).
  { apply Rmult_eq_reg_r with (IZR (2 ^ 100)); [|lra].
    rewrite <- E. field. lra. }
  rewrite Hi. apply Rinv_le_contravar; lra.
Qed.

Lemma finite_zero_value (x : F32.float) :
  finite_float x -> B2R x = 0 -> exists s, x = S754_zero s.
Proof.
  intros [V F] H. destruct x as [s|s| |s mx ex]; try discriminate.
  - now exists s.
  - exfalso. cbn [B2R] in H. pose proof (bpow_pos ex).
    assert (0 < IZR (Z.pos mx)) by (apply IZR_lt; lia).
    destruct s; cbn [sign_factor] in H; nra.
Qed.

(** A zero current gives a zero torque, which gives a zero current. *)
Lemma round_trip_zero (L P : F32.float -> F32.float)
      (m : TorqueModel.t) (i : F32.float) :
  in_range (TorqueModel.torque_constant_ m) ->
  in_range (TorqueModel.current_cutoff_A_ m) ->
  finite_float i -> B2R i = 0 ->
  finite_float (TorqueModel.torque_to_current P m
                  (TorqueModel.current_to_torque L m i))
  /\ B2R (TorqueModel.torque_to_current P m
            (TorqueModel.current_to_torque L m i)) = 0.
Proof.
  intros RK Rc Fi Hi.
  destruct (in_range_bounds _ RK) as [FK BK].
  destruct (in_range_bounds _ Rc) as [Fc Bc].
  destruct (finite_zero_value i Fi Hi) as [s ->].
  pose proof eta_tiny as Heta.
  rewrite torque_to_current_eq, current_to_torque_eq.
  pose proof (lt_spec (F32.abs (S754_zero s)) _ (abs_finite _ Fi) Fc) as H1.
  rewrite abs_B2R, Hi, Rabs_R0 in H1.
  destruct (F32.lt (F32.abs (S754_zero s)) (TorqueModel.current_cutoff_A_ m));
    [|lra].
  assert (HcK : / 1048576 * / 1048576
                <= B2R (TorqueModel.current_cutoff_A_ m)
                   * B2R (TorqueModel.torque_constant_ m)
                <= 1048576 * 1048576)
    by (split; apply Rmult_le_compat; lra).
  set (ck := F32.mul (TorqueModel.current_cutoff_A_ m)
                     (TorqueModel.torque_constant_ m)).
  destruct (rounds_to_bounds (B2R (TorqueModel.current_cutoff_A_ m)
                              * B2R (TorqueModel.torque_constant_ m))
              (B2R (TorqueModel.current_cutoff_A_ m)
               * B2R (TorqueModel.torque_constant_ m)) ck) as [Fck Hck].
  { apply mul_rounds_to; try assumption. apply huge_bound, Rabs_le. lra. }
  { apply Rabs_le. lra. }
  assert (Et : exists s', F32.mul (S754_zero s) (TorqueModel.torque_constant_ m)
                          = S754_zero s').
  { destruct FK as [_ FK].
    destruct (TorqueModel.torque_constant_ m) as [sK|sK| |sK mK eK];
      try discriminate; eexists; reflexivity. }
  destruct Et as [s' ->].
  assert (Fz : finite_float (S754_zero s')) by (split; reflexivity).
  pose proof (lt_spec (F32.abs (S754_zero s')) ck (abs_finite _ Fz) Fck)
    as H2.
  rewrite abs_B2R in H2. cbn [B2R] in H2. rewrite Rabs_R0 in H2.
  destruct (F32.lt (F32.abs (S754_zero s')) ck); [|lra].
  destruct FK as [_ FK].
  destruct (TorqueModel.torque_constant_ m) as [sK|sK| |sK mK eK];
    try discriminate.
  - exfalso. cbn [B2R] in BK. lra.
  - split; [split|]; reflexivity.
Qed.

Section TorqueRoundTrip.

Variable m : TorqueModel.t.
Variable i : F32.float.

Local Abbreviation fK := (TorqueModel.torque_constant_ m).
Local Abbreviation fc := (TorqueModel.current_cutoff_A_ m).
Local Abbreviation fs := (TorqueModel.current_scale_ m).
Local Abbreviation ft := (TorqueModel.torque_scale_ m).
Local Abbreviation K := (B2R (TorqueModel.torque_constant_ m)).
Local Abbreviation c := (B2R (TorqueModel.current_cutoff_A_ m)).
Local Abbreviation cs := (B2R (TorqueModel.current_scale_ m)).
Local Abbreviation ts := (B2R (TorqueModel.torque_scale_ m)).
Local Abbreviation Ia := (Rabs (B2R i)).

Hypothesis RK : in_range fK.
Hypothesis Rc : in_range fc.
Hypothesis Rs : in_range fs.
Hypothesis Rt : in_range ft.
Hypothesis Fi : finite_float i.

(** The argument of the logarithm in the rotation region. *)
Lemma log2f_argument_value :
  c <= Ia <= 2 * c ->
  finite_float (log2f_argument m i)
  /\ 1 - / 4194304 <= B2R (log2f_argument m i)
  /\ Rabs (B2R (log2f_argument m i) - (1 + (Ia - c) * cs))
     <= 4 * / 8388608 * (1 + c * cs).
Proof.
  intros HI. unfold log2f_argument.
  destruct (in_range_bounds _ Rc) as [Fc Bc].
  destruct (in_range_bounds _ Rs) as [Fs Bs].
  pose proof eta_tiny as Heta.
  pose proof (abs_finite i Fi) as Fa.
  (* the difference *)
  destruct (rounds_to_bounds (Ia - c) c (F32.sub (F32.abs i) fc)) as [Fd Hd].
  { rewrite <- abs_B2R. apply sub_rounds_to; try assumption.
    apply huge_bound. rewrite abs_B2R. apply Rabs_le. lra. }
  { apply Rabs_le. lra. }
  set (d := F32.sub (F32.abs i) fc) in *.
  (* the larger of zero and the difference *)
  destruct (max_zero_B2R d Fd) as [Fm Em].
  set (fm := F32.max F32.zero d) in *.
  assert (Hm : 0 <= B2R fm /\ (Ia - c) - (/ 8388608 * c + eta) <= B2R fm
               <= (Ia - c) + (/ 8388608 * c + eta)).
  { rewrite Em. unfold Rmax. destruct (Rle_dec 0 (B2R d)); lra. }
  (* the product *)
  assert (Hmc : B2R fm * cs <= 2 * c * cs) by (apply Rmult_le_compat_r; lra).
  assert (Hcc : c * cs <= c * 1048576) by (apply Rmult_le_compat_l; lra).
  assert (Hmp : 0 <= B2R fm * cs) by (apply Rmult_le_pos; lra).
  destruct (rounds_to_bounds (B2R fm * cs) (B2R fm * cs) (F32.mul fm fs))
    as [Fp Hp].
  { apply mul_rounds_to; try assumption. apply huge_bound, Rabs_le. lra. }
  { apply Rabs_le. lra. }
  set (p := F32.mul fm fs) in *.
  (* one plus the product *)
  destruct (rounds_to_bounds (1 + B2R p) (1 + B2R p) (F32.add F32.one p))
    as [Fx Hx].
  { rewrite <- B2R_one. apply add_rounds_to; try assumption;
      [apply finite_one|]. rewrite B2R_one. apply huge_bound, Rabs_le. lra. }
  { apply Rabs_le. lra. }
  split; [assumption|].
  assert (Hdc : (Ia - c) * cs <= c * cs) by (apply Rmult_le_compat_r; lra).
  assert (Hdp : 0 <= (Ia - c) * cs) by (apply Rmult_le_pos; lra).
  assert (Hec : eta * cs <= eta * 1048576) by (apply Rmult_le_compat_l; lra).
  assert (Hmd1 : B2R fm * cs <= ((Ia - c) + (/ 8388608 * c + eta)) * cs)
    by (apply Rmult_le_compat_r; lra).
  assert (Hmd2 : ((Ia - c) - (/ 8388608 * c + eta)) * cs <= B2R fm * cs)
    by (apply Rmult_le_compat_r; lra).
  split; [lra|]. apply Rabs_le. split; lra.
Qed.

(** The torque of the rotation region and, on the way back, the
    argument of the exponential, for a logarithm [l]. *)
Lemma exponent_recovered (l : F32.float) :
  finite_float l -> Rabs (B2R l) <= 43 ->
  c * K <= 66 * ts -> - (c * K) / 2 <= ts * B2R l ->
  let ck := F32.mul fc fK in
  let s := F32.add ck (F32.mul ft l) in
  let t := F32.copysign s i in
  finite_float t /\ B2R (F32.abs t) = B2R s /\ 0 < B2R s
  /\ finite_float ck
  /\ Rabs (B2R ck / ts - c * K / ts) <= / 4194304 * (c * K / ts)
  /\ Rabs (B2R s / ts - B2R ck / ts - B2R l)
     <= / 8388608 * (2 * (c * K / ts) + 3 * Rabs (B2R l))
  /\ finite_float (pow2f_argument m t)
  /\ Rabs (B2R (pow2f_argument m t) - B2R l)
     <= / 8388608 * (2 * (c * K / ts) + 5 * Rabs (B2R l)).
Proof.
  intros Fl Hl HG Hpos ck s t.
  destruct (in_range_bounds _ RK) as [FK BK].
  destruct (in_range_bounds _ Rc) as [Fc Bc].
  destruct (in_range_bounds _ Rt) as [Ft Bt].
  pose proof eta_tiny as Heta.
  set (w := / ts).
  assert (Hw : 0 < w <= 1048576).
  { subst w. split; [apply Rinv_0_lt_compat; lra|].
    rewrite <- (Rinv_inv 1048576). apply Rinv_le_contravar; lra. }
  assert (Etw : ts * w = 1) by (subst w; field; lra).
  assert (Hew : eta * w <= eta * 1048576) by (apply Rmult_le_compat_l; lra).
  unfold Rdiv. fold w.
  set (G := c * K * w).
  assert (HG0 : / 1099511627776 / 1048576 <= G <= 66).
  { subst G. split.
    - assert (/ 1048576 * / 1048576 <= c * K) by (apply Rmult_le_compat; lra).
      assert (/ 1048576 <= w).
      { subst w. apply Rinv_le_contravar; lra. }
      replace (/ 1099511627776 / 1048576)
        with (/ 1048576 * / 1048576 * / 1048576) by lra.
      apply Rmult_le_compat; lra.
    - replace 66 with (66 * ts * w) by (rewrite Rmult_assoc, Etw; ring).
      apply Rmult_le_compat_r; lra. }
  pose proof (Rabs_pos (B2R l)) as Hl0.
  assert (HLa : Rabs (B2R l) = B2R l \/ Rabs (B2R l) = - B2R l).
  { unfold Rabs. destruct (Rcase_abs (B2R l)); [right | left]; reflexivity. }
  set (La := Rabs (B2R l)) in *.
  assert (Hlb : - La <= B2R l <= La).
  { subst La. split; [|apply Rle_abs].
    pose proof (Rle_abs (- B2R l)). rewrite Rabs_Ropp in *. lra. }
  (* the cutoff torque *)
  destruct (rounds_to_scaled (c * K) G w ck) as [Fck Hck]; [| lra | |].
  { apply mul_rounds_to; try assumption. apply huge_bound, Rabs_le.
    assert (c * K <= 1048576 * 1048576) by (apply Rmult_le_compat; lra).
    assert (0 <= c * K) by (apply Rmult_le_pos; lra). lra. }
  { fold G. apply Rabs_le. lra. }
  fold G in Hck.
  (* the torque of the rotation *)
  destruct (rounds_to_scaled (ts * B2R l) La w (F32.mul ft l)) as [Fre Hre];
    [| lra | |].
  { apply mul_rounds_to; try assumption.
    apply (huge_scaled _ w ts); [assumption | lra |].
    replace (ts * B2R l * w) with (B2R l * (ts * w)) by ring.
    rewrite Etw, Rmult_1_r. fold La. lra. }
  { replace (ts * B2R l * w) with (B2R l * (ts * w)) by ring.
    rewrite Etw, Rmult_1_r. fold La. lra. }
  replace (ts * B2R l * w) with (B2R l) in Hre
    by (transitivity (B2R l * (ts * w)); [rewrite Etw|]; ring).
  set (re := F32.mul ft l) in *.
  (* their sum *)
  destruct (rounds_to_scaled (B2R ck + B2R re) (1001 / 1000 * (G + La)) w s)
    as [Fs Hs]; [| lra | |].
  { apply add_rounds_to; try assumption.
    apply (huge_scaled _ w ts); [assumption | lra |].
    rewrite Rmult_plus_distr_r. apply Rabs_le. lra. }
  { rewrite Rmult_plus_distr_r. apply Rabs_le. lra. }
  rewrite Rmult_plus_distr_r in Hs.
  assert (Hposw : - G / 2 <= B2R l).
  { subst G. apply (Rmult_le_compat_r w) in Hpos; [|lra].
    replace (ts * B2R l * w) with (B2R l * (ts * w)) in Hpos by ring.
    rewrite Etw, Rmult_1_r in Hpos. lra. }
  assert (Hs0 : 0 < B2R s).
  { assert (0 < B2R s * w) by (destruct HLa; lra).
    destruct (Rle_or_lt (B2R s) 0) as [Hn|]; [|assumption]. nra. }
  assert (Fsi : finite_float t) by (now apply copysign_finite).
  assert (Eabs : B2R (F32.abs t) = B2R s).
  { subst t. rewrite abs_B2R, copysign_B2R, Rabs_sign_factor, Rabs_Rabsolu.
    apply Rabs_pos_eq. lra. }
  split; [assumption|]. split; [assumption|]. split; [assumption|].
  split; [assumption|].
  split; [apply Rabs_le; lra|].
  split; [apply Rabs_le; lra|].
  (* the way back *)
  unfold pow2f_argument. fold ck.
  destruct (rounds_to_scaled (B2R (F32.abs t) - B2R ck)
              (1001 / 1000 * La + / 1000 * G) w
              (F32.sub (F32.abs t) ck)) as [Fn Hn]; [| lra | |].
  { apply sub_rounds_to; try assumption; [now apply abs_finite|].
    apply (huge_scaled _ w ts); [assumption | lra |].
    rewrite Eabs, Rmult_minus_distr_r. apply Rabs_le. lra. }
  { rewrite Eabs, Rmult_minus_distr_r. apply Rabs_le. lra. }
  rewrite Eabs, Rmult_minus_distr_r in Hn.
  set (n := F32.sub (F32.abs t) ck) in *.
  destruct (rounds_to_bounds (B2R n / ts) (1001 / 1000 * La + / 1000 * G)
              (F32.div n ft))
    as [Fa Ha].
  { apply div_rounds_to; try assumption; [lra|].
    apply huge_bound. unfold Rdiv. fold w. apply Rabs_le. lra. }
  { unfold Rdiv. fold w. apply Rabs_le. lra. }
  unfold Rdiv in Ha. fold w in Ha.
  split; [assumption|]. apply Rabs_le. lra.
Qed.

(** The current of the rotation region on the way back, for an
    exponential [p]. *)
Lemma current_recovered (p : F32.float) :
  finite_float p -> Rabs (B2R p - 1) <= 17592186044416 ->
  let o := F32.add fc (F32.div (F32.sub p F32.one) fs) in
  finite_float o
  /\ Rabs (B2R o - (c + (B2R p - 1) / cs))
     <= / 8388608 * (4 * (Rabs (B2R p - 1) / cs) + 2 * c).
Proof.
  intros Fp Hp o.
  destruct (in_range_bounds _ Rc) as [Fc Bc].
  destruct (in_range_bounds _ Rs) as [Fs Bs].
  pose proof eta_tiny as Heta.
  set (w := / cs).
  assert (Hw : 0 < w <= 1048576).
  { subst w. split; [apply Rinv_0_lt_compat; lra|].
    rewrite <- (Rinv_inv 1048576). apply Rinv_le_contravar; lra. }
  assert (Hew : eta * w <= eta * 1048576) by (apply Rmult_le_compat_l; lra).
  unfold Rdiv. fold w.
  pose proof (Rabs_pos (B2R p - 1)) as HQ0.
  set (Q := Rabs (B2R p - 1) * w).
  assert (HQ : 0 <= Q <= 17592186044416 * 1048576).
  { subst Q. split; [apply Rmult_le_pos; lra|].
    apply Rmult_le_compat; lra. }
  assert (HQv : - Q <= (B2R p - 1) * w <= Q).
  { subst Q. apply Rabs_le_inv.
    rewrite Rabs_mult, (Rabs_pos_eq w) by lra. lra. }
  destruct (rounds_to_scaled (B2R p - B2R F32.one) Q w (F32.sub p F32.one))
    as [Fq Hq]; [| lra | |].
  { apply sub_rounds_to; try assumption; [apply finite_one|].
    rewrite B2R_one. apply huge_bound. lra. }
  { rewrite B2R_one. apply Rabs_le. lra. }
  rewrite B2R_one in Hq.
  set (q := F32.sub p F32.one) in *.
  destruct (rounds_to_bounds (B2R q / cs) (1001 / 1000 * Q + / 1000 * c)
              (F32.div q fs)) as [Fr Hr].
  { apply div_rounds_to; try assumption; [lra|].
    apply huge_bound. unfold Rdiv. fold w. apply Rabs_le. lra. }
  { unfold Rdiv. fold w. apply Rabs_le. lra. }
  unfold Rdiv in Hr. fold w in Hr.
  set (r := F32.div q fs) in *.
  destruct (rounds_to_bounds (c + B2R r) (1001 / 1000 * (c + Q)) o)
    as [Fo Ho].
  { apply add_rounds_to; try assumption. apply huge_bound, Rabs_le. lra. }
  { apply Rabs_le. lra. }
  split; [assumption|]. apply Rabs_le. lra.
Qed.

Variables log2f_approx pow2f_approx : F32.float -> F32.float.
Variables eL eP : R.

Local Abbreviation torque :=
  (TorqueModel.current_to_torque log2f_approx m i).

Hypothesis HeL : 0 <= eL.
Hypothesis HeP : 0 <= eP.

(** The approximations are accurate where the code uses what they
    return: the logarithm for a current that is not below the cutoff,
    the exponential for a torque that is not below the cutoff torque. *)
Hypothesis HL :
  F32.lt (F32.abs i) fc = false ->
  approximates_log2 eL log2f_approx (log2f_argument m i).
Hypothesis HP :
  F32.lt (F32.abs torque) (F32.mul fc fK) = false ->
  approximates_pow2 eP pow2f_approx (pow2f_argument m torque).
Hypothesis HB : amplification m * error_budget m eL eP <= / 1000.

Lemma round_trip_rotation :
  c <= Ia <= 2 * c ->
  F32.lt (F32.abs i) fc = false ->
  finite_float (TorqueModel.torque_to_current pow2f_approx m torque)
  /\ Rabs (B2R (TorqueModel.torque_to_current pow2f_approx m torque) - B2R i)
     <= 5 / 1000 * Ia.
Proof.
  intros HI Hlt.
  destruct (in_range_bounds _ RK) as [FK BK].
  destruct (in_range_bounds _ Rc) as [Fc Bc].
  destruct (in_range_bounds _ Rs) as [Fs Bs].
  destruct (in_range_bounds _ Rt) as [Ft Bt].
  destruct (budget_facts m eL eP RK Rc Rs Rt HeL HeP HB)
    as (HE & HG & Hnu & Hta).
  set (E := eL + eP + / 32768 * (1 + c * K / ts)) in *.
  assert (HE1 : eL + eP + / 32768 * (1 + c * K / ts) <= E) by (subst E; lra).
  clearbody E.
  (* the argument of the logarithm *)
  destruct (log2f_argument_value HI) as (Fx & Hx1 & Hx2).
  destruct (HL Hlt) as [Fl Hl].
  pose proof HP as HPc.
  rewrite current_to_torque_eq, Hlt in HPc.
  rewrite torque_to_current_eq, current_to_torque_eq, Hlt.
  set (x := log2f_argument m i) in *.
  set (l := log2f_approx x) in *.
  set (Iv := Rabs (B2R i)) in *.
  assert (Hcs : 0 < c * cs <= 1048576 * 1048576).
  { split; [apply Rmult_lt_0_compat; lra | apply Rmult_le_compat; lra]. }
  assert (Hds : 0 <= (Iv - c) * cs <= c * cs).
  { split; [apply Rmult_le_pos; lra | apply Rmult_le_compat_r; lra]. }
  apply Rabs_le_inv in Hx2.
  assert (Hlo : - (4 * / 4194304) <= log2 (B2R x))
    by (apply log2_near_one; lra).
  assert (Hhi : log2 (B2R x) <= 42).
  { apply log2_le; [lra|]. rewrite pow2_42. lra. }
  apply Rabs_le_inv in Hl.
  assert (Hl43 : Rabs (B2R l) <= 43) by (apply Rabs_le; lra).
  assert (HcK : 0 < c * K) by (apply Rmult_lt_0_compat; lra).
  assert (HcK2 : c * K <= 32 * ts).
  { destruct HG as [_ HG]. apply (Rmult_le_compat_r ts) in HG; [|lra].
    replace (c * K / ts * ts) with (c * K) in HG by (field; lra). lra. }
  assert (Hpos : - (c * K) / 2 <= ts * B2R l).
  { assert (ts * - E <= ts * B2R l) by (apply Rmult_le_compat_l; lra). lra. }
  destruct (exponent_recovered l Fl Hl43 ltac:(lra) Hpos)
    as (Ftq & Eabs & Hs0 & Fck & Hck & Hsl & Fa & Ha).
  set (ck := F32.mul fc fK) in *.
  set (s := F32.add ck (F32.mul ft l)) in *.
  set (t := F32.copysign s i) in *.
  set (a := pow2f_argument m t) in *.
  set (G := c * K / ts) in *.
  pose proof (Rabs_pos (B2R l)) as Hl0.
  assert (HLa : Rabs (B2R l) = B2R l \/ Rabs (B2R l) = - B2R l).
  { unfold Rabs. destruct (Rcase_abs (B2R l)); [right | left]; reflexivity. }
  set (La := Rabs (B2R l)) in *.
  apply Rabs_le_inv in Hck. apply Rabs_le_inv in Hsl.
  apply Rabs_le_inv in Ha.
  (* the sign of the result *)
  assert (Est : F32.signbit t = F32.signbit i)
    by (now apply copysign_finite_signbit).
  rewrite (signbit_B2R i). fold Iv.
  pose proof (lt_spec (F32.abs t) ck (abs_finite t Ftq) Fck) as Hcmp.
  rewrite Eabs in Hcmp.
  set (w := / cs).
  assert (Hw : 0 < w <= 1048576).
  { subst w. split; [apply Rinv_0_lt_compat; lra|].
    rewrite <- (Rinv_inv 1048576). apply Rinv_le_contravar; lra. }
  assert (Esw : cs * w = 1) by (subst w; field; lra).
  fold w in Hnu.
  assert (HEnu : / 32768 * (c + w) <= (c + w) * E).
  { rewrite (Rmult_comm (c + w)). apply Rmult_le_compat_r; lra. }
  assert (HxW : - (4 * / 8388608 * (c + w)) <= B2R x * w - (w + (Iv - c))
                <= 4 * / 8388608 * (c + w)).
  { replace (B2R x * w - (w + (Iv - c)))
      with ((B2R x - (1 + (Iv - c) * cs)) * w)
      by (unfold w; field; lra).
    replace (4 * / 8388608 * (c + w))
      with (4 * / 8388608 * (1 + c * cs) * w)
      by (unfold w; field; lra).
    split.
    - rewrite Ropp_mult_distr_l. apply Rmult_le_compat_r; lra.
    - apply Rmult_le_compat_r; lra. }
  destruct (F32.lt (F32.abs t) ck).
  - (* the torque is below the cutoff torque *)
    assert (HsG : (B2R s - B2R ck) / ts < 0).
    { unfold Rdiv. apply Ropp_lt_cancel. rewrite Ropp_0, Ropp_mult_distr_l.
      apply Rmult_lt_0_compat; [lra | apply Rinv_0_lt_compat; lra]. }
    unfold Rdiv in HsG. rewrite Rmult_minus_distr_r in HsG.
    fold (B2R s / ts) in HsG. fold (B2R ck / ts) in HsG.
    assert (HLaE : La <= E) by (destruct HLa; lra).
    assert (Hxe : B2R x <= 1 + 2 * E).
    { rewrite <- (pow2_log2 (B2R x)) by lra.
      apply Rle_trans with (pow2 E); [apply pow2_le; lra|].
      assert (HEa : Rabs E <= / 2) by (apply Rabs_le; lra).
      pose proof (pow2_small E HEa) as Hps.
      rewrite (Rabs_pos_eq E) in Hps by lra.
      apply Rabs_le_inv in Hps. lra. }
    assert (HxwE : B2R x * w <= (1 + 2 * E) * w)
      by (apply Rmult_le_compat_r; lra).
    assert (HcE : 0 <= c * E) by (apply Rmult_le_pos; lra).
    assert (HEw : E * w <= (c + w) * E) by lra.
    (* the torque, in units of the torque constant *)
    assert (Hs1 : c * K * (1 - 11 / 10000) <= B2R s <= c * K * (1 + / 1000000)).
    { assert (Es : B2R s = B2R s / ts * ts) by (field; lra).
      assert (EG : c * K = G * ts) by (subst G; field; lra).
      rewrite Es, EG. split.
      - apply Rle_trans with ((G - 4 * / 8388608 * G - 1001 / 1000 * E) * ts);
          [|apply Rmult_le_compat_r; lra].
        assert (G * ts * / 1000 >= ts * E) by (rewrite <- EG; lra).
        lra.
      - rewrite Rmult_assoc, (Rmult_comm ts), <- Rmult_assoc.
        apply Rmult_le_compat_r; lra. }
    set (wK := / K).
    assert (HwK : 0 < wK <= 1048576).
    { subst wK. split; [apply Rinv_0_lt_compat; lra|].
      rewrite <- (Rinv_inv 1048576). apply Rinv_le_contravar; lra. }
    assert (Hs2 : c * (1 - 11 / 10000) <= B2R s * wK <= c * (1 + / 1000000)).
    { replace (c * (1 - 11 / 10000)) with (c * K * (1 - 11 / 10000) * wK)
        by (unfold wK; field; lra).
      replace (c * (1 + / 1000000)) with (c * K * (1 + / 1000000) * wK)
        by (unfold wK; field; lra).
      split; apply Rmult_le_compat_r; lra. }
    assert (Et : B2R t = sign_factor (F32.signbit i) * B2R s).
    { unfold t. rewrite copysign_B2R, (Rabs_pos_eq (B2R s)); lra. }
    destruct (rounds_to_bounds (B2R t / K) (2 * c) (F32.div t fK))
      as [Fr Hr].
    { apply div_rounds_to; try assumption; [lra|].
      apply huge_bound. unfold Rdiv. fold wK.
      rewrite Et, Rmult_assoc, Rabs_sign_factor. apply Rabs_le. lra. }
    { unfold Rdiv. fold wK.
      rewrite Et, Rmult_assoc, Rabs_sign_factor. apply Rabs_le. lra. }
    split; [exact Fr|].
    unfold Rdiv in Hr. fold wK in Hr. rewrite Et, Rmult_assoc in Hr.
    pose proof eta_tiny as Heta.
    replace (B2R (F32.div t fK) - sign_factor (F32.signbit i) * Iv)
      with ((B2R (F32.div t fK) - sign_factor (F32.signbit i) * (B2R s * wK))
            + sign_factor (F32.signbit i) * (B2R s * wK - Iv)) by ring.
    eapply Rle_trans; [apply Rabs_triang|].
    rewrite Rabs_sign_factor.
    assert (H1 : Rabs (B2R (F32.div t fK)
                       - sign_factor (F32.signbit i) * (B2R s * wK))
                 <= / 8388608 * (2 * c) + eta) by (apply Rabs_le; lra).
    assert (H2 : Rabs (B2R s * wK - Iv) <= 32 / 10000 * c)
      by (apply Rabs_le; lra).
    lra.
  - (* the torque is in the rotation region *)
    destruct (HPc eq_refl) as [Fp Hp].
    set (p := pow2f_approx a) in *.
    assert (Hd : Rabs (B2R a - log2 (B2R x))
                 <= eL + / 8388608 * (2 * G + 215))
      by (apply Rabs_le; lra).
    pose proof (pow2_recovers (B2R x) (B2R a) (B2R p) _ eP ltac:(lra) Hd
                  ltac:(lra) ltac:(lra) Hp) as Hpx.
    assert (Hpx2 : Rabs (B2R p - B2R x) <= 2 * E * B2R x).
    { eapply Rle_trans; [exact Hpx|]. apply Rmult_le_compat_r; lra. }
    apply Rabs_le_inv in Hpx2.
    assert (HEx : 2 * E * B2R x <= 2 * / 1000 * B2R x)
      by (apply Rmult_le_compat_r; lra).
    (* in units of the current scale *)
    assert (HExw : E * (B2R x * w) <= E * ((c + w) * (1 + 4 * / 8388608)))
      by (apply Rmult_le_compat_l; lra).
    assert (Hpw : - (2 * E * (B2R x * w)) <= B2R p * w - B2R x * w
                  <= 2 * E * (B2R x * w)).
    { replace (B2R p * w - B2R x * w) with ((B2R p - B2R x) * w) by ring.
      replace (2 * E * (B2R x * w)) with (2 * E * B2R x * w) by ring.
      split; [rewrite Ropp_mult_distr_l|]; apply Rmult_le_compat_r; lra. }
    assert (HQ : Rabs (B2R p - 1) / cs <= 1003 / 1000 * c).
    { unfold Rdiv. fold w.
      replace (Rabs (B2R p - 1) * w) with (Rabs ((B2R p - 1) * w))
        by (rewrite Rabs_mult, (Rabs_pos_eq w); lra).
      apply Rabs_le. lra. }
    destruct (current_recovered p Fp) as [Fo Ho];
      [apply Rabs_le; lra|].
    set (o := F32.add fc (F32.div (F32.sub p F32.one) fs)) in *.
    split; [apply copysign_finite; exact Fo|].
    rewrite copysign_B2R, Est.
    eapply Rle_trans; [apply same_sign_distance; lra|].
    apply Rabs_le_inv in Ho. unfold Rdiv in Ho, HQ. fold w in Ho, HQ.
    apply Rabs_le. lra.
Qed.

Lemma round_trip_linear :
  bpow (-100) <= Ia -> Ia < c ->
  F32.lt (F32.abs i) fc = true ->
  finite_float (TorqueModel.torque_to_current pow2f_approx m torque)
  /\ Rabs (B2R (TorqueModel.torque_to_current pow2f_approx m torque) - B2R i)
     <= 5 / 1000 * Ia.
Proof.
  intros Hi0 HI Hlt. pose proof bpow_m100 as Hm100.
  destruct (in_range_bounds _ RK) as [FK BK].
  destruct (in_range_bounds _ Rc) as [Fc Bc].
  destruct (in_range_bounds _ Rs) as [Fs Bs].
  destruct (in_range_bounds _ Rt) as [Ft Bt].
  destruct (budget_facts m eL eP RK Rc Rs Rt HeL HeP HB)
    as (HE & HG & Hnu & Hta).
  set (E := eL + eP + / 32768 * (1 + c * K / ts)) in *.
  assert (HE1 : eL + eP + / 32768 * (1 + c * K / ts) <= E) by (subst E; lra).
  clearbody E.
  pose proof HP as HPc.
  rewrite current_to_torque_eq, Hlt in HPc.
  rewrite torque_to_current_eq, current_to_torque_eq, Hlt.
  pose proof eta_tiny as Heta.
  set (Iv := Rabs (B2R i)) in *.
  assert (HcK : / 1048576 * / 1048576 <= c * K <= 1048576 * 1048576)
    by (split; apply Rmult_le_compat; lra).
  assert (HIK : 0 <= Iv * K < c * K).
  { split; [apply Rmult_le_pos; lra | apply Rmult_lt_compat_r; lra]. }
  (* the torque and the cutoff torque *)
  destruct (rounds_to_bounds (B2R i * K) (Iv * K) (F32.mul i fK))
    as [Ft1 Ht1].
  { apply mul_rounds_to; try assumption. apply huge_bound.
    rewrite Rabs_mult, (Rabs_pos_eq K) by lra. fold Iv. lra. }
  { rewrite Rabs_mult, (Rabs_pos_eq K) by lra. fold Iv. lra. }
  set (t := F32.mul i fK) in *.
  destruct (rounds_to_bounds (c * K) (c * K) (F32.mul fc fK)) as [Fck Hck].
  { apply mul_rounds_to; try assumption. apply huge_bound, Rabs_le. lra. }
  { apply Rabs_le. lra. }
  set (ck := F32.mul fc fK) in *.
  assert (HT : Rabs (B2R t) <= Iv * K + (/ 8388608 * (Iv * K) + eta)).
  { replace (B2R t) with (B2R i * K + (B2R t - B2R i * K)) by ring.
    eapply Rle_trans; [apply Rabs_triang|].
    rewrite Rabs_mult, (Rabs_pos_eq K) by lra. fold Iv.
    assert (Rabs (B2R t - B2R i * K) <= / 8388608 * (Iv * K) + eta)
      by (apply Rabs_le; lra).
    lra. }
  set (wK := / K).
  assert (HwK : 0 < wK <= 1048576).
  { subst wK. split; [apply Rinv_0_lt_compat; lra|].
    rewrite <- (Rinv_inv 1048576). apply Rinv_le_contravar; lra. }
  assert (Hew : eta * wK <= eta * 1048576) by (apply Rmult_le_compat_l; lra).
  assert (HtK : - (/ 8388608 * Iv + eta * wK) <= B2R t * wK - B2R i
                <= / 8388608 * Iv + eta * wK).
  { replace (B2R t * wK - B2R i) with ((B2R t - B2R i * K) * wK)
      by (unfold wK; field; lra).
    replace (/ 8388608 * Iv + eta * wK)
      with ((/ 8388608 * (Iv * K) + eta) * wK) by (unfold wK; field; lra).
    split; [rewrite Ropp_mult_distr_l|]; apply Rmult_le_compat_r; lra. }
  assert (Hii : - Iv <= B2R i <= Iv)
    by (apply Rabs_le_inv; unfold Iv; lra).
  assert (Est : F32.signbit t = F32.signbit i).
  { unfold t. rewrite mul_signbit by (apply Fi || apply FK).
    rewrite (signbit_positive fK) by lra. apply xorb_false_r. }
  pose proof (lt_spec (F32.abs t) ck (abs_finite t Ft1) Fck) as Hcmp.
  rewrite abs_B2R in Hcmp.
  destruct (F32.lt (F32.abs t) ck).
  - (* the linear region both ways *)
    destruct (rounds_to_bounds (B2R t / K) (2 * Iv) (F32.div t fK))
      as [Fr Hr].
    { apply div_rounds_to; try assumption; [lra|].
      apply huge_bound. unfold Rdiv. fold wK. apply Rabs_le. lra. }
    { unfold Rdiv. fold wK. apply Rabs_le. lra. }
    split; [exact Fr|].
    unfold Rdiv in Hr. fold wK in Hr.
    apply Rabs_le. lra.
  - (* the torque rounds to the cutoff torque *)
    destruct (HPc eq_refl) as [Fp Hp].
    set (T := Rabs (B2R t)) in *.
    assert (HIc : c * (1 - 3 * / 8388608) <= Iv).
    { apply Rmult_le_reg_r with K; [lra|]. lra. }
    set (w := / ts).
    assert (Hw : / 1048576 <= w <= 1048576).
    { subst w. split; [apply Rinv_le_contravar; lra|].
      rewrite <- (Rinv_inv 1048576). apply Rinv_le_contravar; lra. }
    assert (Hewt : eta * w <= eta * 1048576)
      by (apply Rmult_le_compat_l; lra).
    unfold Rdiv in HG, HE1. fold w in HG, HE1.
    assert (HG0 : / 1048576 * / 1048576 * / 1048576 <= c * K * w)
      by (apply Rmult_le_compat; lra).
    set (G := c * K * w) in *.
    assert (HTw : 0 <= (T - B2R ck) * w
                  <= 2 * / 8388608 * G + 2 * (eta * w)).
    { split; [apply Rmult_le_pos; lra|].
      replace (2 * / 8388608 * G + 2 * (eta * w))
        with ((2 * / 8388608 * (c * K) + 2 * eta) * w)
        by (unfold G; ring).
      apply Rmult_le_compat_r; lra. }
    unfold pow2f_argument in Fp, Hp. fold t ck in Fp, Hp.
    destruct (rounds_to_scaled (T - B2R ck) (3 * / 8388608 * G) w
                (F32.sub (F32.abs t) ck)) as [Fn Hn]; [| lra | |].
    { unfold T. rewrite <- abs_B2R.
      apply sub_rounds_to; try assumption; [now apply abs_finite|].
      rewrite abs_B2R. fold T. apply huge_bound, Rabs_le. lra. }
    { apply Rabs_le. lra. }
    set (n := F32.sub (F32.abs t) ck) in *.
    destruct (rounds_to_bounds (B2R n / ts) (4 * / 8388608 * G)
                (F32.div n ft)) as [Fa Ha].
    { apply div_rounds_to; try assumption; [lra|].
      apply huge_bound. unfold Rdiv. fold w. apply Rabs_le. lra. }
    { unfold Rdiv. fold w. apply Rabs_le. lra. }
    unfold Rdiv in Ha. fold w in Ha.
    set (a := F32.div n ft) in *.
    set (p := pow2f_approx a) in *.
    assert (Ha4 : Rabs (B2R a) <= 5 * / 8388608 * G) by (apply Rabs_le; lra).
    assert (Hz : Rabs (pow2 (B2R a) - 1) <= 10 * / 8388608 * G).
    { eapply Rle_trans; [apply pow2_small; lra | lra]. }
    apply Rabs_le_inv in Hz. apply Rabs_le_inv in Hp.
    set (z := pow2 (B2R a)) in *.
    assert (Hez : eP * z <= eP * (1001 / 1000))
      by (apply Rmult_le_compat_l; lra).
    assert (Hp1 : Rabs (B2R p - 1) <= 1001 / 1000 * E)
      by (apply Rabs_le; lra).
    set (ws := / cs).
    assert (Hws : 0 < ws <= 1048576).
    { subst ws. split; [apply Rinv_0_lt_compat; lra|].
      rewrite <- (Rinv_inv 1048576). apply Rinv_le_contravar; lra. }
    fold ws in Hnu.
    assert (HQ : Rabs (B2R p - 1) * ws <= 1001 / 1000 * (c / 1000)).
    { apply Rle_trans with (1001 / 1000 * E * ws);
        [apply Rmult_le_compat_r; lra|].
      assert (0 <= c * E) by (apply Rmult_le_pos; lra). lra. }
    assert (HQ2 : Rabs ((B2R p - 1) * ws) <= 1001 / 1000 * (c / 1000))
      by (rewrite Rabs_mult, (Rabs_pos_eq ws); lra).
    apply Rabs_le_inv in HQ2.
    destruct (current_recovered p Fp) as [Fo Ho]; [lra|].
    set (o := F32.add fc (F32.div (F32.sub p F32.one) fs)) in *.
    split; [apply copysign_finite; exact Fo|].
    rewrite copysign_B2R, Est, (signbit_B2R i). fold Iv.
    eapply Rle_trans; [apply same_sign_distance; lra|].
    apply Rabs_le_inv in Ho. unfold Rdiv in Ho. fold ws in Ho.
    change (Rabs (B2R o - Iv) <= 5 / 1000 * Iv).
    apply Rabs_le. lra.
Qed.

End TorqueRoundTrip.

(** X1.  Let the four parameters of the model be
    finite numbers between [2 ^ -20] and [2 ^ 20], and let [i] be a
    finite current of magnitude at most twice the cutoff that is zero or
    at least [2 ^ -100].  If [log2f_approx] is within [eL] of the
    logarithm and [pow2f_approx] within the relative error [eP] of the
    exponential at the arguments the two functions hand them, and the
    amplified error [amplification m * error_budget m eL eP] is at most
    [1 / 1000], then [torque_to_current (current_to_torque i)] is within
    half a percent of [i]. *)
Theorem torque_round_trip
        (log2f_approx pow2f_approx : F32.float -> F32.float)
        (m : TorqueModel.t) (i : F32.float) (eL eP : R) :
  let torque := TorqueModel.current_to_torque log2f_approx m i in
  scaled_model m ->
  finite_float i ->
  Rabs (B2R i) <= 2 * B2R (TorqueModel.current_cutoff_A_ m) ->
  B2R i = 0 \/ bpow (-100) <= Rabs (B2R i) ->
  0 <= eL -> 0 <= eP ->
  approximates_log2 eL log2f_approx (log2f_argument m i) ->
  approximates_pow2 eP pow2f_approx (pow2f_argument m torque) ->
  amplification m * error_budget m eL eP <= / 1000 ->
  Rabs (B2R (TorqueModel.torque_to_current pow2f_approx m torque) - B2R i)
  <= 5 / 1000 * Rabs (B2R i).
Proof.
  intros torque (RK & Rc & Rs & Rt) Fi HI Hi HeL HeP HL HP HB.
  destruct Hi as [Hi | Hi].
  - unfold torque.
    rewrite (proj2 (round_trip_zero log2f_approx pow2f_approx m i
                      RK Rc Fi Hi)), Hi.
    rewrite Rminus_diag, Rabs_R0. lra.
  - pose proof (lt_spec (F32.abs i) (TorqueModel.current_cutoff_A_ m)
                  (abs_finite i Fi) (proj1 Rc)) as Hcmp.
    rewrite abs_B2R in Hcmp.
    destruct (F32.lt (F32.abs i) (TorqueModel.current_cutoff_A_ m)) eqn:Hlt.
    + apply (round_trip_linear m i RK Rc Rs Rt Fi log2f_approx pow2f_approx
               eL eP HeL HeP (fun _ => HP) HB); assumption.
    + apply (round_trip_rotation m i RK Rc Rs Rt Fi log2f_approx pow2f_approx
               eL eP HeL HeP (fun _ => HL) (fun _ => HP) HB);
        try assumption. split; assumption.
Qed.

Lemma B2R_of_int_10 : B2R (F32.of_int 10) = 10.
Proof.
  change (F32.of_int 10) with (S754_finite false 10485760 (-20)).
  unfold B2R, bpow, sign_factor. simpl. lra.
Qed.

Lemma B2R_current_11 : B2R current_11 = 11.
Proof.
  change current_11 with (S754_finite false 11534336 (-20)).
  unfold B2R, bpow, sign_factor. simpl. lra.
Qed.

Lemma log2_2 : log2 2 = 1.
Proof. unfold log2. pose proof ln_2_bounds. field. lra. Qed.

Lemma pow2_1 : pow2 1 = 2.
Proof. apply Rpower_1. lra. Qed.

Lemma torque_round_trip_witness :
  Rabs (B2R (TorqueModel.torque_to_current (fun _ => Foc.two)
               torque_model_sample
               (TorqueModel.current_to_torque (fun _ => F32.one)
                  torque_model_sample current_11))
        - B2R current_11)
  <= 5 / 1000 * Rabs (B2R current_11).
Proof.
  assert (R1 : in_range F32.one).
  { split; [apply finite_one|]. rewrite B2R_one.
    pose proof (bpow_le (-20) 0 ltac:(lia)). pose proof (bpow_ge_1 20 ltac:(lia)).
    change (bpow 0) with 1 in *. lra. }
  assert (R10 : in_range (F32.of_int 10)).
  { split; [split; [apply of_int_valid | reflexivity]|]. rewrite B2R_of_int_10.
    pose proof (bpow_le (-20) 0 ltac:(lia)). change (bpow 0) with 1 in *.
    assert (10 <= bpow 20)
      by (rewrite bpow_IZR by lia; apply IZR_le; vm_compute; discriminate).
    lra. }
  apply (torque_round_trip (fun _ => F32.one) (fun _ => Foc.two)
           torque_model_sample current_11 0 0).
  - repeat split; assumption || apply R1 || apply R10.
  - split; [apply of_int_valid | reflexivity].
  - rewrite B2R_current_11. cbn [torque_model_sample TorqueModel.current_cutoff_A_].
    rewrite B2R_of_int_10, Rabs_pos_eq; lra.
  - right. rewrite B2R_current_11, Rabs_pos_eq by lra.
    pose proof (bpow_le (-100) 0 ltac:(lia)). change (bpow 0) with 1 in *. lra.
  - lra.
  - lra.
  - split; [apply finite_one|].
    replace (log2f_argument torque_model_sample current_11) with Foc.two
      by (vm_compute; reflexivity).
    rewrite B2R_one, B2R_two, log2_2, Rminus_diag, Rabs_R0. lra.
  - split; [apply finite_two|].
    replace (pow2f_argument torque_model_sample
               (TorqueModel.current_to_torque (fun _ => F32.one)
                  torque_model_sample current_11)) with F32.one
      by (vm_compute; reflexivity).
    rewrite B2R_one, B2R_two, pow2_1, Rminus_diag, Rabs_R0. lra.
  - unfold amplification, error_budget.
    cbn [torque_model_sample TorqueModel.current_cutoff_A_
         TorqueModel.torque_constant_ TorqueModel.current_scale_
         TorqueModel.torque_scale_].
    rewrite B2R_one, B2R_of_int_10.
    replace (bpow (-15)) with (/ 32768) by (unfold bpow; simpl; f_equal; lra).
    lra.
Defined.

(** ** The round trip of the torque model, as far as it holds *)









Lemma B2R_half : B2R FocDq.half = / 2.
Proof. unfold B2R, FocDq.half, bpow. simpl. lra. Qed.



(** ** The limits of the PID controller *)

Lemma lt_nan_l (x : F32.float) : F32.lt S754_nan x = false.
Proof. reflexivity. Qed.

Lemma lt_nan_r (x : F32.float) : F32.lt x S754_nan = false.
Proof. now destruct x. Qed.

(** The limit on the integral term. *)
Lemma integral_clamp (limit si : F32.float) :
  finite_float limit -> 0 <= B2R limit -> F32.valid si ->
  let r := if F32.lt limit si then limit
           else if F32.lt si (F32.neg limit) then F32.neg limit
           else si in
  (is_nan si = true /\ r = S754_nan) \/ within_limit r limit.
Proof.
  intros HL H0 Vsi r.
  pose proof (neg_finite limit HL) as HnL.
  pose proof (neg_B2R limit) as EnL.
  destruct (F32.isfinite si) eqn:Fsi.
  - right.
    assert (Hsi : finite_float si) by (split; assumption).
    pose proof (lt_spec limit si HL Hsi) as H1.
    pose proof (lt_spec si (F32.neg limit) Hsi HnL) as H2.
    subst r. unfold within_limit.
    destruct (F32.lt limit si).
    + split; [assumption | lra].
    + destruct (F32.lt si (F32.neg limit)).
      * split; [assumption | lra].
      * split; [assumption | lra].
  - destruct si as [s|s| |s m e]; try discriminate.
    + right.
      assert (E : r = limit \/ r = F32.neg limit).
      { subst r. destruct HL as [VL FL].
        destruct limit as [sl|sl| |sl ml el]; try discriminate;
          destruct s; cbn; auto. }
      unfold within_limit. destruct E as [-> | ->];
        (split; [assumption | lra]).
    + left. subst r. rewrite lt_nan_r, lt_nan_l. now split.
Qed.

Section PidLimits.

Variable Limit : F32.float -> F32.float -> F32.float -> F32.float.

(** The integral that [Apply] stores, in both classes. *)
Lemma pid_apply_integral (config_ : PidTypes.Config) (state_ : PidTypes.State)
      (measured input_desired measured_rate input_desired_rate : F32.float)
      (rate_hz : Z) :
  exists to_update_i : F32.float,
    F32.valid to_update_i
    /\ (forall options,
          PidTypes.integral
            (snd (SimplePid.Apply Limit config_ state_ measured input_desired
                    measured_rate input_desired_rate rate_hz options))
          = let si := F32.add (PidTypes.integral state_) to_update_i in
            if F32.lt (PidTypes.ilimit config_) si then PidTypes.ilimit config_
            else if F32.lt si (F32.neg (PidTypes.ilimit config_))
                 then F32.neg (PidTypes.ilimit config_)
                 else si)
    /\ (forall options,
          PidTypes.integral
            (snd (PID.Apply Limit config_ state_ measured input_desired
                    measured_rate input_desired_rate rate_hz options))
          = let si := F32.add (PidTypes.integral state_) to_update_i in
            if F32.lt (PidTypes.ilimit config_) si then PidTypes.ilimit config_
            else if F32.lt si (F32.neg (PidTypes.ilimit config_))
                 then F32.neg (PidTypes.ilimit config_)
                 else si).
Proof.
  unfold SimplePid.Apply, PID.Apply.
  destruct (negb (F32.eqb (PidTypes.max_desired_rate config_) F32.zero)
            && F32.isfinite (PidTypes.desired state_));
    cbv zeta; cbn [snd PidTypes.integral];
    (eexists; split; [|split; intros; reflexivity]);
    repeat match goal with
           | |- F32.valid (if ?c then _ else _) => destruct c
           end;
    try apply div_valid; apply neg_valid, div_valid.
Qed.

Lemma add_nan_l (x : F32.float) : F32.add S754_nan x = S754_nan.
Proof. reflexivity. Qed.

Lemma add_nan_r (x : F32.float) : F32.add x S754_nan = S754_nan.
Proof. now destruct x. Qed.

Lemma mul_nan_r (x : F32.float) : F32.mul x S754_nan = S754_nan.
Proof. now destruct x. Qed.

(** The command that [Apply] returns when the integral it stores is a
    NaN. *)
Lemma pid_apply_command_nan (config_ : PidTypes.Config)
      (state_ : PidTypes.State)
      (measured input_desired measured_rate input_desired_rate : F32.float)
      (rate_hz : Z) :
  (forall options,
      PidTypes.integral
        (snd (SimplePid.Apply Limit config_ state_ measured input_desired
                measured_rate input_desired_rate rate_hz options))
      = S754_nan ->
      fst (SimplePid.Apply Limit config_ state_ measured input_desired
             measured_rate input_desired_rate rate_hz options) = S754_nan)
  /\ (forall options,
        PidTypes.integral
          (snd (PID.Apply Limit config_ state_ measured input_desired
                  measured_rate input_desired_rate rate_hz options))
        = S754_nan ->
        fst (PID.Apply Limit config_ state_ measured input_desired
               measured_rate input_desired_rate rate_hz options) = S754_nan).
Proof.
  unfold SimplePid.Apply, PID.Apply.
  destruct (negb (F32.eqb (PidTypes.max_desired_rate config_) F32.zero)
            && F32.isfinite (PidTypes.desired state_));
    cbv zeta; cbn [fst snd PidTypes.integral];
    (split; intros options ->);
    now rewrite ?mul_nan_r, add_nan_r, mul_nan_r.
Qed.

End PidLimits.

(** X13.  In both PID classes, with a finite,
    non-negative [ilimit], the integral that [Apply] stores is a finite
    number between [-ilimit] and [ilimit], or a NaN, and then the
    command is a NaN as well; when the integral was a NaN before, the
    command is a NaN.  And after [State::Clear] the first desired value
    is taken as it is given, whatever [max_desired_rate] is. *)
Theorem pid_integral_limit
        (Limit : F32.float -> F32.float -> F32.float -> F32.float)
        (config_ : PidTypes.Config) (state_ : PidTypes.State)
        (measured input_desired measured_rate input_desired_rate : F32.float)
        (rate_hz : Z)
        (simple_options : SimplePid.ApplyOptions)
        (options : PID.ApplyOptions) :
  let simple state :=
    SimplePid.Apply Limit config_ state measured input_desired
                    measured_rate input_desired_rate rate_hz simple_options in
  let full state :=
    PID.Apply Limit config_ state measured input_desired
              measured_rate input_desired_rate rate_hz options in
  let limited (result : F32.float * PidTypes.State) :=
    (PidTypes.integral (snd result) = S754_nan /\ fst result = S754_nan)
    \/ within_limit (PidTypes.integral (snd result))
                    (PidTypes.ilimit config_) in
  finite_float (PidTypes.ilimit config_) ->
  0 <= B2R (PidTypes.ilimit config_) ->
  F32.valid (PidTypes.integral state_) ->
  limited (simple state_) /\ limited (full state_)
  /\ (PidTypes.integral state_ = S754_nan ->
      fst (simple state_) = S754_nan /\ fst (full state_) = S754_nan)
  /\ PidTypes.desired (snd (simple (Clear state_))) = input_desired
  /\ PidTypes.desired (snd (full (Clear state_))) = input_desired.
Proof.
  intros simple full limited HL H0 Vi.
  destruct (pid_apply_integral Limit config_ state_ measured input_desired
              measured_rate input_desired_rate rate_hz)
    as (u & Vu & Es & Ef).
  destruct (pid_apply_command_nan Limit config_ state_ measured input_desired
              measured_rate input_desired_rate rate_hz) as [Ns Nf].
  specialize (Es simple_options). specialize (Ef options).
  specialize (Ns simple_options). specialize (Nf options).
  fold (simple state_) in Es, Ns. fold (full state_) in Ef, Nf.
  pose proof (integral_clamp (PidTypes.ilimit config_)
                (F32.add (PidTypes.integral state_) u) HL H0
                (add_valid _ _ Vi Vu)) as Hc.
  cbv zeta in Hc, Es, Ef. rewrite <- Es in Hc.
  assert (Hs : limited (simple state_)).
  { destruct Hc as [[_ Hn] | Hw]; [left | right]; auto. }
  assert (Hf : limited (full state_)).
  { unfold limited. rewrite Ef, <- Es.
    destruct Hc as [[_ Hn] | Hw]; [left | right]; auto.
    split; [exact Hn|]. apply Nf. now rewrite Ef, <- Es. }
  split; [exact Hs|]. split; [exact Hf|]. split.
  - intros Hnan.
    assert (Hi : PidTypes.integral (snd (simple state_)) = S754_nan).
    { rewrite Es, Hnan, add_nan_l. now rewrite lt_nan_r, lt_nan_l. }
    split; [now apply Ns | apply Nf; now rewrite Ef, <- Es].
  - unfold simple, full, SimplePid.Apply, PID.Apply, Clear.
    cbn [PidTypes.desired F32.isfinite]. rewrite andb_false_r.
    split; reflexivity.
Qed.

Lemma pid_integral_limit_witness :
  within_limit
    (PidTypes.integral
       (snd (PID.Apply limit_sample pid_config_sample pid_state_sample
               F32.one Foc.two F32.zero F32.zero 1000 PID.default_options)))
    (PidTypes.ilimit pid_config_sample).
Proof.
  assert (HL : finite_float (PidTypes.ilimit pid_config_sample))
    by (split; reflexivity).
  assert (H0 : 0 <= B2R (PidTypes.ilimit pid_config_sample)).
  { change (PidTypes.ilimit pid_config_sample) with (F32.of_int 10).
    rewrite B2R_of_int_10. lra. }
  assert (Vi : F32.valid (PidTypes.integral pid_state_sample)) by reflexivity.
  destruct (pid_integral_limit limit_sample pid_config_sample pid_state_sample
              F32.one Foc.two F32.zero F32.zero 1000
              SimplePid.default_options PID.default_options HL H0 Vi)
    as (_ & [[Hn _] | Hw] & _).
  - exfalso. revert Hn. vm_compute. discriminate.
  - exact Hw.
Defined.


(** ** The dq transform and its inverse *)

Lemma approx_in_exact (x : F32.float) (B : R) :
  finite_float x -> Rabs (B2R x) <= B -> approx_in x (B2R x) 0 B.
Proof. intros F H. split; [now apply approx_exact | exact H]. Qed.

Lemma approx_in_neg (x : F32.float) (v e B : R) :
  approx_in x v e B -> approx_in (F32.neg x) (- v) e B.
Proof.
  intros [H HB]. split; [now apply approx_neg | now rewrite Rabs_Ropp].
Qed.

Lemma approx_in_mul (x y : F32.float) (vx vy ex ey Bx By e B : R) :
  approx_in x vx ex Bx -> approx_in y vy ey By ->
  (Bx + ex) * (By + ey) <= 1000000 ->
  (Bx + ex) * ey + By * ex + rel_ulp * ((Bx + ex) * (By + ey)) + eta <= e ->
  Bx * By <= B ->
  approx_in (F32.mul x y) (vx * vy) e B.
Proof.
  intros [Hx HBx] [Hy HBy] Hmax He HB. split.
  - eapply approx_weaken; [|exact He].
    now apply approx_mul.
  - rewrite Rabs_mult. apply Rle_trans with (Bx * By); [|exact HB].
    apply Rmult_le_compat; try apply Rabs_pos; assumption.
Qed.

Lemma approx_in_add (x y : F32.float) (vx vy ex ey Bx By e B : R) :
  approx_in x vx ex Bx -> approx_in y vy ey By ->
  Bx + By + ex + ey <= 1000000 ->
  ex + ey + rel_ulp * (Bx + By + ex + ey) + eta <= e ->
  Bx + By <= B ->
  approx_in (F32.add x y) (vx + vy) e B.
Proof.
  intros [Hx HBx] [Hy HBy] Hmax He HB.
  assert (Hv : Rabs (vx + vy) <= Bx + By)
    by (eapply Rle_trans; [apply Rabs_triang | lra]).
  split; [|lra].
  eapply approx_weaken; [|exact He].
  apply approx_add; try assumption. lra.
Qed.

Lemma approx_in_sub (x y : F32.float) (vx vy ex ey Bx By e B : R) :
  approx_in x vx ex Bx -> approx_in y vy ey By ->
  Bx + By + ex + ey <= 1000000 ->
  ex + ey + rel_ulp * (Bx + By + ex + ey) + eta <= e ->
  Bx + By <= B ->
  approx_in (F32.sub x y) (vx - vy) e B.
Proof.
  intros [Hx HBx] [Hy HBy] Hmax He HB.
  assert (Hv : Rabs (vx - vy) <= Bx + By).
  { unfold Rminus. eapply Rle_trans; [apply Rabs_triang|].
    rewrite Rabs_Ropp. lra. }
  split; [|lra].
  eapply approx_weaken; [|exact He].
  apply approx_sub; try assumption. lra.
Qed.

Lemma finite_half : finite_float FocDq.half.
Proof. split; reflexivity. Qed.

(** The real numbers that the two transforms compute, one after the
    other, differ from [(D, Q)] by terms that vanish when
    [S * S + C * C = 1] and [K * K = 3 / 4]. *)
Lemma dq_identity (S C K D Q : R) :
  let A := K * S - / 2 * C in
  let B := - K * C - / 2 * S in
  let A1 := - K * S - / 2 * C in
  let B1 := K * C - / 2 * S in
  let a := C * D - S * Q in
  let b := A * D - B * Q in
  let c := A1 * D - B1 * Q in
  Rabs S <= 1 -> Rabs C <= 1 -> Rabs D <= 4 -> Rabs Q <= 4 ->
  Rabs (S * S + C * C - 1) <= / 1000000 ->
  Rabs (K * K - 3 / 4) <= / 1000000 ->
  Rabs (2 / 3 * (a * C + A * b + A1 * c) - D) <= 2 / 100000
  /\ Rabs (2 / 3 * (- S * a - B * b - B1 * c) - Q) <= 2 / 100000.
Proof.
  intros A B A1 B1 a b c HS HC HD HQ Hx Hk.
  set (x := S * S + C * C - 1) in *. set (k := K * K - 3 / 4) in *.
  assert (Ed : 2 / 3 * (a * C + A * b + A1 * c) - D
               = D * x + 4 / 3 * (k * (S * S) * D) + 4 / 3 * (k * (C * S) * Q))
    by (unfold c, b, a, A, B, A1, B1, x, k; field).
  assert (Eq : 2 / 3 * (- S * a - B * b - B1 * c) - Q
               = Q * x + 4 / 3 * (k * (C * C) * Q) + 4 / 3 * (k * (C * S) * D))
    by (unfold c, b, a, A, B, A1, B1, x, k; field).
  assert (Hprod : forall p r bp br, Rabs p <= bp -> Rabs r <= br ->
                                    Rabs (p * r) <= bp * br).
  { intros p r bp br Hp Hr. rewrite Rabs_mult.
    apply Rmult_le_compat; try apply Rabs_pos; assumption. }
  pose proof (Hprod _ _ _ _ HS HS) as HSS.
  pose proof (Hprod _ _ _ _ HC HC) as HCC.
  pose proof (Hprod _ _ _ _ HC HS) as HCS.
  pose proof (Hprod _ _ _ _ HD Hx) as HDx.
  pose proof (Hprod _ _ _ _ HQ Hx) as HQx.
  pose proof (Hprod _ _ _ _ (Hprod _ _ _ _ Hk HSS) HD) as H1.
  pose proof (Hprod _ _ _ _ (Hprod _ _ _ _ Hk HCS) HQ) as H2.
  pose proof (Hprod _ _ _ _ (Hprod _ _ _ _ Hk HCC) HQ) as H3.
  pose proof (Hprod _ _ _ _ (Hprod _ _ _ _ Hk HCS) HD) as H4.
  apply Rabs_le_inv in HDx, HQx, H1, H2, H3, H4.
  rewrite Ed, Eq. split; apply Rabs_le; lra.
Qed.

Ltac ap_mul H1 H2 e B name :=
  match type of H1 with
  | approx_in ?x ?vx ?ex ?Bx =>
      match type of H2 with
      | approx_in ?y ?vy ?ey ?By =>
          assert (name : approx_in (F32.mul x y) (vx * vy) e B)
            by (apply (approx_in_mul x y vx vy ex ey Bx By e B H1 H2);
                rewrite ?rel_ulp_value; pose proof eta_small; lra)
      end
  end.

Ltac ap_add H1 H2 e B name :=
  match type of H1 with
  | approx_in ?x ?vx ?ex ?Bx =>
      match type of H2 with
      | approx_in ?y ?vy ?ey ?By =>
          assert (name : approx_in (F32.add x y) (vx + vy) e B)
            by (apply (approx_in_add x y vx vy ex ey Bx By e B H1 H2);
                rewrite ?rel_ulp_value; pose proof eta_small; lra)
      end
  end.

Ltac ap_sub H1 H2 e B name :=
  match type of H1 with
  | approx_in ?x ?vx ?ex ?Bx =>
      match type of H2 with
      | approx_in ?y ?vy ?ey ?By =>
          assert (name : approx_in (F32.sub x y) (vx - vy) e B)
            by (apply (approx_in_sub x y vx vy ex ey Bx By e B H1 H2);
                rewrite ?rel_ulp_value; pose proof eta_small; lra)
      end
  end.

(** X16. [DqTransform] undoes [InverseDqTransform] in
    binary32: for finite [d] and [q] of magnitude at most 4, a [SinCos]
    whose members are within 1 in magnitude and whose squares sum to 1
    within [1e-6], and a [kSqrt3_4] whose square is [3/4] within [1e-6],
    transforming [(d, q)] to the phases [(a, b, c)] and back gives
    finite numbers within [1e-4] of [d] and of [q]; the three phases
    in between sum to zero within [2e-5]. *)
Theorem dq_round_trip (kSqrt3_4 : F32.float) (sc : Foc.SinCos)
      (d q : F32.float) :
  finite_float kSqrt3_4 -> Rabs (B2R kSqrt3_4) <= 87 / 100 ->
  Rabs (B2R kSqrt3_4 * B2R kSqrt3_4 - 3 / 4) <= / 1000000 ->
  finite_float (Foc.s sc) -> finite_float (Foc.c sc) ->
  Rabs (B2R (Foc.s sc)) <= 1 -> Rabs (B2R (Foc.c sc)) <= 1 ->
  Rabs (B2R (Foc.s sc) * B2R (Foc.s sc)
        + B2R (Foc.c sc) * B2R (Foc.c sc) - 1) <= / 1000000 ->
  finite_float d -> finite_float q ->
  Rabs (B2R d) <= 4 -> Rabs (B2R q) <= 4 ->
  let '(a, b, c) := FocDq.InverseDqTransform kSqrt3_4 sc d q in
  let '(d', q') := FocDq.DqTransform kSqrt3_4 sc a b c in
  finite_float d' /\ finite_float q'
  /\ Rabs (B2R d' - B2R d) <= / 10000
  /\ Rabs (B2R q' - B2R q) <= / 10000
  /\ Rabs (B2R a + B2R b + B2R c) <= 2 / 100000.
Proof.
  intros FK BK HK2 Fs Fc Bs Bc Hunit Fd Fq Bd Bq.
  unfold FocDq.InverseDqTransform, FocDq.DqTransform.
  pose proof (approx_in_exact _ _ FK BK) as HK.
  pose proof (approx_in_neg _ _ _ _ HK) as HnK.
  pose proof (approx_in_exact _ _ Fs Bs) as Hs.
  pose proof (approx_in_neg _ _ _ _ Hs) as Hns.
  pose proof (approx_in_exact _ _ Fc Bc) as Hc.
  pose proof (approx_in_exact _ _ Fd Bd) as Hd.
  pose proof (approx_in_exact _ _ Fq Bq) as Hq.
  assert (Hh : approx_in FocDq.half (/ 2) 0 (1 / 2)).
  { rewrite <- B2R_half. apply approx_in_exact; [apply finite_half|].
    rewrite B2R_half, Rabs_pos_eq; lra. }
  assert (HT : approx_in (F32.div Foc.two Foc.three) (2 / 3)
                         (3 / 10000000) (2 / 3)).
  { split; [|rewrite Rabs_pos_eq; lra].
    apply approx_value with (B2R Foc.two / B2R Foc.three);
      [|now rewrite B2R_two, B2R_three].
    eapply approx_weaken.
    - apply (approx_div Foc.two Foc.three (B2R Foc.two) 0 2 3);
        [apply approx_exact, finite_two | apply finite_three
        | rewrite B2R_two, Rabs_pos_eq; lra | lra
        | rewrite B2R_three, Rabs_pos_eq; lra | lra].
    - rewrite rel_ulp_value. pose proof eta_small. lra. }
  set (S := B2R (Foc.s sc)) in *. set (C := B2R (Foc.c sc)) in *.
  set (K := B2R kSqrt3_4) in *. set (D := B2R d) in *. set (Q := B2R q) in *.
  ap_mul HK Hs (519 / 5000000000) (87 / 100) HKs.
  ap_mul Hh Hc (597 / 10000000000) (1 / 2) Hhc.
  ap_sub HKs Hhc (3269 / 10000000000) (137 / 100) HA.
  ap_mul HnK Hc (519 / 5000000000) (87 / 100) HnKc.
  ap_mul Hh Hs (597 / 10000000000) (1 / 2) Hhs.
  ap_sub HnKc Hhs (3269 / 10000000000) (137 / 100) HB.
  ap_mul HnK Hs (519 / 5000000000) (87 / 100) HnKs.
  ap_sub HnKs Hhc (3269 / 10000000000) (137 / 100) HA1.
  ap_mul HK Hc (519 / 5000000000) (87 / 100) HKc.
  ap_sub HKc Hhs (3269 / 10000000000) (137 / 100) HB1.
  ap_mul Hc Hd (4769 / 10000000000) (4) Hcd.
  ap_mul Hs Hq (4769 / 10000000000) (4) Hsq.
  ap_sub Hcd Hsq (763 / 400000000) (8) Ha.
  ap_mul HA Hd (19609 / 10000000000) (137 / 25) HAd.
  ap_mul HB Hq (19609 / 10000000000) (137 / 25) HBq.
  ap_sub HAd HBq (13071 / 2500000000) (274 / 25) Hb.
  ap_mul HA1 Hd (19609 / 10000000000) (137 / 25) HA1d.
  ap_mul HB1 Hq (19609 / 10000000000) (137 / 25) HB1q.
  ap_sub HA1d HB1q (13071 / 2500000000) (274 / 25) Hc3.
  ap_mul Ha Hc (7153 / 2500000000) (8) Hac.
  ap_mul HA Hb (125357 / 10000000000) (18769 / 1250) HAb.
  ap_add Hac HAb (90703 / 5000000000) (28769 / 1250) Hs1.
  ap_mul HA1 Hc3 (125357 / 10000000000) (18769 / 1250) HA1c.
  ap_add Hs1 HA1c (352099 / 10000000000) (23769 / 625) Hs2.
  ap_mul HT Hs2 (47381 / 1250000000) (15846 / 625) Hdd.
  ap_mul Hns Ha (7153 / 2500000000) (8) Hnsa.
  ap_mul HB Hb (125357 / 10000000000) (18769 / 1250) HBb.
  ap_sub Hnsa HBb (90703 / 5000000000) (28769 / 1250) Ht1.
  ap_mul HB1 Hc3 (125357 / 10000000000) (18769 / 1250) HB1c.
  ap_sub Ht1 HB1c (352099 / 10000000000) (23769 / 625) Ht2.
  ap_mul HT Ht2 (47381 / 1250000000) (15846 / 625) Hqq.
  destruct (dq_identity S C K D Q Bs Bc Bd Bq Hunit HK2) as [Id Iq].
  destruct Hdd as [[Fdd Edd] _]. destruct Hqq as [[Fqq Eqq] _].
  destruct Ha as [[_ Ea] _]. destruct Hb as [[_ Eb] _].
  destruct Hc3 as [[_ Ec] _].
  split; [assumption|]. split; [assumption|]. split; [|split].
  - apply Rabs_le_inv in Edd, Id. apply Rabs_le. lra.
  - apply Rabs_le_inv in Eqq, Iq. apply Rabs_le. lra.
  - apply Rabs_le_inv in Ea, Eb, Ec. apply Rabs_le. lra.
Qed.

Lemma dq_round_trip_witness :
  let '(a, b, c) :=
    FocDq.InverseDqTransform kSqrt3_4_sample sincos_zero_angle
                             F32.one Foc.two in
  let '(d', q') := FocDq.DqTransform kSqrt3_4_sample sincos_zero_angle a b c in
  finite_float d' /\ finite_float q'
  /\ Rabs (B2R d' - B2R F32.one) <= / 10000
  /\ Rabs (B2R q' - B2R Foc.two) <= / 10000
  /\ Rabs (B2R a + B2R b + B2R c) <= 2 / 100000.
Proof.
  assert (F1 : finite_float F32.one) by (now split).
  assert (F2 : finite_float Foc.two) by (now split).
  assert (F0 : finite_float F32.zero) by (now split).
  assert (Fk : finite_float kSqrt3_4_sample) by (now split).
  assert (Ek : B2R kSqrt3_4_sample = 14529495 / 16777216)
    by (unfold B2R, kSqrt3_4_sample, bpow; simpl; lra).
  assert (E0 : B2R F32.zero = 0) by reflexivity.
  apply (dq_round_trip kSqrt3_4_sample sincos_zero_angle F32.one Foc.two);
    cbn [Foc.s Foc.c sincos_zero_angle];
    rewrite ?Ek, ?E0, ?B2R_one, ?B2R_two; try assumption;
    apply Rabs_le; lra.
Defined.
